(** * A shallow embedding of the shell parser of [parse.go]

    The scanner and the recursive-descent parser of package [sh] are
    translated function by function.  The parser object of the Go code is a
    record that is threaded through every function by a small state monad
    with two abnormal outcomes: a Go [panic], and the exhaustion of the fuel
    that bounds the recursion of the grammar rules. *)

From Stdlib Require Import String Ascii List ZArith Lia Bool Arith.
Import ListNotations.
Open Scope string_scope.
Open Scope list_scope.

(** ** Runes, positions and tokens *)

(** A rune as delivered by [bufio.Reader.ReadRune].  Source text is taken
    to be 8-bit clean, one character per rune, which is exactly what
    [ReadRune] yields on ASCII input. *)
Definition rune := ascii.

Definition rune0 : rune := "000"%char.
Definition NL : rune := "010"%char.
Definition TAB : rune := "009"%char.
Definition DQUOTE : rune := "034"%char.
Definition SQUOTE : rune := "039"%char.
Definition BQUOTE : rune := "096"%char.
Definition BSLASH : rune := "092"%char.

(** [string(rs)] for a slice of runes. *)
Definition string_of_runes (rs : list rune) : string := string_of_list_ascii rs.

Record position := { line : Z; col : Z }.

(** Modelled from the spec: the token-kind enumeration, which [parse.go]
    uses and does not declare.  The named kinds are the ones the parser
    mentions; [TRune r] is the conversion [Token(r)] of a rune, which the
    parser uses for the newline token and for quote delimiters; it is
    distinct from every named kind.  The zero value of the type, which a
    fresh parser holds, is [TRune rune0]. *)
Inductive Token :=
| EOF | COMMENT | LIT
| IF | THEN | ELIF | ELSE | FI | WHILE | FOR | IN | DO | DONE
| LBRACE | RBRACE | LPAREN | RPAREN
| EXP | SEMICOLON
| AND | LAND | OR | LOR
| RDRIN | RDROUT | APPEND
| TRune (r : rune).

Definition Token_eq_dec (a b : Token) : {a = b} + {a <> b}.
Proof. decide equality. apply ascii_dec. Defined.

Definition Token_eqb (a b : Token) : bool :=
  if Token_eq_dec a b then true else false.

Lemma Token_eqb_eq a b : Token_eqb a b = true <-> a = b.
Proof. unfold Token_eqb. destruct (Token_eq_dec a b); split; congruence. Qed.

Lemma Token_eqb_refl a : Token_eqb a a = true.
Proof. apply Token_eqb_eq. reflexivity. Qed.

Lemma Token_eqb_neq a b : a <> b -> Token_eqb a b = false.
Proof. unfold Token_eqb. destruct (Token_eq_dec a b); congruence. Qed.

(** ** The syntax tree *)

(** Modelled from the spec: the node declarations, which [parse.go] fills
    in and does not declare.  A field of interface type [Node] is an
    [option] ([None] is Go's [nil]); a field of type [[]Node] is a list. *)
#[local] Set Warnings "-register-all".
Inductive Node :=
| Lit (Val : string)
| Word (Parts : list Node)
| ParamExp (Text : string)
| CmdSubst (Stmts : list Node)
| Subshell (Stmts : list Node)
| Block (Stmts : list Node)
| IfStmt (Cond : option Node) (ThenStmts Elifs ElseStmts : list Node)
| Elif (Cond : option Node) (ThenStmts : list Node)
| WhileStmt (Cond : option Node) (DoStmts : list Node)
| ForStmt (Name : Node) (WordList DoStmts : list Node)
| FuncDecl (Name : Node) (Body : option Node)
| Command (Args : list Node) (Background : bool)
| BinaryExpr (X : option Node) (Op : Token) (Y : option Node)
| Redirect (Op : Token) (Obj : option Node)
| Comment (Text : string).

Record Prog := { Stmts : list Node }.

(** ** Errors *)

Inductive error :=
| io_EOF
| io_fault (msg : string)
| lineErr (fname : string) (pos : position) (text : string).

Definition is_EOF (e : error) : bool :=
  match e with io_EOF => true | _ => false end.

(** ** The buffered reader

    [bufio.Reader] over the input: the runes still to be read, the rune
    that [UnreadRune] may give back (only the last one read, and only
    once), and what the source answers when it is exhausted: [io.EOF], or
    a fault that it keeps returning. *)
Record Reader := {
  rd_buf : list rune;
  rd_last : option rune;
  rd_fault : option string
}.

Definition ReadRune (b : Reader) : rune * option error * Reader :=
  match rd_buf b with
  | c :: t => (c, None, {| rd_buf := t; rd_last := Some c; rd_fault := rd_fault b |})
  | [] =>
      (rune0,
       Some (match rd_fault b with None => io_EOF | Some m => io_fault m end),
       {| rd_buf := []; rd_last := None; rd_fault := rd_fault b |})
  end.

Definition UnreadRune (b : Reader) : option Reader :=
  match rd_last b with
  | Some c => Some {| rd_buf := c :: rd_buf b; rd_last := None; rd_fault := rd_fault b |}
  | None => None
  end.

(** ** The parser object *)

(** An entry of the builder stack: a [*[]Node] or a [*Node], as an address
    in the store of the sequences, respectively of the single nodes, whose
    address the code takes. *)
Inductive slot :=
| PSeq (a : nat)
| POne (a : nat).

Record parser := {
  r : Reader;
  name : string;
  err : option error;
  spaced : bool;
  ltok : Token;
  tok : Token;
  lval : string;
  val : string;
  bpos : position;
  lpos : position;
  pos : position;
  npos : position;
  stack : list slot;
  seqs : list (list Node);
  ones : list (option Node)
}.

Definition set_r x p := {| r := x; name := name p; err := err p; spaced := spaced p; ltok := ltok p; tok := tok p; lval := lval p; val := val p; bpos := bpos p; lpos := lpos p; pos := pos p; npos := npos p; stack := stack p; seqs := seqs p; ones := ones p |}.
Definition set_err x p := {| r := r p; name := name p; err := x; spaced := spaced p; ltok := ltok p; tok := tok p; lval := lval p; val := val p; bpos := bpos p; lpos := lpos p; pos := pos p; npos := npos p; stack := stack p; seqs := seqs p; ones := ones p |}.
Definition set_spaced x p := {| r := r p; name := name p; err := err p; spaced := x; ltok := ltok p; tok := tok p; lval := lval p; val := val p; bpos := bpos p; lpos := lpos p; pos := pos p; npos := npos p; stack := stack p; seqs := seqs p; ones := ones p |}.
Definition set_toks lt t lv v p := {| r := r p; name := name p; err := err p; spaced := spaced p; ltok := lt; tok := t; lval := lv; val := v; bpos := bpos p; lpos := lpos p; pos := pos p; npos := npos p; stack := stack p; seqs := seqs p; ones := ones p |}.
Definition set_bpos x p := {| r := r p; name := name p; err := err p; spaced := spaced p; ltok := ltok p; tok := tok p; lval := lval p; val := val p; bpos := x; lpos := lpos p; pos := pos p; npos := npos p; stack := stack p; seqs := seqs p; ones := ones p |}.
Definition set_lpos x p := {| r := r p; name := name p; err := err p; spaced := spaced p; ltok := ltok p; tok := tok p; lval := lval p; val := val p; bpos := bpos p; lpos := x; pos := pos p; npos := npos p; stack := stack p; seqs := seqs p; ones := ones p |}.
Definition set_pos x p := {| r := r p; name := name p; err := err p; spaced := spaced p; ltok := ltok p; tok := tok p; lval := lval p; val := val p; bpos := bpos p; lpos := lpos p; pos := x; npos := npos p; stack := stack p; seqs := seqs p; ones := ones p |}.
Definition set_npos x p := {| r := r p; name := name p; err := err p; spaced := spaced p; ltok := ltok p; tok := tok p; lval := lval p; val := val p; bpos := bpos p; lpos := lpos p; pos := pos p; npos := x; stack := stack p; seqs := seqs p; ones := ones p |}.
Definition set_stack x p := {| r := r p; name := name p; err := err p; spaced := spaced p; ltok := ltok p; tok := tok p; lval := lval p; val := val p; bpos := bpos p; lpos := lpos p; pos := pos p; npos := npos p; stack := x; seqs := seqs p; ones := ones p |}.
Definition set_seqs x p := {| r := r p; name := name p; err := err p; spaced := spaced p; ltok := ltok p; tok := tok p; lval := lval p; val := val p; bpos := bpos p; lpos := lpos p; pos := pos p; npos := npos p; stack := stack p; seqs := x; ones := ones p |}.
Definition set_ones x p := {| r := r p; name := name p; err := err p; spaced := spaced p; ltok := ltok p; tok := tok p; lval := lval p; val := val p; bpos := bpos p; lpos := lpos p; pos := pos p; npos := npos p; stack := stack p; seqs := seqs p; ones := x |}.

(** ** The monad of parser actions *)

Inductive result (A : Type) :=
| Done (a : A)
| Panic (msg : string)
| OutOfFuel.
Arguments Done {A} a.
Arguments Panic {A} msg.
Arguments OutOfFuel {A}.

Definition M (A : Type) := parser -> result (A * parser).

Definition ret {A} (a : A) : M A := fun p => Done (a, p).

Definition bind {A B} (m : M A) (k : A -> M B) : M B :=
  fun p =>
    match m p with
    | Done (a, p') => k a p'
    | Panic msg => Panic msg
    | OutOfFuel => OutOfFuel
    end.

Definition panic {A} (msg : string) : M A := fun _ => Panic msg.
Definition out_of_fuel {A} : M A := fun _ => OutOfFuel.
Definition gets {A} (f : parser -> A) : M A := fun p => Done (f p, p).
Definition modify (f : parser -> parser) : M unit := fun p => Done (tt, f p).

Declare Scope parser_scope.
Delimit Scope parser_scope with parser.
Notation "x <- m ;; k" := (bind m (fun x => k))
  (at level 61, m at next level, right associativity) : parser_scope.
Notation "m ;; k" := (bind m (fun _ => k))
  (at level 61, right associativity) : parser_scope.
Open Scope parser_scope.

(** Go's short-circuit [a || b] and [a && b] on calls with effects. *)
Definition orM (a b : M bool) : M bool :=
  x <- a ;; if x then ret true else b.
Definition andM (a b : M bool) : M bool :=
  x <- a ;; if x then b else ret false.

(** ** Character classes *)

Definition mem_rune (c : rune) (l : list rune) : bool := existsb (Ascii.eqb c) l.

Definition reserved (c : rune) : bool :=
  mem_rune c [NL; "&"; ">"; "<"; "|"; ";"; "("; ")"; "$"]%char.

(** like reserved, but these are only reserved if at the start of a word *)
Definition starters (c : rune) : bool := mem_rune c ["{"; "}"; "#"]%char.

Definition space (c : rune) : bool := mem_rune c [" "%char; TAB].

Definition quote (c : rune) : bool := mem_rune c [DQUOTE; SQUOTE; BQUOTE].

(** [identRe]: the pattern [^[a-zA-Z_][a-zA-Z0-9_]*$]. *)
Definition is_letter_ (c : rune) : bool :=
  let n := nat_of_ascii c in
  (((65 <=? n) && (n <=? 90)) || ((97 <=? n) && (n <=? 122)) || (n =? 95))%nat.

Definition is_digit (c : rune) : bool :=
  let n := nat_of_ascii c in ((48 <=? n) && (n <=? 57))%nat.

Definition identRe_MatchString (s : string) : bool :=
  match list_ascii_of_string s with
  | [] => false
  | c :: t => is_letter_ c && forallb (fun x => is_letter_ x || is_digit x) t
  end.

(** We can't simply have these as tokens as they can sometimes be valid
    words, e.g. [echo if].  A key that the Go map lacks reads as the empty
    string. *)
Definition reservedLits (t : Token) : string :=
  match t with
  | IF => "if" | THEN => "then" | ELIF => "elif" | ELSE => "else" | FI => "fi"
  | WHILE => "while" | FOR => "for" | IN => "in" | DO => "do" | DONE => "done"
  | _ => ""
  end.

(** A display of the tokens and of a string under the verb [%q], to run
    the parser on examples: the operators and the keywords by their
    spelling.  The parser is stated for any display. *)
Definition spell (t : Token) : string :=
  match t with
  | EOF => "EOF" | COMMENT => "#" | LIT => "word"
  | LBRACE => "{" | RBRACE => "}" | LPAREN => "(" | RPAREN => ")"
  | EXP => "$" | SEMICOLON => ";"
  | AND => "&" | LAND => "&&" | OR => "|" | LOR => "||"
  | RDRIN => "<" | RDROUT => ">" | APPEND => ">>"
  | TRune c => String c ""
  | kw => reservedLits kw
  end.

Definition in_quotes (s : string) : string :=
  String DQUOTE (s ++ String DQUOTE "")%string.

(** ** The scanner and the parser *)

Section Parser.

(** The [String] method of [Token] (declared with the token kinds, outside
    [parse.go]) and the rendering of a string by the verb [%q] of [fmt]:
    the error texts are built from them, and every result below holds
    whatever they are. *)
Variable Token_String : Token -> string.
Variable fmt_q : string -> string.

Definition moveWith (c : rune) : M unit :=
  modify (fun p =>
    set_npos (if Ascii.eqb c NL
              then {| line := line (npos p) + 1; col := 1 |}
              else {| line := line (npos p); col := col (npos p) + 1 |})
      (set_bpos (npos p) p)).

Definition advance (t : Token) (v : string) : M unit :=
  modify (fun p =>
    let at_eof := Token_eqb (tok p) EOF in
    set_toks (if at_eof then ltok p else tok p) t
             (if at_eof then lval p else val p) v p).

Definition setEOF : M unit := advance EOF "EOF".

Definition errPass (e : error) : M unit :=
  modify (fun p => set_err (match err p with None => Some e | Some e0 => Some e0 end) p) ;;
  setEOF.

Definition posErr (ps : position) (text : string) : M unit :=
  nm <- gets name ;;
  errPass (lineErr nm ps text).

Definition curErr (text : string) : M unit :=
  ps <- gets pos ;;
  posErr ps text.

Definition errWantedStr (s : string) : M unit :=
  modify (fun p => set_pos (if Token_eqb (tok p) EOF then npos p else pos p) p) ;;
  t <- gets tok ;;
  curErr ("unexpected token " ++ Token_String t ++ " - wanted " ++ s)%string.

Definition errWanted (t : Token) : M unit := errWantedStr (Token_String t).

Definition errAfterStr (s : string) : M unit :=
  t <- gets tok ;;
  curErr ("unexpected token " ++ Token_String t ++ " after " ++ s)%string.

Definition readRune : M (rune * option error) :=
  b <- gets r ;;
  let '(c, e, b') := ReadRune b in
  modify (set_r b') ;;
  match e with
  | Some x =>
      (if is_EOF x then setEOF else errPass x) ;;
      ret (rune0, Some x)
  | None =>
      moveWith c ;;
      ret (c, None)
  end.

Definition unreadRune : M unit :=
  b <- gets r ;;
  match UnreadRune b with
  | None => panic "bufio: invalid use of UnreadRune"
  | Some b' =>
      modify (set_r b') ;;
      modify (fun p => set_npos (bpos p) p)
  end.

(** Don't use our read/unread wrappers to avoid unnecessary position
    movement and unwanted calls to p.eof() *)
Definition readOnly (wanted : rune) : M bool :=
  b <- gets r ;;
  let '(c, e, b') := ReadRune b in
  modify (set_r b') ;;
  if Ascii.eqb c wanted then
    moveWith c ;; ret true
  else
    match e with
    | None =>
        match UnreadRune b' with
        | Some b'' => modify (set_r b'')
        | None => ret tt
        end ;;
        ret false
    | Some _ => ret false
    end.

(** Modelled from the spec: [doToken], which [parse.go] calls and does not
    declare.  A reserved or starter character selects its operator token;
    for [&], [|] and [>] one further rune is probed with [readOnly] and,
    when it repeats the character, both make one two-character token; any
    other rune converts to [Token(r)]. *)
Definition doToken (c : rune) (readOnly : rune -> M bool) : M Token :=
  if Ascii.eqb c "#" then ret COMMENT
  else if Ascii.eqb c "(" then ret LPAREN
  else if Ascii.eqb c ")" then ret RPAREN
  else if Ascii.eqb c "{" then ret LBRACE
  else if Ascii.eqb c "}" then ret RBRACE
  else if Ascii.eqb c "$" then ret EXP
  else if Ascii.eqb c ";" then ret SEMICOLON
  else if Ascii.eqb c "<" then ret RDRIN
  else if Ascii.eqb c "&" then
    b <- readOnly "&"%char ;; ret (if b then LAND else AND)
  else if Ascii.eqb c "|" then
    b <- readOnly "|"%char ;; ret (if b then LOR else OR)
  else if Ascii.eqb c ">" then
    b <- readOnly ">"%char ;; ret (if b then APPEND else RDROUT)
  else ret (TRune c).

(** The loop of [readUntil]; [n] bounds its iterations, each of which
    reads at least one rune. *)
Fixpoint readUntil_loop (n : nat) (t : Token) (rs : list rune) : M (string * bool) :=
  match n with
  | O => out_of_fuel
  | S n' =>
      x <- readRune ;;
      match snd x with
      | Some _ => ret (string_of_runes rs, false)
      | None =>
          t' <- doToken (fst x) readOnly ;;
          if Token_eqb t t' then ret (string_of_runes rs, true)
          else readUntil_loop n' t (rs ++ [fst x])
      end
  end.

Definition buffered (p : parser) : nat := length (rd_buf (r p)).

Definition readUntil (t : Token) : M (string * bool) :=
  n <- gets buffered ;;
  readUntil_loop (S n) t [].

Definition readUntilWant (t : Token) : M string :=
  x <- readUntil t ;;
  (if snd x then ret tt else errWanted t) ;;
  ret (fst x).

Definition readLine : M string :=
  x <- readUntil (TRune NL) ;;
  ret (fst x).

(** The end of a turn of the loop [runeLoop] of [readLit]: the next rune
    is read and, unless the read fails, handed to the next turn [loop]
    with the open quote [q] ([rune0] when none) and the runes kept so far. *)
Definition readLit_rest (loop : rune -> rune -> list rune -> M string)
  (q : rune) (rs : list rune) : M string :=
  x <- readRune ;;
  match snd x with
  | Some _ =>
      (if negb (Ascii.eqb q rune0) then errWanted (TRune q) else ret tt) ;;
      ret (string_of_runes rs)
  | None => loop (fst x) q rs
  end.

(** The loop [runeLoop] of [readLit]: [c] is the rune in hand. *)
Fixpoint readLit_loop (n : nat) (c q : rune) (rs : list rune) : M string :=
  match n with
  | O => out_of_fuel
  | S n' =>
      let rest := readLit_rest (readLit_loop n') in
      if negb (Ascii.eqb q SQUOTE) && Ascii.eqb c BSLASH then
        (* escaped rune *)
        x <- readRune ;;
        rest q (if Ascii.eqb (fst x) NL then rs else rs ++ [BSLASH; fst x])
      else if negb (Ascii.eqb q SQUOTE) && Ascii.eqb c "$" then
        (* end of lit *)
        unreadRune ;; ret (string_of_runes rs)
      else if negb (Ascii.eqb q rune0) then
        (* rest of quoted cases *)
        rest (if Ascii.eqb c q then rune0 else q) (rs ++ [c])
      else if quote c then
        (* start of a quoted string *)
        rest c (rs ++ [c])
      else if reserved c || space c then
        (* end of word *)
        unreadRune ;; ret (string_of_runes rs)
      else rest q (rs ++ [c])
  end.

Definition readLit (c : rune) : M string :=
  n <- gets buffered ;;
  readLit_loop (S n) c rune0 [].

(** The loop of [next] that skips blanks: [None] when the read failed
    (the Go function returns at once), else the first rune that is not a
    blank. *)
Fixpoint skipSpace_loop (n : nat) : M (option rune) :=
  match n with
  | O => out_of_fuel
  | S n' =>
      x <- readRune ;;
      match snd x with
      | Some _ => ret None
      | None =>
          if negb (space (fst x)) then ret (Some (fst x))
          else modify (set_spaced true) ;; skipSpace_loop n'
      end
  end.

Definition skipSpace : M (option rune) :=
  n <- gets buffered ;;
  skipSpace_loop (S n).

Fixpoint next_loop (n : nat) : M unit :=
  match n with
  | O => out_of_fuel
  | S n' =>
      modify (fun p => set_lpos (pos p) p) ;;
      modify (set_spaced false) ;;
      o <- skipSpace ;;
      match o with
      | None => ret tt
      | Some c =>
          modify (fun p => set_pos {| line := line (npos p); col := col (npos p) - 1 |} p) ;;
          b <- andM (ret (Ascii.eqb c BSLASH)) (readOnly NL) ;;
          if b then next_loop n'
          else if reserved c || starters c then
            if Ascii.eqb c "#" then
              s <- readLine ;; advance COMMENT s
            else if Ascii.eqb c NL then
              advance (TRune NL) ""
            else
              t <- doToken c readOnly ;; advance t ""
          else
            s <- readLit c ;; advance LIT s
      end
  end.

Definition next : M unit :=
  n <- gets buffered ;;
  next_loop (S n).

(** ** The token and keyword layer *)

Definition peek (t : Token) (p : parser) : bool :=
  Token_eqb (tok p) t
  || (Token_eqb (tok p) LIT && String.eqb (val p) (reservedLits t)).

Definition got (t : Token) : M bool :=
  b <- gets (peek t) ;;
  if b then next ;; ret true else ret false.

Definition want (t : Token) : M unit :=
  b <- gets (peek t) ;;
  if negb b then errWanted t else next.

(** ** The builder stack

    The stack is a list whose head is the top, that is, the last element
    of the Go slice. *)

Fixpoint upd {A} (l : list A) (i : nat) (x : A) : list A :=
  match l, i with
  | [], _ => []
  | _ :: t, O => x :: t
  | h :: t, S i' => h :: upd t i' x
  end.

(** A local variable whose address is taken: a fresh cell holding the zero
    value of its type. *)
Definition newSeq : M nat :=
  a <- gets (fun p => length (seqs p)) ;;
  modify (fun p => set_seqs (seqs p ++ [[]]) p) ;;
  ret a.

Definition newOne : M nat :=
  a <- gets (fun p => length (ones p)) ;;
  modify (fun p => set_ones (ones p ++ [None]) p) ;;
  ret a.

Definition loadSeq (a : nat) : M (list Node) := gets (fun p => nth a (seqs p) []).
Definition loadOne (a : nat) : M (option Node) := gets (fun p => nth a (ones p) None).

Definition add (n : Node) : M unit :=
  st <- gets stack ;;
  match st with
  | [] => panic "index out of range"
  | PSeq a :: _ => modify (fun p => set_seqs (upd (seqs p) a (nth a (seqs p) [] ++ [n])) p)
  | POne a :: _ =>
      x <- loadOne a ;;
      match x with
      | Some _ => panic "single node set twice"
      | None => modify (fun p => set_ones (upd (ones p) a (Some n)) p)
      end
  end.

Definition pop : M unit :=
  st <- gets stack ;;
  match st with
  | [] => panic "slice bounds out of range"
  | _ :: st' => modify (set_stack st')
  end.

Definition push (v : slot) : M unit :=
  modify (fun p => set_stack (v :: stack p) p).

Definition popAdd (n : Node) : M unit := pop ;; add n.

Definition litWord (v : string) : Node := Word [Lit v].

(** ** The grammar rules

    The rules call each other recursively; [fuel] bounds the depth of the
    calls and the number of turns of each loop.  A loop of the Go code is a
    function of its own, named after the rule with the suffix [_loop] (or
    after the label of the loop); the loop variables are its arguments. *)

Definition peekAny (stop : list Token) : M bool :=
  gets (fun p => existsb (fun t => peek t p) stop).

Definition at_EOF : M bool := gets (fun p => Token_eqb (tok p) EOF).

Fixpoint command (fuel : nat) (stop : list Token) {struct fuel} : M unit :=
  match fuel with
  | O => out_of_fuel
  | S fuel =>
      b <- got COMMENT ;;
      if b then
        t <- gets lval ;; add (Comment t)
      else
      b <- orM (got (TRune NL)) (got COMMENT) ;;
      if b then
        e <- at_EOF ;;
        if negb e then command fuel [] else ret tt
      else
      b <- got LPAREN ;;
      if b then
        sub <- newSeq ;;
        push (PSeq sub) ;;
        n <- commandsLimited fuel [RPAREN] ;;
        (if (n =? 0)%Z then errWantedStr "command" else ret tt) ;;
        want RPAREN ;;
        st <- loadSeq sub ;;
        popAdd (Subshell st)
      else
      b <- got LBRACE ;;
      if b then
        bl <- newSeq ;;
        push (PSeq bl) ;;
        n <- commands fuel [RBRACE] ;;
        (if (n =? 0)%Z then errWantedStr "command" else ret tt) ;;
        want RBRACE ;;
        st <- loadSeq bl ;;
        popAdd (Block st)
      else
      b <- got IF ;;
      if b then
        cond <- newOne ;; thens <- newSeq ;; elifs <- newSeq ;; elses <- newSeq ;;
        push (POne cond) ;;
        command fuel [] ;;
        pop ;;
        want THEN ;;
        push (PSeq thens) ;;
        commands fuel [FI; ELIF; ELSE] ;;
        pop ;;
        push (PSeq elifs) ;;
        elif_loop fuel ;;
        b <- got ELSE ;;
        (if b then
           pop ;;
           push (PSeq elses) ;;
           commands fuel [FI] ;;
           ret tt
         else ret tt) ;;
        want FI ;;
        c <- loadOne cond ;; t <- loadSeq thens ;;
        ei <- loadSeq elifs ;; el <- loadSeq elses ;;
        popAdd (IfStmt c t ei el)
      else
      b <- got WHILE ;;
      if b then
        cond <- newOne ;; dos <- newSeq ;;
        push (POne cond) ;;
        command fuel [] ;;
        pop ;;
        want DO ;;
        push (PSeq dos) ;;
        commands fuel [DONE] ;;
        want DONE ;;
        c <- loadOne cond ;; d <- loadSeq dos ;;
        popAdd (WhileStmt c d)
      else
      b <- got FOR ;;
      if b then
        wl <- newSeq ;; dos <- newSeq ;;
        want LIT ;;
        nm <- gets lval ;;
        want IN ;;
        push (PSeq wl) ;;
        wordList fuel ;;
        pop ;;
        want DO ;;
        push (PSeq dos) ;;
        commands fuel [DONE] ;;
        want DONE ;;
        w <- loadSeq wl ;; d <- loadSeq dos ;;
        popAdd (ForStmt (Lit nm) w d)
      else
      b <- gets (fun p => peek LIT p || peek EXP p) ;;
      if b then
        args <- newSeq ;;
        push (PSeq args) ;;
        word fuel ;;
        fpos <- gets lpos ;;
        fval <- gets lval ;;
        b <- got LPAREN ;;
        if b then
          want RPAREN ;;
          (if negb (identRe_MatchString fval)
           then posErr fpos ("invalid func name " ++ fmt_q fval)%string
           else ret tt) ;;
          body <- newOne ;;
          push (POne body) ;;
          command fuel [] ;;
          pop ;;
          bd <- loadOne body ;;
          popAdd (FuncDecl (Lit fval) bd)
        else
          o <- args_loop fuel stop args ;;
          match o with
          | None => ret tt
          | Some bg => a <- loadSeq args ;; popAdd (Command a bg)
          end
      else
        errWantedStr "command"
  end

(** [commandsPropagating]: [cmdStop] is [stop] when [propagate] is set,
    and empty otherwise. *)
with commands_loop (fuel : nat) (cmdStop stop : list Token) (count : Z)
  {struct fuel} : M Z :=
  match fuel with
  | O => out_of_fuel
  | S fuel =>
      e <- at_EOF ;;
      if e then ret count
      else
        b <- peekAny stop ;;
        if b then ret count
        else
          command fuel cmdStop ;;
          commands_loop fuel cmdStop stop (count + 1)%Z
  end

with commands (fuel : nat) (stop : list Token) {struct fuel} : M Z :=
  match fuel with
  | O => out_of_fuel
  | S fuel => commands_loop fuel [] stop 0%Z
  end

with commandsLimited (fuel : nat) (stop : list Token) {struct fuel} : M Z :=
  match fuel with
  | O => out_of_fuel
  | S fuel => commands_loop fuel stop stop 0%Z
  end

(** The loop [for p.got(ELIF)] of the [if] rule. *)
with elif_loop (fuel : nat) {struct fuel} : M unit :=
  match fuel with
  | O => out_of_fuel
  | S fuel =>
      b <- got ELIF ;;
      if b then
        cond <- newOne ;; thens <- newSeq ;;
        push (POne cond) ;;
        command fuel [] ;;
        pop ;;
        want THEN ;;
        push (PSeq thens) ;;
        commands fuel [FI; ELIF; ELSE] ;;
        c <- loadOne cond ;; t <- loadSeq thens ;;
        popAdd (Elif c t) ;;
        elif_loop fuel
      else ret tt
  end

(** The loop [args] of the simple command, whose argument list lives at
    [args].  [None]: the rule has returned from inside the loop, after a
    binary expression; [Some bg]: the loop has ended with [cmd.Background]
    equal to [bg]. *)
with args_loop (fuel : nat) (stop : list Token) (args : nat)
  {struct fuel} : M (option bool) :=
  match fuel with
  | O => out_of_fuel
  | S fuel =>
      e <- at_EOF ;;
      if e then ret (Some false)
      else
        b <- peekAny stop ;;
        if b then ret (Some false)
        else
          b <- gets (fun p => peek LIT p || peek EXP p) ;;
          if b then word fuel ;; args_loop fuel stop args
          else
          b <- got LAND ;;
          if b then a <- loadSeq args ;; binaryExpr fuel LAND (Command a false) ;; ret None
          else
          b <- got OR ;;
          if b then a <- loadSeq args ;; binaryExpr fuel OR (Command a false) ;; ret None
          else
          b <- got LOR ;;
          if b then a <- loadSeq args ;; binaryExpr fuel LOR (Command a false) ;; ret None
          else
          b <- gotRedirect fuel ;;
          if b then args_loop fuel stop args
          else
          b <- got AND ;;
          if b then ret (Some true)
          else
          b <- orM (got SEMICOLON) (got (TRune NL)) ;;
          if b then ret (Some false)
          else errAfterStr "command" ;; args_loop fuel stop args
  end

with binaryExpr (fuel : nat) (op : Token) (left : Node) {struct fuel} : M unit :=
  match fuel with
  | O => out_of_fuel
  | S fuel =>
      y <- newOne ;;
      push (POne y) ;;
      command fuel [] ;;
      pop ;;
      yv <- loadOne y ;;
      popAdd (BinaryExpr (Some left) op yv)
  end

with gotRedirect (fuel : nat) {struct fuel} : M bool :=
  match fuel with
  | O => out_of_fuel
  | S fuel =>
      obj <- newOne ;;
      push (POne obj) ;;
      b <- got RDROUT ;;
      if b then word fuel ;; o <- loadOne obj ;; popAdd (Redirect RDROUT o) ;; ret true
      else
      b <- got APPEND ;;
      if b then word fuel ;; o <- loadOne obj ;; popAdd (Redirect APPEND o) ;; ret true
      else
      b <- got RDRIN ;;
      if b then word fuel ;; o <- loadOne obj ;; popAdd (Redirect RDRIN o) ;; ret true
      else pop ;; ret false
  end

(** The loop [parts] of [word], whose part list lives at [w]. *)
with parts_loop (fuel : nat) (w : nat) {struct fuel} : M unit :=
  match fuel with
  | O => out_of_fuel
  | S fuel =>
      e <- at_EOF ;;
      if e then ret tt
      else
        ps <- loadSeq w ;;
        sp <- gets spaced ;;
        if (0 <? length ps)%nat && sp then ret tt
        else
          b <- got LIT ;;
          if b then
            v <- gets lval ;; add (Lit v) ;; parts_loop fuel w
          else
          b <- got EXP ;;
          if b then
            b <- gets (peek LBRACE) ;;
            (if b then
               t <- readUntilWant RBRACE ;;
               add (ParamExp t) ;;
               next
             else
             b <- got LPAREN ;;
             if b then
               cs <- newSeq ;;
               push (PSeq cs) ;;
               commandsLimited fuel [RPAREN] ;;
               st <- loadSeq cs ;;
               popAdd (CmdSubst st) ;;
               want RPAREN
             else
               want LIT ;;
               v <- gets lval ;;
               add (Lit ("$" ++ v)%string)) ;;
            parts_loop fuel w
          else ret tt
  end

with word (fuel : nat) {struct fuel} : M unit :=
  match fuel with
  | O => out_of_fuel
  | S fuel =>
      w <- newSeq ;;
      push (PSeq w) ;;
      parts_loop fuel w ;;
      ps <- loadSeq w ;;
      (if (length ps =? 0)%nat then errWantedStr "word" else ret tt) ;;
      ps <- loadSeq w ;;
      popAdd (Word ps)
  end

with wordList (fuel : nat) {struct fuel} : M Z :=
  match fuel with
  | O => out_of_fuel
  | S fuel => wordList_loop fuel 0%Z
  end

with wordList_loop (fuel : nat) (count : Z) {struct fuel} : M Z :=
  match fuel with
  | O => out_of_fuel
  | S fuel =>
      e <- at_EOF ;;
      if e then ret count
      else
        b <- orM (got SEMICOLON) (got (TRune NL)) ;;
        if b then ret count
        else word fuel ;; wordList_loop fuel (count + 1)%Z
  end.

Definition program (fuel : nat) : M unit := commands fuel [] ;; ret tt.

(** ** The entry point *)

Definition reader_of (src : string) (fault : option string) : Reader :=
  {| rd_buf := list_ascii_of_string src; rd_last := None; rd_fault := fault |}.

(** The parser that [Parse] allocates: every field has the zero value of
    its type but the reader, the name and [npos]; the cell 0 of the store
    of sequences is [p.prog.Stmts]. *)
Definition new_parser (rd : Reader) (nm : string) : parser :=
  {| r := rd; name := nm; err := None; spaced := false;
     ltok := TRune rune0; tok := TRune rune0; lval := ""; val := "";
     bpos := {| line := 0; col := 0 |};
     lpos := {| line := 0; col := 0 |};
     pos := {| line := 0; col := 0 |};
     npos := {| line := 1; col := 1 |};
     stack := []; seqs := [[]]; ones := [] |}.

Definition prog (p : parser) : Prog := {| Stmts := nth 0 (seqs p) [] |}.

Definition Parse_fuel (fuel : nat) (rd : Reader) (nm : string) : result (Prog * option error) :=
  match (push (PSeq 0) ;; next ;; program fuel) (new_parser rd nm) with
  | Done (_, p) => Done (prog p, err p)
  | Panic msg => Panic msg
  | OutOfFuel => OutOfFuel
  end.

(** The recursion of the grammar rules is bounded by the length of the
    input: [fuel_for] is enough fuel for every input. *)
Definition fuel_for (rd : Reader) : nat := 16 * length (rd_buf rd) + 32.

Definition Parse (rd : Reader) (nm : string) : result (Prog * option error) :=
  Parse_fuel (fuel_for rd) rd nm.

(** An input held in memory: it ends with [io.EOF]. *)
Definition source (src : string) : Reader := reader_of src None.

(** The texts of the errors. *)
Definition wanted_text (t : Token) (s : string) : string :=
  ("unexpected token " ++ Token_String t ++ " - wanted " ++ s)%string.
Definition after_text (t : Token) (s : string) : string :=
  ("unexpected token " ++ Token_String t ++ " after " ++ s)%string.
Definition func_name_text (fval : string) : string :=
  ("invalid func name " ++ fmt_q fval)%string.

Definition at_pos (l c : Z) : position := {| line := l; col := c |}.

Definition cmd (ws : list string) : Node := Command (map litWord ws) false.

(** * Reasoning about parser actions *)

Ltac psimpl :=
  cbn [r name err spaced ltok tok lval val bpos lpos pos npos stack seqs ones
       set_r set_err set_spaced set_toks set_bpos set_lpos set_pos set_npos
       set_stack set_seqs set_ones rd_buf rd_last rd_fault fst snd line col] in *.

Definition wpx (XP XF : Prop) {A} (m : M A) (p : parser) (Q : A -> parser -> Prop) : Prop :=
  match m p with
  | Done (a, p') => Q a p'
  | Panic _ => XP
  | OutOfFuel => XF
  end.

Lemma wpx_ret XP XF {A} (a : A) p (Q : A -> parser -> Prop) :
  Q a p -> wpx XP XF (ret a) p Q.
Proof. exact (fun H => H). Qed.

Lemma wpx_bind XP XF {A B} (m : M A) (k : A -> M B) p (Q : B -> parser -> Prop) :
  wpx XP XF m p (fun a p' => wpx XP XF (k a) p' Q) -> wpx XP XF (bind m k) p Q.
Proof.
  unfold wpx, bind. destruct (m p) as [[a p']| |]; auto.
Qed.

Lemma wpx_conseq XP XF {A} (m : M A) p (Q Q' : A -> parser -> Prop) :
  wpx XP XF m p Q -> (forall a p', Q a p' -> Q' a p') -> wpx XP XF m p Q'.
Proof.
  unfold wpx. destruct (m p) as [[a p']| |]; auto.
Qed.

Lemma wpx_gets XP XF {A} (f : parser -> A) p (Q : A -> parser -> Prop) :
  Q (f p) p -> wpx XP XF (gets f) p Q.
Proof. exact (fun H => H). Qed.

Lemma wpx_modify XP XF (f : parser -> parser) p (Q : unit -> parser -> Prop) :
  Q tt (f p) -> wpx XP XF (modify f) p Q.
Proof. exact (fun H => H). Qed.

Lemma wpx_weaken (XP XF XP' XF' : Prop) {A} (m : M A) p (Q : A -> parser -> Prop) :
  (XP -> XP') -> (XF -> XF') -> wpx XP XF m p Q -> wpx XP' XF' m p Q.
Proof.
  unfold wpx. destruct (m p) as [[a p']| |]; auto.
Qed.

Lemma wpx_done {A} (m : M A) p (Q : A -> parser -> Prop) :
  wpx False False m p Q -> exists a p', m p = Done (a, p') /\ Q a p'.
Proof.
  unfold wpx. destruct (m p) as [[a p']| |]; intros H; try contradiction; eauto.
Qed.

(** ** What the scanner does to the parser *)

Definition frame (p p' : parser) : Prop :=
  name p' = name p /\ stack p' = stack p /\ seqs p' = seqs p /\ ones p' = ones p
  /\ rd_fault (r p') = rd_fault (r p).

Definition keep (p p' : parser) : Prop :=
  forall e, err p = Some e -> err p' = Some e.

Definition scan (p p' : parser) : Prop :=
  frame p p' /\ keep p p'
  /\ (err p = None -> err p' <> None -> buffered p' = 0)
  /\ buffered p' <= buffered p.

Lemma frame_refl p : frame p p.
Proof. repeat split. Qed.

Lemma frame_trans p1 p2 p3 : frame p1 p2 -> frame p2 p3 -> frame p1 p3.
Proof.
  unfold frame. intros (?&?&?&?&?) (?&?&?&?&?). repeat split; congruence.
Qed.

Lemma keep_refl p : keep p p.
Proof. intros e H; exact H. Qed.

Lemma keep_trans p1 p2 p3 : keep p1 p2 -> keep p2 p3 -> keep p1 p3.
Proof. unfold keep; eauto. Qed.

Lemma scan_refl p : scan p p.
Proof. repeat split; auto; try congruence. Qed.

Lemma scan_trans p1 p2 p3 : scan p1 p2 -> scan p2 p3 -> scan p1 p3.
Proof.
  intros (F1 & K1 & N1 & B1) (F2 & K2 & N2 & B2).
  split; [eapply frame_trans; eauto|].
  split; [eapply keep_trans; eauto|].
  split; [|lia].
  intros H1 H3. destruct (err p2) eqn:E2.
  - assert (buffered p2 = 0) by (apply N1; congruence). lia.
  - auto.
Qed.

Ltac wp_run := unfold wpx, bind, gets, modify, ret; psimpl.
Ltac frame_tac := unfold frame; psimpl; repeat split; auto.

Ltac prim_run :=
  cbv [wpx errWantedStr errWanted errAfterStr curErr posErr errPass setEOF advance moveWith
       bind gets modify ret]; psimpl.

Lemma errPass_spec XP XF e p (Q : unit -> parser -> Prop) :
  (forall p', r p' = r p -> tok p' = EOF -> frame p p' ->
              err p' = Some (match err p with Some e0 => e0 | None => e end) ->
              pos p' = pos p -> npos p' = npos p -> Q tt p') ->
  wpx XP XF (errPass e) p Q.
Proof.
  intros H. prim_run. apply H; psimpl; auto; try frame_tac.
  destruct (err p); reflexivity.
Qed.

Lemma errWantedStr_spec XP XF s p (Q : unit -> parser -> Prop) :
  (forall p', r p' = r p -> tok p' = EOF -> frame p p' ->
              err p' = Some (match err p with
                             | Some e0 => e0
                             | None => lineErr (name p)
                                         (if Token_eqb (tok p) EOF then npos p else pos p)
                                         (wanted_text (tok p) s)
                             end) ->
              pos p' = (if Token_eqb (tok p) EOF then npos p else pos p) ->
              npos p' = npos p -> Q tt p') ->
  wpx XP XF (errWantedStr s) p Q.
Proof.
  intros H. prim_run. apply H; psimpl; auto; try frame_tac.
  destruct (err p); reflexivity.
Qed.

Lemma errAfterStr_spec XP XF s p (Q : unit -> parser -> Prop) :
  (forall p', r p' = r p -> tok p' = EOF -> frame p p' ->
              err p' = Some (match err p with
                             | Some e0 => e0
                             | None => lineErr (name p) (pos p) (after_text (tok p) s)
                             end) ->
              pos p' = pos p -> npos p' = npos p -> Q tt p') ->
  wpx XP XF (errAfterStr s) p Q.
Proof.
  intros H. prim_run. apply H; psimpl; auto; try frame_tac.
  destruct (err p); reflexivity.
Qed.

Lemma posErr_spec XP XF ps text p (Q : unit -> parser -> Prop) :
  (forall p', r p' = r p -> tok p' = EOF -> frame p p' ->
              err p' = Some (match err p with
                             | Some e0 => e0
                             | None => lineErr (name p) ps text
                             end) ->
              pos p' = pos p -> npos p' = npos p -> Q tt p') ->
  wpx XP XF (posErr ps text) p Q.
Proof.
  intros H. prim_run. apply H; psimpl; auto; try frame_tac.
  destruct (err p); reflexivity.
Qed.

(** The state after a rune has been read, and after a read has failed. *)
Definition st_read (c : rune) (t : list rune) (p : parser) : parser :=
  set_npos (if Ascii.eqb c NL
            then {| line := line (npos p) + 1; col := 1 |}
            else {| line := line (npos p); col := col (npos p) + 1 |})
    (set_bpos (npos p)
       (set_r {| rd_buf := t; rd_last := Some c; rd_fault := rd_fault (r p) |} p)).

Definition read_error (p : parser) : error :=
  match rd_fault (r p) with None => io_EOF | Some m => io_fault m end.

Definition st_fail (p : parser) : parser :=
  let at_eof := Token_eqb (tok p) EOF in
  let p1 := set_r {| rd_buf := []; rd_last := None; rd_fault := rd_fault (r p) |} p in
  set_toks (if at_eof then ltok p else tok p) EOF
           (if at_eof then lval p else val p) "EOF"
    match rd_fault (r p) with
    | None => p1
    | Some m => set_err (match err p with None => Some (io_fault m) | Some e0 => Some e0 end) p1
    end.

Lemma readRune_ok c t p :
  rd_buf (r p) = c :: t -> readRune p = Done ((c, None), st_read c t p).
Proof.
  intros H. unfold readRune, ReadRune, bind, gets. rewrite H. reflexivity.
Qed.

Lemma readRune_fail p :
  rd_buf (r p) = [] -> readRune p = Done ((rune0, Some (read_error p)), st_fail p).
Proof.
  intros H. unfold readRune, ReadRune, bind, gets, read_error, st_fail. rewrite H.
  destruct (rd_fault (r p)); cbn [is_EOF]; prim_run; reflexivity.
Qed.

Lemma st_fail_facts p :
  tok (st_fail p) = EOF /\ rd_buf (r (st_fail p)) = [] /\ frame p (st_fail p)
  /\ keep p (st_fail p)
  /\ (rd_fault (r p) = None -> err (st_fail p) = err p)
  /\ pos (st_fail p) = pos p /\ npos (st_fail p) = npos p
  /\ name (st_fail p) = name p.
Proof.
  unfold st_fail, keep. destruct (rd_fault (r p)) eqn:E; psimpl; repeat split; auto;
    try (frame_tac; fail); try congruence.
  intros e He. rewrite He. reflexivity.
Qed.

Lemma unreadRune_ok c p :
  rd_last (r p) = Some c ->
  unreadRune p
  = Done (tt, set_npos (bpos p)
                (set_r {| rd_buf := c :: rd_buf (r p); rd_last := None;
                          rd_fault := rd_fault (r p) |} p)).
Proof.
  intros H. unfold unreadRune, UnreadRune, bind, gets. rewrite H. reflexivity.
Qed.

Lemma readOnly_spec XP XF w p (Q : bool -> parser -> Prop) :
  (forall b p', err p' = err p -> tok p' = tok p -> frame p p' ->
                buffered p' <= buffered p -> val p' = val p -> Q b p') ->
  wpx XP XF (readOnly w) p Q.
Proof.
  intros H. unfold readOnly, ReadRune, UnreadRune. wp_run.
  destruct (rd_buf (r p)) as [|c t] eqn:Hb; wp_run.
  - destruct (Ascii.eqb rune0 w); unfold moveWith; wp_run; apply H; psimpl; auto;
      try frame_tac; unfold buffered; psimpl; rewrite ?Hb; simpl; lia.
  - destruct (Ascii.eqb c w); unfold moveWith; wp_run; apply H; psimpl; auto;
      try frame_tac; unfold buffered; psimpl; rewrite ?Hb; simpl; lia.
Qed.

Lemma doToken_spec XP XF c p (Q : Token -> parser -> Prop) :
  (forall t p', err p' = err p -> tok p' = tok p -> frame p p' ->
                buffered p' <= buffered p -> val p' = val p -> Q t p') ->
  wpx XP XF (doToken c readOnly) p Q.
Proof.
  intros H. unfold doToken.
  repeat match goal with
  | |- wpx _ _ (if ?b then _ else _) _ _ => destruct b
  | |- wpx _ _ (ret _) _ _ => apply wpx_ret; apply H; auto using frame_refl
  | |- wpx _ _ (bind (readOnly _) _) _ _ =>
      apply wpx_bind, readOnly_spec; intros; apply wpx_ret; apply H; auto
  end.
Qed.

Lemma readRune_spec XP XF p (Q : rune * option error -> parser -> Prop) :
  (forall c t, rd_buf (r p) = c :: t -> Q (c, None) (st_read c t p)) ->
  (rd_buf (r p) = [] -> Q (rune0, Some (read_error p)) (st_fail p)) ->
  wpx XP XF readRune p Q.
Proof.
  intros Hok Hfail. unfold wpx. destruct (rd_buf (r p)) as [|c t] eqn:Hb.
  - rewrite (readRune_fail p Hb). auto.
  - rewrite (readRune_ok c t p Hb). auto.
Qed.

Lemma st_read_scan c t p : rd_buf (r p) = c :: t -> scan p (st_read c t p).
Proof.
  intros Hb. unfold scan, keep, buffered, st_read; psimpl. rewrite Hb.
  repeat split; auto; simpl; try congruence; lia.
Qed.

Lemma st_fail_scan p : rd_buf (r p) = [] -> scan p (st_fail p).
Proof.
  intros Hb. destruct (st_fail_facts p) as (Ht & Hb' & Hf & Hk & _).
  unfold scan, buffered. rewrite Hb', Hb. simpl. auto.
Qed.

Lemma scan_frame p p' : scan p p' -> frame p p'.
Proof. intros H; apply H. Qed.

Lemma frame_scan p p' :
  frame p p' -> err p' = err p -> buffered p' <= buffered p -> scan p p'.
Proof.
  intros F E B. split; [exact F|]. split; [|split; [|exact B]].
  - intros e He. congruence.
  - intros H1 H2. congruence.
Qed.

Lemma readUntil_loop_spec XP XF n : forall t rs p (Q : string * bool -> parser -> Prop),
  buffered p < n ->
  (forall x p', scan p p' ->
                (snd x = false -> buffered p' = 0 /\ tok p' = EOF) ->
                (snd x = true -> err p' = err p /\ tok p' = tok p) -> Q x p') ->
  wpx XP XF (readUntil_loop n t rs) p Q.
Proof.
  induction n as [|n IH]; intros t rs p Q Hn HQ; [lia|].
  cbn [readUntil_loop]. apply wpx_bind, readRune_spec.
  - intros c tl Hb. cbn [snd fst]. apply wpx_bind, doToken_spec.
    intros t' p1 He1 Ht1 Hf1 Hb1 _.
    assert (S1 : scan p p1).
    { eapply scan_trans; [apply (st_read_scan c tl p Hb)|].
      apply frame_scan; auto. }
    assert (B1 : buffered p1 < buffered p).
    { revert Hb1. unfold buffered, st_read; psimpl. rewrite Hb. simpl. lia. }
    destruct (Token_eqb t t').
    + apply wpx_ret, HQ; [exact S1 | discriminate |].
      intros _. rewrite He1, Ht1. unfold st_read; psimpl. auto.
    + apply IH; [lia|]. intros x p' S2 Hx1 Hx2. apply HQ; [| exact Hx1 |].
      * exact (scan_trans _ _ _ S1 S2).
      * intros Hx. destruct (Hx2 Hx) as [E T]. rewrite E, T, He1, Ht1.
        unfold st_read; psimpl. auto.
  - intros Hb. cbn [snd]. apply wpx_ret, HQ; [| | discriminate].
    + apply st_fail_scan; auto.
    + intros _. destruct (st_fail_facts p) as (Ht & Hb' & _). unfold buffered. rewrite Hb'. auto.
Qed.

Lemma readUntil_spec XP XF t p (Q : string * bool -> parser -> Prop) :
  (forall x p', scan p p' ->
                (snd x = false -> buffered p' = 0 /\ tok p' = EOF) ->
                (snd x = true -> err p' = err p /\ tok p' = tok p) -> Q x p') ->
  wpx XP XF (readUntil t) p Q.
Proof.
  intros HQ. unfold readUntil. apply wpx_bind, wpx_gets.
  apply readUntil_loop_spec; auto.
Qed.

Lemma readUntilWant_spec XP XF t p (Q : string -> parser -> Prop) :
  (forall s p', scan p p' -> (tok p' = tok p \/ tok p' = EOF) -> Q s p') ->
  wpx XP XF (readUntilWant t) p Q.
Proof.
  intros HQ. unfold readUntilWant. apply wpx_bind, readUntil_spec.
  intros [s b] p1 S1 Hf Ht. cbn [fst snd] in *. apply wpx_bind.
  destruct b.
  - apply wpx_ret, wpx_ret, HQ; [exact S1|]. left. apply Ht; auto.
  - unfold errWanted. apply errWantedStr_spec. intros p' Hr Ht' Hfr He _ _.
    apply wpx_ret, HQ; [|right; exact Ht'].
    destruct (Hf eq_refl) as [B0 T0].
    eapply scan_trans; [exact S1|].
    unfold scan, keep, buffered in *. rewrite Hr.
    split; [exact Hfr|]. split; [|split; [auto|lia]].
    intros e E. rewrite He, E. reflexivity.
Qed.

Lemma readLine_spec XP XF p (Q : string -> parser -> Prop) :
  (forall s p', scan p p' -> Q s p') ->
  wpx XP XF readLine p Q.
Proof.
  intros HQ. unfold readLine. apply wpx_bind, readUntil_spec.
  intros x p' S _ _. apply wpx_ret, HQ; auto.
Qed.

Definition stops (c q : rune) : bool :=
  negb (negb (Ascii.eqb q SQUOTE) && Ascii.eqb c BSLASH)
  && ((negb (Ascii.eqb q SQUOTE) && Ascii.eqb c "$")
      || (Ascii.eqb q rune0 && negb (quote c) && (reserved c || space c))).

(** What a turn of [runeLoop] guarantees, with [k] runes of slack. *)
Definition lit_post (k : nat) (p : parser) (Q : string -> parser -> Prop) : Prop :=
  forall s p', frame p p' -> keep p p' ->
               (err p = None -> err p' <> None -> buffered p' = 0) ->
               buffered p' <= buffered p + k -> Q s p'.

Lemma readLit_rest_spec XP XF loop q rs p (Q : string -> parser -> Prop) :
  (forall c t q rs (Q : string -> parser -> Prop),
     rd_buf (r p) = c :: t ->
     lit_post 1 (st_read c t p) Q ->
     wpx XP XF (loop c q rs) (st_read c t p) Q) ->
  lit_post 0 p Q ->
  wpx XP XF (readLit_rest loop q rs) p Q.
Proof.
  intros Hloop HQ. unfold readLit_rest. apply wpx_bind, readRune_spec.
  - intros c t Hb. cbn [snd fst]. apply (Hloop c t); auto.
    destruct (st_read_scan c t p Hb) as (F1 & K1 & N1 & B1).
    assert (B1' : buffered (st_read c t p) + 1 = buffered p)
      by (unfold buffered, st_read; psimpl; rewrite Hb; simpl; lia).
    intros s p' F K N B. apply HQ.
    + exact (frame_trans _ _ _ F1 F).
    + exact (keep_trans _ _ _ K1 K).
    + intros E1 E2. apply N; auto.
    + lia.
  - intros Hb. cbn [snd].
    destruct (st_fail_facts p) as (Ht & Hb' & Hf & Hk & _).
    apply wpx_bind.
    assert (HQ' : forall p', r p' = r (st_fail p) -> frame (st_fail p) p' ->
                             keep (st_fail p) p' -> Q (string_of_runes rs) p').
    { intros p' Hr F K. apply HQ.
      - exact (frame_trans _ _ _ Hf F).
      - exact (keep_trans _ _ _ Hk K).
      - intros _ _. unfold buffered. rewrite Hr, Hb'. reflexivity.
      - unfold buffered. rewrite Hr, Hb'. simpl. lia. }
    destruct (negb (Ascii.eqb q rune0)).
    + unfold errWanted. apply errWantedStr_spec. intros p' Hr _ Hfr He _ _.
      apply wpx_ret, HQ'; auto.
      intros e E. rewrite He, E. reflexivity.
    + apply wpx_ret, wpx_ret, HQ'; auto using frame_refl, keep_refl.
Qed.

Lemma readLit_loop_spec XP XF n : forall c q rs p (Q : string -> parser -> Prop),
  buffered p < n ->
  (stops c q = true -> rd_last (r p) <> None) ->
  lit_post (if stops c q then 1 else 0) p Q ->
  wpx XP XF (readLit_loop n c q rs) p Q.
Proof.
  induction n as [|n IH]; intros c q rs p Q Hn Hlast HQ; [lia|].
  assert (Hrest : forall q rs (Q : string -> parser -> Prop), lit_post 0 p Q ->
            wpx XP XF (readLit_rest (readLit_loop n) q rs) p Q).
  { intros q' rs' Q' HQ'. apply readLit_rest_spec; auto.
    intros c1 t1 q1 rs1 Q1 Hb H1. apply IH.
    - revert Hn. unfold buffered, st_read; psimpl. rewrite Hb. simpl. lia.
    - intros _. unfold st_read; psimpl. discriminate.
    - intros s p' F K N B. apply H1; auto. destruct (stops c1 q1); lia. }
  assert (Hunread : rd_last (r p) <> None -> lit_post 1 p Q ->
            wpx XP XF (unreadRune ;; ret (string_of_runes rs)) p Q).
  { intros Hl HQ'. destruct (rd_last (r p)) as [c0|] eqn:E; [|congruence].
    unfold wpx, bind. rewrite (unreadRune_ok c0 p E). unfold ret.
    apply HQ'.
    - frame_tac.
    - intros e He. exact He.
    - intros E1 E2. psimpl. congruence.
    - unfold buffered; psimpl. simpl. lia. }
  cbn [readLit_loop]. unfold stops in *.
  destruct (negb (Ascii.eqb q SQUOTE) && Ascii.eqb c BSLASH); cbn [negb andb] in *.
  - apply wpx_bind, readRune_spec.
    + intros c1 t1 Hb. cbn [fst].
      apply readLit_rest_spec.
      * intros c2 t2 q2 rs2 Q2 Hb2 H2. apply IH.
        -- unfold buffered, st_read in *; psimpl. rewrite Hb in Hn. subst t1.
           simpl in Hn. lia.
        -- intros _. unfold st_read; psimpl. discriminate.
        -- intros s p' F K N B. apply H2; auto.
           match type of B with context [if ?b then _ else _] => destruct b end; lia.
      * destruct (st_read_scan c1 t1 p Hb) as (F1 & K1 & N1 & B1).
        intros s p' F K N B. apply HQ.
        -- exact (frame_trans _ _ _ F1 F).
        -- exact (keep_trans _ _ _ K1 K).
        -- intros E1 E2. apply N; auto.
        -- lia.
    + intros Hb. cbn [fst]. destruct (st_fail_facts p) as (Ht & Hb' & Hf & Hk & _).
      apply readLit_rest_spec.
      * intros c2 t2 q2 rs2 Q2 Hb2. congruence.
      * intros s p' F K N B. apply HQ.
        -- exact (frame_trans _ _ _ Hf F).
        -- exact (keep_trans _ _ _ Hk K).
        -- intros _ _. revert B. unfold buffered. rewrite Hb'. simpl. lia.
        -- revert B. unfold buffered. rewrite Hb'. simpl. lia.
  - destruct (negb (Ascii.eqb q SQUOTE) && Ascii.eqb c "$"); cbn [orb] in *.
    + apply Hunread; auto.
    + destruct (Ascii.eqb q rune0) eqn:Eq; cbn [negb andb] in *.
      * destruct (quote c); cbn [negb andb] in *; [apply Hrest; auto|].
        destruct (reserved c || space c); [apply Hunread; auto | apply Hrest; auto].
      * apply Hrest; auto.
Qed.

Lemma readLit_spec XP XF c p (Q : string -> parser -> Prop) :
  reserved c = false -> space c = false ->
  (forall s p', frame p p' -> keep p p' ->
                (err p = None -> err p' <> None -> buffered p' = 0) ->
                buffered p' <= buffered p -> Q s p') ->
  wpx XP XF (readLit c) p Q.
Proof.
  intros Hr Hs HQ. unfold readLit. apply wpx_bind, wpx_gets.
  assert (Hstop : stops c rune0 = false).
  { unfold stops. rewrite Hr, Hs.
    destruct (Ascii.eqb c "$") eqn:E.
    - apply Ascii.eqb_eq in E. subst c. discriminate.
    - destruct (Ascii.eqb c BSLASH), (quote c); reflexivity. }
  apply readLit_loop_spec; auto.
  - rewrite Hstop. discriminate.
  - rewrite Hstop. intros s p' F K N B. apply HQ; auto. lia.
Qed.

Lemma skipSpace_loop_spec XP XF n : forall p (Q : option rune -> parser -> Prop),
  buffered p < n ->
  (forall p', scan p p' -> buffered p' = 0 -> tok p' = EOF -> Q None p') ->
  (forall c p', frame p p' -> err p' = err p -> buffered p' < buffered p ->
                space c = false -> Q (Some c) p') ->
  wpx XP XF (skipSpace_loop n) p Q.
Proof.
  induction n as [|n IH]; intros p Q Hn HN HS; [lia|].
  cbn [skipSpace_loop]. apply wpx_bind, readRune_spec.
  - intros c t Hb. cbn [snd fst].
    destruct (st_read_scan c t p Hb) as (F1 & K1 & N1 & B1).
    assert (B1' : buffered (st_read c t p) + 1 = buffered p)
      by (unfold buffered, st_read; psimpl; rewrite Hb; simpl; lia).
    destruct (space c) eqn:Es; cbn [negb].
    + apply wpx_bind, wpx_modify. apply IH.
      * unfold buffered in *; psimpl. lia.
      * intros p' S B T. apply HN; [|exact B|exact T].
        eapply scan_trans; [apply (st_read_scan c t p Hb)|].
        destruct S as (F & K & N & B2). split; [|split; [|split]]; auto.
      * intros c' p' F E B Es'. apply HS; [| | |exact Es'].
        -- eapply frame_trans; [exact F1|]. eapply frame_trans; [|exact F]. frame_tac.
        -- rewrite E. reflexivity.
        -- unfold buffered in *; psimpl. lia.
    + apply wpx_ret, HS; [exact F1| reflexivity | lia | exact Es].
  - intros Hb. cbn [snd]. apply wpx_ret.
    destruct (st_fail_facts p) as (Ht & Hb' & _).
    apply HN; auto using st_fail_scan. unfold buffered. rewrite Hb'. reflexivity.
Qed.

Lemma advance_spec XP XF t v p (Q : unit -> parser -> Prop) :
  (forall p', r p' = r p -> err p' = err p -> tok p' = t -> val p' = v ->
              frame p p' -> Q tt p') ->
  wpx XP XF (advance t v) p Q.
Proof.
  intros H. prim_run. apply H; psimpl; auto. frame_tac.
Qed.

Lemma scan_same p p1 p' :
  scan p p1 -> r p' = r p1 -> err p' = err p1 -> frame p1 p' -> scan p p'.
Proof.
  intros S Hr He F. eapply scan_trans; [exact S|].
  apply frame_scan; auto. unfold buffered. rewrite Hr. lia.
Qed.

(** A scan either consumes input or reports that the input is exhausted. *)
Definition scanned (p p' : parser) : Prop :=
  scan p p' /\ (buffered p' < buffered p \/ (buffered p' = 0 /\ tok p' = EOF)).

Lemma next_loop_spec XP XF n : forall p (Q : unit -> parser -> Prop),
  buffered p < n ->
  (forall p', scanned p p' -> Q tt p') ->
  wpx XP XF (next_loop n) p Q.
Proof.
  induction n as [|n IH]; intros p Q Hn HQ; [lia|].
  cbn [next_loop]. apply wpx_bind, wpx_modify. apply wpx_bind, wpx_modify.
  set (p0 := set_spaced false (set_lpos (pos p) p)).
  assert (S0 : scan p p0)
    by (apply frame_scan; [unfold p0; frame_tac | reflexivity | unfold p0, buffered; psimpl; lia]).
  assert (B0 : buffered p0 = buffered p) by reflexivity.
  apply wpx_bind. unfold skipSpace. apply wpx_bind, wpx_gets.
  apply skipSpace_loop_spec; [lia | |].
  - intros p1 S1 B1 T1. apply wpx_ret, HQ. split.
    + exact (scan_trans _ _ _ S0 S1).
    + right. auto.
  - intros c p1 F1 E1 B1 Es. apply wpx_bind, wpx_modify.
    set (p2 := set_pos _ p1).
    assert (S2 : scan p p2).
    { eapply scan_trans; [exact S0|]. apply frame_scan.
      - eapply frame_trans; [exact F1|]. unfold p2. frame_tac.
      - exact E1.
      - unfold p2, buffered in *; psimpl. lia. }
    assert (B2 : buffered p2 < buffered p) by (unfold p2, buffered in *; psimpl; lia).
    clearbody p2. clear S0 B0 F1 E1 B1 p1. clearbody p0. clear p0.
    assert (Hadv : forall t v p3, scan p p3 -> buffered p3 < buffered p ->
               wpx XP XF (advance t v) p3 Q).
    { intros t v p3 S3 B3. apply advance_spec. intros p' Hr He Ht Hv F.
      apply HQ. split.
      - eapply scan_same; eauto.
      - left. unfold buffered in *. rewrite Hr. lia. }
    apply wpx_bind. unfold andM. apply wpx_bind, wpx_ret.
    destruct (Ascii.eqb c BSLASH).
    + apply readOnly_spec. intros b p3 E3 T3 F3 B3 _.
      assert (S3 : scan p p3).
      { eapply scan_trans; [exact S2|]. apply frame_scan; auto. }
      destruct b.
      * apply IH; [lia|]. intros p' [S4 H4]. apply HQ. split.
        -- exact (scan_trans _ _ _ S3 S4).
        -- destruct H4 as [H4|H4]; [left; lia | right; exact H4].
      * destruct (reserved c || starters c) eqn:Ers.
        -- destruct (Ascii.eqb c "#").
           ++ apply wpx_bind, readLine_spec. intros s p4 S4.
              apply Hadv; [exact (scan_trans _ _ _ S3 S4)|].
              destruct S4 as (_ & _ & _ & B4). lia.
           ++ destruct (Ascii.eqb c NL).
              ** apply Hadv; [exact S3 | lia].
              ** apply wpx_bind, doToken_spec. intros t p4 E4 T4 F4 B4 _.
                 apply Hadv; [|lia].
                 eapply scan_trans; [exact S3|]. apply frame_scan; auto.
        -- apply wpx_bind, readLit_spec.
           ++ destruct (reserved c); [discriminate | reflexivity].
           ++ exact Es.
           ++ intros s p4 F4 K4 N4 B4. apply Hadv; [|lia].
              eapply scan_trans; [exact S3|]. split; [|split; [|split]]; auto.
    + apply wpx_ret.
      destruct (reserved c || starters c) eqn:Ers.
      * destruct (Ascii.eqb c "#").
        -- apply wpx_bind, readLine_spec. intros s p4 S4.
           apply Hadv; [exact (scan_trans _ _ _ S2 S4)|].
           destruct S4 as (_ & _ & _ & B4). lia.
        -- destruct (Ascii.eqb c NL).
           ++ apply Hadv; [exact S2 | lia].
           ++ apply wpx_bind, doToken_spec. intros t p4 E4 T4 F4 B4 _.
              apply Hadv; [|lia].
              eapply scan_trans; [exact S2|]. apply frame_scan; auto.
      * apply wpx_bind, readLit_spec.
        -- destruct (reserved c); [discriminate | reflexivity].
        -- exact Es.
        -- intros s p4 F4 K4 N4 B4. apply Hadv; [|lia].
           eapply scan_trans; [exact S2|]. split; [|split; [|split]]; auto.
Qed.

Lemma next_spec XP XF p (Q : unit -> parser -> Prop) :
  (forall p', scanned p p' -> Q tt p') ->
  wpx XP XF next p Q.
Proof.
  intros HQ. unfold next. apply wpx_bind, wpx_gets.
  apply next_loop_spec; auto.
Qed.

(** ** What the grammar rules do to the parser *)

Definition mu (p : parser) : nat :=
  2 * buffered p + (if Token_eqb (tok p) EOF then 0 else 1).

(** Once an error is latched, the token in hand is [EOF] or the input is
    exhausted. *)
Definition good (p : parser) : Prop :=
  err p <> None -> tok p = EOF \/ buffered p = 0.

(** From a state with a latched error and [EOF] in hand, nothing more is
    read and [EOF] stays in hand. *)
Definition quiet (p p' : parser) : Prop :=
  err p <> None -> tok p = EOF -> tok p' = EOF /\ buffered p' = buffered p.

Definition trk (p p' : parser) : Prop :=
  keep p p' /\ quiet p p' /\ good p'.

(** The part of the parser that the builder stack does not hold. *)
Definition scan_state (p : parser) :=
  (r p, name p, err p, spaced p, (ltok p, tok p, lval p, val p),
   (bpos p, lpos p, pos p, npos p)).

Definition heap_only {A} (m : M A) : Prop :=
  forall p, match m p with
            | Done (_, p') => scan_state p' = scan_state p
            | Panic _ => True
            | OutOfFuel => False
            end.

Lemma trk_refl p : good p -> trk p p.
Proof.
  intros G. split; [apply keep_refl|]. split; [|exact G]. intros _ T. auto.
Qed.

Lemma trk_trans p1 p2 p3 : trk p1 p2 -> trk p2 p3 -> trk p1 p3.
Proof.
  intros (K1 & Q1 & G1) (K2 & Q2 & G2).
  split; [exact (keep_trans _ _ _ K1 K2)|]. split; [|exact G2].
  intros E T. destruct (Q1 E T) as [T2 B2].
  assert (E2 : err p2 <> None).
  { destruct (err p1) as [e|] eqn:E1; [|congruence]. rewrite (K1 e E1). discriminate. }
  destruct (Q2 E2 T2) as [T3 B3]. split; [exact T3 | lia].
Qed.

Lemma mu_eof p : tok p = EOF -> mu p = 2 * buffered p.
Proof. intros H. unfold mu. rewrite H. cbn. lia. Qed.

Lemma mu_not_eof p : tok p <> EOF -> mu p = 2 * buffered p + 1.
Proof. intros H. unfold mu. rewrite (Token_eqb_neq _ _ H). reflexivity. Qed.

Lemma mu_bounds p : 2 * buffered p <= mu p <= 2 * buffered p + 1.
Proof. unfold mu. destruct (Token_eqb (tok p) EOF); lia. Qed.

Lemma peek_not_eof t p : t <> EOF -> peek t p = true -> tok p <> EOF.
Proof.
  intros Ht H E. unfold peek in H. rewrite E in H.
  rewrite (Token_eqb_neq EOF t) in H by congruence. cbn in H. discriminate.
Qed.

(** A scan from a state where no error is latched, or where the input is
    exhausted. *)
Lemma scanned_trk p0 p p' :
  trk p0 p -> (err p <> None -> buffered p = 0) -> scanned p p' ->
  trk p0 p' /\ mu p' <= mu p /\ (tok p <> EOF -> mu p' < mu p)
  /\ (err p' <> None -> buffered p' = 0).
Proof.
  intros T Hb [(F & K & N & B) H].
  assert (Hb' : err p' <> None -> buffered p' = 0).
  { intros E'. destruct (err p) eqn:E; [|auto].
    assert (Z0 : buffered p = 0) by (apply Hb; congruence). lia. }
  split; [|split; [|split]]; auto.
  - eapply trk_trans; [exact T|]. split; [exact K|]. split.
    + intros E Te. assert (Z0 : buffered p = 0) by auto.
      destruct H as [H|[Hz Ht]]; [lia|]. split; [exact Ht | lia].
    + intros E'. right. auto.
  - pose proof (mu_bounds p). pose proof (mu_bounds p').
    destruct H as [H|[Hz Ht]]; [lia|]. rewrite (mu_eof p' Ht). lia.
  - intros Te. rewrite (mu_not_eof p Te). pose proof (mu_bounds p').
    destruct H as [H|[Hz Ht]]; [lia|]. rewrite (mu_eof p' Ht). lia.
Qed.

Lemma trk_good p0 p : trk p0 p -> good p.
Proof. intros H; apply H. Qed.

Lemma good_exhausted p : good p -> tok p <> EOF -> err p <> None -> buffered p = 0.
Proof. intros G T E. destruct (G E); [contradiction | assumption]. Qed.

Lemma got_step XP XF t p0 p (Q : bool -> parser -> Prop) :
  t <> EOF -> trk p0 p ->
  (forall p', trk p0 p' -> mu p' < mu p -> peek t p = true -> frame p p' ->
              Q true p') ->
  (peek t p = false -> Q false p) ->
  wpx XP XF (got t) p Q.
Proof.
  intros Ht T Htrue Hfalse. unfold got. apply wpx_bind, wpx_gets.
  destruct (peek t p) eqn:Hp.
  - apply wpx_bind, next_spec. intros p' S. apply wpx_ret.
    pose proof (peek_not_eof t p Ht Hp) as Te.
    destruct (scanned_trk p0 p p' T (good_exhausted p (trk_good _ _ T) Te) S)
      as (T' & M1 & M2 & _).
    apply Htrue; auto. apply S.
  - apply wpx_ret. auto.
Qed.

(** The state after an error has been passed to [errPass]. *)
Lemma failed_trk p0 p p' :
  trk p0 p -> r p' = r p -> tok p' = EOF ->
  (forall e, err p = Some e -> err p' = Some e) ->
  trk p0 p' /\ mu p' <= mu p /\ (tok p <> EOF -> mu p' < mu p).
Proof.
  intros T Hr Ht He.
  assert (B : buffered p' = buffered p) by (unfold buffered; rewrite Hr; reflexivity).
  split; [|split].
  - eapply trk_trans; [exact T|]. split; [exact He|]. split.
    + intros _ _. auto.
    + intros _. left. exact Ht.
  - rewrite (mu_eof p' Ht). pose proof (mu_bounds p). lia.
  - intros Te. rewrite (mu_eof p' Ht), (mu_not_eof p Te). lia.
Qed.

Lemma errWantedStr_step XP XF s p0 p (Q : unit -> parser -> Prop) :
  trk p0 p ->
  (forall p', trk p0 p' -> mu p' <= mu p -> (tok p <> EOF -> mu p' < mu p) ->
              frame p p' -> err p' <> None -> tok p' = EOF -> Q tt p') ->
  wpx XP XF (errWantedStr s) p Q.
Proof.
  intros T HQ. apply errWantedStr_spec. intros p' Hr Ht F He _ _.
  destruct (failed_trk p0 p p' T Hr Ht) as (T' & M1 & M2).
  { intros e E. rewrite He, E. reflexivity. }
  apply HQ; auto. rewrite He. discriminate.
Qed.

Lemma errAfterStr_step XP XF s p0 p (Q : unit -> parser -> Prop) :
  trk p0 p ->
  (forall p', trk p0 p' -> mu p' <= mu p -> (tok p <> EOF -> mu p' < mu p) ->
              frame p p' -> err p' <> None -> tok p' = EOF -> Q tt p') ->
  wpx XP XF (errAfterStr s) p Q.
Proof.
  intros T HQ. apply errAfterStr_spec. intros p' Hr Ht F He _ _.
  destruct (failed_trk p0 p p' T Hr Ht) as (T' & M1 & M2).
  { intros e E. rewrite He, E. reflexivity. }
  apply HQ; auto. rewrite He. discriminate.
Qed.

Lemma posErr_step XP XF ps text p0 p (Q : unit -> parser -> Prop) :
  trk p0 p ->
  (forall p', trk p0 p' -> mu p' <= mu p -> (tok p <> EOF -> mu p' < mu p) ->
              frame p p' -> err p' <> None -> tok p' = EOF -> Q tt p') ->
  wpx XP XF (posErr ps text) p Q.
Proof.
  intros T HQ. apply posErr_spec. intros p' Hr Ht F He _ _.
  destruct (failed_trk p0 p p' T Hr Ht) as (T' & M1 & M2).
  { intros e E. rewrite He, E. reflexivity. }
  apply HQ; auto. rewrite He. discriminate.
Qed.

Lemma want_step XP XF t p0 p (Q : unit -> parser -> Prop) :
  t <> EOF -> trk p0 p ->
  (forall p', trk p0 p' -> mu p' <= mu p -> (tok p <> EOF -> mu p' < mu p) ->
              frame p p' -> Q tt p') ->
  wpx XP XF (want t) p Q.
Proof.
  intros Ht T HQ. unfold want. apply wpx_bind, wpx_gets.
  destruct (peek t p) eqn:Hp; cbn [negb].
  - apply next_spec. intros p' S.
    pose proof (peek_not_eof t p Ht Hp) as Te.
    destruct (scanned_trk p0 p p' T (good_exhausted p (trk_good _ _ T) Te) S)
      as (T' & M1 & M2 & _).
    apply HQ; auto. apply S.
  - unfold errWanted. apply (errWantedStr_step XP XF _ p0 p); [exact T|].
    intros p' T' M1 M2 F _ _. apply HQ; auto.
Qed.

Lemma scan_state_eq p p' :
  scan_state p' = scan_state p ->
  r p' = r p /\ err p' = err p /\ tok p' = tok p /\ val p' = val p
  /\ spaced p' = spaced p /\ lval p' = lval p /\ name p' = name p
  /\ lpos p' = lpos p /\ pos p' = pos p /\ npos p' = npos p.
Proof.
  unfold scan_state. intros H. injection H. intros. repeat split; assumption.
Qed.

Lemma scan_state_trk p0 p p' :
  scan_state p' = scan_state p -> trk p0 p ->
  trk p0 p' /\ mu p' = mu p /\ tok p' = tok p.
Proof.
  intros H T. destruct (scan_state_eq p p' H) as (Hr & He & Ht & _).
  assert (B : buffered p' = buffered p) by (unfold buffered; rewrite Hr; reflexivity).
  split; [|split; [|exact Ht]].
  - eapply trk_trans; [exact T|]. split; [|split].
    + intros e E. congruence.
    + intros _ Te. rewrite Ht. auto.
    + intros E. destruct (trk_good _ _ T) as [G|G]; [congruence| left; congruence | right; congruence].
  - unfold mu. rewrite B, Ht. reflexivity.
Qed.

Lemma scan_state_peek t p p' : scan_state p' = scan_state p -> peek t p' = peek t p.
Proof.
  intros H. destruct (scan_state_eq p p' H) as (_ & _ & Ht & Hv & _).
  unfold peek. rewrite Ht, Hv. reflexivity.
Qed.

Lemma heap_step XF {A} (m : M A) p0 p (Q : A -> parser -> Prop) :
  heap_only m -> trk p0 p ->
  (forall a p', trk p0 p' -> mu p' = mu p -> tok p' = tok p ->
                scan_state p' = scan_state p -> Q a p') ->
  wpx True XF m p Q.
Proof.
  intros H T HQ. unfold wpx. specialize (H p). destruct (m p) as [[a p']| |]; auto.
  - destruct (scan_state_trk p0 p p' H T) as (T' & M & Tk). apply HQ; auto.
  - contradiction.
Qed.

Ltac heap_only_tac :=
  intros p; cbv [newSeq newOne push pop add popAdd loadSeq loadOne panic bind gets modify ret];
  psimpl;
  repeat (match goal with
          | |- context [match stack ?q with _ => _ end] => destruct (stack q) as [|[?|?] ?]
          | |- context [match nth ?a ?l ?d with _ => _ end] => destruct (nth a l d)
          end; psimpl);
  auto.

Lemma heap_only_newSeq : heap_only newSeq. Proof. heap_only_tac. Qed.

Lemma heap_only_newOne : heap_only newOne. Proof. heap_only_tac. Qed.

Lemma heap_only_push s : heap_only (push s). Proof. heap_only_tac. Qed.

Lemma heap_only_pop : heap_only pop. Proof. heap_only_tac. Qed.

Lemma heap_only_add n : heap_only (add n). Proof. heap_only_tac. Qed.

Lemma heap_only_bind {A B} (m : M A) (k : A -> M B) :
  heap_only m -> (forall a, heap_only (k a)) -> heap_only (bind m k).
Proof.
  intros Hm Hk p. unfold bind. specialize (Hm p).
  destruct (m p) as [[a p1]| |]; auto.
  specialize (Hk a p1). destruct (k a p1) as [[b p2]| |]; auto. congruence.
Qed.

Lemma heap_only_popAdd n : heap_only (popAdd n).
Proof. apply heap_only_bind; [apply heap_only_pop | intros; apply heap_only_add]. Qed.

Lemma heap_only_loadSeq a : heap_only (loadSeq a). Proof. heap_only_tac. Qed.

Lemma heap_only_loadOne a : heap_only (loadOne a). Proof. heap_only_tac. Qed.

Definition exhausted_if_failed (p : parser) : Prop :=
  err p <> None -> buffered p = 0.

Lemma scan_state_exhausted p p' :
  scan_state p' = scan_state p -> exhausted_if_failed p -> exhausted_if_failed p'.
Proof.
  intros H X E. destruct (scan_state_eq p p' H) as (Hr & He & _).
  unfold buffered. rewrite Hr. apply X. congruence.
Qed.

Lemma readUntilWant_step XP XF t p0 p (Q : string -> parser -> Prop) :
  trk p0 p -> tok p <> EOF ->
  (forall s p', trk p0 p' -> mu p' <= mu p -> exhausted_if_failed p' -> Q s p') ->
  wpx XP XF (readUntilWant t) p Q.
Proof.
  intros T Te HQ. apply readUntilWant_spec. intros s p' (F & K & N & B) Ht.
  assert (X : exhausted_if_failed p').
  { intros E'. destruct (err p) eqn:E; [|auto].
    assert (Z0 : buffered p = 0) by (apply (good_exhausted p (trk_good _ _ T) Te); congruence).
    lia. }
  apply HQ; auto.
  - eapply trk_trans; [exact T|]. split; [exact K|]. split.
    + intros _ Tp. contradiction.
    + intros E'. right. auto.
  - rewrite (mu_not_eof p Te). pose proof (mu_bounds p'). lia.
Qed.

Lemma next_step XP XF p0 p (Q : unit -> parser -> Prop) :
  trk p0 p -> exhausted_if_failed p ->
  (forall p', trk p0 p' -> mu p' <= mu p -> Q tt p') ->
  wpx XP XF next p Q.
Proof.
  intros T X HQ. apply next_spec. intros p' S.
  destruct (scanned_trk p0 p p' T X S) as (T' & M1 & _). apply HQ; auto.
Qed.

(** ** The grammar rules terminate and keep the first error *)

(** What every rule guarantees when it is started in [p], [p0] being an
    earlier state that [p] is tracked from. *)
Definition after (p0 p p' : parser) : Prop := trk p0 p' /\ mu p' <= mu p.

Record rules_ok (fuel : nat) : Prop := {
  ok_command : forall stop p0 p, trk p0 p -> 5 + 8 * mu p <= fuel ->
    wpx True False (command fuel stop) p
      (fun _ p' => after p0 p p' /\ (tok p <> EOF -> mu p' < mu p));
  ok_commands_loop : forall cs stop n p0 p, trk p0 p -> 6 + 8 * mu p <= fuel ->
    wpx True False (commands_loop fuel cs stop n) p (fun _ p' => after p0 p p');
  ok_commands : forall stop p0 p, trk p0 p -> 7 + 8 * mu p <= fuel ->
    wpx True False (commands fuel stop) p (fun _ p' => after p0 p p');
  ok_commandsLimited : forall stop p0 p, trk p0 p -> 7 + 8 * mu p <= fuel ->
    wpx True False (commandsLimited fuel stop) p (fun _ p' => after p0 p p');
  ok_elif_loop : forall p0 p, trk p0 p -> 1 + 8 * mu p <= fuel ->
    wpx True False (elif_loop fuel) p (fun _ p' => after p0 p p');
  ok_args_loop : forall stop a p0 p, trk p0 p -> 4 + 8 * mu p <= fuel ->
    wpx True False (args_loop fuel stop a) p (fun _ p' => after p0 p p');
  ok_binaryExpr : forall op left p0 p, trk p0 p -> 6 + 8 * mu p <= fuel ->
    wpx True False (binaryExpr fuel op left) p (fun _ p' => after p0 p p');
  ok_gotRedirect : forall p0 p, trk p0 p -> 3 + 8 * mu p <= fuel ->
    wpx True False (gotRedirect fuel) p
      (fun b p' => after p0 p p' /\ (if b then mu p' < mu p else tok p' = tok p));
  ok_parts_loop : forall w p0 p, trk p0 p -> 1 + 8 * mu p <= fuel ->
    wpx True False (parts_loop fuel w) p
      (fun _ p' => after p0 p p' /\ (mu p' < mu p \/ p' = p));
  ok_word : forall p0 p, trk p0 p -> 2 + 8 * mu p <= fuel ->
    wpx True False (word fuel) p
      (fun _ p' => after p0 p p' /\ (tok p <> EOF -> mu p' < mu p));
  ok_wordList : forall p0 p, trk p0 p -> 4 + 8 * mu p <= fuel ->
    wpx True False (wordList fuel) p (fun _ p' => after p0 p p');
  ok_wordList_loop : forall n p0 p, trk p0 p -> 3 + 8 * mu p <= fuel ->
    wpx True False (wordList_loop fuel n) p (fun _ p' => after p0 p p')
}.

Ltac with_trk tac :=
  lazymatch goal with
  | |- wpx _ _ _ ?p _ =>
      lazymatch goal with
      | H : trk ?p0 p |- _ => tac p0 H
      end
  end.

Ltac w_bind := apply wpx_bind.

Ltac w_if :=
  match goal with
  | |- wpx _ _ (if ?b then _ else _) _ _ => destruct b eqn:?
  | |- wpx _ _ (bind (if ?b then _ else _) _) _ _ => destruct b eqn:?
  end.

Ltac w_gets :=
  lazymatch goal with
  | |- wpx _ _ (bind (gets _) _) _ _ => apply wpx_bind, wpx_gets; cbv beta
  | |- wpx _ _ (bind at_EOF _) _ _ => unfold at_EOF at 1; apply wpx_bind, wpx_gets; cbv beta
  | |- wpx _ _ (bind (peekAny _) _) _ _ => unfold peekAny at 1; apply wpx_bind, wpx_gets; cbv beta
  | |- wpx _ _ (bind (loadSeq _) _) _ _ => unfold loadSeq at 1; apply wpx_bind, wpx_gets; cbv beta
  | |- wpx _ _ (bind (loadOne _) _) _ _ => unfold loadOne at 1; apply wpx_bind, wpx_gets; cbv beta
  end.

Ltac w_got :=
  lazymatch goal with
  | |- wpx _ _ (bind (got _) _) _ _ => apply wpx_bind
  | |- wpx _ _ (got _) _ _ => idtac
  end;
  with_trk ltac:(fun p0 H => refine (got_step True False _ p0 _ _ _ H _ _));
  [ discriminate | intros ?p ?T ?M ?Hpk ?F | intros ?Hpk ]; cbv beta iota.

Ltac w_want :=
  lazymatch goal with
  | |- wpx _ _ (bind (want _) _) _ _ => apply wpx_bind
  | |- wpx _ _ (want _) _ _ => idtac
  end;
  with_trk ltac:(fun p0 H => refine (want_step True False _ p0 _ _ _ H _));
  [ discriminate | intros ?p ?T ?M ?Ms ?F; cbv beta ].

Ltac heap_lemma :=
  first [ apply heap_only_newSeq | apply heap_only_newOne | apply heap_only_push
        | apply heap_only_pop | apply heap_only_add | apply heap_only_popAdd
        | apply heap_only_loadSeq | apply heap_only_loadOne ].

Ltac w_heap :=
  lazymatch goal with
  | |- wpx _ _ (bind _ _) _ _ => apply wpx_bind
  | |- _ => idtac
  end;
  with_trk ltac:(fun p0 H => refine (heap_step False _ p0 _ _ _ H _));
  [ heap_lemma | intros ? ?p ?T ?M ?Tk ?Ss; cbv beta ].

Ltac w_err :=
  lazymatch goal with
  | |- wpx _ _ (bind _ _) _ _ => apply wpx_bind
  | |- _ => idtac
  end;
  with_trk ltac:(fun p0 H =>
    lazymatch goal with
    | |- wpx _ _ (errWantedStr _) _ _ => refine (errWantedStr_step True False _ p0 _ _ H _)
    | |- wpx _ _ (errAfterStr _) _ _ => refine (errAfterStr_step True False _ p0 _ _ H _)
    | |- wpx _ _ (posErr _ _) _ _ => refine (posErr_step True False _ _ p0 _ _ H _)
    end);
  intros ?p ?T ?M ?Ms ?F ?E ?Te; cbv beta.

Ltac find_trk :=
  lazymatch goal with
  | |- trk ?p0 ?p => lazymatch goal with H : trk p0 p |- _ => exact H end
  end.

Ltac w_done :=
  lazymatch goal with
  | |- wpx _ _ (ret _) _ _ => apply wpx_ret
  | |- _ => idtac
  end;
  unfold after; repeat match goal with |- _ /\ _ => split end;
  try find_trk; try lia;
  try (intros ?Te;
       repeat match goal with
              | H : ?A -> _, H' : ?A |- _ => specialize (H H')
              end; lia).

(** Calling a rule: [lem] is its entry in [rules_ok]. *)
Tactic Notation "w_call" uconstr(lem) :=
  lazymatch goal with
  | |- wpx _ _ (bind _ _) _ _ => apply wpx_bind
  | |- _ => idtac
  end;
  with_trk ltac:(fun p0 H =>
    eapply wpx_conseq; [refine (lem p0 _ H _); lia | ]);
  cbv beta; unfold after; intros ? ?p ?C.
Section Rules.
Variable fuel : nat.
Hypothesis IH : rules_ok fuel.

Lemma parts_loop_ok w p0 p :
  trk p0 p -> 1 + 8 * mu p <= S fuel ->
  wpx True False (parts_loop (S fuel) w) p
    (fun _ p' => after p0 p p' /\ (mu p' < mu p \/ p' = p)).
Proof.
  intros T Hf. cbn [parts_loop].
  w_gets. w_if; [w_done; auto|].
  w_gets. w_gets. w_if; [w_done; auto|].
  w_got.
  - w_gets. w_heap.
    w_call (ok_parts_loop _ IH w). destruct C as [[T2 M2] _]. w_done.
  - w_got; [|w_done; auto].
    w_gets. w_if.
    + w_bind. w_bind.
      assert (Te : tok p1 <> EOF) by (apply (peek_not_eof LBRACE); [discriminate | assumption]).
      with_trk ltac:(fun q0 H => refine (readUntilWant_step True False _ q0 _ _ H Te _)).
      intros s p2 T2 M2 X2. w_heap.
      with_trk ltac:(fun q0 H => refine (next_step True False q0 _ _ H _ _)).
      { eapply scan_state_exhausted; eassumption. }
      intros p4 T4 M4.
      w_call (ok_parts_loop _ IH w). destruct C as [[T5 M5] _]. w_done.
    + w_bind. w_got.
      * w_heap. w_heap. w_call (ok_commandsLimited _ IH [RPAREN]). destruct C as [T6 M6].
        w_gets. w_heap. w_want.
        w_call (ok_parts_loop _ IH w). destruct C as [[T9 M9] _]. w_done.
      * w_want. w_gets. w_heap.
        w_call (ok_parts_loop _ IH w). destruct C as [[T9 M9] _]. w_done.
Qed.

Lemma nth_fresh {A} (l : list A) (x d : A) : nth (length l) (l ++ [x]) d = x.
Proof. rewrite app_nth2, Nat.sub_diag by lia. reflexivity. Qed.

Lemma word_ok p0 p :
  trk p0 p -> 2 + 8 * mu p <= S fuel ->
  wpx True False (word (S fuel)) p
    (fun _ p' => after p0 p p' /\ (tok p <> EOF -> mu p' < mu p)).
Proof.
  intros T Hf. cbn [word].
  unfold newSeq at 1. apply wpx_bind. apply wpx_bind, wpx_gets.
  apply wpx_bind, wpx_modify. apply wpx_ret.
  unfold push at 1. apply wpx_bind, wpx_modify.
  set (p1 := set_stack _ _).
  assert (S1 : scan_state p1 = scan_state p) by reflexivity.
  destruct (scan_state_trk p0 p p1 S1 T) as (T1 & M1 & Tk1).
  assert (L1 : nth (length (seqs p)) (seqs p1) [] = []) by (unfold p1; psimpl; apply nth_fresh).
  clearbody p1.
  w_call (ok_parts_loop _ IH (length (seqs p))). destruct C as [[T2 M2] D2].
  w_gets. w_if.
  - w_err. w_gets. w_heap. w_done.
    intros Te0. destruct D2 as [D2|D2]; [lia|]. subst p2.
    assert (mu p3 < mu p1) by (apply Ms; congruence). lia.
  - w_bind. apply wpx_ret. w_gets. w_heap. w_done.
    intros Te0. destruct D2 as [D2|D2]; [lia|]. subst p2. rewrite L1 in Heqb. discriminate.
Qed.

Lemma wordList_loop_ok n p0 p :
  trk p0 p -> 3 + 8 * mu p <= S fuel ->
  wpx True False (wordList_loop (S fuel) n) p (fun _ p' => after p0 p p').
Proof.
  intros T Hf. cbn [wordList_loop].
  w_gets. w_if; [w_done|].
  assert (Te : tok p <> EOF) by (intros E; rewrite E in Heqb; discriminate).
  unfold orM. w_bind. w_got.
  - apply wpx_ret. w_done.
  - w_got.
    + w_done.
    + w_call (ok_word _ IH). destruct C as [[T2 M2] D2].
      specialize (D2 Te).
      w_call (ok_wordList_loop _ IH (n + 1)%Z). destruct C as [T3 M3]. w_done.
Qed.

Lemma wordList_ok p0 p :
  trk p0 p -> 4 + 8 * mu p <= S fuel ->
  wpx True False (wordList (S fuel)) p (fun _ p' => after p0 p p').
Proof.
  intros T Hf. cbn [wordList].
  eapply wpx_conseq; [apply (ok_wordList_loop _ IH 0%Z p0 p T); lia|].
  cbv beta. auto.
Qed.

Lemma gotRedirect_ok p0 p :
  trk p0 p -> 3 + 8 * mu p <= S fuel ->
  wpx True False (gotRedirect (S fuel)) p
    (fun b p' => after p0 p p' /\ (if b then mu p' < mu p else tok p' = tok p)).
Proof.
  intros T Hf. cbn [gotRedirect].
  w_heap. w_heap.
  w_got.
  { w_call (ok_word _ IH). destruct C as [[T4 M4] _]. w_gets. w_heap. w_done. }
  w_got.
  { w_call (ok_word _ IH). destruct C as [[T4 M4] _]. w_gets. w_heap. w_done. }
  w_got.
  { w_call (ok_word _ IH). destruct C as [[T4 M4] _]. w_gets. w_heap. w_done. }
  w_heap. w_done. congruence.
Qed.

Lemma binaryExpr_ok op left p0 p :
  trk p0 p -> 6 + 8 * mu p <= S fuel ->
  wpx True False (binaryExpr (S fuel) op left) p (fun _ p' => after p0 p p').
Proof.
  intros T Hf. cbn [binaryExpr].
  w_heap. w_heap. w_call (ok_command _ IH (@nil Token)). destruct C as [[T3 M3] _].
  w_heap. w_gets. w_heap. w_done.
Qed.

Lemma commands_loop_ok cs stop n p0 p :
  trk p0 p -> 6 + 8 * mu p <= S fuel ->
  wpx True False (commands_loop (S fuel) cs stop n) p (fun _ p' => after p0 p p').
Proof.
  intros T Hf. cbn [commands_loop].
  w_gets. w_if; [w_done|].
  assert (Te : tok p <> EOF) by (intros E; rewrite E in Heqb; discriminate).
  w_gets. w_if; [w_done|].
  w_call (ok_command _ IH cs). destruct C as [[T2 M2] D2]. specialize (D2 Te).
  w_call (ok_commands_loop _ IH cs stop (n + 1)%Z). destruct C as [T3 M3]. w_done.
Qed.

Lemma commands_ok stop p0 p :
  trk p0 p -> 7 + 8 * mu p <= S fuel ->
  wpx True False (commands (S fuel) stop) p (fun _ p' => after p0 p p').
Proof.
  intros T Hf. cbn [commands].
  eapply wpx_conseq; [apply (ok_commands_loop _ IH [] stop 0%Z p0 p T); lia|].
  cbv beta. auto.
Qed.

Lemma commandsLimited_ok stop p0 p :
  trk p0 p -> 7 + 8 * mu p <= S fuel ->
  wpx True False (commandsLimited (S fuel) stop) p (fun _ p' => after p0 p p').
Proof.
  intros T Hf. cbn [commandsLimited].
  eapply wpx_conseq; [apply (ok_commands_loop _ IH stop stop 0%Z p0 p T); lia|].
  cbv beta. auto.
Qed.

Lemma elif_loop_ok p0 p :
  trk p0 p -> 1 + 8 * mu p <= S fuel ->
  wpx True False (elif_loop (S fuel)) p (fun _ p' => after p0 p p').
Proof.
  intros T Hf. cbn [elif_loop].
  w_got; [|w_done].
  w_heap. w_heap. w_heap.
  w_call (ok_command _ IH (@nil Token)). destruct C as [[T5 M5] _].
  w_heap. w_want. w_heap.
  w_call (ok_commands _ IH [FI; ELIF; ELSE]). destruct C as [T9 M9].
  w_gets. w_gets. w_heap.
  w_call (ok_elif_loop _ IH). destruct C as [T11 M11]. w_done.
Qed.

Lemma args_loop_ok stop a p0 p :
  trk p0 p -> 4 + 8 * mu p <= S fuel ->
  wpx True False (args_loop (S fuel) stop a) p (fun _ p' => after p0 p p').
Proof.
  intros T Hf. cbn [args_loop].
  w_gets. w_if; [w_done|].
  assert (Te : tok p <> EOF) by (intros E; rewrite E in Heqb; discriminate).
  w_gets. w_if; [w_done|].
  w_gets. w_if.
  { w_call (ok_word _ IH). destruct C as [[T2 M2] D2]. specialize (D2 Te).
    w_call (ok_args_loop _ IH stop a). destruct C as [T3 M3]. w_done. }
  w_got.
  { w_gets. w_call (ok_binaryExpr _ IH LAND _). destruct C as [T3 M3]. w_done. }
  w_got.
  { w_gets. w_call (ok_binaryExpr _ IH OR _). destruct C as [T3 M3]. w_done. }
  w_got.
  { w_gets. w_call (ok_binaryExpr _ IH LOR _). destruct C as [T3 M3]. w_done. }
  w_call (ok_gotRedirect _ IH). destruct C as [[T2 M2] D2].
  match goal with |- wpx _ _ (if ?b then _ else _) _ _ => destruct b end.
  { w_call (ok_args_loop _ IH stop a). destruct C as [T3 M3]. w_done. }
  w_got; [w_done|].
  unfold orM. w_bind. w_got.
  { apply wpx_ret. w_done. }
  w_got.
  { w_done. }
  assert (Te2 : tok p1 <> EOF) by congruence.
  w_err. specialize (Ms Te2).
  w_call (ok_args_loop _ IH stop a). destruct C as [T4 M4]. w_done.
Qed.

Lemma command_ok stop p0 p :
  trk p0 p -> 5 + 8 * mu p <= S fuel ->
  wpx True False (command (S fuel) stop) p
    (fun _ p' => after p0 p p' /\ (tok p <> EOF -> mu p' < mu p)).
Proof.
  intros T Hf. cbn [command].
  (* comment *)
  w_got.
  { w_gets. w_heap. w_done. }
  (* newline *)
  unfold orM at 1. w_bind. w_bind. w_got.
  { apply wpx_ret. cbv iota. w_gets. w_if; [|w_done].
    w_call (ok_command _ IH (@nil Token)). destruct C as [[T2 M2] _]. w_done. }
  w_got.
  { w_gets. w_if; [|w_done].
    w_call (ok_command _ IH (@nil Token)). destruct C as [[T2 M2] _]. w_done. }
  (* subshell *)
  w_got.
  { w_heap. w_heap. w_call (ok_commandsLimited _ IH [RPAREN]). destruct C as [T4 M4].
    w_if.
    - w_err. w_want. w_gets. w_heap. w_done.
    - w_bind. apply wpx_ret. w_want. w_gets. w_heap. w_done. }
  (* block *)
  w_got.
  { w_heap. w_heap. w_call (ok_commands _ IH [RBRACE]). destruct C as [T4 M4].
    w_if.
    - w_err. w_want. w_gets. w_heap. w_done.
    - w_bind. apply wpx_ret. w_want. w_gets. w_heap. w_done. }
  (* if *)
  w_got.
  { w_heap. w_heap. w_heap. w_heap. w_heap.
    w_call (ok_command _ IH (@nil Token)). destruct C as [[T7 M7] _].
    w_heap. w_want. w_heap.
    w_call (ok_commands _ IH [FI; ELIF; ELSE]). destruct C as [T11 M11].
    w_heap. w_heap.
    w_call (ok_elif_loop _ IH). destruct C as [T14 M14].
    w_got.
    - w_bind. w_heap. w_heap. w_call (ok_commands _ IH [FI]). destruct C as [T18 M18].
      apply wpx_ret. w_want. w_gets. w_gets. w_gets. w_gets. w_heap. w_done.
    - w_bind. apply wpx_ret. w_want. w_gets. w_gets. w_gets. w_gets. w_heap. w_done. }
  (* while *)
  w_got.
  { w_heap. w_heap. w_heap.
    w_call (ok_command _ IH (@nil Token)). destruct C as [[T5 M5] _].
    w_heap. w_want. w_heap.
    w_call (ok_commands _ IH [DONE]). destruct C as [T9 M9].
    w_want. w_gets. w_gets. w_heap. w_done. }
  (* for *)
  w_got.
  { w_heap. w_heap. w_want. w_gets. w_want. w_heap.
    w_call (ok_wordList _ IH). destruct C as [T7 M7].
    w_heap. w_want. w_heap.
    w_call (ok_commands _ IH [DONE]). destruct C as [T11 M11].
    w_want. w_gets. w_gets. w_heap. w_done. }
  (* simple command or function declaration *)
  w_gets. w_if.
  { w_heap. w_heap.
    w_call (ok_word _ IH). destruct C as [[T3 M3] D3].
    assert (D : tok p <> EOF -> mu p3 < mu p) by (intros Te; assert (mu p3 < mu p2) by (apply D3; congruence); lia).
    clear D3.
    w_gets. w_gets. w_got.
    - w_want. w_bind. w_if.
      + w_err. w_heap. w_heap.
        w_call (ok_command _ IH (@nil Token)). destruct C as [[T9 M9] _].
        w_heap. w_gets. w_heap. w_done.
      + apply wpx_ret. w_heap. w_heap.
        w_call (ok_command _ IH (@nil Token)). destruct C as [[T9 M9] _].
        w_heap. w_gets. w_heap. w_done.
    - w_call (ok_args_loop _ IH stop _). destruct C as [T5 M5].
      match goal with |- wpx _ _ (match ?o with _ => _ end) _ _ => destruct o as [bg|] end.
      + w_gets. w_heap. w_done.
      + w_done. }
  w_err. w_done.
Qed.

Lemma rules_ok_step : rules_ok (S fuel).
Proof.
  constructor.
  - exact command_ok.
  - exact commands_loop_ok.
  - exact commands_ok.
  - exact commandsLimited_ok.
  - exact elif_loop_ok.
  - exact args_loop_ok.
  - exact binaryExpr_ok.
  - exact gotRedirect_ok.
  - exact parts_loop_ok.
  - exact word_ok.
  - exact wordList_ok.
  - exact wordList_loop_ok.
Qed.

End Rules.

Lemma rules_ok_all fuel : rules_ok fuel.
Proof.
  induction fuel as [|fuel IH]; [|exact (rules_ok_step fuel IH)].
  constructor; intros; lia.
Qed.

(** ** A word without parts *)

Definition slot_free (s : slot) (p : parser) : Prop :=
  match s with
  | PSeq a => a < length (seqs p)
  | POne a => a < length (ones p) /\ nth a (ones p) None = None
  end.

Definition slot_holds (s : slot) (p : parser) : list Node :=
  match s with
  | PSeq a => nth a (seqs p) []
  | POne a => match nth a (ones p) None with Some n => [n] | None => [] end
  end.

Lemma nth_upd_same {A} (l : list A) i x d : i < length l -> nth i (upd l i x) d = x.
Proof.
  revert i; induction l as [|h t IH]; intros [|i] H; simpl in *; try lia; auto.
  apply IH; lia.
Qed.

Lemma peek_other (t : Token) (p : parser) :
  tok p <> t -> tok p <> LIT -> peek t p = false.
Proof.
  intros H1 H2. unfold peek.
  rewrite (Token_eqb_neq _ _ H1), (Token_eqb_neq _ _ H2). reflexivity.
Qed.

Lemma run_bind {A B} (m : M A) (k : A -> M B) p a p' :
  m p = Done (a, p') -> bind m k p = k a p'.
Proof. intros H. unfold bind. rewrite H. reflexivity. Qed.

Lemma length_upd {A} (l : list A) i x : length (upd l i x) = length l.
Proof.
  revert i; induction l as [|h t IH]; intros [|i]; simpl; auto.
Qed.

Lemma got_false t p : peek t p = false -> got t p = Done (false, p).
Proof. intros H. unfold got, bind, gets. rewrite H. reflexivity. Qed.

Lemma parts_loop_no_part fuel w p :
  tok p <> LIT -> tok p <> EXP -> nth w (seqs p) [] = [] ->
  parts_loop (S fuel) w p = Done (tt, p).
Proof.
  intros HL HE Hw. cbn [parts_loop]. unfold bind at 1, at_EOF, gets.
  destruct (Token_eqb (tok p) EOF); [reflexivity|].
  unfold bind at 1, loadSeq, gets. unfold bind at 1, gets. rewrite Hw. cbn [length Nat.ltb Nat.leb andb].
  unfold bind at 1. rewrite (got_false LIT p) by (apply peek_other; auto).
  unfold bind at 1. rewrite (got_false EXP p) by (apply peek_other; auto).
  reflexivity.
Qed.

Lemma word_no_part (fuel : nat) (p : parser) (s : slot) (st : list slot) :
  tok p <> LIT -> tok p <> EXP ->
  stack p = s :: st -> slot_free s p ->
  exists p',
    word (S (S fuel)) p = Done (tt, p')
    /\ err p' = Some (match err p with
                      | Some e => e
                      | None => lineErr (name p)
                                  (if Token_eqb (tok p) EOF then npos p else pos p)
                                  (wanted_text (tok p) "word")
                      end)
    /\ tok p' = EOF
    /\ stack p' = stack p
    /\ slot_holds s p' = slot_holds s p ++ [Word []].
Proof.
  intros HL HE Hst Hfree.
  set (w := length (seqs p)).
  set (p1 := set_seqs (seqs p ++ [[]]) p).
  set (p2 := set_stack (PSeq w :: stack p) p1).
  set (p3 := set_toks (if Token_eqb (tok p) EOF then ltok p else tok p) EOF
               (if Token_eqb (tok p) EOF then lval p else val p) "EOF"
               (set_err (match err p with
                         | None => Some (lineErr (name p)
                                     (if Token_eqb (tok p) EOF then npos p else pos p)
                                     (wanted_text (tok p) "word"))
                         | Some e0 => Some e0
                         end)
                  (set_pos (if Token_eqb (tok p) EOF then npos p else pos p) p2))).
  set (p4 := set_stack (stack p) p3).
  assert (Hw : nth w (seqs p2) [] = []) by apply nth_fresh.
  cbn [word].
  rewrite (run_bind newSeq _ p w p1 eq_refl).
  rewrite (run_bind (push (PSeq w)) _ p1 tt p2 eq_refl).
  rewrite (run_bind (parts_loop (S fuel) w) _ p2 tt p2)
    by (apply parts_loop_no_part; auto).
  rewrite (run_bind (loadSeq w) _ p2 [] p2) by (unfold loadSeq, gets; rewrite Hw; reflexivity).
  cbn [length Nat.eqb].
  rewrite (run_bind (errWantedStr "word") _ p2 tt p3 eq_refl).
  rewrite (run_bind (loadSeq w) _ p3 [] p3) by (unfold loadSeq, gets; f_equal; f_equal; exact Hw).
  unfold popAdd.
  rewrite (run_bind pop _ p3 tt p4 eq_refl).
  unfold add. rewrite (run_bind (gets stack) _ p4 (s :: st) p4)
    by (unfold gets; f_equal; f_equal; exact Hst).
  destruct s as [a|a]; cbn [slot_free slot_holds] in *.
  - unfold modify. eexists. split; [reflexivity|]. psimpl.
    split; [destruct (err p); reflexivity|]. split; [reflexivity|]. split; [reflexivity|].
    change (seqs p4) with (seqs p ++ [[]]).
    rewrite nth_upd_same by (rewrite length_app; cbn; lia).
    rewrite app_nth1 by exact Hfree. reflexivity.
  - destruct Hfree as [Ha Hn].
    rewrite (run_bind (loadOne a) _ p4 None p4)
      by (unfold loadOne, gets; f_equal; f_equal; exact Hn).
    unfold modify. eexists. split; [reflexivity|]. psimpl.
    split; [destruct (err p); reflexivity|]. split; [reflexivity|]. split; [reflexivity|].
    change (ones p4) with (ones p).
    rewrite nth_upd_same by exact Ha. rewrite Hn. reflexivity.
Qed.

(** ** Quoted regions that the input leaves open *)


(** The cursor after a rune, and after a run of runes. *)
Definition move_pos (ps : position) (c : rune) : position :=
  if Ascii.eqb c NL
  then {| line := line ps + 1; col := 1 |}
  else {| line := line ps; col := col ps + 1 |}.

Definition end_pos (ps : position) (cs : list rune) : position :=
  fold_left move_pos cs ps.





(** ** The builder stack is never misused *)

(** The single-node cells that exist in [p0] are the same in [p]. *)
Definition kept (p0 p : parser) : Prop :=
  length (ones p0) <= length (ones p)
  /\ forall a, a < length (ones p0) -> nth a (ones p) None = nth a (ones p0) None.

(** Of the single-node cells of [p], only the one of [s] may have changed. *)
Definition wrote (s : slot) (p p' : parser) : Prop :=
  length (ones p) <= length (ones p')
  /\ forall a, a < length (ones p) -> s <> POne a ->
               nth a (ones p') None = nth a (ones p) None.

(** A node may be added through [s]. *)
Definition slot_ok (s : slot) (p : parser) : Prop :=
  match s with
  | PSeq _ => True
  | POne a => a < length (ones p) /\ nth a (ones p) None = None
  end.

(** [s] is a sequence, or a single-node cell made after [p0]. *)
Definition foreign (p0 : parser) (s : slot) : Prop :=
  match s with
  | PSeq _ => True
  | POne c => length (ones p0) <= c
  end.

Record hst (p0 p : parser) (l : list slot) : Prop := {
  hs_stack : stack p = l;
  hs_kept : kept p0 p
}.

Lemma kept_refl p : kept p p.
Proof. split; auto. Qed.

Lemma kept_trans p1 p2 p3 : kept p1 p2 -> kept p2 p3 -> kept p1 p3.
Proof.
  intros [L1 K1] [L2 K2]. split; [lia|].
  intros a Ha. rewrite K2 by lia. apply K1; exact Ha.
Qed.

Lemma kept_same p0 p p' : kept p0 p -> ones p' = ones p -> kept p0 p'.
Proof. unfold kept. intros K E. rewrite E. exact K. Qed.

Lemma kept_wrote p0 p p' s :
  kept p0 p -> wrote s p p' -> foreign p0 s -> kept p0 p'.
Proof.
  intros [L1 K1] [L2 K2] Fo. split; [lia|].
  intros a Ha. rewrite K2; [apply K1; exact Ha | lia |].
  intros ->. cbn in Fo. lia.
Qed.

Lemma wrote_after_kept s p0 p p' : kept p0 p -> wrote s p p' -> wrote s p0 p'.
Proof.
  intros [L1 K1] [L2 K2]. split; [lia|].
  intros a Ha Hs. rewrite K2 by (auto; lia). apply K1; exact Ha.
Qed.

Lemma kept_is_wrote s p p' : kept p p' -> wrote s p p'.
Proof. intros [L K]. split; auto. Qed.

Lemma wrote_seq a p p' : wrote (PSeq a) p p' -> kept p p'.
Proof. intros [L K]. split; auto. intros b Hb. apply K; [exact Hb | discriminate]. Qed.

Lemma slot_ok_kept s p0 p : slot_ok s p0 -> kept p0 p -> slot_ok s p.
Proof.
  destruct s as [a|a]; cbn; auto. intros [Ha Hn] [L K]. split; [lia|].
  rewrite K by exact Ha. exact Hn.
Qed.

Lemma slot_ok_same s p p' : slot_ok s p -> ones p' = ones p -> slot_ok s p'.
Proof. destruct s; cbn; auto. intros H E. rewrite E. exact H. Qed.

Lemma hst_frame p0 p p' l : hst p0 p l -> frame p p' -> hst p0 p' l /\ ones p' = ones p.
Proof.
  intros [Hs Hk] (_ & Fs & _ & Fo & _). split; [|exact Fo].
  split; [congruence | exact (kept_same _ _ _ Hk Fo)].
Qed.

Lemma got_h XP XF t p0 p l (Q : bool -> parser -> Prop) :
  hst p0 p l ->
  (forall b p', hst p0 p' l -> ones p' = ones p -> Q b p') ->
  wpx XP XF (got t) p Q.
Proof.
  intros H HQ. unfold got. apply wpx_bind, wpx_gets. destruct (peek t p).
  - apply wpx_bind, next_spec. intros p' [S _]. apply wpx_ret.
    destruct (hst_frame _ _ _ _ H (scan_frame _ _ S)). apply HQ; auto.
  - apply wpx_ret. apply HQ; auto.
Qed.

Lemma next_h XP XF p0 p l (Q : unit -> parser -> Prop) :
  hst p0 p l ->
  (forall p', hst p0 p' l -> ones p' = ones p -> Q tt p') ->
  wpx XP XF next p Q.
Proof.
  intros H HQ. apply next_spec. intros p' [S _].
  destruct (hst_frame _ _ _ _ H (scan_frame _ _ S)). apply HQ; auto.
Qed.

Lemma errWantedStr_h XP XF s p0 p l (Q : unit -> parser -> Prop) :
  hst p0 p l ->
  (forall p', hst p0 p' l -> ones p' = ones p -> Q tt p') ->
  wpx XP XF (errWantedStr s) p Q.
Proof.
  intros H HQ. apply errWantedStr_spec. intros p' _ _ F _ _ _.
  destruct (hst_frame _ _ _ _ H F). apply HQ; auto.
Qed.

Lemma errAfterStr_h XP XF s p0 p l (Q : unit -> parser -> Prop) :
  hst p0 p l ->
  (forall p', hst p0 p' l -> ones p' = ones p -> Q tt p') ->
  wpx XP XF (errAfterStr s) p Q.
Proof.
  intros H HQ. apply errAfterStr_spec. intros p' _ _ F _ _ _.
  destruct (hst_frame _ _ _ _ H F). apply HQ; auto.
Qed.

Lemma posErr_h XP XF ps text p0 p l (Q : unit -> parser -> Prop) :
  hst p0 p l ->
  (forall p', hst p0 p' l -> ones p' = ones p -> Q tt p') ->
  wpx XP XF (posErr ps text) p Q.
Proof.
  intros H HQ. apply posErr_spec. intros p' _ _ F _ _ _.
  destruct (hst_frame _ _ _ _ H F). apply HQ; auto.
Qed.

Lemma want_h XP XF t p0 p l (Q : unit -> parser -> Prop) :
  hst p0 p l ->
  (forall p', hst p0 p' l -> ones p' = ones p -> Q tt p') ->
  wpx XP XF (want t) p Q.
Proof.
  intros H HQ. unfold want. apply wpx_bind, wpx_gets. destruct (negb (peek t p)).
  - unfold errWanted. apply (errWantedStr_h XP XF _ p0 p l); auto.
  - apply (next_h XP XF p0 p l); auto.
Qed.

Lemma readUntilWant_h XP XF t p0 p l (Q : string -> parser -> Prop) :
  hst p0 p l ->
  (forall s p', hst p0 p' l -> ones p' = ones p -> Q s p') ->
  wpx XP XF (readUntilWant t) p Q.
Proof.
  intros H HQ. apply readUntilWant_spec. intros s p' S _.
  destruct (hst_frame _ _ _ _ H (scan_frame _ _ S)). apply HQ; auto.
Qed.

Lemma newOne_h XP XF p0 p l (Q : nat -> parser -> Prop) :
  hst p0 p l ->
  (forall c p', hst p0 p' l -> slot_ok (POne c) p' -> foreign p0 (POne c) -> Q c p') ->
  wpx XP XF newOne p Q.
Proof.
  intros [Hs [L K]] HQ. unfold newOne. apply wpx_bind, wpx_gets.
  apply wpx_bind, wpx_modify. apply wpx_ret. apply HQ.
  - split; [exact Hs|]. unfold kept; psimpl. rewrite length_app. cbn. split; [lia|].
    intros a Ha. rewrite app_nth1 by lia. apply K; exact Ha.
  - cbn; psimpl. rewrite length_app. cbn. split; [lia | apply nth_fresh].
  - cbn. exact L.
Qed.

Lemma newSeq_h XP XF p0 p l (Q : nat -> parser -> Prop) :
  hst p0 p l ->
  (forall c p', hst p0 p' l -> ones p' = ones p -> Q c p') ->
  wpx XP XF newSeq p Q.
Proof.
  intros [Hs Hk] HQ. unfold newSeq. apply wpx_bind, wpx_gets.
  apply wpx_bind, wpx_modify. apply wpx_ret. apply HQ; [split|]; auto.
Qed.

Lemma push_h XP XF v p0 p l (Q : unit -> parser -> Prop) :
  hst p0 p l ->
  (forall p', hst p0 p' (v :: l) -> ones p' = ones p -> Q tt p') ->
  wpx XP XF (push v) p Q.
Proof.
  intros [Hs Hk] HQ. unfold push. apply wpx_modify. apply HQ; [split|]; auto.
  psimpl. congruence.
Qed.

Lemma pop_h XP XF x p0 p l (Q : unit -> parser -> Prop) :
  hst p0 p (x :: l) ->
  (forall p', hst p0 p' l -> ones p' = ones p -> Q tt p') ->
  wpx XP XF pop p Q.
Proof.
  intros [Hs Hk] HQ. unfold pop. apply wpx_bind, wpx_gets. rewrite Hs.
  apply wpx_modify. apply HQ; [split|]; auto.
Qed.

(** Adding a node through the slot [s] on top of the stack. *)
Lemma add_spec XP XF n s l p (Q : unit -> parser -> Prop) :
  stack p = s :: l -> slot_ok s p ->
  (forall p', stack p' = s :: l -> wrote s p p' ->
              (forall a, s = PSeq a -> ones p' = ones p) -> Q tt p') ->
  wpx XP XF (add n) p Q.
Proof.
  intros Hs Hok HQ. unfold add. apply wpx_bind, wpx_gets. rewrite Hs.
  destruct s as [a|a].
  - apply wpx_modify. apply HQ; psimpl; auto. split; psimpl; auto.
  - destruct Hok as [Ha Hn]. unfold loadOne. apply wpx_bind, wpx_gets. rewrite Hn.
    apply wpx_modify. apply HQ.
    + psimpl. exact Hs.
    + split; psimpl; [rewrite length_upd; lia|].
      intros b Hb Hne. assert (Hba : b <> a) by congruence.
      clear - Hba Hb Ha. revert a b Hba Hb Ha.
      induction (ones p) as [|h t IH]; intros [|a] [|b] H Hb Ha; cbn in *; try lia; auto.
      apply IH; lia.
    + intros b E. discriminate.
Qed.

Lemma add_seq_h XP XF n a p0 p l (Q : unit -> parser -> Prop) :
  hst p0 p (PSeq a :: l) ->
  (forall p', hst p0 p' (PSeq a :: l) -> ones p' = ones p -> Q tt p') ->
  wpx XP XF (add n) p Q.
Proof.
  intros [Hs Hk] HQ. apply (add_spec XP XF n (PSeq a) l p Q Hs I).
  intros p' Hs' W E. specialize (E a eq_refl).
  apply HQ; auto. split; [exact Hs' | exact (kept_same _ _ _ Hk E)].
Qed.

Lemma popAdd_seq_h XP XF n x a p0 p l (Q : unit -> parser -> Prop) :
  hst p0 p (x :: PSeq a :: l) ->
  (forall p', hst p0 p' (PSeq a :: l) -> ones p' = ones p -> Q tt p') ->
  wpx XP XF (popAdd n) p Q.
Proof.
  intros H HQ. unfold popAdd. apply wpx_bind. apply (pop_h XP XF x p0 p _ _ H).
  intros p1 H1 E1. apply (add_seq_h XP XF n a p0 p1 l); auto.
  intros p' H' E'. apply HQ; auto. congruence.
Qed.

(** The last step of a rule: the node goes through the slot [s] that was
    on top when the rule started in [p0]. *)
Lemma add_last XP XF n s p0 p l (Q : unit -> parser -> Prop) :
  hst p0 p (s :: l) -> slot_ok s p0 ->
  (forall p', stack p' = s :: l -> wrote s p0 p' -> Q tt p') ->
  wpx XP XF (add n) p Q.
Proof.
  intros [Hs Hk] Hok HQ.
  apply (add_spec XP XF n s l p Q Hs (slot_ok_kept _ _ _ Hok Hk)).
  intros p' Hs' W _. apply HQ; auto. exact (wrote_after_kept _ _ _ _ Hk W).
Qed.

Lemma popAdd_last XP XF n x s p0 p l (Q : unit -> parser -> Prop) :
  hst p0 p (x :: s :: l) -> slot_ok s p0 ->
  (forall p', stack p' = s :: l -> wrote s p0 p' -> Q tt p') ->
  wpx XP XF (popAdd n) p Q.
Proof.
  intros H Hok HQ. unfold popAdd. apply wpx_bind. apply (pop_h XP XF x p0 p _ _ H).
  intros p1 H1 E1. apply (add_last XP XF n s p0 p1 l); auto.
Qed.
Record rules_safe (fuel : nat) : Prop := {
  safe_command : forall stop s l p, stack p = s :: l -> slot_ok s p ->
    wpx False True (command fuel stop) p (fun _ p' => stack p' = s :: l /\ wrote s p p');
  safe_word : forall s l p, stack p = s :: l -> slot_ok s p ->
    wpx False True (word fuel) p (fun _ p' => stack p' = s :: l /\ wrote s p p');
  safe_gotRedirect : forall s l p, stack p = s :: l -> slot_ok s p ->
    wpx False True (gotRedirect fuel) p (fun _ p' => stack p' = s :: l /\ wrote s p p');
  safe_binaryExpr : forall op left x s l p, stack p = x :: s :: l -> slot_ok s p ->
    wpx False True (binaryExpr fuel op left) p
      (fun _ p' => stack p' = s :: l /\ wrote s p p');
  safe_args_loop : forall stop args a s l p, stack p = PSeq a :: s :: l -> slot_ok s p ->
    wpx False True (args_loop fuel stop args) p
      (fun o p' => match o with
                   | None => stack p' = s :: l /\ wrote s p p'
                   | Some _ => stack p' = PSeq a :: s :: l /\ kept p p'
                   end);
  safe_commands_loop : forall cs stop n a l p, stack p = PSeq a :: l ->
    wpx False True (commands_loop fuel cs stop n) p
      (fun _ p' => stack p' = PSeq a :: l /\ kept p p');
  safe_commands : forall stop a l p, stack p = PSeq a :: l ->
    wpx False True (commands fuel stop) p
      (fun _ p' => stack p' = PSeq a :: l /\ kept p p');
  safe_commandsLimited : forall stop a l p, stack p = PSeq a :: l ->
    wpx False True (commandsLimited fuel stop) p
      (fun _ p' => stack p' = PSeq a :: l /\ kept p p');
  safe_elif_loop : forall a l p, stack p = PSeq a :: l ->
    wpx False True (elif_loop fuel) p
      (fun _ p' => stack p' = PSeq a :: l /\ kept p p');
  safe_parts_loop : forall w a l p, stack p = PSeq a :: l ->
    wpx False True (parts_loop fuel w) p
      (fun _ p' => stack p' = PSeq a :: l /\ kept p p');
  safe_wordList : forall a l p, stack p = PSeq a :: l ->
    wpx False True (wordList fuel) p
      (fun _ p' => stack p' = PSeq a :: l /\ kept p p');
  safe_wordList_loop : forall n a l p, stack p = PSeq a :: l ->
    wpx False True (wordList_loop fuel n) p
      (fun _ p' => stack p' = PSeq a :: l /\ kept p p')
}.

Lemma call_seq {A} (m : M A) a p0 p l (Q : A -> parser -> Prop) :
  hst p0 p (PSeq a :: l) ->
  (stack p = PSeq a :: l ->
   wpx False True m p (fun _ p' => stack p' = PSeq a :: l /\ kept p p')) ->
  (forall x p', hst p0 p' (PSeq a :: l) -> Q x p') ->
  wpx False True m p Q.
Proof.
  intros [Hs Hk] Hm HQ. eapply wpx_conseq; [exact (Hm Hs)|].
  cbv beta. intros x p' [Hs' Hk']. apply HQ. split; [exact Hs'|].
  exact (kept_trans _ _ _ Hk Hk').
Qed.

Lemma call_one {A} (m : M A) s p0 p l (Q : A -> parser -> Prop) :
  hst p0 p (s :: l) -> slot_ok s p -> foreign p0 s ->
  (stack p = s :: l -> slot_ok s p ->
   wpx False True m p (fun _ p' => stack p' = s :: l /\ wrote s p p')) ->
  (forall x p', hst p0 p' (s :: l) -> Q x p') ->
  wpx False True m p Q.
Proof.
  intros [Hs Hk] Hok Fo Hm HQ. eapply wpx_conseq; [exact (Hm Hs Hok)|].
  cbv beta. intros x p' [Hs' W]. apply HQ. split; [exact Hs'|].
  exact (kept_wrote _ _ _ _ Hk W Fo).
Qed.

Lemma call_tail {A} (m : M A) s p0 p l (Q : A -> parser -> Prop) :
  hst p0 p (s :: l) -> slot_ok s p0 ->
  (stack p = s :: l -> slot_ok s p ->
   wpx False True m p (fun _ p' => stack p' = s :: l /\ wrote s p p')) ->
  (forall x p', stack p' = s :: l -> wrote s p0 p' -> Q x p') ->
  wpx False True m p Q.
Proof.
  intros [Hs Hk] Hok Hm HQ.
  eapply wpx_conseq; [exact (Hm Hs (slot_ok_kept _ _ _ Hok Hk))|].
  cbv beta. intros x p' [Hs' W]. apply HQ; auto.
  exact (wrote_after_kept _ _ _ _ Hk W).
Qed.

Lemma call_under {A} (m : M A) x s p0 p l (Q : A -> parser -> Prop) :
  hst p0 p (x :: s :: l) -> slot_ok s p0 ->
  (stack p = x :: s :: l -> slot_ok s p ->
   wpx False True m p (fun _ p' => stack p' = s :: l /\ wrote s p p')) ->
  (forall r p', stack p' = s :: l -> wrote s p0 p' -> Q r p') ->
  wpx False True m p Q.
Proof.
  intros [Hs Hk] Hok Hm HQ.
  eapply wpx_conseq; [exact (Hm Hs (slot_ok_kept _ _ _ Hok Hk))|].
  cbv beta. intros r p' [Hs' W]. apply HQ; auto.
  exact (wrote_after_kept _ _ _ _ Hk W).
Qed.

Lemma call_args (m : M (option bool)) a s p0 p l (Q : option bool -> parser -> Prop) :
  hst p0 p (PSeq a :: s :: l) -> slot_ok s p0 ->
  (stack p = PSeq a :: s :: l -> slot_ok s p ->
   wpx False True m p
     (fun o p' => match o with
                  | None => stack p' = s :: l /\ wrote s p p'
                  | Some _ => stack p' = PSeq a :: s :: l /\ kept p p'
                  end)) ->
  (forall p', stack p' = s :: l -> wrote s p0 p' -> Q None p') ->
  (forall bg p', hst p0 p' (PSeq a :: s :: l) -> Q (Some bg) p') ->
  wpx False True m p Q.
Proof.
  intros [Hs Hk] Hok Hm HN HS.
  eapply wpx_conseq; [exact (Hm Hs (slot_ok_kept _ _ _ Hok Hk))|].
  cbv beta. intros [bg|] p' [Hs' W].
  - apply HS. split; [exact Hs' | exact (kept_trans _ _ _ Hk W)].
  - apply HN; auto. exact (wrote_after_kept _ _ _ _ Hk W).
Qed.

Ltac with_hst tac :=
  lazymatch goal with
  | |- wpx _ _ _ ?p _ =>
      lazymatch goal with
      | H : hst ?p0 p ?l |- _ => tac p0 l H
      end
  end.

Ltac opt_bind :=
  lazymatch goal with
  | |- wpx _ _ (bind _ _) _ _ => apply wpx_bind
  | |- _ => idtac
  end.

(** Carry what is known of the slots over a step that left the cells alone. *)
Ltac carry :=
  repeat match goal with
         | Hok : slot_ok ?s ?p, E : ones ?p' = ones ?p |- _ =>
             lazymatch goal with
             | _ : slot_ok s p' |- _ => fail
             | _ => pose proof (slot_ok_same s p p' Hok E)
             end
         end.

Ltac h_got :=
  opt_bind;
  with_hst ltac:(fun p0 l H => refine (got_h False True _ p0 _ l _ H _));
  intros ?b ?p ?H ?E; cbv beta; carry.

Ltac h_want :=
  opt_bind;
  with_hst ltac:(fun p0 l H => refine (want_h False True _ p0 _ l _ H _));
  intros ?p ?H ?E; cbv beta; carry.

Ltac h_next :=
  opt_bind;
  with_hst ltac:(fun p0 l H => refine (next_h False True p0 _ l _ H _));
  intros ?p ?H ?E; cbv beta; carry.

Ltac h_ruw :=
  opt_bind;
  with_hst ltac:(fun p0 l H => refine (readUntilWant_h False True _ p0 _ l _ H _));
  intros ?s ?p ?H ?E; cbv beta; carry.

Ltac h_err :=
  opt_bind;
  with_hst ltac:(fun p0 l H =>
    lazymatch goal with
    | |- wpx _ _ (errWantedStr _) _ _ => refine (errWantedStr_h False True _ p0 _ l _ H _)
    | |- wpx _ _ (errAfterStr _) _ _ => refine (errAfterStr_h False True _ p0 _ l _ H _)
    | |- wpx _ _ (posErr _ _) _ _ => refine (posErr_h False True _ _ p0 _ l _ H _)
    end);
  intros ?p ?H ?E; cbv beta; carry.

Ltac h_newOne :=
  opt_bind;
  with_hst ltac:(fun p0 l H => refine (newOne_h False True p0 _ l _ H _));
  intros ?c ?p ?H ?Ok ?Fo; cbv beta.

Ltac h_newSeq :=
  opt_bind;
  with_hst ltac:(fun p0 l H => refine (newSeq_h False True p0 _ l _ H _));
  intros ?c ?p ?H ?E; cbv beta; carry.

Ltac h_push :=
  opt_bind;
  with_hst ltac:(fun p0 l H => refine (push_h False True _ p0 _ l _ H _));
  intros ?p ?H ?E; cbv beta; carry.

Ltac h_pop :=
  opt_bind;
  with_hst ltac:(fun p0 l H => refine (pop_h False True _ p0 _ _ _ H _));
  intros ?p ?H ?E; cbv beta; carry.

Ltac h_add_seq :=
  opt_bind;
  with_hst ltac:(fun p0 l H => refine (add_seq_h False True _ _ p0 _ _ _ H _));
  intros ?p ?H ?E; cbv beta; carry.

Ltac h_popAdd_seq :=
  opt_bind;
  with_hst ltac:(fun p0 l H => refine (popAdd_seq_h False True _ _ _ p0 _ _ _ H _));
  intros ?p ?H ?E; cbv beta; carry.

Ltac find_ok :=
  lazymatch goal with
  | |- slot_ok ?s ?p => lazymatch goal with H : slot_ok s p |- _ => exact H end
  | |- foreign ?p ?s => lazymatch goal with H : foreign p s |- _ => exact H end
  end.

Ltac h_popAdd_last Hok :=
  opt_bind;
  with_hst ltac:(fun p0 l H => refine (popAdd_last False True _ _ _ p0 _ _ _ H Hok _));
  intros ?p ?Hs ?W; cbv beta.

Ltac h_add_last Hok :=
  opt_bind;
  with_hst ltac:(fun p0 l H => refine (add_last False True _ _ p0 _ _ _ H Hok _));
  intros ?p ?Hs ?W; cbv beta.

Tactic Notation "h_call_seq" uconstr(lem) :=
  opt_bind;
  with_hst ltac:(fun p0 l H => refine (call_seq _ _ p0 _ _ _ H (lem _ _ _) _));
  intros ? ?p ?H; cbv beta.

Tactic Notation "h_call_one" uconstr(lem) :=
  opt_bind;
  with_hst ltac:(fun p0 l H => refine (call_one _ _ p0 _ _ _ H _ _ (lem _ _ _) _));
  [ first [find_ok | exact I] | first [find_ok | exact I] | intros ? ?p ?H; cbv beta ].

Ltac h_done :=
  lazymatch goal with
  | |- wpx _ _ (ret _) _ _ => apply wpx_ret
  | |- _ => idtac
  end;
  repeat match goal with |- _ /\ _ => split end;
  try match goal with
      | H : hst _ ?p ?l |- stack ?p = ?l => exact (hs_stack _ _ _ H)
      | H : hst ?p0 ?p _ |- kept ?p0 ?p => exact (hs_kept _ _ _ H)
      | H : hst ?p0 ?p _ |- wrote _ ?p0 ?p => exact (kept_is_wrote _ _ _ (hs_kept _ _ _ H))
      end;
  try assumption.

Tactic Notation "h_call_tail" uconstr(lem) constr(Hok) :=
  opt_bind;
  with_hst ltac:(fun p0 l H => refine (call_tail _ _ p0 _ _ _ H Hok (lem _ _ _) _));
  intros ? ?p ?Hs ?W; cbv beta.

Tactic Notation "h_call_under" uconstr(lem) constr(Hok) :=
  opt_bind;
  with_hst ltac:(fun p0 l H => refine (call_under _ _ _ p0 _ _ _ H Hok (lem _ _ _ _) _));
  intros ? ?p ?Hs ?W; cbv beta.

Tactic Notation "h_call_args" uconstr(lem) constr(Hok) :=
  opt_bind;
  with_hst ltac:(fun p0 l H => refine (call_args _ _ _ p0 _ _ _ H Hok (lem _ _ _ _) _ _));
  [ intros ?p ?Hs ?W; cbv beta | intros ?bg ?p ?H; cbv beta ].

Section Safe.
Variable fuel : nat.
Hypothesis IH : rules_safe fuel.

Lemma parts_loop_safe w a l p :
  stack p = PSeq a :: l ->
  wpx False True (parts_loop (S fuel) w) p
    (fun _ p' => stack p' = PSeq a :: l /\ kept p p').
Proof.
  intros Hs. pose proof (Build_hst p p _ Hs (kept_refl p)) as H0.
  cbn [parts_loop].
  w_gets. w_if; [h_done|].
  w_gets. w_gets. w_if; [h_done|].
  h_got. destruct b.
  - w_gets. h_add_seq. h_call_seq (safe_parts_loop _ IH w). h_done.
  - h_got. destruct b; [|h_done].
    w_gets. w_if.
    + w_bind. h_ruw. h_add_seq. h_next. h_call_seq (safe_parts_loop _ IH w). h_done.
    + w_bind. h_got. destruct b.
      * h_newSeq. h_push. h_call_seq (safe_commandsLimited _ IH [RPAREN]).
        w_gets. h_popAdd_seq. h_want. h_call_seq (safe_parts_loop _ IH w). h_done.
      * h_want. w_gets. h_add_seq. h_call_seq (safe_parts_loop _ IH w). h_done.
Qed.

Lemma word_safe s l p :
  stack p = s :: l -> slot_ok s p ->
  wpx False True (word (S fuel)) p (fun _ p' => stack p' = s :: l /\ wrote s p p').
Proof.
  intros Hs Hok. pose proof (Build_hst p p _ Hs (kept_refl p)) as H0.
  cbn [word].
  h_newSeq. h_push. h_call_seq (safe_parts_loop _ IH _).
  w_gets. w_if.
  - h_err. w_gets. h_popAdd_last Hok. h_done.
  - w_bind. apply wpx_ret. w_gets. h_popAdd_last Hok. h_done.
Qed.

Lemma wordList_loop_safe n a l p :
  stack p = PSeq a :: l ->
  wpx False True (wordList_loop (S fuel) n) p
    (fun _ p' => stack p' = PSeq a :: l /\ kept p p').
Proof.
  intros Hs. pose proof (Build_hst p p _ Hs (kept_refl p)) as H0.
  cbn [wordList_loop].
  w_gets. w_if; [h_done|].
  unfold orM. w_bind. h_got. destruct b; [apply wpx_ret; h_done|].
  h_got. destruct b; [h_done|].
  h_call_one (safe_word _ IH). h_call_seq (safe_wordList_loop _ IH _). h_done.
Qed.

Lemma wordList_safe a l p :
  stack p = PSeq a :: l ->
  wpx False True (wordList (S fuel)) p
    (fun _ p' => stack p' = PSeq a :: l /\ kept p p').
Proof. intros Hs. cbn [wordList]. exact (safe_wordList_loop _ IH _ a l p Hs). Qed.

Lemma gotRedirect_safe s l p :
  stack p = s :: l -> slot_ok s p ->
  wpx False True (gotRedirect (S fuel)) p
    (fun _ p' => stack p' = s :: l /\ wrote s p p').
Proof.
  intros Hs Hok. pose proof (Build_hst p p _ Hs (kept_refl p)) as H0.
  cbn [gotRedirect].
  h_newOne. h_push.
  h_got. destruct b.
  { h_call_one (safe_word _ IH). w_gets. h_popAdd_last Hok. h_done. }
  h_got. destruct b.
  { h_call_one (safe_word _ IH). w_gets. h_popAdd_last Hok. h_done. }
  h_got. destruct b.
  { h_call_one (safe_word _ IH). w_gets. h_popAdd_last Hok. h_done. }
  h_pop. h_done.
Qed.

Lemma binaryExpr_safe op left x s l p :
  stack p = x :: s :: l -> slot_ok s p ->
  wpx False True (binaryExpr (S fuel) op left) p
    (fun _ p' => stack p' = s :: l /\ wrote s p p').
Proof.
  intros Hs Hok. pose proof (Build_hst p p _ Hs (kept_refl p)) as H0.
  cbn [binaryExpr].
  h_newOne. h_push. h_call_one (safe_command _ IH _).
  h_pop. w_gets. h_popAdd_last Hok. h_done.
Qed.

Lemma commands_loop_safe cs stop n a l p :
  stack p = PSeq a :: l ->
  wpx False True (commands_loop (S fuel) cs stop n) p
    (fun _ p' => stack p' = PSeq a :: l /\ kept p p').
Proof.
  intros Hs. pose proof (Build_hst p p _ Hs (kept_refl p)) as H0.
  cbn [commands_loop].
  w_gets. w_if; [h_done|].
  w_gets. w_if; [h_done|].
  h_call_one (safe_command _ IH _). h_call_seq (safe_commands_loop _ IH _ _ _). h_done.
Qed.

Lemma commands_safe stop a l p :
  stack p = PSeq a :: l ->
  wpx False True (commands (S fuel) stop) p
    (fun _ p' => stack p' = PSeq a :: l /\ kept p p').
Proof. intros Hs. cbn [commands]. exact (safe_commands_loop _ IH _ _ _ a l p Hs). Qed.

Lemma commandsLimited_safe stop a l p :
  stack p = PSeq a :: l ->
  wpx False True (commandsLimited (S fuel) stop) p
    (fun _ p' => stack p' = PSeq a :: l /\ kept p p').
Proof. intros Hs. cbn [commandsLimited]. exact (safe_commands_loop _ IH _ _ _ a l p Hs). Qed.

Lemma elif_loop_safe a l p :
  stack p = PSeq a :: l ->
  wpx False True (elif_loop (S fuel)) p
    (fun _ p' => stack p' = PSeq a :: l /\ kept p p').
Proof.
  intros Hs. pose proof (Build_hst p p _ Hs (kept_refl p)) as H0.
  cbn [elif_loop].
  h_got. destruct b; [|h_done].
  h_newOne. h_newSeq. h_push.
  h_call_one (safe_command _ IH _).
  h_pop. h_want. h_push.
  h_call_seq (safe_commands _ IH _).
  w_gets. w_gets. h_popAdd_seq.
  h_call_seq (safe_elif_loop _ IH). h_done.
Qed.

Lemma args_loop_safe stop args a s l p :
  stack p = PSeq a :: s :: l -> slot_ok s p ->
  wpx False True (args_loop (S fuel) stop args) p
    (fun o p' => match o with
                 | None => stack p' = s :: l /\ wrote s p p'
                 | Some _ => stack p' = PSeq a :: s :: l /\ kept p p'
                 end).
Proof.
  intros Hs Hok. pose proof (Build_hst p p _ Hs (kept_refl p)) as H0.
  cbn [args_loop].
  w_gets. w_if; [h_done|].
  w_gets. w_if; [h_done|].
  w_gets. w_if.
  { h_call_one (safe_word _ IH).
    h_call_args (safe_args_loop _ IH stop args) Hok; h_done. }
  h_got. destruct b.
  { w_gets. h_call_under (safe_binaryExpr _ IH LAND _) Hok. h_done. }
  h_got. destruct b.
  { w_gets. h_call_under (safe_binaryExpr _ IH OR _) Hok. h_done. }
  h_got. destruct b.
  { w_gets. h_call_under (safe_binaryExpr _ IH LOR _) Hok. h_done. }
  h_call_one (safe_gotRedirect _ IH).
  match goal with |- wpx _ _ (if ?b then _ else _) _ _ => destruct b end.
  { h_call_args (safe_args_loop _ IH stop args) Hok; h_done. }
  h_got. destruct b; [h_done|].
  unfold orM. w_bind. h_got. destruct b; [apply wpx_ret; h_done|].
  h_got. destruct b; [h_done|].
  h_err. h_call_args (safe_args_loop _ IH stop args) Hok; h_done.
Qed.

Lemma command_safe stop s l p :
  stack p = s :: l -> slot_ok s p ->
  wpx False True (command (S fuel) stop) p
    (fun _ p' => stack p' = s :: l /\ wrote s p p').
Proof.
  intros Hs Hok. pose proof (Build_hst p p _ Hs (kept_refl p)) as H0.
  cbn [command].
  (* comment *)
  h_got. destruct b.
  { w_gets. h_add_last Hok. h_done. }
  (* newline *)
  unfold orM at 1. w_bind. w_bind. h_got. destruct b.
  { apply wpx_ret. cbv iota. w_gets. w_if; [|h_done].
    h_call_tail (safe_command _ IH _) Hok. h_done. }
  h_got. destruct b.
  { w_gets. w_if; [|h_done].
    h_call_tail (safe_command _ IH _) Hok. h_done. }
  (* subshell *)
  h_got. destruct b.
  { h_newSeq. h_push. h_call_seq (safe_commandsLimited _ IH _).
    w_if.
    - h_err. h_want. w_gets. h_popAdd_last Hok. h_done.
    - w_bind. apply wpx_ret. h_want. w_gets. h_popAdd_last Hok. h_done. }
  (* block *)
  h_got. destruct b.
  { h_newSeq. h_push. h_call_seq (safe_commands _ IH _).
    w_if.
    - h_err. h_want. w_gets. h_popAdd_last Hok. h_done.
    - w_bind. apply wpx_ret. h_want. w_gets. h_popAdd_last Hok. h_done. }
  (* if *)
  h_got. destruct b.
  { h_newOne. h_newSeq. h_newSeq. h_newSeq. h_push.
    h_call_one (safe_command _ IH _).
    h_pop. h_want. h_push.
    h_call_seq (safe_commands _ IH _).
    h_pop. h_push.
    h_call_seq (safe_elif_loop _ IH).
    h_got. destruct b.
    - w_bind. h_pop. h_push. h_call_seq (safe_commands _ IH _).
      apply wpx_ret. h_want. w_gets. w_gets. w_gets. w_gets. h_popAdd_last Hok. h_done.
    - w_bind. apply wpx_ret. h_want. w_gets. w_gets. w_gets. w_gets.
      h_popAdd_last Hok. h_done. }
  (* while *)
  h_got. destruct b.
  { h_newOne. h_newSeq. h_push.
    h_call_one (safe_command _ IH _).
    h_pop. h_want. h_push.
    h_call_seq (safe_commands _ IH _).
    h_want. w_gets. w_gets. h_popAdd_last Hok. h_done. }
  (* for *)
  h_got. destruct b.
  { h_newSeq. h_newSeq. h_want. w_gets. h_want. h_push.
    h_call_seq (safe_wordList _ IH).
    h_pop. h_want. h_push.
    h_call_seq (safe_commands _ IH _).
    h_want. w_gets. w_gets. h_popAdd_last Hok. h_done. }
  (* simple command or function declaration *)
  w_gets. w_if.
  { h_newSeq. h_push.
    h_call_one (safe_word _ IH).
    w_gets. w_gets. h_got. destruct b.
    - h_want. w_bind. w_if.
      + h_err. h_newOne. h_push.
        h_call_one (safe_command _ IH _).
        h_pop. w_gets. h_popAdd_last Hok. h_done.
      + apply wpx_ret. h_newOne. h_push.
        h_call_one (safe_command _ IH _).
        h_pop. w_gets. h_popAdd_last Hok. h_done.
    - h_call_args (safe_args_loop _ IH stop _) Hok.
      + h_done.
      + w_gets. h_popAdd_last Hok. h_done. }
  h_err. h_done.
Qed.

Lemma rules_safe_step : rules_safe (S fuel).
Proof.
  constructor.
  - exact command_safe.
  - exact word_safe.
  - exact gotRedirect_safe.
  - exact binaryExpr_safe.
  - exact args_loop_safe.
  - exact commands_loop_safe.
  - exact commands_safe.
  - exact commandsLimited_safe.
  - exact elif_loop_safe.
  - exact parts_loop_safe.
  - exact wordList_safe.
  - exact wordList_loop_safe.
Qed.

End Safe.

Lemma rules_safe_all fuel : rules_safe fuel.
Proof.
  induction fuel as [|fuel IH]; [|exact (rules_safe_step fuel IH)].
  constructor; intros; exact I.
Qed.

(** ** Every rule returns *)

Lemma wpx_both {A} (m : M A) p (Q1 Q2 : A -> parser -> Prop) :
  wpx True False m p Q1 -> wpx False True m p Q2 ->
  exists a p', m p = Done (a, p') /\ Q1 a p' /\ Q2 a p'.
Proof.
  unfold wpx. destruct (m p) as [[a p']| |]; intros H1 H2; try contradiction.
  exists a, p'. auto.
Qed.

(** The rules of the grammar, and what each needs of the builder stack:
    a sequence on top for the rules that add any number of nodes, a slot
    that takes one more node for the rules that add one. *)
Inductive rule :=
| Rprogram
| Rcommand (stop : list Token)
| Rcommands (stop : list Token)
| RcommandsLimited (stop : list Token)
| Rword
| RwordList
| RgotRedirect
| RbinaryExpr (op : Token) (lhs : Node).

Definition run_rule (fuel : nat) (ru : rule) : M unit :=
  match ru with
  | Rprogram => program fuel
  | Rcommand stop => command fuel stop
  | Rcommands stop => commands fuel stop ;; ret tt
  | RcommandsLimited stop => commandsLimited fuel stop ;; ret tt
  | Rword => word fuel
  | RwordList => wordList fuel ;; ret tt
  | RgotRedirect => gotRedirect fuel ;; ret tt
  | RbinaryExpr op lhs => binaryExpr fuel op lhs
  end.

Definition ready (ru : rule) (p : parser) : Prop :=
  match ru with
  | Rprogram | Rcommands _ | RcommandsLimited _ | RwordList =>
      exists a l, stack p = PSeq a :: l
  | Rcommand _ | Rword | RgotRedirect =>
      exists s l, stack p = s :: l /\ slot_ok s p
  | RbinaryExpr _ _ =>
      exists x s l, stack p = x :: s :: l /\ slot_ok s p
  end.

Definition enough (fuel : nat) (p : parser) : Prop := 7 + 8 * mu p <= fuel.

Lemma rule_returns ru fuel p :
  good p -> ready ru p -> enough fuel p ->
  exists p', run_rule fuel ru p = Done (tt, p')
             /\ keep p p' /\ quiet p p' /\ good p' /\ mu p' <= mu p.
Proof.
  intros G R F. unfold enough in F.
  pose proof (rules_ok_all fuel) as OK. pose proof (rules_safe_all fuel) as SF.
  pose proof (trk_refl p G) as T.
  assert (Hfin : forall (m : M unit),
            wpx True False m p (fun _ p' => after p p p') ->
            wpx False True m p (fun _ _ => True) ->
            exists p', m p = Done (tt, p')
                       /\ keep p p' /\ quiet p p' /\ good p' /\ mu p' <= mu p).
  { intros m H1 H2. destruct (wpx_both m p _ _ H1 H2) as ([] & p' & E & [(K & Q & G') M] & _).
    exists p'. auto. }
  assert (Hret : forall {A} (m : M A) (Q : parser -> Prop) XP XF,
            wpx XP XF m p (fun _ p' => Q p') ->
            wpx XP XF (m ;; ret tt) p (fun _ p' => Q p')).
  { intros A m Q XP XF H. apply wpx_bind. eapply wpx_conseq; [exact H|].
    cbv beta. intros _ p' HQ. apply wpx_ret. exact HQ. }
  destruct ru; cbn [run_rule ready] in *.
  - destruct R as (a & l & Hs). unfold program. apply Hfin.
    + apply (Hret _ _ (fun p' => after p p p')).
      apply (ok_commands _ OK); [exact T | lia].
    + apply (Hret _ _ (fun _ => True)).
      eapply wpx_conseq; [exact (safe_commands _ SF _ a l p Hs)|]. auto.
  - destruct R as (s & l & Hs & Hok). apply Hfin.
    + eapply wpx_conseq; [apply (ok_command _ OK stop p p T); lia|]. cbv beta. tauto.
    + eapply wpx_conseq; [exact (safe_command _ SF stop s l p Hs Hok)|]. auto.
  - destruct R as (a & l & Hs). apply Hfin.
    + apply (Hret _ _ (fun p' => after p p p')).
      apply (ok_commands _ OK); [exact T | lia].
    + apply (Hret _ _ (fun _ => True)).
      eapply wpx_conseq; [exact (safe_commands _ SF _ a l p Hs)|]. auto.
  - destruct R as (a & l & Hs). apply Hfin.
    + apply (Hret _ _ (fun p' => after p p p')).
      apply (ok_commandsLimited _ OK); [exact T | lia].
    + apply (Hret _ _ (fun _ => True)).
      eapply wpx_conseq; [exact (safe_commandsLimited _ SF _ a l p Hs)|]. auto.
  - destruct R as (s & l & Hs & Hok). apply Hfin.
    + eapply wpx_conseq; [apply (ok_word _ OK p p T); lia|]. cbv beta. tauto.
    + eapply wpx_conseq; [exact (safe_word _ SF s l p Hs Hok)|]. auto.
  - destruct R as (a & l & Hs). apply Hfin.
    + apply (Hret _ _ (fun p' => after p p p')).
      apply (ok_wordList _ OK); [exact T | lia].
    + apply (Hret _ _ (fun _ => True)).
      eapply wpx_conseq; [exact (safe_wordList _ SF a l p Hs)|]. auto.
  - destruct R as (s & l & Hs & Hok). apply Hfin.
    + apply (Hret _ _ (fun p' => after p p p')).
      eapply wpx_conseq; [apply (ok_gotRedirect _ OK p p T); lia|]. cbv beta. tauto.
    + apply (Hret _ _ (fun _ => True)).
      eapply wpx_conseq; [exact (safe_gotRedirect _ SF s l p Hs Hok)|]. auto.
  - destruct R as (x & s & l & Hs & Hok). apply Hfin.
    + apply (ok_binaryExpr _ OK); [exact T | lia].
    + eapply wpx_conseq; [exact (safe_binaryExpr _ SF op lhs x s l p Hs Hok)|]. auto.
Qed.

(** The state in which [Parse] starts the rule [program]. *)
Lemma Parse_start rd nm :
  exists p1, (push (PSeq 0) ;; next) (new_parser rd nm) = Done (tt, p1)
             /\ good p1 /\ stack p1 = [PSeq 0]
             /\ mu p1 <= 2 * length (rd_buf rd) + 1
             /\ name p1 = nm.
Proof.
  set (p0 := set_stack [PSeq 0] (new_parser rd nm)).
  assert (T0 : trk p0 p0) by (apply trk_refl; intros E; cbn in E; congruence).
  assert (X0 : exhausted_if_failed p0) by (intros E; cbn in E; congruence).
  rewrite (run_bind (push (PSeq 0)) _ (new_parser rd nm) tt p0 eq_refl).
  assert (H : wpx False False next p0
            (fun _ p1 => good p1 /\ stack p1 = [PSeq 0] /\ mu p1 <= mu p0 /\ name p1 = nm)).
  { apply next_spec. intros p1 S.
    destruct (scanned_trk p0 p0 p1 T0 X0 S) as (T1 & M1 & _).
    destruct S as [(F & _) _]. destruct F as (Fn & Fs & _).
    split; [apply T1|]. split; [rewrite Fs; reflexivity|]. split; [exact M1 | exact Fn]. }
  destruct (wpx_done _ _ _ H) as ([] & p1 & E & G & Hs & M & N).
  exists p1. split; [exact E|]. split; [exact G|]. split; [exact Hs|]. split; [|exact N].
  assert (M0 : mu p0 = 2 * length (rd_buf rd) + 1) by reflexivity. lia.
Qed.

(** ** Scanning after an error has been latched *)






(** ** A literal at the start of a scan *)







(** ** A closed quoted segment *)









(** A state with the input [src], the destination [PSeq 0] on the stack,
    the token [t] in hand and the error slot [e]. *)
Definition state_at (src : string) (t : Token) (e : option error) : parser :=
  set_toks (TRune rune0) t "" ""
    (set_err e (set_stack [PSeq 0] (new_parser (source src) "sh"))).

Lemma Parse_run rd nm :
  exists p1 p2,
    (push (PSeq 0) ;; next) (new_parser rd nm) = Done (tt, p1)
    /\ program (fuel_for rd) p1 = Done (tt, p2)
    /\ Parse rd nm = Done (prog p2, err p2)
    /\ keep p1 p2 /\ quiet p1 p2 /\ good p2.
Proof.
  destruct (Parse_start rd nm) as (p1 & E1 & G1 & Hs1 & M1 & _).
  destruct (rule_returns Rprogram (fuel_for rd) p1 G1) as (p2 & E2 & K & Qu & G2 & _).
  { cbn. eauto. }
  { unfold enough, fuel_for. lia. }
  cbn [run_rule] in E2.
  exists p1, p2. repeat match goal with |- _ /\ _ => split end; auto.
  unfold Parse, Parse_fuel.
  change (push (PSeq 0) ;; next ;; program (fuel_for rd))
    with (bind (push (PSeq 0)) (fun _ => bind next (fun _ => program (fuel_for rd)))).
  rewrite (run_bind (push (PSeq 0)) _ (new_parser rd nm) tt
             (set_stack [PSeq 0] (new_parser rd nm)) eq_refl).
  assert (E1' : next (set_stack [PSeq 0] (new_parser rd nm)) = Done (tt, p1)) by exact E1.
  rewrite (run_bind next _ _ tt p1 E1'). rewrite E2. reflexivity.
Qed.

(** * Results on given inputs *)

(** C1: the block and the subshell reject an empty body with a "wanted
    command" error, but the [if], [while] and [for] rules ignore the count
    that [commands] returns: [if true; then fi] parses without error into
    an [IfStmt] whose then-sequence is empty, and so do a [while] and a
    [for] with an empty body.  [if true; then echo hi; fi] parses with
    exactly one statement in the then-sequence. *)
Theorem C1_empty_then_body_is_accepted (nm : string) :
  Parse (source "if true; then fi") nm
    = Done ({| Stmts := [IfStmt (Some (cmd ["true"])) [] [] []] |}, None)
  /\ Parse (source "while true; do done") nm
    = Done ({| Stmts := [WhileStmt (Some (cmd ["true"])) []] |}, None)
  /\ Parse (source "for i in a b; do done") nm
    = Done ({| Stmts := [ForStmt (Lit "i") [litWord "a"; litWord "b"] []] |}, None)
  /\ Parse (source "{ }") nm
    = Done ({| Stmts := [Block []] |},
            Some (lineErr nm (at_pos 1 3) (wanted_text RBRACE "command")))
  /\ Parse (source "( )") nm
    = Done ({| Stmts := [Subshell []] |},
            Some (lineErr nm (at_pos 1 3) (wanted_text RPAREN "command")))
  /\ Parse (source "if true; then echo hi; fi") nm
    = Done ({| Stmts := [IfStmt (Some (cmd ["true"])) [cmd ["echo"; "hi"]] [] []] |},
            None).
Proof. repeat split; vm_compute; reflexivity. Qed.

(** C3: [echo if] parses without error as one [Command] whose arguments
    are the two words [echo] and [if]; no [IfStmt] is built. *)
Theorem C3_echo_if_is_a_command (nm : string) :
  Parse (source "echo if") nm
    = Done ({| Stmts := [Command [Word [Lit "echo"]; Word [Lit "if"]] false] |}, None).
Proof. vm_compute. reflexivity. Qed.

(** C4: [a && b && c] parses as
    [BinaryExpr(&&, a, BinaryExpr(&&, b, c))]: the right operand of each
    operator is the parse of the rest of the line; the same holds for [||]
    and for the pipe. *)
Theorem C4_binary_right_assoc (nm : string) :
  Parse (source "a && b && c") nm
    = Done ({| Stmts :=
                [BinaryExpr (Some (cmd ["a"])) LAND
                   (Some (BinaryExpr (Some (cmd ["b"])) LAND (Some (cmd ["c"]))))] |},
            None)
  /\ Parse (source "a || b || c") nm
    = Done ({| Stmts :=
                [BinaryExpr (Some (cmd ["a"])) LOR
                   (Some (BinaryExpr (Some (cmd ["b"])) LOR (Some (cmd ["c"]))))] |},
            None)
  /\ Parse (source "a | b | c") nm
    = Done ({| Stmts :=
                [BinaryExpr (Some (cmd ["a"])) OR
                   (Some (BinaryExpr (Some (cmd ["b"])) OR (Some (cmd ["c"]))))] |},
            None)
  /\ Parse (source "a && b | c || d") nm
    = Done ({| Stmts :=
                [BinaryExpr (Some (cmd ["a"])) LAND
                   (Some (BinaryExpr (Some (cmd ["b"])) OR
                      (Some (BinaryExpr (Some (cmd ["c"])) LOR (Some (cmd ["d"]))))))] |},
            None).
Proof. repeat split; vm_compute; reflexivity. Qed.







(** C10: when the rule [word] is entered with a token in hand that is
    neither a literal nor the expansion sign, it returns with the error
    "unexpected token ... - wanted word" latched (or the error latched
    before, if there is one), at the cursor when the token is [EOF] and at
    the token otherwise, and with a [Word] of no parts appended to what
    the destination slot on top of the stack holds; the stack is as it
    was.  [echo > ;] returns, beside the error at the semicolon, a tree in
    which the object of the redirection is a [Word] with no parts. *)
Theorem C10_empty_word_is_appended :
  (forall fuel p s st,
     tok p <> LIT -> tok p <> EXP -> stack p = s :: st -> slot_free s p ->
     exists p',
       word (S (S fuel)) p = Done (tt, p')
       /\ err p' = Some (match err p with
                         | Some e => e
                         | None =>
                             lineErr (name p)
                               (if Token_eqb (tok p) EOF then npos p else pos p)
                               (wanted_text (tok p) "word")
                         end)
       /\ stack p' = stack p
       /\ slot_holds s p' = slot_holds s p ++ [Word []])
  /\ (forall nm,
        Parse (source "echo > ;") nm
        = Done ({| Stmts :=
                    [Command [Word [Lit "echo"]; Redirect RDROUT (Some (Word []))] false] |},
                Some (lineErr nm (at_pos 1 8) (wanted_text SEMICOLON "word")))
        /\ Parse (source "echo hi >") nm
        = Done ({| Stmts :=
                    [Command [Word [Lit "echo"]; Word [Lit "hi"];
                              Redirect RDROUT (Some (Word []))] false] |},
                Some (lineErr nm (at_pos 1 10) (wanted_text EOF "word")))).
Proof.
  split.
  - intros fuel p s st H1 H2 Hs Hf.
    destruct (word_no_part fuel p s st H1 H2 Hs Hf) as (p' & E & Er & _ & St & Hh).
    exists p'. auto.
  - intros nm. repeat split; vm_compute; reflexivity.
Qed.

(** * Invariants of the parser state

    [pres I m]: the action [m] returns in a state that satisfies [I]
    whenever it is run in one. *)

Definition pres (I : parser -> Prop) {A} (m : M A) : Prop :=
  forall p a p', I p -> m p = Done (a, p') -> I p'.

Lemma pres_ret I {A} (a : A) : pres I (ret a).
Proof. intros p x p' H E. inversion E; subst. exact H. Qed.

Lemma pres_gets I {A} (f : parser -> A) : pres I (gets f).
Proof. intros p x p' H E. inversion E; subst. exact H. Qed.

Lemma pres_modify I (f : parser -> parser) :
  (forall p, I p -> I (f p)) -> pres I (modify f).
Proof. intros Hf p x p' H E. inversion E; subst. auto. Qed.

Lemma pres_panic I {A} msg : pres I (@panic A msg).
Proof. intros p x p' H E. discriminate E. Qed.

Lemma pres_out_of_fuel I {A} : pres I (@out_of_fuel A).
Proof. intros p x p' H E. discriminate E. Qed.

Lemma pres_bind I {A B} (m : M A) (k : A -> M B) :
  pres I m -> (forall a, pres I (k a)) -> pres I (bind m k).
Proof.
  intros Hm Hk p b p' H E. unfold bind in E.
  destruct (m p) as [[a p1]| |] eqn:Em; try discriminate.
  exact (Hk a p1 b p' (Hm p a p1 H Em) E).
Qed.

(** The same, when the continuation needs a fact [P] about the value. *)
Lemma pres_bind_val I {A B} (P : A -> Prop) (m : M A) (k : A -> M B) :
  (forall p a p', m p = Done (a, p') -> P a) ->
  pres I m -> (forall a, P a -> pres I (k a)) -> pres I (bind m k).
Proof.
  intros HP Hm Hk p b p' H E. unfold bind in E.
  destruct (m p) as [[a p1]| |] eqn:Em; try discriminate.
  exact (Hk a (HP p a p1 Em) p1 b p' (Hm p a p1 H Em) E).
Qed.

Lemma doToken_not_EOF c (ro : rune -> M bool) p t p' :
  doToken c ro p = Done (t, p') -> t <> EOF.
Proof.
  unfold doToken.
  repeat match goal with
         | |- (if ?b then _ else _) _ = _ -> _ => destruct b
         end;
    unfold bind, ret; try (intros E; inversion E; discriminate);
    destruct (ro _ p) as [[[] ?]| |]; intros E; inversion E; discriminate.
Qed.
Section Invariant.

Variable I : parser -> Prop.

Hypothesis I_readRune : pres I readRune.
Hypothesis I_unreadRune : pres I unreadRune.
Hypothesis I_readOnly : forall w, w <> rune0 -> pres I (readOnly w).
Hypothesis I_advance : forall t v, t <> EOF -> pres I (advance t v).
Hypothesis I_errWantedStr : forall s, pres I (errWantedStr s).
Hypothesis I_errAfterStr : forall s, pres I (errAfterStr s).
Hypothesis I_funcErr : forall ps fval, pres I (posErr ps (func_name_text fval)).
Hypothesis I_lpos : forall x p, I p -> I (set_lpos x p).
Hypothesis I_pos : forall x p, I p -> I (set_pos x p).
Hypothesis I_spaced : forall x p, I p -> I (set_spaced x p).
Hypothesis I_stack : forall x p, I p -> I (set_stack x p).
Hypothesis I_seqs : forall x p, I p -> I (set_seqs x p).
Hypothesis I_ones : forall x p, I p -> I (set_ones x p).

Ltac pres_basic :=
  repeat lazymatch goal with
    | |- pres _ (bind _ _) => apply pres_bind; [|intros ?]
    | |- pres _ (ret _) => apply pres_ret
    | |- pres _ (gets _) => apply pres_gets
    | |- pres _ (panic _) => apply pres_panic
    | |- pres _ out_of_fuel => apply pres_out_of_fuel
    | |- pres _ (if ?b then _ else _) => destruct b
    | |- pres _ (match ?o with Some _ => _ | None => _ end) => destruct o
    | |- pres _ (match ?s with PSeq _ => _ | POne _ => _ end) => destruct s
    | |- pres _ (match ?l with nil => _ | cons _ _ => _ end) => destruct l
    | |- pres _ (modify _) => apply pres_modify; intros ? ?; auto
    | |- pres _ readRune => exact I_readRune
    | |- pres _ unreadRune => exact I_unreadRune
    | |- pres _ (readOnly _) => apply I_readOnly; discriminate
    | |- _ => fail
    end.

Lemma pres_errWanted t : pres I (errWanted t).
Proof. apply I_errWantedStr. Qed.

Lemma pres_doToken c : pres I (doToken c readOnly).
Proof. unfold doToken. pres_basic. Qed.

Lemma pres_token c : pres I (t <- doToken c readOnly ;; advance t "").
Proof.
  apply (pres_bind_val I (fun t => t <> EOF)).
  - intros p t p'. apply doToken_not_EOF.
  - apply pres_doToken.
  - intros t Ht. apply I_advance. exact Ht.
Qed.

Lemma pres_readUntil_loop n : forall t rs, pres I (readUntil_loop n t rs).
Proof.
  induction n as [|n IH]; intros t rs; cbn [readUntil_loop]; pres_basic.
  - apply pres_doToken.
  - apply IH.
Qed.

Lemma pres_readUntil t : pres I (readUntil t).
Proof. unfold readUntil. pres_basic. apply pres_readUntil_loop. Qed.

Lemma pres_readUntilWant t : pres I (readUntilWant t).
Proof.
  unfold readUntilWant. pres_basic; try apply pres_readUntil; apply pres_errWanted.
Qed.

Lemma pres_readLine : pres I readLine.
Proof. unfold readLine. pres_basic. apply pres_readUntil. Qed.

Lemma pres_readLit_rest loop q rs :
  (forall c q rs, pres I (loop c q rs)) -> pres I (readLit_rest loop q rs).
Proof. intros H. unfold readLit_rest. pres_basic; try apply pres_errWanted. apply H. Qed.

Lemma pres_readLit_loop n : forall c q rs, pres I (readLit_loop n c q rs).
Proof.
  induction n as [|n IH]; intros c q rs; cbn [readLit_loop]; pres_basic;
    apply pres_readLit_rest; exact IH.
Qed.

Lemma pres_readLit c : pres I (readLit c).
Proof. unfold readLit. pres_basic. apply pres_readLit_loop. Qed.

Lemma pres_skipSpace_loop n : pres I (skipSpace_loop n).
Proof. induction n as [|n IH]; cbn [skipSpace_loop]; pres_basic. exact IH. Qed.

Lemma pres_skipSpace : pres I skipSpace.
Proof. unfold skipSpace. pres_basic. apply pres_skipSpace_loop. Qed.

Lemma pres_next_loop n : pres I (next_loop n).
Proof.
  induction n as [|n IH]; cbn [next_loop]; [apply pres_out_of_fuel|].
  apply pres_bind; [apply pres_modify; auto | intros _].
  apply pres_bind; [apply pres_modify; auto | intros _].
  apply pres_bind; [apply pres_skipSpace | intros [c|]]; [|apply pres_ret].
  apply pres_bind; [apply pres_modify; auto | intros _].
  apply pres_bind.
  { unfold andM. pres_basic. }
  intros b. destruct b; [exact IH|].
  destruct (reserved c || starters c).
  - destruct (Ascii.eqb c "#").
    + apply pres_bind; [apply pres_readLine | intros s]. apply I_advance. discriminate.
    + destruct (Ascii.eqb c NL); [apply I_advance; discriminate | apply pres_token].
  - apply pres_bind; [apply pres_readLit | intros s]. apply I_advance. discriminate.
Qed.

Lemma pres_next : pres I next.
Proof. unfold next. pres_basic. apply pres_next_loop. Qed.

Lemma pres_got t : pres I (got t).
Proof. unfold got. pres_basic. apply pres_next. Qed.

Lemma pres_want t : pres I (want t).
Proof. unfold want. pres_basic; [apply pres_errWanted | apply pres_next]. Qed.

Lemma pres_newSeq : pres I newSeq.
Proof. unfold newSeq. pres_basic. Qed.

Lemma pres_newOne : pres I newOne.
Proof. unfold newOne. pres_basic. Qed.

Lemma pres_push v : pres I (push v).
Proof. unfold push. pres_basic. Qed.

Lemma pres_pop : pres I pop.
Proof. unfold pop. pres_basic. Qed.

Lemma pres_add n : pres I (add n).
Proof. unfold add, loadOne. pres_basic. Qed.

Lemma pres_popAdd n : pres I (popAdd n).
Proof. unfold popAdd. pres_basic; [apply pres_pop | apply pres_add]. Qed.

Record rules_pres (fuel : nat) : Prop := {
  pr_command : forall stop, pres I (command fuel stop);
  pr_commands_loop : forall cs stop n, pres I (commands_loop fuel cs stop n);
  pr_commands : forall stop, pres I (commands fuel stop);
  pr_commandsLimited : forall stop, pres I (commandsLimited fuel stop);
  pr_elif_loop : pres I (elif_loop fuel);
  pr_args_loop : forall stop a, pres I (args_loop fuel stop a);
  pr_binaryExpr : forall op lhs, pres I (binaryExpr fuel op lhs);
  pr_gotRedirect : pres I (gotRedirect fuel);
  pr_parts_loop : forall w, pres I (parts_loop fuel w);
  pr_word : pres I (word fuel);
  pr_wordList : pres I (wordList fuel);
  pr_wordList_loop : forall n, pres I (wordList_loop fuel n)
}.

Ltac pres_rules IH :=
  repeat lazymatch goal with
    | |- pres _ (bind _ _) => apply pres_bind; [|intros ?]
    | |- pres _ (ret _) => apply pres_ret
    | |- pres _ (gets _) => apply pres_gets
    | |- pres _ at_EOF => apply pres_gets
    | |- pres _ (peekAny _) => apply pres_gets
    | |- pres _ (loadSeq _) => apply pres_gets
    | |- pres _ (loadOne _) => apply pres_gets
    | |- pres _ (orM _ _) => unfold orM
    | |- pres _ (if ?b then _ else _) => destruct b
    | |- pres _ (match ?o with Some _ => _ | None => _ end) => destruct o
    | |- pres _ (got _) => apply pres_got
    | |- pres _ (want _) => apply pres_want
    | |- pres _ next => apply pres_next
    | |- pres _ newSeq => apply pres_newSeq
    | |- pres _ newOne => apply pres_newOne
    | |- pres _ (push _) => apply pres_push
    | |- pres _ pop => apply pres_pop
    | |- pres _ (add _) => apply pres_add
    | |- pres _ (popAdd _) => apply pres_popAdd
    | |- pres _ (errWantedStr _) => apply I_errWantedStr
    | |- pres _ (errAfterStr _) => apply I_errAfterStr
    | |- pres _ (posErr _ _) => apply I_funcErr
    | |- pres _ (readUntilWant _) => apply pres_readUntilWant
    | |- pres _ (command _ _) => apply (pr_command _ IH)
    | |- pres _ (commands_loop _ _ _ _) => apply (pr_commands_loop _ IH)
    | |- pres _ (commands _ _) => apply (pr_commands _ IH)
    | |- pres _ (commandsLimited _ _) => apply (pr_commandsLimited _ IH)
    | |- pres _ (elif_loop _) => apply (pr_elif_loop _ IH)
    | |- pres _ (args_loop _ _ _) => apply (pr_args_loop _ IH)
    | |- pres _ (binaryExpr _ _ _) => apply (pr_binaryExpr _ IH)
    | |- pres _ (gotRedirect _) => apply (pr_gotRedirect _ IH)
    | |- pres _ (parts_loop _ _) => apply (pr_parts_loop _ IH)
    | |- pres _ (word _) => apply (pr_word _ IH)
    | |- pres _ (wordList _) => apply (pr_wordList _ IH)
    | |- pres _ (wordList_loop _ _) => apply (pr_wordList_loop _ IH)
    | |- _ => fail
    end.

Lemma rules_pres_all fuel : rules_pres fuel.
Proof.
  induction fuel as [|fuel IH].
  - constructor; intros; apply pres_out_of_fuel.
  - constructor; intros.
    + cbn [command]. pres_rules IH.
    + cbn [commands_loop]. pres_rules IH.
    + cbn [commands]. pres_rules IH.
    + cbn [commandsLimited]. pres_rules IH.
    + cbn [elif_loop]. pres_rules IH.
    + cbn [args_loop]. pres_rules IH.
    + cbn [binaryExpr]. pres_rules IH.
    + cbn [gotRedirect]. pres_rules IH.
    + cbn [parts_loop]. pres_rules IH.
    + cbn [word]. pres_rules IH.
    + cbn [wordList]. pres_rules IH.
    + cbn [wordList_loop]. pres_rules IH.
Qed.

Lemma pres_program fuel : pres I (program fuel).
Proof.
  unfold program. apply pres_bind; [apply (pr_commands _ (rules_pres_all fuel)) | intros _].
  apply pres_ret.
Qed.

End Invariant.
(** ** What the error slot and the end-of-input token tell

    For a reader whose failure is [fault] ([None]: [io.EOF]) and the file
    name [nm]: the error slot never holds [io.EOF]; a reader fault in it is
    the fault of the reader; a line error in it carries [nm]; and when the
    slot is empty with [EOF] in hand, the reader has been read to its end,
    which was [io.EOF]. *)
Definition sound (fault : option string) (nm : string) (p : parser) : Prop :=
  name p = nm /\ rd_fault (r p) = fault /\
  match err p with
  | None => tok p = EOF -> rd_buf (r p) = [] /\ rd_last (r p) = None /\ fault = None
  | Some io_EOF => False
  | Some (io_fault m) => fault = Some m
  | Some (lineErr f _ _) => f = nm
  end.

Lemma sound_scan_fields fault nm p p' :
  name p' = name p -> rd_fault (r p') = rd_fault (r p) -> err p' = err p ->
  tok p' = tok p -> rd_buf (r p') = rd_buf (r p) -> rd_last (r p') = rd_last (r p) ->
  sound fault nm p -> sound fault nm p'.
Proof.
  unfold sound. intros -> -> -> -> -> ->. auto.
Qed.

Lemma sound_readRune fault nm : pres (sound fault nm) readRune.
Proof.
  intros p a p' (Hn & Hf & H) E.
  destruct (rd_buf (r p)) as [|c t] eqn:Hb.
  - rewrite (readRune_fail p Hb) in E. inversion E; subst a p'; clear E.
    unfold sound, st_fail. destruct (rd_fault (r p)) as [m|] eqn:Hm; psimpl.
    + repeat split; auto. destruct (err p) as [e|]; [exact H | symmetry; exact Hf].
    + repeat split; auto. destruct (err p) as [e|]; [exact H|]. intros _. auto.
  - rewrite (readRune_ok c t p Hb) in E. inversion E; subst a p'; clear E.
    unfold sound, st_read. psimpl. repeat split; auto.
    destruct (err p) as [e|]; [exact H|]. intros T. destruct (H T) as (B & _).
    try rewrite Hb in B. discriminate.
Qed.

Lemma sound_unreadRune fault nm : pres (sound fault nm) unreadRune.
Proof.
  intros p a p' (Hn & Hf & H) E.
  destruct (rd_last (r p)) as [c|] eqn:Hl.
  - rewrite (unreadRune_ok c p Hl) in E. inversion E; subst a p'; clear E.
    unfold sound. psimpl. repeat split; auto.
    destruct (err p) as [e|]; [exact H|]. intros T. destruct (H T) as (_ & L & _).
    try rewrite Hl in L. discriminate.
  - unfold unreadRune, UnreadRune, bind, gets in E. rewrite Hl in E. discriminate.
Qed.

Lemma sound_readOnly fault nm w : pres (sound fault nm) (readOnly w).
Proof.
  intros p a p' (Hn & Hf & H) E.
  unfold readOnly, ReadRune, UnreadRune, bind, gets, modify, moveWith, ret in E.
  destruct (rd_buf (r p)) as [|c t] eqn:Hb; psimpl.
  - destruct (Ascii.eqb rune0 w); inversion E; subst a p'; clear E;
      unfold sound; psimpl; repeat split; auto;
      (destruct (err p) as [e|]; [exact H|]; intros T; destruct (H T) as (_ & _ & F);
       auto).
  - destruct (Ascii.eqb c w); inversion E; subst a p'; clear E;
      unfold sound; psimpl; repeat split; auto;
      (destruct (err p) as [e|]; [exact H|]; intros T; destruct (H T) as (B & _);
       try rewrite Hb in B; discriminate).
Qed.

Lemma sound_advance fault nm t v : t <> EOF -> pres (sound fault nm) (advance t v).
Proof.
  intros Ht p a p' (Hn & Hf & H) E. inversion E; subst a p'; clear E.
  unfold sound. psimpl. repeat split; auto.
  destruct (err p) as [e|]; [exact H|]. intros T. contradiction.
Qed.

Lemma sound_posErr fault nm ps text : pres (sound fault nm) (posErr ps text).
Proof.
  intros p a p' (Hn & Hf & H) E. inversion E; subst a p'; clear E.
  unfold sound. psimpl. repeat split; auto.
  destruct (err p) as [e|]; [exact H | exact Hn].
Qed.

Lemma sound_errWantedStr fault nm s : pres (sound fault nm) (errWantedStr s).
Proof.
  unfold errWantedStr, curErr.
  apply pres_bind; [apply pres_modify; intros p H; exact H | intros _].
  apply pres_bind; [apply pres_gets | intros t].
  apply pres_bind; [apply pres_gets | intros ps]. apply sound_posErr.
Qed.

Lemma sound_errAfterStr fault nm s : pres (sound fault nm) (errAfterStr s).
Proof.
  unfold errAfterStr, curErr.
  apply pres_bind; [apply pres_gets | intros t].
  apply pres_bind; [apply pres_gets | intros ps]. apply sound_posErr.
Qed.

Lemma sound_rules fault nm fuel : rules_pres (sound fault nm) fuel.
Proof.
  apply rules_pres_all;
    first [ apply sound_readRune | apply sound_unreadRune
          | intros w _; apply sound_readOnly
          | apply sound_advance | apply sound_errWantedStr | apply sound_errAfterStr
          | intros ps fval; apply sound_posErr
          | intros x p H; exact H ].
Qed.

Lemma sound_next fault nm : pres (sound fault nm) next.
Proof.
  apply pres_next;
    first [ apply sound_readRune | apply sound_unreadRune
          | intros w _; apply sound_readOnly
          | apply sound_advance | apply sound_errWantedStr
          | intros x p H; exact H ].
Qed.

Lemma sound_start rd nm : sound (rd_fault rd) nm (set_stack [PSeq 0] (new_parser rd nm)).
Proof.
  unfold sound. psimpl. split; [reflexivity|]. split; [reflexivity|].
  intros T. discriminate T.
Qed.

(** The loop of [commands] without stop tokens ends at [EOF] only. *)
Lemma commands_loop_to_EOF fuel : forall cs n p x p',
  commands_loop fuel cs [] n p = Done (x, p') -> tok p' = EOF.
Proof.
  induction fuel as [|fuel IH]; intros cs n p x p' E; [discriminate E|].
  cbn [commands_loop] in E. unfold bind at 1, at_EOF, gets in E.
  destruct (Token_eqb (tok p) EOF) eqn:Te.
  - inversion E; subst. apply Token_eqb_eq. exact Te.
  - unfold bind at 1, peekAny, gets in E. cbn [existsb] in E.
    unfold bind in E. destruct (command fuel cs p) as [[u p1]| |]; try discriminate.
    exact (IH _ _ _ _ _ E).
Qed.

(** The run of [Parse]: the state in which the rule [program] returns. *)
Lemma Parse_final rd nm :
  exists p2,
    (push (PSeq 0) ;; next ;; program (fuel_for rd)) (new_parser rd nm) = Done (tt, p2)
    /\ Parse rd nm = Done (prog p2, err p2)
    /\ tok p2 = EOF /\ sound (rd_fault rd) nm p2.
Proof.
  destruct (Parse_run rd nm) as (p1 & p2 & E1 & E2 & E & _).
  assert (E1' : next (set_stack [PSeq 0] (new_parser rd nm)) = Done (tt, p1)) by exact E1.
  exists p2. split; [|split; [exact E|split]].
  - change (push (PSeq 0) ;; next ;; program (fuel_for rd))
      with (bind (push (PSeq 0)) (fun _ => bind next (fun _ => program (fuel_for rd)))).
    rewrite (run_bind (push (PSeq 0)) _ (new_parser rd nm) tt
               (set_stack [PSeq 0] (new_parser rd nm)) eq_refl).
    rewrite (run_bind next _ _ tt p1 E1'). exact E2.
  - unfold program, bind in E2.
    destruct (commands (fuel_for rd) [] p1) as [[x p3]| |] eqn:E3; try discriminate.
    inversion E2; subst p3.
    unfold fuel_for in E3. destruct (16 * length (rd_buf rd) + 32) as [|f]; [discriminate|].
    cbn [commands] in E3. exact (commands_loop_to_EOF _ _ _ _ _ _ E3).
  - assert (S1 : sound (rd_fault rd) nm p1)
      by exact (sound_next _ _ _ _ _ (sound_start rd nm) E1').
    assert (HP : pres (sound (rd_fault rd) nm) (program (fuel_for rd))).
    { unfold program. apply pres_bind; [|intros _; apply pres_ret].
      apply (pr_commands _ _ (sound_rules (rd_fault rd) nm _)). }
    exact (HP _ _ _ S1 E2).
Qed.

(** * The scanner on given input shapes *)

(** What a scan of runes leaves as it was: the builder stack and the
    store, the file name, the failure of the reader, and the error slot. *)
Definition still (p p' : parser) : Prop := frame p p' /\ err p' = err p.

Lemma still_refl p : still p p.
Proof. split; [apply frame_refl | reflexivity]. Qed.

Lemma still_trans p1 p2 p3 : still p1 p2 -> still p2 p3 -> still p1 p3.
Proof.
  intros [F1 E1] [F2 E2]. split; [exact (frame_trans _ _ _ F1 F2) | congruence].
Qed.

(** The token in hand and the one before it are as they were. *)
Definition same_tok (p p' : parser) : Prop :=
  tok p' = tok p /\ val p' = val p /\ ltok p' = ltok p /\ lval p' = lval p.

Lemma same_tok_refl p : same_tok p p.
Proof. repeat split. Qed.

Lemma same_tok_trans p1 p2 p3 : same_tok p1 p2 -> same_tok p2 p3 -> same_tok p1 p3.
Proof. unfold same_tok. intuition congruence. Qed.

(** The state after the blanks [bl] have been skipped, [rest] following. *)
Fixpoint st_skip (bl rest : list rune) (p : parser) : parser :=
  match bl with
  | [] => p
  | b :: bl' => st_skip bl' rest (set_spaced true (st_read b (bl' ++ rest) p))
  end.

Lemma st_skip_facts bl rest : forall p,
  rd_buf (r p) = bl ++ rest ->
  let p' := st_skip bl rest p in
  still p p' /\ same_tok p p' /\ pos p' = pos p /\ lpos p' = lpos p
  /\ spaced p' = (match bl with [] => spaced p | _ => true end)
  /\ npos p' = end_pos (npos p) bl
  /\ rd_buf (r p') = rest.
Proof.
  induction bl as [|b bl IH]; intros p Hb; cbn [st_skip].
  - cbv zeta. repeat split; auto.
  - set (p1 := set_spaced true (st_read b (bl ++ rest) p)).
    destruct (IH p1 eq_refl) as ((F & E) & (T1 & T2 & T3 & T4) & P & L & S & N & B).
    cbv zeta. unfold still, same_tok.
    rewrite E, T1, T2, T3, T4, P, L, N, B.
    destruct F as (F1 & F2 & F3 & F4 & F5).
    repeat split; try assumption; try reflexivity.
    rewrite S. destruct bl; reflexivity.
Qed.

Lemma skipSpace_loop_run c t : forall bl n p,
  Forall (fun b => space b = true) bl -> space c = false ->
  rd_buf (r p) = bl ++ c :: t -> length bl < n ->
  skipSpace_loop n p = Done (Some c, st_read c t (st_skip bl (c :: t) p)).
Proof.
  induction bl as [|b bl IH]; intros n p Hbl Hc Hb Hn;
    (destruct n as [|n]; [cbn [length] in Hn; lia|]); cbn [skipSpace_loop app] in *.
  - rewrite (run_bind readRune _ p _ _ (readRune_ok c t p Hb)). cbn [fst snd].
    rewrite Hc. reflexivity.
  - inversion Hbl as [|? ? Hsb Hbl']; subst.
    rewrite (run_bind readRune _ p _ _ (readRune_ok b (bl ++ c :: t) p Hb)). cbn [fst snd].
    rewrite Hsb. cbn [negb].
    rewrite (run_bind (modify (set_spaced true)) _ _ tt
               (set_spaced true (st_read b (bl ++ c :: t) p)) eq_refl).
    cbn [st_skip]. apply IH; auto. cbn [length] in Hn. lia.
Qed.

Lemma skipSpace_loop_end : forall bl n p,
  Forall (fun b => space b = true) bl ->
  rd_buf (r p) = bl -> length bl < n ->
  skipSpace_loop n p = Done (None, st_fail (st_skip bl [] p)).
Proof.
  induction bl as [|b bl IH]; intros n p Hbl Hb Hn;
    (destruct n as [|n]; [cbn [length] in Hn; lia|]); cbn [skipSpace_loop] in *.
  - rewrite (run_bind readRune _ p _ _ (readRune_fail p Hb)). reflexivity.
  - inversion Hbl as [|? ? Hsb Hbl']; subst.
    assert (Hb' : rd_buf (r p) = b :: bl ++ []) by (rewrite app_nil_r; exact Hb).
    rewrite (run_bind readRune _ p _ _ (readRune_ok b (bl ++ []) p Hb')). cbn [fst snd].
    rewrite Hsb. cbn [negb].
    rewrite (run_bind (modify (set_spaced true)) _ _ tt
               (set_spaced true (st_read b (bl ++ []) p)) eq_refl).
    cbn [st_skip]. apply IH; auto.
    + cbn. apply app_nil_r.
    + cbn [length] in Hn. lia.
Qed.

(** What [next] does once the first rune [c] of a token is read. *)
Definition scan_token (c : rune) : M unit :=
  if reserved c || starters c then
    if Ascii.eqb c "#" then
      s <- readLine ;; advance COMMENT s
    else if Ascii.eqb c NL then
      advance (TRune NL) ""
    else
      t <- doToken c readOnly ;; advance t ""
  else
    s <- readLit c ;; advance LIT s.

(** The state of [next] when it has read the first rune [c] of a token,
    after the blanks [bl]. *)
Definition st_tok (bl : list rune) (c : rune) (t : list rune) (p : parser) : parser :=
  let p1 := st_read c t (st_skip bl (c :: t) (set_spaced false (set_lpos (pos p) p))) in
  set_pos {| line := line (npos p1); col := col (npos p1) - 1 |} p1.

Lemma next_token p bl c t :
  Forall (fun b => space b = true) bl -> space c = false -> c <> BSLASH ->
  rd_buf (r p) = bl ++ c :: t ->
  next p = scan_token c (st_tok bl c t p).
Proof.
  intros Hbl Hs Hbs Hb.
  unfold next. unfold bind at 1, gets. cbn [next_loop].
  set (p0 := set_spaced false (set_lpos (pos p) p)).
  rewrite (run_bind (modify (fun q => set_lpos (pos q) q)) _ p tt (set_lpos (pos p) p) eq_refl).
  rewrite (run_bind (modify (set_spaced false)) _ _ tt p0 eq_refl).
  assert (Hb0 : rd_buf (r p0) = bl ++ c :: t) by exact Hb.
  assert (Hsk : skipSpace p0 = Done (Some c, st_read c t (st_skip bl (c :: t) p0))).
  { unfold skipSpace. unfold bind at 1, gets.
    apply skipSpace_loop_run; auto.
    unfold buffered. rewrite Hb0, length_app. cbn [length]. lia. }
  rewrite (run_bind skipSpace _ p0 _ _ Hsk).
  rewrite (run_bind (modify (fun q => set_pos {| line := line (npos q); col := col (npos q) - 1 |} q))
             _ _ tt (st_tok bl c t p) eq_refl).
  assert (Hc : Ascii.eqb c BSLASH = false) by (apply Ascii.eqb_neq; exact Hbs).
  unfold andM. rewrite Hc.
  rewrite (run_bind (x <- ret false ;; (if x then readOnly NL else ret false)) _
             (st_tok bl c t p) false (st_tok bl c t p) eq_refl).
  reflexivity.
Qed.

(** At the end of the input, after blanks or none, [next] puts [EOF] in
    hand. *)
Lemma next_at_end p bl :
  Forall (fun b => space b = true) bl -> rd_buf (r p) = bl ->
  next p = Done (tt, st_fail (st_skip bl [] (set_spaced false (set_lpos (pos p) p)))).
Proof.
  intros Hbl Hb.
  unfold next. unfold bind at 1, gets. cbn [next_loop].
  set (p0 := set_spaced false (set_lpos (pos p) p)).
  rewrite (run_bind (modify (fun q => set_lpos (pos q) q)) _ p tt (set_lpos (pos p) p) eq_refl).
  rewrite (run_bind (modify (set_spaced false)) _ _ tt p0 eq_refl).
  assert (Hsk : skipSpace p0 = Done (None, st_fail (st_skip bl [] p0))).
  { unfold skipSpace. unfold bind at 1, gets.
    apply skipSpace_loop_end; auto. unfold buffered. cbn. rewrite Hb. lia. }
  rewrite (run_bind skipSpace _ p0 _ _ Hsk). reflexivity.
Qed.

Lemma end_pos_app ps a b : end_pos ps (a ++ b) = end_pos (end_pos ps a) b.
Proof. unfold end_pos. apply fold_left_app. Qed.

(** The fields of [st_tok]: the token's position is the cursor before its
    first rune, but for a newline, whose position is column 0 of the line
    that it starts. *)
Lemma st_tok_facts p bl c t :
  rd_buf (r p) = bl ++ c :: t ->
  let p' := st_tok bl c t p in
  still p p' /\ same_tok p p'
  /\ lpos p' = pos p
  /\ pos p' = (let e := end_pos (npos p) bl in
               if Ascii.eqb c NL then {| line := line e + 1; col := 0 |} else e)
  /\ spaced p' = (match bl with [] => false | _ => true end)
  /\ npos p' = end_pos (npos p) (bl ++ [c])
  /\ bpos p' = end_pos (npos p) bl
  /\ rd_buf (r p') = t /\ rd_last (r p') = Some c.
Proof.
  intros Hb. set (p0 := set_spaced false (set_lpos (pos p) p)).
  destruct (st_skip_facts bl (c :: t) p0 Hb)
    as ((F & E) & (T1 & T2 & T3 & T4) & P & L & S & N & B).
  cbv zeta. unfold st_tok. fold p0. unfold still, same_tok, frame, st_read. psimpl.
  destruct F as (F1 & F2 & F3 & F4 & F5).
  rewrite E, T1, T2, T3, T4, L, N, S, end_pos_app.
  repeat match goal with |- _ /\ _ => split end; try assumption; try reflexivity.
  change (npos p0) with (npos p).
  destruct (Ascii.eqb c NL); cbn [line col]; [reflexivity|].
  destruct (end_pos (npos p) bl) as [l k]. cbn [line col]. f_equal. lia.
Qed.

(** ** A word with quoted segments and escaped runes *)

(** What ends a word: the end of the input, an operator rune or a blank. *)
Definition ends (rest : list rune) : Prop :=
  match rest with
  | [] => True
  | d :: _ => reserved d || space d = true
  end.

(** The token before the one in hand, as [advance] records it. *)
Definition last_tok (p : parser) : Token * string :=
  if Token_eqb (tok p) EOF then (ltok p, lval p) else (tok p, val p).

Lemma end_rune_facts d :
  reserved d || space d = true ->
  Ascii.eqb d BSLASH = false /\ quote d = false.
Proof.
  intros H.
  destruct d as [[] [] [] [] [] [] [] []]; cbv in H; try discriminate H;
    split; reflexivity.
Qed.

(** How a scan that may have met the end of the input leaves the token
    in hand. *)
Definition lit_end (p p' : parser) (w rest : list rune) : Prop :=
  still p p' /\ spaced p' = spaced p /\ pos p' = pos p /\ lpos p' = lpos p
  /\ npos p' = end_pos (npos p) w
  /\ rd_buf (r p') = rest
  /\ match rest with
     | [] => tok p' = EOF /\ (ltok p', lval p') = last_tok p
     | _ => same_tok p p'
     end.

(** The quote that is open after the runes [w] of a literal, [q] being
    open before them ([rune0] when none), as the loop of [readLit] tracks
    it; [None] when one of the runes ends the literal or is an escaped
    newline, or when the runes end with a backslash. *)
Fixpoint lit_run (q : rune) (w : list rune) : option rune :=
  match w with
  | [] => Some q
  | c :: w' =>
      if negb (Ascii.eqb q SQUOTE) && Ascii.eqb c BSLASH then
        match w' with
        | x :: w'' => if Ascii.eqb x NL then None else lit_run q w''
        | [] => None
        end
      else if negb (Ascii.eqb q SQUOTE) && Ascii.eqb c "$" then None
      else if negb (Ascii.eqb q rune0) then lit_run (if Ascii.eqb c q then rune0 else q) w'
      else if quote c then lit_run c w'
      else if reserved c || space c then None
      else lit_run q w'
  end.

(** The state after the runes [w] of a literal have been read. *)
Definition lit_mid (p p' : parser) (w rest : list rune) : Prop :=
  still p p' /\ same_tok p p' /\ spaced p' = spaced p /\ pos p' = pos p
  /\ lpos p' = lpos p /\ npos p' = end_pos (npos p) w /\ rd_buf (r p') = rest.

Lemma lit_mid_read p p' w c t :
  lit_mid p p' w (c :: t) -> lit_mid p (st_read c t p') (w ++ [c]) t.
Proof.
  intros (((F1 & F2 & F3 & F4 & F5) & E) & (T1 & T2 & T3 & T4) & Sp & P & L & N & B).
  unfold lit_mid, still, frame, same_tok, end_pos. rewrite fold_left_app.
  fold (end_pos (npos p) w). rewrite <- N.
  unfold st_read. psimpl. repeat split; auto.
Qed.

(** The end of the loop: outside quotes, before a rune that ends the
    literal or at the end of the input. *)
Lemma readLit_rest_end n rs p0 p w rest :
  lit_mid p0 p w rest -> ends rest -> rd_fault (r p) = None -> length rest <= n ->
  exists p', readLit_rest (readLit_loop n) rune0 rs p = Done (string_of_runes rs, p')
             /\ lit_end p0 p' w rest.
Proof.
  intros (S & T & Sp & P & L & N & B) He Hf Hn. unfold readLit_rest.
  destruct rest as [|d t].
  - rewrite (run_bind readRune _ p _ _ (readRune_fail p B)). cbn [fst snd].
    change (Ascii.eqb rune0 rune0) with true. cbn [negb].
    eexists. split; [reflexivity|].
    destruct S as ((F1 & F2 & F3 & F4 & F5) & E). destruct T as (T1 & T2 & T3 & T4).
    unfold lit_end, still, frame, last_tok, st_fail. rewrite Hf. psimpl.
    rewrite T1, T2, T3, T4.
    repeat match goal with |- _ /\ _ => split end; try congruence.
    destruct (Token_eqb (tok p0) EOF); reflexivity.
  - rewrite (run_bind readRune _ p _ _ (readRune_ok d t p B)). cbn [fst snd].
    destruct n as [|n]; [cbn [length] in Hn; lia|]. cbn [readLit_loop].
    cbn [ends] in He. destruct (end_rune_facts d He) as (Db & Dq).
    rewrite Db, !andb_false_r.
    change (Ascii.eqb rune0 SQUOTE) with false.
    change (Ascii.eqb rune0 rune0) with true.
    cbn [negb andb]. rewrite Dq, He.
    assert (U := unreadRune_ok d (st_read d t p) eq_refl).
    destruct S as ((F1 & F2 & F3 & F4 & F5) & E). destruct T as (T1 & T2 & T3 & T4).
    destruct (Ascii.eqb d "$");
      rewrite (run_bind unreadRune _ _ _ _ U);
      (eexists; split; [reflexivity|]);
      unfold lit_end, still, frame, same_tok, st_read; psimpl;
      repeat match goal with |- _ /\ _ => split end; congruence.
Qed.

(** The loop of [readLit] on the runes of a literal: [c] is in hand,
    [w] follow, and [w0] have been read since the state [p0]. *)
Lemma readLit_loop_lit rest : forall k w n c q rs p0 p w0,
  length w <= k ->
  lit_run q (c :: w) = Some rune0 -> ends rest ->
  lit_mid p0 p w0 (w ++ rest) -> rd_fault (r p) = None ->
  length (w ++ rest) < n ->
  exists p', readLit_loop n c q rs p = Done (string_of_runes (rs ++ c :: w), p')
             /\ lit_end p0 p' (w0 ++ w) rest.
Proof.
  induction k as [k IH] using lt_wf_ind.
  intros w n c q rs p0 p w0 Hk Hrun He Hm Hf Hn.
  destruct n as [|n]; [lia|]. cbn [readLit_loop]. cbn [lit_run] in Hrun.
  (* after the rune in hand has been kept *)
  assert (Go : forall q' rs',
            lit_run q' w = Some rune0 -> rs' = rs ++ [c] ->
            exists p', readLit_rest (readLit_loop n) q' rs' p
                       = Done (string_of_runes (rs ++ c :: w), p')
                       /\ lit_end p0 p' (w0 ++ w) rest).
  { intros q' rs' Hq' ->. destruct w as [|c1 w1].
    - cbn [lit_run] in Hq'. inversion Hq'; subst q'. cbn [app] in *. rewrite app_nil_r.
      apply (readLit_rest_end n (rs ++ [c]) p0 p w0 rest); auto. lia.
    - pose proof Hm as (_ & _ & _ & _ & _ & _ & B). cbn [app] in B.
      unfold readLit_rest.
      rewrite (run_bind readRune _ p _ _ (readRune_ok c1 (w1 ++ rest) p B)). cbn [fst snd].
      destruct (IH (length w1) (ltac:(cbn [length] in Hk; lia)) w1 n c1 q' (rs ++ [c]) p0
                  (st_read c1 (w1 ++ rest) p) (w0 ++ [c1]) (le_n _) Hq' He)
        as (p' & E & L); auto.
      { apply lit_mid_read. exact Hm. }
      { cbn [length app] in Hn. lia. }
      exists p'. rewrite E, <- !app_assoc. cbn [app]. split; [reflexivity|].
      rewrite <- !app_assoc in L. exact L. }
  destruct (negb (Ascii.eqb q SQUOTE) && Ascii.eqb c BSLASH) eqn:Eesc.
  - (* an escaped rune *)
    destruct w as [|x w2]; [discriminate|].
    destruct (Ascii.eqb x NL) eqn:Ex; [discriminate|].
    pose proof Hm as (_ & _ & _ & _ & _ & _ & B). cbn [app] in B.
    rewrite (run_bind readRune _ p _ _ (readRune_ok x (w2 ++ rest) p B)). cbn [fst snd].
    rewrite Ex.
    assert (Hm2 : lit_mid p0 (st_read x (w2 ++ rest) p) (w0 ++ [x]) (w2 ++ rest))
      by (apply lit_mid_read; exact Hm).
    apply andb_true_iff in Eesc. destruct Eesc as (_ & Ec).
    apply Ascii.eqb_eq in Ec. subst c.
    destruct w2 as [|c2 w3].
    + cbn [lit_run] in Hrun. inversion Hrun; subst q. cbn [app] in *.
      destruct (readLit_rest_end n (rs ++ [BSLASH; x]) p0 (st_read x rest p)
                  (w0 ++ [x]) rest) as (p' & E & L); auto.
      { cbn [length] in Hn. lia. }
      exists p'. rewrite E. split; [reflexivity | exact L].
    + pose proof Hm2 as (_ & _ & _ & _ & _ & _ & B2). cbn [app] in B2.
      unfold readLit_rest.
      rewrite (run_bind readRune _ _ _ _ (readRune_ok c2 (w3 ++ rest) _ B2)). cbn [fst snd].
      destruct (IH (length w3) (ltac:(cbn [length] in Hk; lia)) w3 n c2 q (rs ++ [BSLASH; x]) p0
                  (st_read c2 (w3 ++ rest) (st_read x (c2 :: w3 ++ rest) p))
                  ((w0 ++ [x]) ++ [c2]) (le_n _) Hrun He)
        as (p' & E & L); auto.
      { apply lit_mid_read. exact Hm2. }
      { cbn [length app] in Hn. lia. }
      exists p'. rewrite E, <- !app_assoc. cbn [app]. split; [reflexivity|].
      rewrite <- !app_assoc in L. exact L.
  - destruct (negb (Ascii.eqb q SQUOTE) && Ascii.eqb c "$"); [discriminate|].
    destruct (negb (Ascii.eqb q rune0)).
    + apply (Go _ _ Hrun eq_refl).
    + destruct (quote c).
      * apply (Go _ _ Hrun eq_refl).
      * destruct (reserved c || space c); [discriminate|].
        apply (Go _ _ Hrun eq_refl).
Qed.

(** A literal as [next] scans it: its first rune starts a word, and the
    runes end outside quotes. *)
Definition lit_word (w : list rune) : Prop :=
  match w with
  | c :: _ =>
      space c = false /\ c <> BSLASH /\ reserved c = false /\ starters c = false
      /\ lit_run rune0 w = Some rune0
  | [] => False
  end.

(** [next] on a literal, after blanks or none: the token is [LIT] with
    the text of the literal, quotes and backslashes included; the rune
    that ends the literal is left unread, and the cursor is behind the
    literal. *)
Lemma next_lit_word p bl w rest :
  Forall (fun b => space b = true) bl -> lit_word w -> ends rest ->
  rd_buf (r p) = bl ++ w ++ rest -> rd_fault (r p) = None ->
  exists p',
    next p = Done (tt, p')
    /\ still p p'
    /\ tok p' = LIT /\ val p' = string_of_runes w
    /\ (ltok p', lval p') = last_tok p
    /\ spaced p' = (match bl with [] => false | _ => true end)
    /\ rd_buf (r p') = rest
    /\ lpos p' = pos p /\ pos p' = end_pos (npos p) bl
    /\ npos p' = end_pos (npos p) (bl ++ w).
Proof.
  intros Hbl Hw He Hb Hf. destruct w as [|c w]; [contradiction|].
  destruct Hw as (Cs & Cb & Cr & Hst & Hrun). cbn [app] in Hb.
  rewrite (next_token p bl c (w ++ rest) Hbl Cs Cb Hb).
  destruct (st_tok_facts p bl c (w ++ rest) Hb)
    as ((F0 & E0) & (T1 & T2 & T3 & T4) & L0 & P0 & S0 & N0 & _ & B0 & _).
  set (p1 := st_tok bl c (w ++ rest) p) in *. cbv zeta in P0.
  unfold scan_token. rewrite Cr, Hst. cbn [orb].
  assert (Hf1 : rd_fault (r p1) = None).
  { destruct F0 as (_ & _ & _ & _ & F5). rewrite F5. exact Hf. }
  destruct (readLit_loop_lit rest (length w) w (S (buffered p1)) c rune0 [] p1 p1 []
              (le_n _) Hrun He)
    as (p2 & R & (F & E) & S & P & L & N & B & T); auto.
  { split; [apply still_refl|]. split; [apply same_tok_refl|].
    repeat split; auto. }
  assert (R' : readLit c p1 = Done (string_of_runes ([] ++ c :: w), p2)) by exact R.
  rewrite (run_bind (readLit c) _ p1 _ p2 R').
  eexists. split; [reflexivity|].
  unfold still, last_tok. psimpl. rewrite E, E0, S, S0, P, P0, L, L0, N, N0, B.
  rewrite (proj2 (Ascii.eqb_neq c NL)).
  2:{ intros ->. discriminate Cr. }
  repeat match goal with |- _ /\ _ => split end; try reflexivity.
  - exact (frame_trans _ _ _ F0 F).
  - destruct rest as [|d t].
    + destruct T as (Te & Tl). rewrite Te. cbn [Token_eqb].
      rewrite Token_eqb_refl. rewrite Tl. unfold last_tok. rewrite T1, T2, T3, T4.
      reflexivity.
    + destruct T as (U1 & U2 & U3 & U4). rewrite U1, U2, U3, U4, T1, T2, T3, T4.
      destruct (Token_eqb (tok p) EOF); reflexivity.
  - cbn [app]. rewrite <- end_pos_app, <- app_assoc. reflexivity.
Qed.

(** ** The scanner as a relation on the input

    [nexts buf t v sp rest]: whenever the reader holds [buf] and ends
    with [io.EOF], [next] puts the token [t] with the value [v] in hand,
    records the token it replaces, sets [spaced] to [sp] and leaves
    [rest] unread, without touching the builder or the error slot. *)
Definition nexts (buf : list rune) (t : Token) (v : string) (sp : bool)
  (rest : list rune) : Prop :=
  forall q, rd_buf (r q) = buf -> rd_fault (r q) = None ->
  exists q', next q = Done (tt, q')
             /\ still q q'
             /\ tok q' = t /\ val q' = v /\ (ltok q', lval q') = last_tok q
             /\ spaced q' = sp /\ rd_buf (r q') = rest.

Definition is_nil {A} (l : list A) : bool :=
  match l with [] => true | _ => false end.

Lemma nexts_word bl w rest :
  Forall (fun b => space b = true) bl -> lit_word w -> ends rest ->
  nexts (bl ++ w ++ rest) LIT (string_of_runes w) (negb (is_nil bl)) rest.
Proof.
  intros Hbl Hw He q Hb Hf.
  destruct (next_lit_word q bl w rest Hbl Hw He Hb Hf)
    as (q' & E & S & T & V & L & Sp & B & _).
  exists q'. repeat match goal with |- _ /\ _ => split end; auto.
  rewrite Sp. destruct bl; reflexivity.
Qed.

Lemma nexts_end bl :
  Forall (fun b => space b = true) bl ->
  nexts bl EOF "EOF" (negb (is_nil bl)) [].
Proof.
  intros Hbl q Hb Hf. rewrite (next_at_end q bl Hbl Hb).
  set (q0 := set_spaced false (set_lpos (pos q) q)).
  assert (Hb0 : rd_buf (r q0) = bl ++ []) by (rewrite app_nil_r; exact Hb).
  destruct (st_skip_facts bl [] q0 Hb0)
    as ((F & E) & (T1 & T2 & T3 & T4) & P & L & S & N & B).
  eexists. split; [reflexivity|].
  assert (Hf1 : rd_fault (r (st_skip bl [] q0)) = None).
  { destruct F as (_ & _ & _ & _ & F5). rewrite F5. exact Hf. }
  unfold still, frame, last_tok, st_fail. rewrite Hf1.
  destruct F as (F1 & F2 & F3 & F4 & F5).
  subst q0. psimpl.
  rewrite E, T1, T2, T3, T4, S.
  repeat match goal with |- _ /\ _ => split end; try assumption; try reflexivity.
  - congruence.
  - destruct (Token_eqb (tok q) EOF); reflexivity.
  - destruct bl; reflexivity.
Qed.

(** The tokens that follow the one in hand, each with its value and with
    whether blanks precede it, up to the [EOF] that ends them. *)
Inductive lexes : Token -> list rune -> list (Token * string * bool) -> Prop :=
| lexes_end buf : lexes EOF buf []
| lexes_next t buf t' v' sp' rest ts :
    t <> EOF -> nexts buf t' v' sp' rest -> lexes t' rest ts ->
    lexes t buf ((t', v', sp') :: ts).

(** The parser is at the token [t] with the value [v], and [ts] follow. *)
Definition at_stream (p : parser) (t : Token) (v : string)
  (ts : list (Token * string * bool)) : Prop :=
  tok p = t /\ val p = v /\ rd_fault (r p) = None /\ lexes t (rd_buf (r p)) ts.

Lemma next_at p t v t' v' sp' ts :
  at_stream p t v ((t', v', sp') :: ts) ->
  exists p', next p = Done (tt, p')
             /\ still p p' /\ at_stream p' t' v' ts
             /\ ltok p' = t /\ lval p' = v /\ spaced p' = sp'.
Proof.
  intros (Ht & Hv & Hf & Hl). inversion Hl as [|? ? ? ? ? rest ? Hne Hn Hl']; subst.
  destruct (Hn p eq_refl Hf) as (p' & E & S & T & V & L & Sp & B).
  exists p'. split; [exact E|]. split; [exact S|].
  assert (Hf' : rd_fault (r p') = None).
  { destruct S as ((_ & _ & _ & _ & F5) & _). rewrite F5. exact Hf. }
  unfold last_tok in L. rewrite (Token_eqb_neq _ _ Hne) in L. inversion L.
  unfold at_stream. rewrite B. auto 10.
Qed.

Lemma at_stream_heap p p' t v ts :
  r p' = r p -> tok p' = tok p -> val p' = val p ->
  at_stream p t v ts -> at_stream p' t v ts.
Proof. unfold at_stream. intros -> -> ->. auto. Qed.

(** * The rules on given token streams *)

Lemma nth_upd_other {A} (l : list A) i j x d : i <> j -> nth j (upd l i x) d = nth j l d.
Proof.
  revert i j; induction l as [|h t IH]; intros [|i] [|j] H; simpl; auto; try lia.
Qed.

(** The cells that were there are in place: the stores have not shrunk. *)
Definition cells_kept (p p' : parser) : Prop :=
  stack p' = stack p
  /\ length (seqs p) <= length (seqs p') /\ length (ones p) <= length (ones p').

(** The sequence at the address [a] has grown by [ns]; the stack, the
    other sequences and the single-node cells that were there are as they
    were. *)
Definition grew (a : nat) (ns : list Node) (p p' : parser) : Prop :=
  cells_kept p p'
  /\ nth a (seqs p') [] = nth a (seqs p) [] ++ ns
  /\ (forall b, b < length (seqs p) -> b <> a -> nth b (seqs p') [] = nth b (seqs p) [])
  /\ (forall b, b < length (ones p) -> nth b (ones p') None = nth b (ones p) None).

(** The single-node cell at [b] has been set to [n]; every other cell
    that was there is as it was. *)
Definition filled (b : nat) (n : Node) (p p' : parser) : Prop :=
  cells_kept p p'
  /\ nth b (ones p') None = Some n
  /\ (forall a, a < length (seqs p) -> nth a (seqs p') [] = nth a (seqs p) [])
  /\ (forall c, c < length (ones p) -> c <> b -> nth c (ones p') None = nth c (ones p) None).

(** The node [n] has been added through the slot [d]. *)
Definition put (d : slot) (n : Node) (p p' : parser) : Prop :=
  match d with
  | PSeq a => grew a [n] p p'
  | POne b => filled b n p p'
  end.

Lemma grew_trans a ns1 ns2 p1 p2 p3 :
  grew a ns1 p1 p2 -> grew a ns2 p2 p3 -> grew a (ns1 ++ ns2) p1 p3.
Proof.
  intros ((S1 & L1 & M1) & N1 & R1 & O1) ((S2 & L2 & M2) & N2 & R2 & O2).
  split; [split; [congruence | lia]|]. split; [|split].
  - rewrite N2, N1, app_assoc. reflexivity.
  - intros b Hb Hne. rewrite R2 by (auto; lia). apply R1; auto.
  - intros b Hb. rewrite O2 by lia. apply O1; auto.
Qed.

Lemma grew_nil a p : grew a [] p p.
Proof.
  unfold grew, cells_kept. rewrite app_nil_r. repeat split; auto.
Qed.

(** The token in hand ends a word that has a part. *)
Definition stop_part (t : Token) (sp : bool) : Prop :=
  t = EOF \/ sp = true \/ (t <> LIT /\ t <> EXP).

Lemma parts_loop_stop fuel w p :
  stop_part (tok p) (spaced p) -> nth w (seqs p) [] <> [] ->
  parts_loop (S fuel) w p = Done (tt, p).
Proof.
  intros Hs Hw. cbn [parts_loop]. unfold bind at 1, at_EOF, gets.
  destruct (Token_eqb (tok p) EOF) eqn:Te; [reflexivity|].
  unfold bind at 1, loadSeq, gets. unfold bind at 1, gets.
  destruct (nth w (seqs p) []) as [|n ns] eqn:Hn; [congruence|].
  cbn [length Nat.ltb Nat.leb andb].
  destruct Hs as [H|[H|[H1 H2]]].
  - rewrite H in Te. rewrite Token_eqb_refl in Te. discriminate.
  - rewrite H. reflexivity.
  - destruct (spaced p); [reflexivity|].
    unfold bind at 1. rewrite (got_false LIT p) by (apply peek_other; auto).
    unfold bind at 1. rewrite (got_false EXP p) by (apply peek_other; auto).
    reflexivity.
Qed.

Lemma peek_same t p : tok p = t -> peek t p = true.
Proof. intros H. unfold peek. rewrite H, Token_eqb_refl. reflexivity. Qed.

(** ** Probing one rune ahead *)

Lemma readOnly_hit w t p :
  rd_buf (r p) = w :: t -> readOnly w p = Done (true, st_read w t p).
Proof.
  intros Hb. unfold readOnly, ReadRune, bind, gets, modify, moveWith, ret.
  rewrite Hb, Ascii.eqb_refl. reflexivity.
Qed.

(** The reader after a rune has been read and given back, or after a read
    at the end: it holds what it held, and nothing can be given back. *)
Definition st_probed (p : parser) : parser :=
  set_r {| rd_buf := rd_buf (r p); rd_last := None; rd_fault := rd_fault (r p) |} p.

Lemma readOnly_miss w c t p :
  rd_buf (r p) = c :: t -> c <> w -> readOnly w p = Done (false, st_probed p).
Proof.
  intros Hb Hc. unfold readOnly, ReadRune, UnreadRune, bind, gets, modify, ret, st_probed.
  rewrite Hb. rewrite (proj2 (Ascii.eqb_neq c w) Hc). reflexivity.
Qed.

Lemma readOnly_end w p :
  rd_buf (r p) = [] -> w <> rune0 -> readOnly w p = Done (false, st_probed p).
Proof.
  intros Hb Hw. unfold readOnly, ReadRune, bind, gets, modify, ret, st_probed.
  rewrite Hb. rewrite (proj2 (Ascii.eqb_neq rune0 w)) by congruence. reflexivity.
Qed.

(** The runes of an operator token. *)
Definition op_text (t : Token) : list rune :=
  match t with
  | SEMICOLON => [";"] | LPAREN => ["("] | RPAREN => [")"]
  | LBRACE => ["{"] | RBRACE => ["}"] | RDRIN => ["<"] | EXP => ["$"]
  | AND => ["&"] | LAND => ["&"; "&"]
  | OR => ["|"] | LOR => ["|"; "|"]
  | RDROUT => [">"] | APPEND => [">"; ">"]
  | TRune c => [c]
  | _ => []
  end%char.

Definition is_op (t : Token) : Prop :=
  In t [SEMICOLON; LPAREN; RPAREN; LBRACE; RBRACE; RDRIN; EXP; AND; LAND; OR; LOR;
        RDROUT; APPEND; TRune NL].

(** What may follow an operator for it to be scanned as such: the rune
    after a single [&], [|] or [>] is not that rune again. *)
Definition op_follow (t : Token) (rest : list rune) : Prop :=
  match t, rest with
  | AND, d :: _ => d <> "&"%char
  | OR, d :: _ => d <> "|"%char
  | RDROUT, d :: _ => d <> ">"%char
  | _, _ => True
  end.

Lemma scan_op_facts (t : Token) (p0 p1 p2 : parser) (sp : bool) (rest : list rune) :
  still p0 p1 -> same_tok p0 p1 -> spaced p1 = sp ->
  still p1 p2 -> same_tok p1 p2 -> spaced p2 = spaced p1 -> rd_buf (r p2) = rest ->
  exists q', advance t "" p2 = Done (tt, q')
             /\ still p0 q'
             /\ tok q' = t /\ val q' = "" /\ (ltok q', lval q') = last_tok p0
             /\ spaced q' = sp /\ rd_buf (r q') = rest.
Proof.
  intros S1 (T1 & T2 & T3 & T4) Sp1 S2 (U1 & U2 & U3 & U4) Sp2 B.
  eexists. split; [reflexivity|].
  destruct (still_trans _ _ _ S1 S2) as (F & E).
  unfold still, frame, last_tok in *. psimpl.
  rewrite U1, U2, U3, U4, T1, T2, T3, T4.
  repeat match goal with |- _ /\ _ => split end; try tauto; try congruence.
  destruct (Token_eqb (tok p0) EOF); reflexivity.
Qed.

Lemma st_read_still c t p : still p (st_read c t p) /\ same_tok p (st_read c t p)
  /\ spaced (st_read c t p) = spaced p /\ rd_buf (r (st_read c t p)) = t.
Proof. unfold still, frame, same_tok, st_read. psimpl. repeat split. Qed.

Lemma st_probed_still p : still p (st_probed p) /\ same_tok p (st_probed p)
  /\ spaced (st_probed p) = spaced p /\ rd_buf (r (st_probed p)) = rd_buf (r p).
Proof. unfold still, frame, same_tok, st_probed. psimpl. repeat split. Qed.

Lemma nexts_op t bl rest :
  is_op t -> Forall (fun b => space b = true) bl -> op_follow t rest ->
  nexts (bl ++ op_text t ++ rest) t "" (negb (is_nil bl)) rest.
Proof.
  intros Ht Hbl Hfo q Hb Hf.
  assert (Hsp : forall c t0, rd_buf (r q) = bl ++ c :: t0 ->
            let p1 := st_tok bl c t0 q in
            still q p1 /\ same_tok q p1 /\ spaced p1 = negb (is_nil bl)
            /\ rd_buf (r p1) = t0).
  { intros c t0 Hb0. destruct (st_tok_facts q bl c t0 Hb0) as (S & T & _ & _ & Sp & _ & _ & B & _).
    cbv zeta. repeat split; auto; try apply S; try apply T.
    rewrite Sp. destruct bl; reflexivity. }
  (* a token of one rune that needs no probe *)
  assert (One : forall c, op_text t = [c] -> space c = false -> c <> BSLASH ->
            scan_token c = advance t "" ->
            exists q', next q = Done (tt, q')
                       /\ still q q'
                       /\ tok q' = t /\ val q' = "" /\ (ltok q', lval q') = last_tok q
                       /\ spaced q' = negb (is_nil bl) /\ rd_buf (r q') = rest).
  { intros c Hc Hs Hbs Hsc. rewrite Hc in Hb. cbn [app] in Hb.
    rewrite (next_token q bl c rest Hbl Hs Hbs Hb), Hsc.
    destruct (Hsp c rest Hb) as (S1 & T1 & Sp1 & B1).
    exact (scan_op_facts t q _ _ _ rest S1 T1 Sp1 (still_refl _) (same_tok_refl _)
             eq_refl B1). }
  (* a token of two equal runes *)
  assert (Two : forall c t2, op_text t = [c; c] -> space c = false -> c <> BSLASH ->
            (forall p, scan_token c p
                       = (b <- readOnly c ;; advance (if b then t else t2) "") p) ->
            exists q', next q = Done (tt, q')
                       /\ still q q'
                       /\ tok q' = t /\ val q' = "" /\ (ltok q', lval q') = last_tok q
                       /\ spaced q' = negb (is_nil bl) /\ rd_buf (r q') = rest).
  { intros c t2 Hc Hs Hbs Hsc. rewrite Hc in Hb. cbn [app] in Hb.
    rewrite (next_token q bl c (c :: rest) Hbl Hs Hbs Hb), Hsc.
    destruct (Hsp c (c :: rest) Hb) as (S1 & T1 & Sp1 & B1).
    rewrite (run_bind (readOnly c) _ _ _ _ (readOnly_hit c rest _ B1)).
    destruct (st_read_still c rest (st_tok bl c (c :: rest) q)) as (S2 & T2 & Sp2 & B2).
    exact (scan_op_facts t q _ _ _ rest S1 T1 Sp1 S2 T2 Sp2 B2). }
  (* a token of one rune after which the same rune is probed for *)
  assert (Alone : forall c t1, op_text t = [c] -> space c = false -> c <> BSLASH ->
            c <> rune0 ->
            match rest with d :: _ => d <> c | [] => True end ->
            (forall p, scan_token c p
                       = (b <- readOnly c ;; advance (if b then t1 else t) "") p) ->
            exists q', next q = Done (tt, q')
                       /\ still q q'
                       /\ tok q' = t /\ val q' = "" /\ (ltok q', lval q') = last_tok q
                       /\ spaced q' = negb (is_nil bl) /\ rd_buf (r q') = rest).
  { intros c t1 Hc Hs Hbs Hc0 Hr Hsc. rewrite Hc in Hb. cbn [app] in Hb.
    rewrite (next_token q bl c rest Hbl Hs Hbs Hb), Hsc.
    destruct (Hsp c rest Hb) as (S1 & T1 & Sp1 & B1).
    assert (R : readOnly c (st_tok bl c rest q)
                = Done (false, st_probed (st_tok bl c rest q))).
    { destruct rest as [|d t0].
      - apply readOnly_end; assumption.
      - apply (readOnly_miss c d t0); assumption. }
    rewrite (run_bind (readOnly c) _ _ _ _ R).
    destruct (st_probed_still (st_tok bl c rest q)) as (S2 & T2 & Sp2 & B2).
    rewrite B1 in B2.
    exact (scan_op_facts t q _ _ _ rest S1 T1 Sp1 S2 T2 Sp2 B2). }
  assert (Sc : forall c t1 t2,
            doToken c readOnly = (b <- readOnly c ;; ret (if b then t1 else t2)) ->
            reserved c || starters c = true -> Ascii.eqb c "#" = false ->
            Ascii.eqb c NL = false ->
            forall p, scan_token c p
                      = (b <- readOnly c ;; advance (if b then t1 else t2) "") p).
  { intros c t1 t2 Hd Hr H1 H2 p. unfold scan_token. rewrite Hr, H1, H2, Hd.
    unfold bind. destruct (readOnly c p) as [[[] ?]| |]; reflexivity. }
  unfold is_op in Ht. cbn [In] in Ht.
  repeat (destruct Ht as [Ht|Ht]; [subst t|]); try contradiction.
  - apply (One ";"%char); try reflexivity; discriminate.
  - apply (One "("%char); try reflexivity; discriminate.
  - apply (One ")"%char); try reflexivity; discriminate.
  - apply (One "{"%char); try reflexivity; discriminate.
  - apply (One "}"%char); try reflexivity; discriminate.
  - apply (One "<"%char); try reflexivity; discriminate.
  - apply (One "$"%char); try reflexivity; discriminate.
  - apply (Alone "&"%char LAND); try reflexivity; try discriminate.
    + destruct rest; [exact I | exact Hfo].
    + apply Sc; reflexivity.
  - apply (Two "&"%char AND); try reflexivity; try discriminate.
    apply Sc; reflexivity.
  - apply (Alone "|"%char LOR); try reflexivity; try discriminate.
    + destruct rest; [exact I | exact Hfo].
    + apply Sc; reflexivity.
  - apply (Two "|"%char OR); try reflexivity; try discriminate.
    apply Sc; reflexivity.
  - apply (Alone ">"%char APPEND); try reflexivity; try discriminate.
    + destruct rest; [exact I | exact Hfo].
    + apply Sc; reflexivity.
  - apply (Two ">"%char RDROUT); try reflexivity; try discriminate.
    apply Sc; reflexivity.
  - apply (One NL); try reflexivity; discriminate.
Qed.

(** ** The cursor, and the errors at the end of the input

    [cursor full p]: of the input [full], the reader holds what has not
    been read, [npos] is the position behind what has been read, and when
    a rune can be given back, [bpos] is the position before it. *)
Definition cursor (full : list rune) (p : parser) : Prop :=
  exists read,
    full = read ++ rd_buf (r p) /\ npos p = end_pos (at_pos 1 1) read
    /\ match rd_last (r p) with
       | Some c => exists read0, read = read0 ++ [c] /\ bpos p = end_pos (at_pos 1 1) read0
       | None => True
       end.

Lemma end_pos_last ps read c :
  end_pos ps (read ++ [c])
  = (if Ascii.eqb c NL
     then {| line := line (end_pos ps read) + 1; col := 1 |}
     else {| line := line (end_pos ps read); col := col (end_pos ps read) + 1 |}).
Proof. unfold end_pos. rewrite fold_left_app. reflexivity. Qed.

Lemma cursor_fields full p p' :
  r p' = r p -> npos p' = npos p -> bpos p' = bpos p -> cursor full p -> cursor full p'.
Proof. unfold cursor. intros -> -> ->. auto. Qed.

Lemma cursor_st_read full c t p :
  rd_buf (r p) = c :: t -> cursor full p -> cursor full (st_read c t p).
Proof.
  intros Hb (read & Hfull & Hn & _). exists (read ++ [c]). unfold st_read. psimpl.
  split; [rewrite <- app_assoc, Hfull, Hb; reflexivity|].
  split; [rewrite end_pos_last, Hn; reflexivity|].
  exists read. split; [reflexivity | exact Hn].
Qed.

Lemma cursor_at_end full p :
  cursor full p ->
  cursor full (set_r {| rd_buf := rd_buf (r p); rd_last := None; rd_fault := rd_fault (r p) |} p).
Proof. intros (read & Hfull & Hn & _). exists read. psimpl. auto. Qed.

Lemma cursor_readRune full : pres (cursor full) readRune.
Proof.
  intros p a p' H E. destruct (rd_buf (r p)) as [|c t] eqn:Hb.
  - rewrite (readRune_fail p Hb) in E. inversion E; subst a p'; clear E.
    destruct H as (read & Hfull & Hn & _). exists read.
    unfold st_fail. destruct (rd_fault (r p)); psimpl; rewrite Hb in Hfull; auto.
  - rewrite (readRune_ok c t p Hb) in E. inversion E; subst a p'; clear E.
    apply cursor_st_read; assumption.
Qed.

Lemma cursor_unreadRune full : pres (cursor full) unreadRune.
Proof.
  intros p a p' (read & Hfull & Hn & Hl) E.
  destruct (rd_last (r p)) as [c|] eqn:El.
  - rewrite (unreadRune_ok c p El) in E. inversion E; subst a p'; clear E.
    destruct Hl as (read0 & -> & Hbp). exists read0. psimpl.
    rewrite <- app_assoc in Hfull. auto.
  - unfold unreadRune, UnreadRune, bind, gets in E. rewrite El in E. discriminate.
Qed.

Lemma cursor_readOnly full w : w <> rune0 -> pres (cursor full) (readOnly w).
Proof.
  intros Hw p a p' H E.
  destruct (rd_buf (r p)) as [|c t] eqn:Hb.
  - rewrite (readOnly_end w p Hb Hw) in E. inversion E; subst a p'; clear E.
    apply cursor_at_end. exact H.
  - destruct (Ascii.eqb c w) eqn:Hc.
    + apply Ascii.eqb_eq in Hc. subst c.
      rewrite (readOnly_hit w t p Hb) in E. inversion E; subst a p'; clear E.
      apply cursor_st_read; assumption.
    + apply Ascii.eqb_neq in Hc.
      rewrite (readOnly_miss w c t p Hb Hc) in E. inversion E; subst a p'; clear E.
      apply cursor_at_end. exact H.
Qed.

Lemma cursor_start rd nm :
  rd_last rd = None -> cursor (rd_buf rd) (set_stack [PSeq 0] (new_parser rd nm)).
Proof. intros H. exists []. unfold new_parser. psimpl. rewrite H. auto. Qed.

Lemma cursor_advance full t v : pres (cursor full) (advance t v).
Proof. intros p a p' H E. inversion E; subst. exact (cursor_fields full p _ eq_refl eq_refl eq_refl H). Qed.

Lemma pres_both (I J : parser -> Prop) {A} (m : M A) :
  pres I m -> pres J m -> pres (fun p => I p /\ J p) m.
Proof. intros HI HJ p a p' (H1 & H2) E. split; [exact (HI p a p' H1 E) | exact (HJ p a p' H2 E)]. Qed.

(** The errors that tell of the end of the input.  When the texts of the
    errors tell [EOF] from the other tokens, an error about [EOF] is
    placed behind the last rune of the input, which ended with
    [io.EOF]. *)
Section AtTheEnd.

Hypothesis wanted_EOF : forall t s1 s2, wanted_text t s1 = wanted_text EOF s2 -> t = EOF.
Hypothesis after_EOF : forall t s1 s2, after_text t s1 <> wanted_text EOF s2.

Variable full : list rune.
Variable fault : option string.
Variable nm : string.

Definition at_end (p : parser) : Prop :=
  match err p with
  | Some (lineErr _ ps text) =>
      (exists s, text = wanted_text EOF s) ->
      ps = end_pos (at_pos 1 1) full /\ fault = None
  | _ => True
  end.

Definition placed (p : parser) : Prop :=
  (cursor full p /\ sound fault nm p) /\ at_end p.

Lemma at_end_same p p' : err p' = err p -> at_end p -> at_end p'.
Proof. unfold at_end. intros ->. auto. Qed.

Lemma at_end_readRune : pres at_end readRune.
Proof.
  intros p a p' H E. destruct (rd_buf (r p)) as [|c t] eqn:Hb.
  - rewrite (readRune_fail p Hb) in E. inversion E; subst a p'; clear E.
    unfold at_end, st_fail in *. destruct (rd_fault (r p)); psimpl; [|exact H].
    destruct (err p); [exact H | exact I].
  - rewrite (readRune_ok c t p Hb) in E. inversion E; subst a p'; clear E. exact H.
Qed.

Lemma at_end_unreadRune : pres at_end unreadRune.
Proof.
  intros p a p' H E. destruct (rd_last (r p)) as [c|] eqn:El.
  - rewrite (unreadRune_ok c p El) in E. inversion E; subst a p'; clear E. exact H.
  - unfold unreadRune, UnreadRune, bind, gets in E. rewrite El in E. discriminate.
Qed.

Lemma at_end_readOnly w : pres at_end (readOnly w).
Proof.
  intros p a p' H E.
  unfold readOnly, ReadRune, UnreadRune, bind, gets, modify, moveWith, ret in E.
  destruct (rd_buf (r p)) as [|c t]; psimpl.
  - destruct (Ascii.eqb rune0 w); inversion E; subst; exact H.
  - destruct (Ascii.eqb c w); inversion E; subst; exact H.
Qed.

Lemma at_end_advance t v : pres at_end (advance t v).
Proof. intros p a p' H E. inversion E; subst. exact H. Qed.

Lemma placed_errWantedStr s : pres placed (errWantedStr s).
Proof.
  intros p a p' ((C & S) & H) E. split; [split|].
  - unfold errWantedStr, curErr, posErr, errPass, setEOF, advance, bind, modify, gets in E.
    inversion E; subst a p'; clear E.
    apply (cursor_fields full p); auto.
  - exact (sound_errWantedStr fault nm s p a p' S E).
  - unfold errWantedStr, curErr, posErr, errPass, setEOF, advance, bind, modify, gets in E.
    inversion E; subst a p'; clear E. unfold at_end in *. psimpl.
    destruct (err p) as [e|] eqn:Ee; [exact H|].
    intros (s2 & Hs). apply wanted_EOF in Hs.
    destruct S as (_ & Hf & S). rewrite Ee in S. destruct (S Hs) as (B & _ & F).
    rewrite Hs, Token_eqb_refl. split; [|exact F].
    destruct C as (read & Hfull & Hn & _). rewrite B, app_nil_r in Hfull. congruence.
Qed.

Lemma placed_errAfterStr s : pres placed (errAfterStr s).
Proof.
  intros p a p' ((C & S) & H) E. split; [split|].
  - unfold errAfterStr, curErr, posErr, errPass, setEOF, advance, bind, modify, gets in E.
    inversion E; subst a p'; clear E.
    apply (cursor_fields full p); auto.
  - exact (sound_errAfterStr fault nm s p a p' S E).
  - unfold errAfterStr, curErr, posErr, errPass, setEOF, advance, bind, modify, gets in E.
    inversion E; subst a p'; clear E. unfold at_end in *. psimpl.
    destruct (err p) as [e|] eqn:Ee; [exact H|].
    intros (s2 & Hs). destruct (after_EOF _ _ _ Hs).
Qed.

Lemma placed_funcErr ps fval : pres placed (posErr ps (func_name_text fval)).
Proof.
  intros p a p' ((C & S) & H) E. split; [split|].
  - unfold posErr, errPass, setEOF, advance, bind, modify, gets in E.
    inversion E; subst a p'; clear E.
    apply (cursor_fields full p); auto.
  - exact (sound_posErr fault nm _ _ p a p' S E).
  - unfold posErr, errPass, setEOF, advance, bind, modify, gets in E.
    inversion E; subst a p'; clear E. unfold at_end in *. psimpl.
    destruct (err p) as [e|] eqn:Ee; [exact H|].
    intros (s2 & Hs). discriminate Hs.
Qed.

Lemma placed_set (f : parser -> parser) :
  (forall p, r (f p) = r p /\ npos (f p) = npos p /\ bpos (f p) = bpos p
             /\ err (f p) = err p /\ tok (f p) = tok p /\ name (f p) = name p) ->
  forall p, placed p -> placed (f p).
Proof.
  intros Hf p ((C & S) & H). destruct (Hf p) as (Hr & Hn & Hb & He & Ht & Hnm).
  split; [split|].
  - exact (cursor_fields full p _ Hr Hn Hb C).
  - revert S. unfold sound. rewrite Hr, He, Ht, Hnm. auto.
  - exact (at_end_same p _ He H).
Qed.

Lemma placed_rules fuel : rules_pres placed fuel.
Proof.
  apply rules_pres_all;
    first [ apply placed_errWantedStr | apply placed_errAfterStr | apply placed_funcErr
          | intros x; apply placed_set; intros p; repeat split
          | apply pres_both;
            [apply pres_both;
             [first [apply cursor_readRune | apply cursor_unreadRune | apply cursor_advance]
             |first [apply sound_readRune | apply sound_unreadRune | apply sound_advance;
                                                                      assumption]]
            |first [apply at_end_readRune | apply at_end_unreadRune | apply at_end_advance]]
          | intros w Hw; apply pres_both;
            [apply pres_both; [apply cursor_readOnly; exact Hw | apply sound_readOnly]
            |apply at_end_readOnly]
          | intros t v Ht; apply pres_both;
            [apply pres_both; [apply cursor_advance | apply sound_advance; exact Ht]
            |apply at_end_advance] ].
Qed.

Lemma placed_next : pres placed next.
Proof.
  apply pres_next;
    first [ apply placed_errWantedStr
          | intros x; apply placed_set; intros p; repeat split
          | apply pres_both;
            [apply pres_both;
             [first [apply cursor_readRune | apply cursor_unreadRune]
             |first [apply sound_readRune | apply sound_unreadRune]]
            |first [apply at_end_readRune | apply at_end_unreadRune]]
          | intros w Hw; apply pres_both;
            [apply pres_both; [apply cursor_readOnly; exact Hw | apply sound_readOnly]
            |apply at_end_readOnly]
          | intros t v Ht; apply pres_both;
            [apply pres_both; [apply cursor_advance | apply sound_advance; exact Ht]
            |apply at_end_advance] ].
Qed.

End AtTheEnd.

(** The state in which [Parse] returns, for a reader that is fresh. *)
Lemma Parse_placed rd nm :
  (forall t s1 s2, wanted_text t s1 = wanted_text EOF s2 -> t = EOF) ->
  (forall t s1 s2, after_text t s1 <> wanted_text EOF s2) ->
  rd_last rd = None ->
  exists p2, Parse rd nm = Done (prog p2, err p2) /\ placed (rd_buf rd) (rd_fault rd) nm p2.
Proof.
  intros H1 H2 Hl.
  destruct (Parse_run rd nm) as (p1 & p2 & E1 & E2 & E & _).
  assert (E1' : next (set_stack [PSeq 0] (new_parser rd nm)) = Done (tt, p1)) by exact E1.
  exists p2. split; [exact E|].
  assert (P0 : placed (rd_buf rd) (rd_fault rd) nm (set_stack [PSeq 0] (new_parser rd nm))).
  { split; [split; [apply cursor_start; exact Hl | apply sound_start] | exact I]. }
  assert (P1 : placed (rd_buf rd) (rd_fault rd) nm p1)
    by exact (placed_next H1 (rd_buf rd) (rd_fault rd) nm _ _ _ P0 E1').
  assert (HP : pres (placed (rd_buf rd) (rd_fault rd) nm) (program (fuel_for rd))).
  { unfold program. apply pres_bind; [|intros _; apply pres_ret].
    apply (pr_commands _ _ (placed_rules H1 H2 (rd_buf rd) (rd_fault rd) nm _)). }
  exact (HP _ _ _ P1 E2).
Qed.

(** ** Reading up to a token

    [readUntil] hands every rune that it reads to [doToken], which on [&],
    [|] and [>] probes the rune after it and takes it when it is the same
    one: that rune is read and not kept. *)
Definition probes (c : rune) : bool :=
  Ascii.eqb c "&" || Ascii.eqb c "|" || Ascii.eqb c ">".

(** The runes that [readUntil] keeps of the text [s] that it reads. *)
Fixpoint kept_text (s : list rune) : list rune :=
  match s with
  | [] => []
  | a :: s' =>
      a :: (if probes a then
              match s' with
              | b :: s'' => if Ascii.eqb b a then kept_text s'' else kept_text s'
              | [] => []
              end
            else kept_text s')
  end.

(** The token that [readUntil] is called with, and the rune that makes it. *)
Definition until (t : Token) (c : rune) : Prop :=
  (t = RBRACE /\ c = "}"%char) \/ (t = TRune NL /\ c = NL).

(** The parser after a read up to a token: [w] has been read, [rest] is
    left; when the token was not found the end of the input was met. *)
Definition read_to (p p' : parser) (w rest : list rune) (found : bool) : Prop :=
  still p p' /\ spaced p' = spaced p /\ pos p' = pos p /\ lpos p' = lpos p
  /\ npos p' = end_pos (npos p) w
  /\ rd_buf (r p') = rest
  /\ if found then same_tok p p'
     else tok p' = EOF /\ (ltok p', lval p') = last_tok p.

Lemma doToken_no_probe a p :
  probes a = false ->
  exists t', doToken a readOnly p = Done (t', p)
             /\ (forall t c, until t c -> (t' = t <-> a = c)).
Proof.
  intros H.
  destruct a as [[] [] [] [] [] [] [] []]; cbv in H; try discriminate H;
    (eexists; split; [reflexivity|]);
    intros t c [(-> & ->)|(-> & ->)]; split; intros E;
      solve [reflexivity | discriminate E | inversion E].
Qed.

Lemma doToken_probe a p :
  probes a = true ->
  exists t1 t2,
    doToken a readOnly p = (b <- readOnly a ;; ret (if b then t1 else t2)) p
    /\ (forall t c, until t c -> t1 <> t /\ t2 <> t /\ a <> c).
Proof.
  intros H.
  destruct a as [[] [] [] [] [] [] [] []]; cbv in H; try discriminate H;
    (eexists; eexists; split; [reflexivity|]);
    intros t c [(-> & ->)|(-> & ->)]; repeat split; discriminate.
Qed.

Lemma lit_mid_probed p p' w rest :
  lit_mid p p' w rest -> lit_mid p (st_probed p') w rest.
Proof.
  intros (((F1 & F2 & F3 & F4 & F5) & E) & (T1 & T2 & T3 & T4) & Sp & P & L & N & B).
  unfold lit_mid, still, frame, same_tok, st_probed. psimpl. repeat split; auto.
Qed.

Lemma lit_mid_start p : lit_mid p p [] (rd_buf (r p)).
Proof. unfold lit_mid. repeat split; auto using still_refl. Qed.

Lemma kept_text_plain a s : probes a = false -> kept_text (a :: s) = a :: kept_text s.
Proof. intros H. cbn [kept_text]. rewrite H. reflexivity. Qed.

(** The loop of [readUntil] on the text [s], which does not hold the rune
    [c] of the token, before that rune or the end of the input. *)
Lemma readUntil_loop_text t c : until t c -> forall m s n p0 p w0 rs tail,
  length s <= m -> length s < n ->
  ~ In c s -> match tail with [] => True | d :: _ => d = c end ->
  lit_mid p0 p w0 (s ++ tail) -> rd_fault (r p0) = None ->
  exists p',
    readUntil_loop n t rs p
    = Done ((string_of_runes (rs ++ kept_text s), negb (is_nil tail)), p')
    /\ read_to p0 p' (w0 ++ s ++ firstn 1 tail) (tl tail) (negb (is_nil tail)).
Proof.
  intros Hu. induction m as [|m IH]; intros s n p0 p w0 rs tail Hm Hn Hin Htl M Hf;
    (destruct n as [|n]; [lia|]).
  - destruct s as [|a s]; [|cbn [length] in Hm; lia].
    cbn [app kept_text] in *. rewrite app_nil_r.
    pose proof M as (((F1 & F2 & F3 & F4 & F5) & E) & (T1 & T2 & T3 & T4) & Sp & P & L & N & B).
    destruct tail as [|d tl0]; cbn [readUntil_loop].
    + rewrite (run_bind readRune _ p _ _ (readRune_fail p B)). cbn [snd ret].
      eexists. split; [reflexivity|].
      assert (Hfp : rd_fault (r p) = None) by congruence.
      unfold read_to, still, frame, last_tok, st_fail. rewrite Hfp. psimpl.
      cbn [is_nil negb firstn tl]. rewrite app_nil_r, T1, T2, T3, T4.
      repeat match goal with |- _ /\ _ => split end; auto.
      destruct (Token_eqb (tok p0) EOF); reflexivity.
    + subst d.
      rewrite (run_bind readRune _ p _ _ (readRune_ok c tl0 p B)). cbn [fst snd].
      assert (Hp : probes c = false) by (destruct Hu as [(_ & ->)|(_ & ->)]; reflexivity).
      destruct (doToken_no_probe c (st_read c tl0 p) Hp) as (t' & E1 & Ht').
      rewrite (run_bind (doToken c readOnly) _ _ _ _ E1).
      rewrite (proj2 (Ht' t c Hu) eq_refl), Token_eqb_refl. cbn [ret].
      eexists. split; [reflexivity|].
      pose proof (lit_mid_read p0 p w0 c tl0 M)
        as (S' & T' & Sp' & P' & L' & N' & B').
      unfold read_to. cbn [firstn tl is_nil negb]. auto 10.
  - destruct s as [|a s].
    { apply (IH [] (S n) p0 p w0 rs tail); auto; cbn [length]; lia. }
    cbn [length] in Hm, Hn. cbn [app] in M.
    pose proof M as (_ & _ & _ & _ & _ & _ & B).
    assert (Hac : a <> c) by (intros ->; apply Hin; left; reflexivity).
    assert (Hin' : ~ In c s) by (intros H; apply Hin; right; exact H).
    cbn [readUntil_loop].
    rewrite (run_bind readRune _ p _ _ (readRune_ok a (s ++ tail) p B)). cbn [fst snd].
    pose proof (lit_mid_read p0 p w0 a (s ++ tail) M) as M1.
    destruct (probes a) eqn:Hp.
    + destruct (doToken_probe a (st_read a (s ++ tail) p) Hp) as (t1 & t2 & E1 & Ht).
      destruct (Ht t c Hu) as (N1 & N2 & _).
      destruct s as [|b s].
      * (* the probe meets the rune of the token, or the end *)
        cbn [app] in *.
        assert (Ero : readOnly a (st_read a tail p)
                      = Done (false, st_probed (st_read a tail p))).
        { destruct tail as [|d tl0].
          - apply readOnly_end; [reflexivity|].
            intros ->. cbv in Hp. discriminate Hp.
          - subst d. apply (readOnly_miss a c tl0); [reflexivity | congruence]. }
        assert (E2 : doToken a readOnly (st_read a tail p)
                     = Done (t2, st_probed (st_read a tail p))).
        { rewrite E1. rewrite (run_bind (readOnly a) _ _ _ _ Ero). reflexivity. }
        rewrite (run_bind (doToken a readOnly) _ _ _ _ E2).
        rewrite (Token_eqb_neq t t2) by congruence.
        destruct (IH [] n p0 (st_probed (st_read a tail p)) (w0 ++ [a]) (rs ++ [a]) tail)
          as (p' & E' & R'); auto; try (cbn [length]; lia);
          try (apply lit_mid_probed; exact M1).
        exists p'. split.
        -- rewrite E'. cbn [kept_text]. rewrite Hp, <- app_assoc. reflexivity.
        -- rewrite <- app_assoc in R'. exact R'.
      * cbn [app] in *. destruct (Ascii.eqb b a) eqn:Hba.
        -- apply Ascii.eqb_eq in Hba. subst b.
           assert (E2 : doToken a readOnly (st_read a (a :: s ++ tail) p)
                        = Done (t1, st_read a (s ++ tail) (st_read a (a :: s ++ tail) p))).
           { rewrite E1.
             rewrite (run_bind (readOnly a) _ _ _ _
                        (readOnly_hit a (s ++ tail) (st_read a (a :: s ++ tail) p) eq_refl)).
             reflexivity. }
           rewrite (run_bind (doToken a readOnly) _ _ _ _ E2).
           rewrite (Token_eqb_neq t t1) by congruence.
           pose proof (lit_mid_read p0 _ (w0 ++ [a]) a (s ++ tail) M1) as M2.
           destruct (IH s n p0 (st_read a (s ++ tail) (st_read a (a :: s ++ tail) p))
                       ((w0 ++ [a]) ++ [a]) (rs ++ [a]) tail)
             as (p' & E' & R'); auto; try (cbn [length] in *; lia);
             try (intros H; apply Hin'; right; exact H).
           exists p'. split.
           ++ rewrite E'. cbn [kept_text]. rewrite Hp, Ascii.eqb_refl, <- app_assoc.
              reflexivity.
           ++ rewrite <- !app_assoc in R'. exact R'.
        -- assert (Hba' : b <> a) by (apply Ascii.eqb_neq; exact Hba).
           assert (E2 : doToken a readOnly (st_read a (b :: s ++ tail) p)
                        = Done (t2, st_probed (st_read a (b :: s ++ tail) p))).
           { rewrite E1.
             rewrite (run_bind (readOnly a) _ _ _ _
                        (readOnly_miss a b (s ++ tail) (st_read a (b :: s ++ tail) p) eq_refl Hba')).
             reflexivity. }
           rewrite (run_bind (doToken a readOnly) _ _ _ _ E2).
           rewrite (Token_eqb_neq t t2) by congruence.
           destruct (IH (b :: s) n p0 (st_probed (st_read a (b :: s ++ tail) p))
                       (w0 ++ [a]) (rs ++ [a]) tail)
             as (p' & E' & R'); auto; try (cbn [length] in *; lia);
             try (apply lit_mid_probed; exact M1).
           exists p'. split.
           ++ rewrite E'. cbn [kept_text]. rewrite Hp, Hba, <- app_assoc. reflexivity.
           ++ rewrite <- !app_assoc in R'. exact R'.
    + destruct (doToken_no_probe a (st_read a (s ++ tail) p) Hp) as (t' & E1 & Ht').
      rewrite (run_bind (doToken a readOnly) _ _ _ _ E1).
      assert (Nt : t <> t').
      { intros ->. apply Hac. apply (Ht' t' c Hu). reflexivity. }
      rewrite (Token_eqb_neq t t' Nt).
      destruct (IH s n p0 (st_read a (s ++ tail) p) (w0 ++ [a]) (rs ++ [a]) tail)
        as (p' & E' & R'); auto; try lia.
      exists p'. split.
      * rewrite E'. rewrite (kept_text_plain a s Hp), <- app_assoc. reflexivity.
      * rewrite <- !app_assoc in R'. exact R'.
Qed.

Lemma readUntil_text t c p s tail :
  until t c -> ~ In c s -> match tail with [] => True | d :: _ => d = c end ->
  rd_buf (r p) = s ++ tail -> rd_fault (r p) = None ->
  exists p',
    readUntil t p = Done ((string_of_runes (kept_text s), negb (is_nil tail)), p')
    /\ read_to p p' (s ++ firstn 1 tail) (tl tail) (negb (is_nil tail)).
Proof.
  intros Hu Hin Htl Hb Hf. unfold readUntil. unfold bind at 1, gets.
  assert (M : lit_mid p p [] (s ++ tail)) by (rewrite <- Hb; apply lit_mid_start).
  destruct (readUntil_loop_text t c Hu (length s) s (S (buffered p)) p p [] [] tail)
    as (p' & E & R); auto;
    try (unfold buffered; rewrite Hb, length_app; lia).
  exists p'. split; [exact E | exact R].
Qed.

(** [next] on a comment, after blanks or none: the token is [COMMENT]
    with the runes kept between the hash and the end of the line, which
    is read with it; so it is when the input ends in the comment. *)
Lemma next_comment p bl s tail :
  Forall (fun b => space b = true) bl -> ~ In NL s ->
  match tail with [] => True | d :: _ => d = NL end ->
  rd_buf (r p) = bl ++ "#"%char :: s ++ tail -> rd_fault (r p) = None ->
  exists p',
    next p = Done (tt, p') /\ still p p'
    /\ tok p' = COMMENT /\ val p' = string_of_runes (kept_text s)
    /\ (ltok p', lval p') = last_tok p
    /\ spaced p' = negb (is_nil bl)
    /\ rd_buf (r p') = tl tail
    /\ lpos p' = pos p /\ pos p' = end_pos (npos p) bl
    /\ npos p' = end_pos (npos p) (bl ++ "#"%char :: s ++ firstn 1 tail).
Proof.
  intros Hbl Hin Htl Hb Hf.
  rewrite (next_token p bl "#"%char (s ++ tail) Hbl eq_refl) by (discriminate || exact Hb).
  destruct (st_tok_facts p bl "#"%char (s ++ tail) Hb)
    as ((F0 & E0) & (U1 & U2 & U3 & U4) & L0 & P0 & Sp0 & N0 & _ & B0 & _).
  set (p0 := st_tok bl "#"%char (s ++ tail) p) in *.
  assert (Hf0 : rd_fault (r p0) = None) by (destruct F0 as (_ & _ & _ & _ & F5); congruence).
  destruct (readUntil_text (TRune NL) NL p0 s tail) as (p1 & E1 & R1); auto.
  { right. split; reflexivity. }
  destruct R1 as ((F & Er) & Sp & P & L & N & B & T).
  unfold scan_token. change (reserved "#"%char || starters "#"%char) with true.
  cbn [Ascii.eqb Bool.eqb]. cbv iota.
  unfold readLine. unfold bind at 1.
  rewrite (run_bind (readUntil (TRune NL)) _ p0 _ p1 E1). cbn [fst snd ret].
  eexists. split; [reflexivity|].
  destruct F as (F1 & F2 & F3 & F4 & F5). destruct F0 as (G1 & G2 & G3 & G4 & G5).
  unfold still, frame, last_tok. psimpl.
  rewrite F1, F2, F3, F4, F5, G1, G2, G3, G4, G5, Er, E0, Sp, Sp0, P, P0, L, L0, B, N, N0.
  cbn [Ascii.eqb Bool.eqb]. cbv iota.
  rewrite <- end_pos_app, <- app_assoc. cbn [app].
  repeat match goal with |- _ /\ _ => split end; auto;
    try solve [destruct bl; reflexivity].
  - destruct tail as [|d tl0]; cbn [is_nil negb] in T.
    + destruct T as (T1 & T2). rewrite T1, Token_eqb_refl, T2.
      unfold last_tok. rewrite U1, U2, U3, U4. reflexivity.
    + destruct T as (T1 & T2 & T3 & T4). rewrite T1, T2, T3, T4, U1, U2, U3, U4.
      destruct (Token_eqb (tok p) EOF); reflexivity.
Qed.


(** ** Words and arguments, on the token stream *)

Definition tokn := (Token * string * bool)%type.

(** The parser has the first token of [l] in hand, and the rest follow. *)
Definition at_toks (p : parser) (l : list tokn) : Prop :=
  match l with
  | [] => False
  | (t, v, _) :: ts => at_stream p t v ts
  end.

(** Whether blanks precede the first token of [l]. *)
Definition hd_sp (l : list tokn) : bool :=
  match l with
  | (_, _, sp) :: _ => sp
  | [] => false
  end.

Lemma peek_no t p :
  tok p <> t -> reservedLits t = "" -> (tok p = LIT -> val p <> "") -> peek t p = false.
Proof.
  intros Ht Hr Hv. unfold peek. rewrite (Token_eqb_neq _ _ Ht), Hr. cbn [orb].
  destruct (Token_eqb (tok p) LIT) eqn:E; [|reflexivity].
  apply Token_eqb_eq in E. cbn [andb]. apply String.eqb_neq. auto.
Qed.

Lemma peekAny_no stop p :
  Forall (eq RPAREN) stop -> tok p <> RPAREN -> (tok p = LIT -> val p <> "") ->
  existsb (fun t => peek t p) stop = false.
Proof.
  intros Hs Ht Hv. induction Hs as [|t stop <- _ IH]; [reflexivity|].
  cbn [existsb]. rewrite IH, (peek_no RPAREN p); auto.
Qed.

Lemma at_toks_heap p p' l :
  r p' = r p -> tok p' = tok p -> val p' = val p -> at_toks p l -> at_toks p' l.
Proof.
  destruct l as [|[[t v] sp] ts]; [tauto|]. cbn [at_toks]. apply at_stream_heap.
Qed.

Lemma peek_lit t p :
  tok p = LIT -> t <> LIT -> val p <> reservedLits t -> peek t p = false.
Proof.
  intros Ht Hne Hv. unfold peek. rewrite Ht.
  rewrite (Token_eqb_neq LIT t) by congruence. cbn [orb Token_eqb].
  rewrite Token_eqb_refl. cbn [andb].
  apply String.eqb_neq. exact Hv.
Qed.

(** Every cell of [p0] is in [p] with what it held. *)
Definition held (p0 p : parser) : Prop :=
  length (seqs p0) <= length (seqs p) /\ length (ones p0) <= length (ones p)
  /\ (forall a, a < length (seqs p0) -> nth a (seqs p) [] = nth a (seqs p0) [])
  /\ (forall b, b < length (ones p0) -> nth b (ones p) None = nth b (ones p0) None).

Lemma held_refl p : held p p.
Proof. repeat split; auto. Qed.

Lemma held_trans p1 p2 p3 : held p1 p2 -> held p2 p3 -> held p1 p3.
Proof.
  intros (L1 & M1 & Q1 & O1) (L2 & M2 & Q2 & O2). repeat split; try lia.
  - intros a Ha. rewrite Q2 by lia. auto.
  - intros b Hb. rewrite O2 by lia. auto.
Qed.

Lemma held_grew p0 p p' a ns :
  held p0 p -> grew a ns p p' -> length (seqs p0) <= a -> held p0 p'.
Proof.
  intros (L1 & M1 & Q1 & O1) ((_ & L2 & M2) & _ & R2 & O2) Ha. repeat split; try lia.
  - intros b Hb. rewrite R2 by lia. auto.
  - intros b Hb. rewrite O2 by lia. auto.
Qed.

Lemma held_filled p0 p p' b n :
  held p0 p -> filled b n p p' -> length (ones p0) <= b -> held p0 p'.
Proof.
  intros (L1 & M1 & Q1 & O1) ((_ & L2 & M2) & _ & R2 & O2) Hb. repeat split; try lia.
  - intros a Ha. rewrite R2 by lia. auto.
  - intros c Hc. rewrite O2 by lia. auto.
Qed.

Lemma held_same p0 p p' :
  held p0 p -> seqs p' = seqs p -> ones p' = ones p -> held p0 p'.
Proof. unfold held. intros H -> ->. exact H. Qed.

Lemma held_newSeq p0 p : held p0 p -> held p0 (set_seqs (seqs p ++ [[]]) p).
Proof.
  intros (L1 & M1 & Q1 & O1). unfold held. psimpl. rewrite length_app.
  repeat split; auto; try lia.
  intros a Ha. rewrite app_nth1 by lia. auto.
Qed.

Lemma held_newOne p0 p : held p0 p -> held p0 (set_ones (ones p ++ [None]) p).
Proof.
  intros (L1 & M1 & Q1 & O1). unfold held. psimpl. rewrite length_app.
  repeat split; auto; try lia.
  intros a Ha. rewrite app_nth1 by lia. auto.
Qed.

(** [popAdd] onto the destination of a rule, in a state that holds the
    cells of the state [p0] in which the rule was entered. *)
Lemma popAdd_put n x d st p0 p :
  stack p0 = d :: st -> slot_free d p0 -> held p0 p -> stack p = x :: d :: st ->
  exists p',
    popAdd n p = Done (tt, p')
    /\ r p' = r p /\ tok p' = tok p /\ val p' = val p /\ err p' = err p
    /\ name p' = name p
    /\ put d n p0 p'.
Proof.
  intros Hs0 Hfree (L & M & Q & O) Hs.
  unfold popAdd.
  rewrite (run_bind pop _ p tt (set_stack (d :: st) p))
    by (unfold pop; rewrite (run_bind (gets stack) _ p (x :: d :: st) p)
          by (unfold gets; rewrite Hs; reflexivity); reflexivity).
  unfold add.
  rewrite (run_bind (gets stack) _ (set_stack (d :: st) p) (d :: st)
             (set_stack (d :: st) p) eq_refl).
  destruct d as [a|b]; cbn [slot_free] in Hfree.
  - unfold modify. eexists. split; [reflexivity|]. psimpl.
    repeat match goal with |- _ /\ _ => split end; try reflexivity.
    unfold put, grew, cells_kept. psimpl. rewrite length_upd.
    repeat match goal with |- _ /\ _ => split end; auto.
    + rewrite nth_upd_same by lia. rewrite Q by exact Hfree. reflexivity.
    + intros c Hc Hne. rewrite nth_upd_other by congruence. auto.
  - destruct Hfree as (Hb & Hn).
    rewrite (run_bind (loadOne b) _ _ None (set_stack (POne b :: st) p))
      by (unfold loadOne, gets; psimpl; rewrite O, Hn by exact Hb; reflexivity).
    unfold modify. eexists. split; [reflexivity|]. psimpl.
    repeat match goal with |- _ /\ _ => split end; try reflexivity.
    unfold put, filled, cells_kept. psimpl. rewrite length_upd.
    repeat match goal with |- _ /\ _ => split end; auto.
    + rewrite nth_upd_same by lia. reflexivity.
    + intros c Hc Hne. rewrite nth_upd_other by congruence. auto.
Qed.

(** [add] onto the destination of a rule. *)
Lemma add_put n d st p0 p :
  stack p0 = d :: st -> slot_free d p0 -> held p0 p -> stack p = d :: st ->
  exists p',
    add n p = Done (tt, p')
    /\ r p' = r p /\ tok p' = tok p /\ val p' = val p /\ err p' = err p
    /\ name p' = name p
    /\ put d n p0 p'.
Proof.
  intros Hs0 Hfree (L & M & Q & O) Hs.
  unfold add.
  rewrite (run_bind (gets stack) _ p (d :: st) p) by (unfold gets; rewrite Hs; reflexivity).
  destruct d as [a|b]; cbn [slot_free] in Hfree.
  - unfold modify. eexists. split; [reflexivity|]. psimpl.
    repeat match goal with |- _ /\ _ => split end; try reflexivity.
    unfold put, grew, cells_kept. psimpl. rewrite length_upd.
    repeat match goal with |- _ /\ _ => split end; auto; try congruence.
    + rewrite nth_upd_same by lia. rewrite Q by exact Hfree. reflexivity.
    + intros c Hc Hne. rewrite nth_upd_other by congruence. auto.
  - destruct Hfree as (Hb & Hn).
    rewrite (run_bind (loadOne b) _ _ None p)
      by (unfold loadOne, gets; rewrite O, Hn by exact Hb; reflexivity).
    unfold modify. eexists. split; [reflexivity|]. psimpl.
    repeat match goal with |- _ /\ _ => split end; try reflexivity.
    unfold put, filled, cells_kept. psimpl. rewrite length_upd.
    repeat match goal with |- _ /\ _ => split end; auto; try congruence.
    + rewrite nth_upd_same by lia. reflexivity.
    + intros c Hc Hne. rewrite nth_upd_other by congruence. auto.
Qed.

Lemma last_head {A} (l : list A) : forall a d, last (a :: l) d = last l a.
Proof.
  induction l as [|b l IH]; intros a d; [reflexivity|].
  change (last (a :: b :: l) d) with (last (b :: l) d).
  rewrite (IH b d), (IH b a). reflexivity.
Qed.

Lemma popAdd_lval n p p' : popAdd n p = Done (tt, p') -> lval p' = lval p.
Proof.
  intros E.
  apply (pres_popAdd (fun q => lval q = lval p)) with (p := p) (a := tt) (n := n);
    auto.
Qed.

Lemma next_toks p x tl :
  at_toks p (x :: tl) -> tl <> [] ->
  exists p', next p = Done (tt, p')
             /\ still p p' /\ at_toks p' tl /\ lval p' = snd (fst x)
             /\ spaced p' = hd_sp tl.
Proof.
  destruct x as [[t v] sp]. destruct tl as [|[[t' v'] sp'] ts]; [congruence|].
  intros Ha _. destruct (next_at p t v t' v' sp' ts Ha) as (p' & E & S & A & _ & L & Sp).
  exists p'. auto.
Qed.

Lemma got_op_toks t p sp tl :
  at_toks p ((t, "", sp) :: tl) -> tl <> [] ->
  exists p', got t p = Done (true, p') /\ still p p' /\ at_toks p' tl.
Proof.
  intros Ha Htl. pose proof Ha as (T & _).
  destruct (next_toks p _ _ Ha Htl) as (p' & E & S & A & _).
  exists p'. split; [|auto].
  unfold got, bind at 1, gets. rewrite (peek_same t p T).
  rewrite (run_bind next _ p tt p' E). reflexivity.
Qed.

Lemma held_still p0 p p' : held p0 p -> still p p' -> held p0 p'.
Proof.
  intros H ((_ & _ & Fq & Fo & _) & _). apply (held_same p0 p); auto.
Qed.

Definition blanks (bl : list rune) : Prop := Forall (fun b => space b = true) bl.

Lemma lit_word_text w : lit_word w -> string_of_runes w <> "".
Proof. destruct w; [contradiction | discriminate]. Qed.

(** A literal with the blanks before it. *)
Definition lword := (list rune * list rune)%type.

(** A piece of the input: blanks, then a literal, an operator, or a
    comment with the newline that ends it. *)
Inductive piece :=
| PW (bl w : list rune)
| PO (bl : list rune) (t : Token)
| PC (bl s : list rune).

Definition p_text (x : piece) : list rune :=
  match x with
  | PW bl w => bl ++ w
  | PO bl t => bl ++ op_text t
  | PC bl s => bl ++ "#"%char :: s ++ [NL]
  end.

Definition p_tok (x : piece) : tokn :=
  match x with
  | PW bl w => (LIT, string_of_runes w, negb (is_nil bl))
  | PO bl t => (t, "", negb (is_nil bl))
  | PC bl s => (COMMENT, string_of_runes (kept_text s), negb (is_nil bl))
  end.

Definition pw (x : lword) : piece := PW (fst x) (snd x).

(** A word: the blanks before it, a literal or none, and the names of
    the variables [$name] that follow it without blanks. *)
Record sword := {
  w_bl : list rune;
  w_lit : option (list rune);
  w_vars : list (list rune)
}.

Definition var_pieces (vs : list (list rune)) : list piece :=
  flat_map (fun n => [PO [] EXP; PW [] n]) vs.

Definition word_pieces (w : sword) : list piece :=
  match w_lit w, w_vars w with
  | Some l, vs => PW (w_bl w) l :: var_pieces vs
  | None, n :: vs => PO (w_bl w) EXP :: PW [] n :: var_pieces vs
  | None, [] => []
  end.

Definition var_node (n : list rune) : Node := Lit ("$" ++ string_of_runes n).

Definition lit_nodes (l : option (list rune)) : list Node :=
  match l with
  | Some l => [Lit (string_of_runes l)]
  | None => []
  end.

Definition word_node (w : sword) : Node :=
  Word (lit_nodes (w_lit w) ++ map var_node (w_vars w)).

Definition wf_word (w : sword) : Prop :=
  blanks (w_bl w)
  /\ match w_lit w with
     | Some l => lit_word l
     | None => w_vars w <> []
     end
  /\ Forall lit_word (w_vars w).

(** The text of the last token of a word, which [lval] holds when the
    word has been read. *)
Definition word_last (w : sword) : string :=
  last (map string_of_runes (w_vars w))
    (match w_lit w with Some l => string_of_runes l | None => ""%string end).

(** An argument of a simple command after its first word: a word, or a
    redirection, which is an operator and the word that it takes. *)
Inductive arg :=
| AWord (w : sword)
| ARedir (bl : list rune) (op : Token) (w : sword).

Definition arg_pieces (a : arg) : list piece :=
  match a with
  | AWord w => word_pieces w
  | ARedir bl op w => PO bl op :: word_pieces w
  end.

Definition arg_node (a : arg) : Node :=
  match a with
  | AWord w => word_node w
  | ARedir _ op w => Redirect op (Some (word_node w))
  end.

Definition is_redirect (op : Token) : Prop := In op [RDROUT; APPEND; RDRIN].

(** A word that follows another has blanks before it. *)
Definition wf_arg (a : arg) : Prop :=
  match a with
  | AWord w => wf_word w /\ w_bl w <> []
  | ARedir bl op w => blanks bl /\ is_redirect op /\ wf_word w
  end.

Definition arg_vars (a : arg) : nat :=
  match a with
  | AWord w | ARedir _ _ w => length (w_vars w)
  end.

Fixpoint avars (l : list arg) : nat :=
  match l with
  | [] => 0
  | a :: l' => arg_vars a + avars l'
  end.

(** The token [after] a word ends it. *)
Definition after_word (after : list tokn) : Prop :=
  match after with
  | (t, _, sp) :: _ => stop_part t sp
  | [] => False
  end.

Lemma after_word_cons after : after_word after -> exists x ts, after = x :: ts.
Proof. destruct after as [|x ts]; [contradiction | eauto]. Qed.

(** One turn of the loop of the parts on [$name]. *)
Lemma parts_var f wc st0 p n sp x ts :
  at_toks p ((EXP, "", sp) :: (LIT, n, false) :: x :: ts) -> n <> "" ->
  nth wc (seqs p) [] = [] \/ spaced p = false ->
  stack p = PSeq wc :: st0 -> wc < length (seqs p) ->
  exists p',
    parts_loop (S f) wc p = parts_loop f wc p'
    /\ at_toks p' (x :: ts) /\ spaced p' = hd_sp (x :: ts)
    /\ err p' = err p /\ name p' = name p /\ lval p' = n
    /\ grew wc [Lit ("$" ++ n)] p p'.
Proof.
  intros Ha Hn Hsp Hst Hlt. pose proof Ha as (Tp & Vp & _).
  destruct (next_toks p _ _ Ha) as (p1 & E1 & S1 & A1 & _ & Sp1); [discriminate|].
  destruct (next_toks p1 _ _ A1) as (p2 & E2 & S2 & A2 & L2 & Sp2); [discriminate|].
  cbn [fst snd] in L2.
  pose proof S1 as ((Fn1 & Fs1 & Fq1 & Fo1 & Ff1) & Fe1).
  pose proof S2 as ((Fn2 & Fs2 & Fq2 & Fo2 & Ff2) & Fe2).
  pose proof A1 as (T1 & V1 & _).
  set (p3 := set_seqs (upd (seqs p2) wc (nth wc (seqs p2) [] ++ [Lit ("$" ++ n)])) p2).
  exists p3. split; [|split; [|split; [|split; [|split; [|split]]]]].
  - cbn [parts_loop]. unfold bind at 1, at_EOF, gets. rewrite Tp.
    rewrite (Token_eqb_neq EXP EOF) by discriminate.
    unfold bind at 1, loadSeq, gets. unfold bind at 1, gets.
    assert (Hc : (0 <? length (nth wc (seqs p) []))%nat && spaced p = false).
    { destruct Hsp as [-> | ->]; [reflexivity | apply andb_false_r]. }
    rewrite Hc.
    rewrite (run_bind (got LIT) _ p false p)
      by (apply got_false, peek_other; rewrite Tp; discriminate).
    rewrite (run_bind (got EXP) _ p true p1)
      by (unfold got, bind at 1, gets; rewrite (peek_same EXP p Tp);
          rewrite (run_bind next _ p tt p1 E1); reflexivity).
    rewrite (run_bind (gets (peek LBRACE)) _ p1 false p1)
      by (unfold gets; rewrite (peek_lit LBRACE p1 T1); [reflexivity | discriminate|];
          rewrite V1; exact Hn).
    rewrite (run_bind _ _ p1 tt p3); [reflexivity|].
    rewrite (run_bind (got LPAREN) _ p1 false p1)
      by (apply got_false, peek_lit; [exact T1 | discriminate | rewrite V1; exact Hn]).
    rewrite (run_bind (want LIT) _ p1 tt p2)
      by (unfold want, bind at 1, gets; rewrite (peek_same LIT p1 T1); exact E2).
    rewrite (run_bind (gets lval) _ p2 n p2) by (unfold gets; rewrite L2; reflexivity).
    unfold add. rewrite (run_bind (gets stack) _ p2 (PSeq wc :: st0) p2)
      by (unfold gets; rewrite Fs2, Fs1, Hst; reflexivity).
    reflexivity.
  - apply (at_toks_heap p2); auto.
  - exact Sp2.
  - unfold p3. psimpl. congruence.
  - unfold p3. psimpl. congruence.
  - unfold p3. psimpl. exact L2.
  - unfold grew, cells_kept, p3. psimpl. rewrite length_upd, Fq2, Fq1, Fo2, Fo1, Fs2, Fs1.
    repeat match goal with |- _ /\ _ => split end; auto.
    + apply nth_upd_same. exact Hlt.
    + intros b Hb Hne. apply nth_upd_other. congruence.
Qed.

(** The variables of a word after its first part. *)
Lemma parts_vars : forall vs m wc st0 p after,
  Forall lit_word vs -> at_toks p (map p_tok (var_pieces vs) ++ after) ->
  after_word after -> spaced p = hd_sp (map p_tok (var_pieces vs) ++ after) ->
  nth wc (seqs p) [] <> [] ->
  stack p = PSeq wc :: st0 -> wc < length (seqs p) ->
  exists p',
    parts_loop (length vs + S m) wc p = Done (tt, p')
    /\ at_toks p' after /\ err p' = err p /\ name p' = name p
    /\ lval p' = last (map string_of_runes vs) (lval p)
    /\ grew wc (map var_node vs) p p'.
Proof.
  induction vs as [|n vs IH]; intros m wc st0 p after Hvs Ha Haft Hsp Hne Hst Hlt.
  - cbn [var_pieces flat_map map app length plus] in *. exists p.
    split; [|split; [exact Ha | split; [reflexivity | split; [reflexivity |
             split; [reflexivity | apply grew_nil]]]]].
    apply parts_loop_stop; [|exact Hne].
    destruct after as [|[[t v] sp] ts]; [contradiction|].
    destruct Ha as (T & _). cbn [hd_sp] in Hsp. rewrite T, Hsp. exact Haft.
  - inversion Hvs as [|? ? Hn Hvs']; subst.
    cbn [var_pieces flat_map map app p_tok is_nil negb] in Ha, Hsp.
    fold (var_pieces vs) in Ha, Hsp. cbn [hd_sp] in Hsp.
    destruct (after_word_cons after Haft) as (x0 & ts0 & Eaft).
    assert (Hrest : exists x ts, map p_tok (var_pieces vs) ++ after = x :: ts).
    { rewrite Eaft. destruct (map p_tok (var_pieces vs)); cbn [app]; eauto. }
    destruct Hrest as (x & ts & Erest). rewrite Erest in Ha.
    destruct (parts_var (length vs + S m) wc st0 p (string_of_runes n) false x ts Ha)
      as (p1 & E1 & A1 & Sp1 & Er1 & N1 & Lv1 & G1); auto.
    { apply lit_word_text. exact Hn. }
    pose proof G1 as ((S1 & L1 & _) & Nth1 & _).
    destruct (IH m wc st0 p1 after Hvs') as (p' & E' & A' & Er' & N' & Lv' & G'); auto.
    { rewrite Erest. exact A1. }
    { rewrite Erest. exact Sp1. }
    { rewrite Nth1. destruct (nth wc (seqs p) []); discriminate. }
    { rewrite S1. exact Hst. }
    { lia. }
    exists p'. split; [|split; [exact A' | split; [congruence | split; [congruence|split]]]].
    + cbn [length plus]. rewrite E1. exact E'.
    + rewrite Lv', Lv1. cbn [map]. rewrite last_head. reflexivity.
    + change (map var_node (n :: vs)) with ([var_node n] ++ map var_node vs).
      exact (grew_trans wc _ _ p p1 p' G1 G').
Qed.

Lemma word_pieces_cons w : wf_word w -> exists x ps, word_pieces w = x :: ps.
Proof.
  intros (_ & H & _). unfold word_pieces. destruct (w_lit w); [eauto|].
  destruct (w_vars w); [congruence | eauto].
Qed.

(** The first token of a word. *)
Lemma word_first p w l :
  wf_word w -> at_toks p (map p_tok (word_pieces w) ++ l) ->
  (tok p = LIT /\ val p <> "" /\ exists v, w_lit w = Some v /\ val p = string_of_runes v)
  \/ (tok p = EXP /\ w_lit w = None).
Proof.
  intros (_ & H & _). unfold word_pieces. destruct (w_lit w) as [v|].
  - cbn [map app p_tok at_toks]. intros (T & V & _). left.
    split; [exact T|]. split; [rewrite V; apply lit_word_text; exact H | eauto].
  - destruct (w_vars w); [congruence|]. cbn [map app p_tok at_toks].
    intros (T & _). right. auto.
Qed.

(** The parts of a word are collected in the fresh cell [wc]. *)
Lemma parts_word w k wc st0 p after :
  wf_word w -> length (w_vars w) + 2 <= k ->
  at_toks p (map p_tok (word_pieces w) ++ after) -> after_word after ->
  nth wc (seqs p) [] = [] -> stack p = PSeq wc :: st0 -> wc < length (seqs p) ->
  exists p',
    parts_loop k wc p = Done (tt, p')
    /\ at_toks p' after /\ err p' = err p /\ name p' = name p
    /\ lval p' = word_last w
    /\ grew wc (lit_nodes (w_lit w) ++ map var_node (w_vars w)) p p'.
Proof.
  intros (Hbl & Hlit & Hvs) Hk Ha Haft Hnil Hst Hlt.
  unfold word_pieces in Ha. unfold word_last. destruct (w_lit w) as [l|]; cbn [lit_nodes].
  - cbn [map app p_tok] in Ha.
    destruct (after_word_cons after Haft) as (x0 & ts0 & Eaft).
    assert (Hrest : exists x ts, map p_tok (var_pieces (w_vars w)) ++ after = x :: ts).
    { rewrite Eaft. destruct (map p_tok (var_pieces (w_vars w))); cbn [app]; eauto. }
    destruct Hrest as (x & ts & Erest). rewrite Erest in Ha.
    pose proof Ha as (Tp & Vp & _).
    destruct (next_toks p _ _ Ha) as (p1 & E1 & S1 & A1 & L1 & Sp1); [discriminate|].
    cbn [fst snd] in L1.
    pose proof S1 as ((Fn1 & Fs1 & Fq1 & Fo1 & Ff1) & Fe1).
    set (v := string_of_runes l) in *.
    set (p2 := set_seqs (upd (seqs p1) wc (nth wc (seqs p1) [] ++ [Lit v])) p1).
    assert (G2 : grew wc [Lit v] p p2).
    { unfold grew, cells_kept, p2. psimpl. rewrite length_upd, Fq1, Fo1, Fs1.
      repeat match goal with |- _ /\ _ => split end; auto.
      - apply nth_upd_same. exact Hlt.
      - intros b Hb Hne. apply nth_upd_other. congruence. }
    pose proof G2 as ((S2 & L2 & _) & Nth2 & _).
    destruct k as [|k]; [lia|].
    assert (Hm : exists m, k = length (w_vars w) + S m)
      by (exists (k - S (length (w_vars w))); lia).
    destruct Hm as (m & Hkm).
    destruct (parts_vars (w_vars w) m wc st0 p2 after Hvs)
      as (p' & E' & A' & Er' & N' & Lv' & G'); auto.
    { rewrite Erest. apply (at_toks_heap p1); auto. }
    { rewrite Erest. exact Sp1. }
    { rewrite Nth2, Hnil. discriminate. }
    { rewrite S2. exact Hst. }
    { lia. }
    exists p'. split; [|split; [exact A' | split; [|split; [|split]]]].
    + cbn [parts_loop]. unfold bind at 1, at_EOF, gets. rewrite Tp.
      rewrite (Token_eqb_neq LIT EOF) by discriminate.
      unfold bind at 1, loadSeq, gets. unfold bind at 1, gets. rewrite Hnil.
      cbn [length Nat.ltb Nat.leb andb].
      rewrite (run_bind (got LIT) _ p true p1)
        by (unfold got, bind at 1, gets; rewrite (peek_same LIT p Tp);
            rewrite (run_bind next _ p tt p1 E1); reflexivity).
      rewrite (run_bind (gets lval) _ p1 v p1) by (unfold gets; rewrite L1; reflexivity).
      rewrite (run_bind (add (Lit v)) _ p1 tt p2)
        by (unfold add; rewrite (run_bind (gets stack) _ p1 (PSeq wc :: st0) p1)
              by (unfold gets; rewrite Fs1, Hst; reflexivity); reflexivity).
      rewrite Hkm. exact E'.
    + rewrite Er'. unfold p2. psimpl. exact Fe1.
    + rewrite N'. unfold p2. psimpl. exact Fn1.
    + rewrite Lv'. unfold p2. psimpl. rewrite L1. reflexivity.
    + exact (grew_trans wc _ _ p p2 p' G2 G').
  - destruct (w_vars w) as [|n vs] eqn:Evs; [congruence|].
    inversion Hvs as [|? ? Hn Hvs']; subst.
    cbn [map app p_tok is_nil negb] in Ha. cbn [length] in Hk.
    destruct (after_word_cons after Haft) as (x0 & ts0 & Eaft).
    assert (Hrest : exists x ts, map p_tok (var_pieces vs) ++ after = x :: ts).
    { rewrite Eaft. destruct (map p_tok (var_pieces vs)); cbn [app]; eauto. }
    destruct Hrest as (x & ts & Erest). rewrite Erest in Ha.
    destruct k as [|k]; [lia|].
    destruct (parts_var k wc st0 p (string_of_runes n) _ x ts Ha)
      as (p1 & E1 & A1 & Sp1 & Er1 & N1 & Lv1 & G1); auto.
    { apply lit_word_text. exact Hn. }
    pose proof G1 as ((S1 & L1 & _) & Nth1 & _).
    assert (Hm : exists m, k = length vs + S m) by (exists (k - S (length vs)); lia).
    destruct Hm as (m & Hkm).
    destruct (parts_vars vs m wc st0 p1 after Hvs')
      as (p' & E' & A' & Er' & N' & Lv' & G'); auto.
    { rewrite Erest. exact A1. }
    { rewrite Erest. exact Sp1. }
    { rewrite Nth1, Hnil. discriminate. }
    { rewrite S1. exact Hst. }
    { lia. }
    exists p'. split; [|split; [exact A' | split; [congruence | split; [congruence|split]]]].
    + rewrite E1, Hkm. exact E'.
    + rewrite Lv', Lv1. cbn [map]. rewrite last_head. reflexivity.
    + cbn [app map]. change (var_node n :: map var_node vs)
        with ([var_node n] ++ map var_node vs).
      exact (grew_trans wc _ _ p p1 p' G1 G').
Qed.

(** [word] on the tokens of a word that the next token does not
    continue: the word is added through the destination on top of the
    stack. *)
Lemma word_run w k p d st after :
  wf_word w -> length (w_vars w) + 3 <= k ->
  at_toks p (map p_tok (word_pieces w) ++ after) -> after_word after ->
  stack p = d :: st -> slot_free d p ->
  exists p',
    word k p = Done (tt, p')
    /\ at_toks p' after /\ err p' = err p /\ name p' = name p
    /\ lval p' = word_last w
    /\ put d (word_node w) p p'.
Proof.
  intros Hw Hk Ha Haft Hst Hfree.
  destruct k as [|k]; [lia|].
  set (wc := length (seqs p)).
  set (p1 := set_seqs (seqs p ++ [[]]) p).
  set (p2 := set_stack (PSeq wc :: stack p) p1).
  destruct (parts_word w k wc (stack p) p2 after Hw)
    as (p3 & E3 & A3 & Er3 & N3 & Lv3 & G3); auto.
  { lia. }
  { unfold p2, p1. psimpl. apply nth_fresh. }
  { unfold p2, p1. psimpl. rewrite length_app. cbn. unfold wc. lia. }
  pose proof G3 as ((S3 & L3 & M3) & Nth3 & R3 & O3).
  change (stack p2) with (PSeq wc :: stack p) in S3.
  assert (Hfresh : nth wc (seqs p2) [] = []) by (unfold p2, p1; psimpl; apply nth_fresh).
  rewrite Hfresh in Nth3. cbn [app] in Nth3.
  set (ps := lit_nodes (w_lit w) ++ map var_node (w_vars w)) in *.
  assert (Hps : ps <> []).
  { unfold ps. destruct Hw as (_ & H & _). destruct (w_lit w); [discriminate|].
    destruct (w_vars w); [congruence | discriminate]. }
  assert (H3 : held p p3).
  { apply (held_grew p p2 p3 wc ps); [|exact G3 | unfold wc; lia].
    apply (held_same p p1); [|reflexivity | reflexivity]. apply held_newSeq, held_refl. }
  destruct (popAdd_put (Word ps) (PSeq wc) d st p p3) as (p' & E' & R' & T' & V' & Er' & N' & P');
    auto.
  { rewrite S3, Hst. reflexivity. }
  exists p'. split; [|split; [|split; [|split; [|split; [|exact P']]]]].
  - cbn [word].
    rewrite (run_bind newSeq _ p wc p1 eq_refl).
    rewrite (run_bind (push (PSeq wc)) _ p1 tt p2 eq_refl).
    rewrite (run_bind (parts_loop k wc) _ p2 tt p3 E3).
    rewrite (run_bind (loadSeq wc) _ p3 ps p3)
      by (unfold loadSeq, gets; rewrite Nth3; reflexivity).
    destruct ps as [|n0 ps0] eqn:Eps; [congruence|]. cbn [length Nat.eqb].
    rewrite (run_bind (ret tt) _ p3 tt p3 eq_refl).
    rewrite (run_bind (loadSeq wc) _ p3 (n0 :: ps0) p3)
      by (unfold loadSeq, gets; rewrite Nth3; reflexivity).
    exact E'.
  - apply (at_toks_heap p3); auto.
  - rewrite Er', Er3. reflexivity.
  - rewrite N', N3. reflexivity.
  - rewrite (popAdd_lval _ _ _ E'). exact Lv3.
Qed.

(** [gotRedirect] when no redirection operator is in hand: it returns
    false and leaves one more single-node cell behind, the one that it
    made for the object of the redirection. *)
Lemma gotRedirect_none k p :
  1 <= k ->
  peek RDROUT p = false -> peek APPEND p = false -> peek RDRIN p = false ->
  exists p',
    gotRedirect k p = Done (false, p')
    /\ r p' = r p /\ tok p' = tok p /\ val p' = val p /\ err p' = err p
    /\ name p' = name p
    /\ stack p' = stack p /\ seqs p' = seqs p /\ ones p' = ones p ++ [None].
Proof.
  intros Hk H1 H2 H3. destruct k as [|k]; [lia|]. cbn [gotRedirect].
  set (obj := length (ones p)).
  set (p1 := set_ones (ones p ++ [None]) p).
  set (p2 := set_stack (POne obj :: stack p) p1).
  rewrite (run_bind newOne _ p obj p1 eq_refl).
  rewrite (run_bind (push (POne obj)) _ p1 tt p2 eq_refl).
  rewrite (run_bind (got RDROUT) _ p2 false p2 (got_false RDROUT p2 H1)).
  rewrite (run_bind (got APPEND) _ p2 false p2 (got_false APPEND p2 H2)).
  rewrite (run_bind (got RDRIN) _ p2 false p2 (got_false RDRIN p2 H3)).
  rewrite (run_bind pop _ p2 tt (set_stack (stack p) p2) eq_refl).
  eexists. split; [reflexivity|]. psimpl. repeat split.
Qed.

(** The first token of an argument ends the word before it. *)
Lemma arg_first a l :
  wf_arg a ->
  exists x ts, map p_tok (arg_pieces a) ++ l = x :: ts
               /\ stop_part (fst (fst x)) (snd x)
               /\ fst (fst x) <> EOF /\ fst (fst x) <> RPAREN /\ fst (fst x) <> LPAREN
               /\ (fst (fst x) = LIT -> snd (fst x) <> "").
Proof.
  destruct a as [w|bl op w]; cbn [wf_arg arg_pieces].
  - intros ((Hbl & Hlit & Hvs) & Hne). unfold word_pieces.
    assert (Hs : negb (is_nil (w_bl w)) = true) by (destruct (w_bl w); [congruence | reflexivity]).
    destruct (w_lit w) as [v|].
    + cbn [map app p_tok]. eexists. eexists. split; [reflexivity|]. cbn [fst snd].
      rewrite Hs. split; [right; left; reflexivity|].
      repeat split; try discriminate. intros _. apply lit_word_text. exact Hlit.
    + destruct (w_vars w); [congruence|]. cbn [map app p_tok].
      eexists. eexists. split; [reflexivity|]. cbn [fst snd].
      rewrite Hs. split; [right; left; reflexivity|].
      repeat split; discriminate.
  - intros (Hbl & Hop & Hw). cbn [map app p_tok]. eexists. eexists.
    split; [reflexivity|]. cbn [fst snd]. unfold is_redirect in Hop. cbn [In] in Hop.
    destruct Hop as [<-|[<-|[<-|[]]]];
      (split; [right; right; split; discriminate|]); repeat split; discriminate.
Qed.

(** What follows the arguments of a simple command. *)
Definition after_args (after : list tokn) : Prop :=
  match after with
  | (t, _, _) :: _ => t <> LIT /\ t <> EXP
  | [] => False
  end.

Lemma after_args_word after : after_args after -> after_word after.
Proof.
  destruct after as [|[[t v] sp] ts]; [auto|]. cbn [after_args after_word].
  intros H. right; right. exact H.
Qed.

(** What follows an argument: another argument, or what follows them
    all. *)
Lemma args_after args after :
  Forall wf_arg args -> after_args after ->
  after_word (map p_tok (flat_map arg_pieces args) ++ after).
Proof.
  intros Hargs Haft. destruct args as [|a args].
  - apply after_args_word. exact Haft.
  - inversion Hargs as [|? ? Ha _]; subst. cbn [flat_map]. rewrite map_app, <- app_assoc.
    destruct (arg_first a (map p_tok (flat_map arg_pieces args) ++ after) Ha)
      as ([[t v] sp] & ts & -> & Hs & _).
    exact Hs.
Qed.

(** A redirection: the operator is taken, and the word after it becomes
    the object of a [Redirect] node, which is appended to the arguments. *)
Lemma redirect_run k bl op w p a st after :
  blanks bl -> is_redirect op -> wf_word w -> length (w_vars w) + 3 <= k ->
  at_toks p (p_tok (PO bl op) :: map p_tok (word_pieces w) ++ after) -> after_word after ->
  stack p = PSeq a :: st -> a < length (seqs p) ->
  exists p',
    gotRedirect (S k) p = Done (true, p')
    /\ at_toks p' after /\ err p' = err p /\ name p' = name p
    /\ grew a [Redirect op (Some (word_node w))] p p'.
Proof.
  intros Hbl Hop Hw Hk Ha Haft Hst Hlt. cbn [p_tok] in Ha.
  pose proof Ha as (Tp & Vp & _).
  set (obj := length (ones p)).
  set (p1 := set_ones (ones p ++ [None]) p).
  set (p2 := set_stack (POne obj :: stack p) p1).
  assert (A2 : at_toks p2 ((op, "", negb (is_nil bl)) :: map p_tok (word_pieces w) ++ after))
    by (apply (at_toks_heap p); auto).
  destruct (word_pieces_cons w Hw) as (x & ps & Ew).
  destruct (got_op_toks op p2 _ _ A2) as (p3 & E3 & S3 & A3).
  { rewrite Ew. discriminate. }
  pose proof S3 as ((Fn3 & Fs3 & Fq3 & Fo3 & Ff3) & Fe3).
  destruct (word_run w k p3 (POne obj) (stack p) after Hw Hk A3 Haft)
    as (p4 & E4 & A4 & Er4 & N4 & _ & P4).
  { rewrite Fs3. reflexivity. }
  { cbn [slot_free]. rewrite Fo3. unfold p2, p1. psimpl. rewrite length_app. cbn.
    split; [unfold obj; lia | apply nth_fresh]. }
  cbn [put] in P4. pose proof P4 as ((S4 & L4 & M4) & Nth4 & Q4 & O4).
  assert (H4 : held p p4).
  { apply (held_filled p p3 p4 obj (word_node w)); [|exact P4 | unfold obj; lia].
    apply (held_still p p2 p3); [|exact S3].
    apply (held_same p p1); [|reflexivity | reflexivity]. apply held_newOne, held_refl. }
  destruct (popAdd_put (Redirect op (Some (word_node w))) (POne obj) (PSeq a) st p p4)
    as (p' & E' & R' & T' & V' & Er' & N' & P'); auto.
  { rewrite S4, Fs3. unfold p2. psimpl. rewrite Hst. reflexivity. }
  exists p'. split; [|split; [|split; [|split; [|exact P']]]].
  - assert (Hpk : forall t, t <> op -> peek t p2 = false).
    { intros t Ht. apply peek_other.
      - change (tok p2) with (tok p). rewrite Tp. congruence.
      - change (tok p2) with (tok p). rewrite Tp. unfold is_redirect in Hop. cbn [In] in Hop.
        destruct Hop as [<-|[<-|[<-|[]]]]; discriminate. }
    assert (Hload : loadOne obj p4 = Done (Some (word_node w), p4))
      by (unfold loadOne, gets; rewrite Nth4; reflexivity).
    cbn [gotRedirect].
    rewrite (run_bind newOne _ p obj p1 eq_refl).
    rewrite (run_bind (push (POne obj)) _ p1 tt p2 eq_refl).
    unfold is_redirect in Hop. cbn [In] in Hop.
    destruct Hop as [<-|[<-|[<-|[]]]].
    + rewrite (run_bind (got RDROUT) _ p2 true p3 E3).
      rewrite (run_bind (word k) _ p3 tt p4 E4).
      rewrite (run_bind (loadOne obj) _ p4 _ p4 Hload).
      rewrite (run_bind (popAdd _) _ p4 tt p' E'). reflexivity.
    + rewrite (run_bind (got RDROUT) _ p2 false p2) by (apply got_false, Hpk; discriminate).
      rewrite (run_bind (got APPEND) _ p2 true p3 E3).
      rewrite (run_bind (word k) _ p3 tt p4 E4).
      rewrite (run_bind (loadOne obj) _ p4 _ p4 Hload).
      rewrite (run_bind (popAdd _) _ p4 tt p' E'). reflexivity.
    + rewrite (run_bind (got RDROUT) _ p2 false p2) by (apply got_false, Hpk; discriminate).
      rewrite (run_bind (got APPEND) _ p2 false p2) by (apply got_false, Hpk; discriminate).
      rewrite (run_bind (got RDRIN) _ p2 true p3 E3).
      rewrite (run_bind (word k) _ p3 tt p4 E4).
      rewrite (run_bind (loadOne obj) _ p4 _ p4 Hload).
      rewrite (run_bind (popAdd _) _ p4 tt p' E'). reflexivity.
  - apply (at_toks_heap p4); auto.
  - rewrite Er', Er4, Fe3. reflexivity.
  - rewrite N', N4, Fn3. reflexivity.
Qed.

(** The arguments of a simple command after its first word: each is
    appended to the argument list, and the loop goes on at the token after
    them. *)
Lemma args_run : forall args m p a st stop after,
  Forall wf_arg args -> avars args + 4 <= m -> Forall (eq RPAREN) stop ->
  at_toks p (map p_tok (flat_map arg_pieces args) ++ after) -> after_args after ->
  stack p = PSeq a :: st -> a < length (seqs p) ->
  exists p',
    args_loop (length args + S m) stop a p = args_loop (S m) stop a p'
    /\ at_toks p' after /\ err p' = err p /\ name p' = name p
    /\ grew a (map arg_node args) p p'.
Proof.
  induction args as [|x args IH]; intros m p a st stop after Hargs Hm Hstop Ha Haft Hst Hlt.
  - exists p. cbn [length plus map flat_map app] in *. repeat split; auto. apply grew_nil.
  - inversion Hargs as [|? ? Hx Hargs']; subst.
    cbn [avars] in Hm. cbn [flat_map] in Ha. rewrite map_app, <- app_assoc in Ha.
    set (tl := map p_tok (flat_map arg_pieces args) ++ after) in *.
    assert (Hnext : after_word tl) by (apply args_after; assumption).
    destruct (arg_first x tl Hx) as ([[t0 v0] sp0] & ts0 & E0 & _ & T1 & T2 & _ & T4).
    cbn [fst snd] in *.
    assert (Tp : tok p = t0 /\ val p = v0).
    { rewrite E0 in Ha. destruct Ha as (T & V & _). auto. }
    destruct Tp as (Tp & Vp).
    assert (Hstep : exists p1,
               args_loop (S (length args + S m)) stop a p
               = args_loop (length args + S m) stop a p1
               /\ at_toks p1 tl /\ err p1 = err p /\ name p1 = name p
               /\ grew a [arg_node x] p p1).
    { cbn [args_loop]. unfold bind at 1, at_EOF, gets. rewrite Tp.
      rewrite (Token_eqb_neq t0 EOF T1).
      unfold bind at 1, peekAny, gets.
      rewrite (peekAny_no stop p Hstop) by (rewrite ?Tp, ?Vp; auto).
      destruct x as [w|bl op w]; cbn [wf_arg arg_pieces arg_node arg_vars] in *.
      - destruct Hx as (Hw & Hne).
        destruct (word_run w (length args + S m) p (PSeq a) st tl Hw)
          as (p1 & E1 & A1 & Er1 & N1 & _ & G1); auto.
        { lia. }
        exists p1. split; [|auto].
        unfold bind at 1, gets.
        assert (Hpk : peek LIT p || peek EXP p = true).
        { destruct (word_first p w tl Hw Ha) as [(T & _)|(T & _)].
          - rewrite (peek_same LIT p T). reflexivity.
          - rewrite (peek_same EXP p T). apply orb_true_r. }
        rewrite Hpk.
        rewrite (run_bind (word (length args + S m)) _ p tt p1 E1). reflexivity.
      - destruct Hx as (Hbl & Hop & Hw). cbn [map app p_tok] in E0, Ha.
        assert (Hk : exists k, length args + S m = S k /\ length (w_vars w) + 3 <= k)
          by (exists (length args + m); lia).
        destruct Hk as (k & Ek & Hk). rewrite Ek.
        destruct (redirect_run k bl op w p a st tl Hbl Hop Hw Hk Ha Hnext Hst Hlt)
          as (p1 & E1 & R1).
        exists p1. split; [|exact R1].
        assert (Top : tok p = op) by (destruct Ha as (T & _); exact T).
        assert (Hno : forall t, t <> op -> peek t p = false).
        { intros t Ht. apply peek_other; rewrite Top; [congruence|].
          unfold is_redirect in Hop. cbn [In] in Hop.
          destruct Hop as [<-|[<-|[<-|[]]]]; discriminate. }
        assert (Hops : op <> LIT /\ op <> EXP /\ op <> LAND /\ op <> OR /\ op <> LOR).
        { unfold is_redirect in Hop. cbn [In] in Hop.
          destruct Hop as [<-|[<-|[<-|[]]]]; repeat split; discriminate. }
        destruct Hops as (O1 & O2 & O3 & O4 & O5).
        unfold bind at 1, gets. rewrite (Hno LIT), (Hno EXP) by congruence. cbn [orb].
        rewrite (run_bind (got LAND) _ p false p) by (apply got_false, Hno; congruence).
        rewrite (run_bind (got OR) _ p false p) by (apply got_false, Hno; congruence).
        rewrite (run_bind (got LOR) _ p false p) by (apply got_false, Hno; congruence).
        rewrite (run_bind (gotRedirect (S k)) _ p true p1 E1). reflexivity. }
    destruct Hstep as (p1 & E1 & A1 & Er1 & N1 & G1).
    pose proof G1 as ((S1 & L1 & _) & _).
    destruct (IH m p1 a st stop after Hargs') as (p' & E' & A' & Er' & N' & G'); auto.
    { lia. }
    { rewrite S1. exact Hst. }
    { lia. }
    exists p'. split; [|split; [exact A' | split; [congruence | split; [congruence|]]]].
    + cbn [length plus]. rewrite E1. exact E'.
    + change (map arg_node (x :: args)) with ([arg_node x] ++ map arg_node args).
      exact (grew_trans a _ _ p p1 p' G1 G').
Qed.

(** The tokens that end a simple command and are taken with it. *)
Definition is_term (t : Token) : Prop := t = SEMICOLON \/ t = TRune NL \/ t = AND.

Lemma args_term m p a st stop tk v sp tl :
  1 <= m -> is_term tk -> Forall (eq RPAREN) stop ->
  at_toks p ((tk, v, sp) :: tl) -> tl <> [] ->
  stack p = PSeq a :: st ->
  exists p',
    args_loop (S m) stop a p = Done (Some (Token_eqb tk AND), p')
    /\ at_toks p' tl /\ err p' = err p /\ name p' = name p
    /\ grew a [] p p'.
Proof.
  intros Hm Htk Hstop Ha Htl Hst.
  destruct tl as [|[[t2 v2] sp2] ts]; [congruence|]. cbn [at_toks] in Ha.
  pose proof Ha as (Tp & Vp & _).
  assert (Hnl : tok p = LIT -> val p <> "")
    by (intros H; rewrite Tp in H; destruct Htk as [->|[->| ->]]; discriminate).
  assert (Hpk : forall t, t <> tk -> reservedLits t = "" -> peek t p = false).
  { intros t Ht Hr. apply peek_no; auto. rewrite Tp. congruence. }
  cbn [args_loop].
  unfold bind at 1, at_EOF, gets. rewrite Tp.
  rewrite (Token_eqb_neq tk EOF) by (destruct Htk as [->|[->| ->]]; discriminate).
  unfold bind at 1, peekAny, gets.
  rewrite (peekAny_no stop p Hstop)
    by (auto; rewrite Tp; destruct Htk as [->|[->| ->]]; discriminate).
  unfold bind at 1, gets.
  rewrite (Hpk LIT), (Hpk EXP);
    try reflexivity; try (destruct Htk as [->|[->| ->]]; discriminate).
  cbn [orb].
  rewrite (run_bind (got LAND) _ p false p)
    by (apply got_false, Hpk; [destruct Htk as [->|[->| ->]]; discriminate | reflexivity]).
  rewrite (run_bind (got OR) _ p false p)
    by (apply got_false, Hpk; [destruct Htk as [->|[->| ->]]; discriminate | reflexivity]).
  rewrite (run_bind (got LOR) _ p false p)
    by (apply got_false, Hpk; [destruct Htk as [->|[->| ->]]; discriminate | reflexivity]).
  destruct (gotRedirect_none m p Hm) as (p1 & E1 & R1 & T1 & V1 & Er1 & N1 & S1 & Q1 & O1);
    try (apply Hpk; [destruct Htk as [->|[->| ->]]; discriminate | reflexivity]).
  rewrite (run_bind (gotRedirect m) _ p false p1 E1).
  assert (Ha1 : at_stream p1 tk v ((t2, v2, sp2) :: ts))
    by (apply (at_stream_heap p); auto).
  destruct (next_at p1 tk v t2 v2 sp2 ts Ha1)
    as (p2 & E2 & ((Fn & Fs & Fq & Fo & Ff) & Fe) & A2 & _).
  assert (Hgot : got tk p1 = Done (true, p2)).
  { unfold got, bind at 1, gets. rewrite (peek_same tk p1) by congruence.
    rewrite (run_bind next _ p1 tt p2 E2). reflexivity. }
  assert (Hpk1 : forall t, t <> tk -> reservedLits t = "" -> peek t p1 = false).
  { intros t Ht Hr.
    apply peek_no; [rewrite T1, Tp; congruence | exact Hr | rewrite T1, V1; exact Hnl]. }
  assert (Hfin : at_toks p2 ((t2, v2, sp2) :: ts) /\ err p2 = err p /\ name p2 = name p
                 /\ grew a [] p p2).
  { split; [exact A2|]. split; [congruence|]. split; [congruence|].
    unfold grew, cells_kept. rewrite app_nil_r, Fs, Fq, Fo, S1, Q1, O1, length_app.
    repeat split; auto; try lia.
    intros b Hb. apply app_nth1. exact Hb. }
  destruct Htk as [->|[->| ->]].
  - rewrite (run_bind (got AND) _ p1 false p1)
      by (apply got_false, Hpk1; [discriminate | reflexivity]).
    unfold orM. rewrite (run_bind _ _ p1 true p2)
      by (rewrite (run_bind (got SEMICOLON) _ p1 true p2 Hgot); reflexivity).
    exists p2. split; [reflexivity | exact Hfin].
  - rewrite (run_bind (got AND) _ p1 false p1)
      by (apply got_false, Hpk1; [discriminate | reflexivity]).
    unfold orM. rewrite (run_bind _ _ p1 true p2).
    + exists p2. split; [reflexivity | exact Hfin].
    + rewrite (run_bind (got SEMICOLON) _ p1 false p1)
        by (apply got_false, Hpk1; [discriminate | reflexivity]).
      exact Hgot.
  - rewrite (run_bind (got AND) _ p1 true p2 Hgot).
    exists p2. split; [reflexivity | exact Hfin].
Qed.

Lemma args_eof m p a stop :
  tok p = EOF -> args_loop (S m) stop a p = Done (Some false, p).
Proof.
  intros H. cbn [args_loop]. unfold bind at 1, at_EOF, gets.
  rewrite H, Token_eqb_refl. reflexivity.
Qed.

(** ** Statements of simple commands, with their layout *)

(** The first word of a simple command: a literal that does not start a
    compound command. *)
Definition starts_simple (v : string) : Prop :=
  v <> "if" /\ v <> "while" /\ v <> "for".

(** A simple command, or a simple command, a binary operator and the
    statement that the operator takes as its right operand. *)
Inductive stm :=
| Simple (first : sword) (rest : list arg)
| Binary (first : sword) (rest : list arg) (obl : list rune) (op : Token) (y : stm).

Definition cmd_pieces (f : sword) (rest : list arg) : list piece :=
  word_pieces f ++ flat_map arg_pieces rest.

Fixpoint pieces (s : stm) : list piece :=
  match s with
  | Simple f rest => cmd_pieces f rest
  | Binary f rest obl op y => cmd_pieces f rest ++ PO obl op :: pieces y
  end.

Definition args_of (f : sword) (rest : list arg) : list Node :=
  word_node f :: map arg_node rest.

(** The node of a statement; [bg] is whether a [&] ends it. *)
Fixpoint node_of (s : stm) (bg : bool) : Node :=
  match s with
  | Simple f rest => Command (args_of f rest) bg
  | Binary f rest _ op y =>
      BinaryExpr (Some (Command (args_of f rest) false)) op (Some (node_of y bg))
  end.

Definition wf_first (f : sword) : Prop :=
  wf_word f
  /\ match w_lit f with
     | Some l => starts_simple (string_of_runes l)
     | None => True
     end.

Fixpoint wf_stm (s : stm) : Prop :=
  match s with
  | Simple f rest => wf_first f /\ Forall wf_arg rest
  | Binary f rest obl op y =>
      wf_first f /\ Forall wf_arg rest /\ blanks obl /\ In op [LAND; OR; LOR]
      /\ wf_stm y
  end.

(** The fuel that a simple command takes. *)
Definition cmd_size (f : sword) (rest : list arg) : nat :=
  length (w_vars f) + length rest + avars rest + 6.

Fixpoint size (s : stm) : nat :=
  match s with
  | Simple f rest => cmd_size f rest
  | Binary f rest _ _ y => cmd_size f rest + size y
  end.

Lemma size_ge s : 6 <= size s.
Proof. destruct s; cbn [size]; unfold cmd_size; lia. Qed.

(** The start of a simple command: its words are scanned and collected,
    and the rule goes on in the loop of its arguments at the token
    [after] them. *)
Lemma command_head f rest n1 stop p d st after :
  wf_first f -> Forall wf_arg rest -> Forall (eq RPAREN) stop ->
  length (w_vars f) + length rest + avars rest + 5 <= n1 ->
  at_toks p (map p_tok (cmd_pieces f rest) ++ after) ->
  match after with
  | (t, _, _) :: _ => t <> LIT /\ t <> EXP /\ t <> LPAREN
  | [] => False
  end ->
  stack p = d :: st ->
  exists p4 m,
    n1 = length rest + S m
    /\ command (S n1) stop p
       = (o <- args_loop (S m) stop (length (seqs p)) ;;
          match o with
          | None => ret tt
          | Some bg => a <- loadSeq (length (seqs p)) ;; popAdd (Command a bg)
          end) p4
    /\ at_toks p4 after /\ err p4 = err p /\ name p4 = name p
    /\ stack p4 = PSeq (length (seqs p)) :: d :: st
    /\ nth (length (seqs p)) (seqs p4) [] = args_of f rest
    /\ held p p4.
Proof.
  intros (Hf & Hstart) Hrest Hstop Hn Ha Hafter Hst.
  unfold cmd_pieces in Ha. rewrite map_app, <- app_assoc in Ha.
  set (tl := map p_tok (flat_map arg_pieces rest) ++ after) in *.
  assert (Haft : after_args after).
  { destruct after as [|[[t v] sp] ts]; [contradiction|]. cbn [after_args]. tauto. }
  assert (Hnext : after_word tl) by (apply args_after; assumption).
  assert (Hno : forall t, In t [COMMENT; TRune NL; LPAREN; LBRACE; IF; WHILE; FOR] ->
            peek t p = false).
  { intros t Ht. destruct (word_first p f tl Hf Ha) as [(T & V & v & Ev & Vv)|(T & Ev)].
    - rewrite Ev in Hstart. destruct Hstart as (V1 & V2 & V3). rewrite <- Vv in *.
      cbn [In] in Ht.
      repeat (destruct Ht as [<-|Ht]; [apply peek_lit; [exact T | discriminate|];
                                        cbn [reservedLits]; congruence|]).
      contradiction.
    - cbn [In] in Ht.
      repeat (destruct Ht as [<-|Ht]; [apply peek_other; rewrite T; discriminate|]).
      contradiction. }
  assert (Hwd : peek LIT p || peek EXP p = true).
  { destruct (word_first p f tl Hf Ha) as [(T & _)|(T & _)].
    - rewrite (peek_same LIT p T). reflexivity.
    - rewrite (peek_same EXP p T). apply orb_true_r. }
  cbn [command].
  rewrite (run_bind (got COMMENT) _ p false p) by (apply got_false, Hno; cbn; auto).
  unfold orM.
  rewrite (run_bind _ _ p false p)
    by (rewrite (run_bind (got (TRune NL)) _ p false p)
          by (apply got_false, Hno; cbn; auto);
        apply got_false, Hno; cbn; auto).
  rewrite (run_bind (got LPAREN) _ p false p) by (apply got_false, Hno; cbn; auto).
  rewrite (run_bind (got LBRACE) _ p false p) by (apply got_false, Hno; cbn; auto 10).
  rewrite (run_bind (got IF) _ p false p) by (apply got_false, Hno; cbn; auto 10).
  rewrite (run_bind (got WHILE) _ p false p) by (apply got_false, Hno; cbn; auto 10).
  rewrite (run_bind (got FOR) _ p false p) by (apply got_false, Hno; cbn; auto 10).
  unfold bind at 1, gets. rewrite Hwd.
  set (args := length (seqs p)).
  set (p1 := set_seqs (seqs p ++ [[]]) p).
  set (p2 := set_stack (PSeq args :: stack p) p1).
  rewrite (run_bind newSeq _ p args p1 eq_refl).
  rewrite (run_bind (push (PSeq args)) _ p1 tt p2 eq_refl).
  assert (Hl2 : length (seqs p2) = S args)
    by (unfold p2, p1; psimpl; rewrite length_app; cbn; unfold args; lia).
  assert (H2 : held p p2) by (apply (held_newSeq p p), held_refl).
  assert (Hfresh : nth args (seqs p2) [] = []) by apply nth_fresh.
  destruct (word_run f n1 p2 (PSeq args) (stack p) tl Hf)
    as (p3 & E3 & A3 & Er3 & N3 & _ & G3);
    auto; try lia; try (cbn [slot_free]; lia).
  rewrite (run_bind (word n1) _ p2 tt p3 E3).
  rewrite (run_bind (gets lpos) _ p3 (lpos p3) p3 eq_refl).
  rewrite (run_bind (gets lval) _ p3 (lval p3) p3 eq_refl).
  assert (Hlp3 : peek LPAREN p3 = false).
  { destruct rest as [|x rest'].
    - unfold tl in A3. cbn [flat_map map app] in A3.
      destruct after as [|[[t v] sp] ts]; [contradiction|]. destruct A3 as (T & _).
      apply peek_other; rewrite T; tauto.
    - inversion Hrest as [|? ? Hx _]; subst. unfold tl in A3. cbn [flat_map] in A3.
      rewrite map_app, <- app_assoc in A3.
      destruct (arg_first x (map p_tok (flat_map arg_pieces rest') ++ after) Hx)
        as ([[t v] sp] & ts & E0 & _ & _ & _ & T3 & T4).
      rewrite E0 in A3. destruct A3 as (T & V & _). cbn [fst snd] in *.
      apply peek_no; [congruence | reflexivity | rewrite T, V; exact T4]. }
  rewrite (run_bind (got LPAREN) _ p3 false p3 (got_false LPAREN p3 Hlp3)).
  cbv iota.
  cbn [put] in G3. pose proof G3 as ((S3 & L3 & M3) & Nth3 & R3 & O3).
  change (stack p2) with (PSeq args :: stack p) in S3.
  change (err p2) with (err p) in Er3. change (name p2) with (name p) in N3.
  assert (Hm : exists m, n1 = length rest + S m /\ avars rest + 4 <= m).
  { exists (n1 - S (length rest)). lia. }
  destruct Hm as (m & Hn1 & Hm2).
  destruct (args_run rest m p3 args (stack p) stop after)
    as (p4 & E4 & A4 & Er4 & N4 & G4); auto.
  { lia. }
  exists p4, m.
  pose proof G4 as ((S4 & L4 & M4) & Nth4 & R4 & O4).
  split; [exact Hn1|].
  split.
  { rewrite Hn1 at 1. unfold bind at 1. rewrite E4. reflexivity. }
  split; [exact A4|]. split; [congruence|]. split; [congruence|].
  split; [rewrite S4, S3, Hst; reflexivity|].
  split.
  - rewrite Nth4, Nth3, Hfresh. reflexivity.
  - apply (held_grew p p3 p4 args (map arg_node rest)); [|exact G4 | unfold args; lia].
    apply (held_grew p p2 p3 args [word_node f]); [exact H2 | exact G3 | unfold args; lia].
Qed.

(** How a statement ends: at the end of the input, or with a token that
    the simple command takes with it, after which more follows. *)
Definition closes (tm tl : list tokn) : Prop :=
  (tm = [] /\ exists v sp ts, tl = (EOF, v, sp) :: ts)
  \/ (exists tk v sp, tm = [(tk, v, sp)] /\ is_term tk /\ tl <> []).

Definition bg_of (tm : list tokn) : bool :=
  match tm with
  | (AND, _, _) :: _ => true
  | _ => false
  end.

Lemma args_op m p a stop op v sp tl :
  In op [LAND; OR; LOR] -> Forall (eq RPAREN) stop ->
  at_toks p ((op, v, sp) :: tl) -> tl <> [] ->
  exists p',
    args_loop (S m) stop a p
    = (a0 <- loadSeq a ;; binaryExpr m op (Command a0 false) ;; ret None) p'
    /\ at_toks p' tl /\ still p p'.
Proof.
  intros Hop Hstop Ha Htl.
  destruct tl as [|[[t2 v2] sp2] ts]; [congruence|]. cbn [at_toks] in Ha.
  pose proof Ha as (Tp & Vp & _).
  assert (Hne : tok p <> LIT /\ tok p <> EXP /\ tok p <> EOF /\ tok p <> RPAREN).
  { rewrite Tp. cbn [In] in Hop. destruct Hop as [<-|[<-|[<-|[]]]]; repeat split; discriminate. }
  destruct Hne as (N1 & N2 & N3 & N4).
  assert (Hpk : forall t, t <> op -> reservedLits t = "" -> peek t p = false).
  { intros t Ht Hr.
    apply peek_no; [rewrite Tp; congruence | exact Hr | intros H; congruence]. }
  destruct (next_at p op v t2 v2 sp2 ts Ha) as (p2 & E2 & S2 & A2 & _).
  assert (Hgot : got op p = Done (true, p2)).
  { unfold got, bind at 1, gets. rewrite (peek_same op p Tp).
    rewrite (run_bind next _ p tt p2 E2). reflexivity. }
  exists p2. split; [|split; [exact A2 | exact S2]].
  cbn [args_loop].
  unfold bind at 1, at_EOF, gets. rewrite (Token_eqb_neq _ _ N3).
  unfold bind at 1, peekAny, gets.
  rewrite (peekAny_no stop p Hstop) by (auto; congruence).
  unfold bind at 1, gets.
  rewrite (peek_no LIT p), (peek_no EXP p);
    try reflexivity; try assumption; try (intros H; congruence).
  cbn [orb]. cbn [In] in Hop.
  destruct Hop as [<-|[<-|[<-|[]]]].
  - rewrite (run_bind (got LAND) _ p true p2 Hgot). reflexivity.
  - rewrite (run_bind (got LAND) _ p false p)
      by (apply got_false, Hpk; [discriminate | reflexivity]).
    rewrite (run_bind (got OR) _ p true p2 Hgot). reflexivity.
  - rewrite (run_bind (got LAND) _ p false p)
      by (apply got_false, Hpk; [discriminate | reflexivity]).
    rewrite (run_bind (got OR) _ p false p)
      by (apply got_false, Hpk; [discriminate | reflexivity]).
    rewrite (run_bind (got LOR) _ p true p2 Hgot). reflexivity.
Qed.

(** [command] on a statement of simple commands joined by binary
    operators: the node of the statement is added through the destination
    on top of the stack, and the token after the statement is in hand. *)
Lemma command_stm : forall s n p d st stop tm tl,
  wf_stm s -> size s <= n -> Forall (eq RPAREN) stop ->
  at_toks p (map p_tok (pieces s) ++ tm ++ tl) -> closes tm tl ->
  stack p = d :: st -> slot_free d p ->
  exists p',
    command n stop p = Done (tt, p')
    /\ at_toks p' tl /\ err p' = err p /\ name p' = name p
    /\ put d (node_of s (bg_of tm)) p p'.
Proof.
  induction s as [f rest | f rest obl op y IH];
    intros n p d st stop tm tl Hwf Hn Hstop Ha Hcl Hst Hfree;
    cbn [wf_stm size pieces node_of] in *; unfold cmd_size in Hn;
    (destruct n as [|n1]; [lia|]).
  - destruct Hwf as (Hf & Hrest).
    destruct (command_head f rest n1 stop p d st (tm ++ tl) Hf Hrest Hstop)
      as (p4 & m & Hn1 & E & A4 & Er4 & N4 & S4 & Nth4 & H4); auto.
    { lia. }
    { destruct Hcl as [(-> & v & sp & ts & ->)|(tk & v & sp & -> & Htk & _)]; cbn [app].
      - repeat split; discriminate.
      - destruct Htk as [->|[->| ->]]; repeat split; discriminate. }
    rewrite E. set (args := length (seqs p)) in *.
    destruct Hcl as [(-> & v & sp & ts & ->)|(tk & v & sp & -> & Htk & Htl)]; cbn [app] in *.
    + pose proof A4 as (T4 & _).
      rewrite (run_bind (args_loop (S m) stop args) _ p4 (Some false) p4
                 (args_eof m p4 args stop T4)).
      rewrite (run_bind (loadSeq args) _ p4 (args_of f rest) p4)
        by (unfold loadSeq, gets; rewrite Nth4; reflexivity).
      destruct (popAdd_put (Command (args_of f rest) false) (PSeq args) d st p p4)
        as (p' & E' & R' & T' & V' & Er' & N' & P'); auto.
      exists p'. split; [exact E'|]. split.
      { apply (at_toks_heap p4); auto. }
      split; [congruence|]. split; [congruence | exact P'].
    + destruct (args_term m p4 args (d :: st) stop tk v sp tl)
        as (p5 & E5 & A5 & Er5 & N5 & G5); auto.
      { lia. }
      rewrite (run_bind (args_loop (S m) stop args) _ p4 _ p5 E5).
      pose proof G5 as ((S5 & _) & Nth5 & _). rewrite app_nil_r in Nth5.
      rewrite (run_bind (loadSeq args) _ p5 (args_of f rest) p5)
        by (unfold loadSeq, gets; rewrite Nth5, Nth4; reflexivity).
      destruct (popAdd_put (Command (args_of f rest) (Token_eqb tk AND)) (PSeq args)
                  d st p p5) as (p' & E' & R' & T' & V' & Er' & N' & P'); auto.
      { apply (held_grew p p4 p5 args []); auto. }
      { rewrite S5. exact S4. }
      exists p'. split; [exact E'|]. split.
      { apply (at_toks_heap p5); auto. }
      split; [congruence|]. split; [congruence|].
      replace (bg_of [(tk, v, sp)]) with (Token_eqb tk AND); [exact P'|].
      destruct Htk as [->|[->| ->]]; reflexivity.
  - destruct Hwf as (Hf & Hrest & Hobl & Hop & Hy).
    rewrite map_app in Ha. cbn [map p_tok] in Ha. rewrite <- app_assoc in Ha.
    cbn [app] in Ha.
    set (ytoks := map p_tok (pieces y) ++ tm ++ tl) in *.
    assert (Hyt : ytoks <> []).
    { unfold ytoks. destruct y as [f0 r0|f0 r0 ? ? ?]; cbn [pieces wf_stm] in *;
        [destruct Hy as ((Hw0 & _) & _) | destruct Hy as ((Hw0 & _) & _)];
        destruct (word_pieces_cons f0 Hw0) as (x & ps & Ex);
        unfold cmd_pieces; rewrite Ex; discriminate. }
    destruct (command_head f rest n1 stop p d st
                ((op, "", negb (is_nil obl)) :: ytoks) Hf Hrest Hstop)
      as (p4 & m & Hn1 & E & A4 & Er4 & N4 & S4 & Nth4 & H4); auto.
    { pose proof (size_ge y). lia. }
    { cbn [In] in Hop. destruct Hop as [<-|[<-|[<-|[]]]]; repeat split; discriminate. }
    rewrite E. set (args := length (seqs p)) in *.
    destruct (args_op m p4 args stop op "" (negb (is_nil obl)) ytoks Hop Hstop A4 Hyt)
      as (p5 & E5 & A5 & ((Fn & Fs & Fq & Fo & Ff) & Fe)).
    set (left := Command (args_of f rest) false).
    assert (Hload : loadSeq args p5 = Done (args_of f rest, p5))
      by (unfold loadSeq, gets; rewrite Fq, Nth4; reflexivity).
    destruct m as [|k]; [pose proof (size_ge y); lia|].
    set (yy := length (ones p5)).
    set (p6 := set_ones (ones p5 ++ [None]) p5).
    set (p7 := set_stack (POne yy :: stack p5) p6).
    destruct (IH k p7 (POne yy) (stack p5) [] tm tl Hy) as (p8 & E8 & A8 & Er8 & N8 & P8); auto.
    { lia. }
    { cbn [slot_free]. unfold p7, p6. psimpl. rewrite length_app. cbn [length].
      split; [unfold yy; lia | apply nth_fresh]. }
    cbn [put] in P8. pose proof P8 as ((S8 & L8 & M8) & Nth8 & Q8 & O8).
    change (stack p7) with (POne yy :: stack p5) in S8.
    set (p9 := set_stack (stack p5) p8).
    assert (H9 : held p p9).
    { apply (held_same p p8); [|reflexivity | reflexivity].
      apply (held_filled p p7 p8 yy (node_of y (bg_of tm))); [|exact P8|].
      - apply (held_same p p6); [|reflexivity | reflexivity].
        apply (held_trans p p5); [|apply held_newOne, held_refl].
        apply (held_same p p4); auto.
      - unfold yy. rewrite Fo. destruct H4 as (_ & M4 & _). exact M4. }
    destruct (popAdd_put (BinaryExpr (Some left) op (Some (node_of y (bg_of tm))))
                (PSeq args) d st p p9) as (p' & E' & R' & T' & V' & Er' & N' & P'); auto.
    { unfold p9. psimpl. rewrite Fs. exact S4. }
    assert (Eb : binaryExpr (S k) op left p5 = Done (tt, p')).
    { cbn [binaryExpr].
      rewrite (run_bind newOne _ p5 yy p6 eq_refl).
      rewrite (run_bind (push (POne yy)) _ p6 tt p7 eq_refl).
      rewrite (run_bind (command k []) _ p7 tt p8 E8).
      rewrite (run_bind pop _ p8 tt p9)
        by (unfold pop; rewrite (run_bind (gets stack) _ p8 (POne yy :: stack p5) p8)
              by (unfold gets; rewrite S8; reflexivity); reflexivity).
      rewrite (run_bind (loadOne yy) _ p9 (Some (node_of y (bg_of tm))) p9)
        by (unfold loadOne, gets, p9; psimpl; rewrite Nth8; reflexivity).
      exact E'. }
    assert (Eargs : args_loop (S (S k)) stop args p4 = Done (None, p')).
    { rewrite E5. rewrite (run_bind (loadSeq args) _ p5 _ p5 Hload). fold left.
      rewrite (run_bind (binaryExpr (S k) op left) _ p5 tt p' Eb). reflexivity. }
    rewrite (run_bind (args_loop (S (S k)) stop args) _ p4 None p' Eargs).
    exists p'. split; [reflexivity|]. split.
    { apply (at_toks_heap p8); auto. }
    change (err p7) with (err p5) in Er8. change (name p7) with (name p5) in N8.
    split; [unfold p9 in *; psimpl; congruence|].
    split; [unfold p9 in *; psimpl; congruence | exact P'].
Qed.

(** ** The tokens of a text of pieces *)

Definition text_of (ps : list piece) : list rune := concat (map p_text ps).

(** A piece is scanned as its token when what follows it does not
    continue it. *)
Definition piece_ok (x : piece) (rest : list rune) : Prop :=
  match x with
  | PW bl w => blanks bl /\ lit_word w /\ ends rest
  | PO bl t => blanks bl /\ is_op t /\ op_follow t rest
  | PC bl s => blanks bl /\ ~ In NL s
  end.

Fixpoint lex_ok (ps : list piece) (tb : list rune) : Prop :=
  match ps with
  | [] => True
  | x :: ps' => piece_ok x (text_of ps' ++ tb) /\ lex_ok ps' tb
  end.

Lemma is_op_not_EOF t : is_op t -> t <> EOF.
Proof.
  unfold is_op. cbn [In]. intros H E. subst t.
  repeat (destruct H as [H|H]; [discriminate H|]). exact H.
Qed.

Lemma nexts_comment bl s rest :
  Forall (fun b => space b = true) bl -> ~ In NL s ->
  nexts (bl ++ "#"%char :: s ++ NL :: rest) COMMENT (string_of_runes (kept_text s))
    (negb (is_nil bl)) rest.
Proof.
  intros Hbl Hs q Hb Hf.
  destruct (next_comment q bl s (NL :: rest) Hbl Hs eq_refl Hb Hf)
    as (q' & E & S & T & V & L & Sp & B & _).
  exists q'. auto 10.
Qed.

Lemma nexts_piece x rest :
  piece_ok x rest -> 
  nexts (p_text x ++ rest) (fst (fst (p_tok x))) (snd (fst (p_tok x))) (snd (p_tok x)) rest.
Proof.
  destruct x as [bl w|bl t|bl s]; cbn [piece_ok p_text p_tok fst snd].
  - intros (Hb & Hw & He). rewrite <- app_assoc. apply nexts_word; auto.
  - intros (Hb & Ht & Hf). rewrite <- app_assoc. apply nexts_op; auto.
  - intros (Hb & Hs). rewrite <- app_assoc. cbn [app]. rewrite <- app_assoc. cbn [app].
    apply nexts_comment; auto.
Qed.

Lemma lexes_pieces : forall ps t0 tb,
  t0 <> EOF -> lex_ok ps tb -> blanks tb ->
  lexes t0 (text_of ps ++ tb) (map p_tok ps ++ [(EOF, "EOF", negb (is_nil tb))]).
Proof.
  induction ps as [|x ps IH]; intros t0 tb Ht0 Hok Htb.
  - cbn [text_of concat map app].
    apply (lexes_next t0 tb EOF "EOF" (negb (is_nil tb)) [] []); auto.
    + apply nexts_end. exact Htb.
    + constructor.
  - destruct Hok as (Hx & Hok).
    cbn [text_of concat map app]. fold (text_of ps). rewrite <- app_assoc.
    pose proof (nexts_piece x (text_of ps ++ tb) Hx) as Hn.
    destruct (p_tok x) as [[t v] sp] eqn:Ex. cbn [fst snd] in Hn.
    apply (lexes_next t0 _ t v sp (text_of ps ++ tb)); auto.
    apply IH; auto.
    destruct x as [bl w|bl t1|bl s]; cbn [p_tok] in Ex; inversion Ex; subst.
    + discriminate.
    + apply is_op_not_EOF. apply Hx.
    + discriminate.
Qed.

(** What may follow an operator: no rune that would make it another
    operator. *)
Definition tame (l : list rune) : Prop :=
  match l with
  | [] => True
  | d :: _ => d <> "&"%char /\ d <> "|"%char /\ d <> ">"%char
  end.

Lemma tame_follow t l : tame l -> op_follow t l.
Proof.
  destruct l as [|d l]; [intros _; destruct t; exact I|]. cbn [tame].
  intros (N1 & N2 & N3). destruct t; cbn [op_follow]; auto.
Qed.

Lemma blanks_ends bl l : blanks bl -> bl <> [] -> ends (bl ++ l).
Proof.
  intros Hb Hne. destruct bl as [|b bl]; [congruence|]. cbn [app ends].
  inversion Hb; subst. apply orb_true_iff. right. assumption.
Qed.

Lemma blanks_tame bl l : blanks bl -> tame l -> tame (bl ++ l).
Proof.
  intros Hb Hl. destruct bl as [|b bl]; [exact Hl|]. cbn [app tame].
  inversion Hb as [|? ? Hs _]; subst. repeat split; intros ->; discriminate Hs.
Qed.

Lemma blanks_are_ends tb : blanks tb -> ends tb.
Proof.
  intros H. destruct tb as [|b tb]; [exact I|]. cbn [ends].
  inversion H; subst. apply orb_true_iff. right. assumption.
Qed.

Lemma blanks_are_tame tb : blanks tb -> tame tb.
Proof. intros H. rewrite <- (app_nil_r tb). apply blanks_tame; [exact H | exact I]. Qed.

(** An operator that ends a word when it follows it, after blanks or
    none. *)
Definition ends_word (t : Token) : Prop :=
  In t [SEMICOLON; TRune NL; AND; LAND; OR; LOR; RDROUT; APPEND; RDRIN; EXP].

Lemma op_ends bl t l : blanks bl -> ends_word t -> ends ((bl ++ op_text t) ++ l).
Proof.
  intros Hb Ht. destruct bl as [|b bl].
  - unfold ends_word in Ht. cbn [In] in Ht.
    repeat (destruct Ht as [Ht|Ht]; [subst t; reflexivity|]). contradiction.
  - rewrite <- app_assoc. apply blanks_ends; [exact Hb | discriminate].
Qed.

Lemma ends_word_op t : ends_word t -> is_op t.
Proof.
  unfold ends_word, is_op. cbn [In]. intuition (subst; auto 20).
Qed.

Lemma text_of_app a b : text_of (a ++ b) = text_of a ++ text_of b.
Proof. unfold text_of. rewrite map_app, concat_app. reflexivity. Qed.

Lemma text_of_cons x ps : text_of (x :: ps) = p_text x ++ text_of ps.
Proof. reflexivity. Qed.

(** The variables of a word. *)
Lemma lex_ok_vars : forall vs ps tb,
  Forall lit_word vs -> ends (text_of ps ++ tb) -> lex_ok ps tb ->
  lex_ok (var_pieces vs ++ ps) tb /\ ends (text_of (var_pieces vs ++ ps) ++ tb).
Proof.
  induction vs as [|n vs IH]; intros ps tb Hvs He Hok; [split; assumption|].
  inversion Hvs as [|? ? Hn Hvs']; subst.
  destruct (IH ps tb Hvs' He Hok) as (I1 & I2).
  cbn [var_pieces flat_map app]. fold (var_pieces vs). split; [|reflexivity].
  cbn [lex_ok piece_ok]. unfold is_op. cbn [In].
  repeat match goal with |- _ /\ _ => split end; auto 20; try apply Forall_nil.
  destruct (text_of (PW [] n :: var_pieces vs ++ ps) ++ tb); exact I.
Qed.

(** The text of a word starts with its blanks, and then with the first
    rune of a literal or with a dollar. *)
Lemma word_text w ps :
  wf_word w ->
  exists c body, text_of (word_pieces w ++ ps) = w_bl w ++ c :: body
                 /\ (reserved c = false \/ c = "$"%char).
Proof.
  intros (_ & Hlit & _). unfold word_pieces. destruct (w_lit w) as [l|].
  - destruct l as [|c l]; [contradiction|]. destruct Hlit as (_ & _ & Hr & _).
    exists c. eexists. cbn [app]. rewrite text_of_cons. cbn [p_text].
    rewrite <- app_assoc. cbn [app]. split; [reflexivity | left; exact Hr].
  - destruct (w_vars w); [congruence|]. eexists. eexists. cbn [app].
    rewrite text_of_cons. cbn [p_text op_text]. rewrite <- app_assoc. cbn [app].
    split; [reflexivity | right; reflexivity].
Qed.

Lemma word_tame w ps tb : wf_word w -> tame (text_of (word_pieces w ++ ps) ++ tb).
Proof.
  intros Hw. destruct (word_text w ps Hw) as (c & body & -> & Hc).
  rewrite <- app_assoc. apply blanks_tame; [apply Hw|]. cbn [app tame].
  destruct Hc as [Hc| ->]; repeat split; try discriminate; intros ->; discriminate Hc.
Qed.

Lemma word_ends w ps tb :
  wf_word w -> w_bl w <> [] -> ends (text_of (word_pieces w ++ ps) ++ tb).
Proof.
  intros Hw Hne. destruct (word_text w ps Hw) as (c & body & -> & _).
  rewrite <- app_assoc. apply blanks_ends; [apply Hw | exact Hne].
Qed.

Lemma lex_ok_word w ps tb :
  wf_word w -> ends (text_of ps ++ tb) -> lex_ok ps tb ->
  lex_ok (word_pieces w ++ ps) tb.
Proof.
  intros (Hbl & Hlit & Hvs) He Hok. unfold word_pieces. destruct (w_lit w) as [l|].
  - destruct (lex_ok_vars (w_vars w) ps tb Hvs He Hok) as (I1 & I2).
    cbn [app lex_ok piece_ok]. auto.
  - destruct (w_vars w) as [|n vs]; [congruence|].
    inversion Hvs as [|? ? Hn Hvs']; subst.
    destruct (lex_ok_vars vs ps tb Hvs' He Hok) as (I1 & I2).
    cbn [app lex_ok piece_ok]. unfold is_op. cbn [In].
    repeat match goal with |- _ /\ _ => split end; auto 20; try apply Forall_nil.
    destruct (text_of (PW [] n :: var_pieces vs ++ ps) ++ tb); exact I.
Qed.

Lemma is_redirect_ends op : is_redirect op -> ends_word op.
Proof. unfold is_redirect, ends_word. cbn [In]. intuition. Qed.

Lemma lex_ok_args : forall rest ps tb,
  Forall wf_arg rest -> ends (text_of ps ++ tb) -> lex_ok ps tb ->
  lex_ok (flat_map arg_pieces rest ++ ps) tb
  /\ ends (text_of (flat_map arg_pieces rest ++ ps) ++ tb).
Proof.
  induction rest as [|a rest IH]; intros ps tb Hr He Hok; [split; assumption|].
  inversion Hr as [|? ? Ha Hr']; subst.
  destruct (IH ps tb Hr' He Hok) as (IH1 & IH2).
  cbn [flat_map]. rewrite <- app_assoc.
  destruct a as [w|bl op w]; cbn [wf_arg arg_pieces] in *.
  - destruct Ha as (Hw & Hne). split.
    + apply lex_ok_word; assumption.
    + apply word_ends; assumption.
  - destruct Ha as (Hbl & Hop & Hw). rewrite <- app_comm_cons. split.
    + cbn [lex_ok piece_ok]. split; [|apply lex_ok_word; assumption].
      split; [exact Hbl|]. split; [apply ends_word_op, is_redirect_ends; exact Hop|].
      apply tame_follow, word_tame. exact Hw.
    + rewrite text_of_cons. cbn [p_text]. rewrite <- app_assoc.
      apply op_ends; [exact Hbl | apply is_redirect_ends; exact Hop].
Qed.

Lemma lex_ok_cmd f rest ps tb :
  wf_first f -> Forall wf_arg rest -> ends (text_of ps ++ tb) -> lex_ok ps tb ->
  lex_ok (cmd_pieces f rest ++ ps) tb /\ tame (text_of (cmd_pieces f rest ++ ps) ++ tb).
Proof.
  intros (Hf & _) Hrest He Hok. unfold cmd_pieces. rewrite <- app_assoc.
  destruct (lex_ok_args rest ps tb Hrest He Hok) as (L1 & L2).
  split; [apply lex_ok_word; assumption | apply word_tame; exact Hf].
Qed.

Lemma lex_ok_stm : forall s ps tb,
  wf_stm s -> ends (text_of ps ++ tb) -> lex_ok ps tb ->
  lex_ok (pieces s ++ ps) tb /\ tame (text_of (pieces s ++ ps) ++ tb).
Proof.
  induction s as [f rest | f rest obl op y IH]; intros ps tb Hwf He Hok;
    cbn [wf_stm pieces] in *.
  - destruct Hwf as (Hf & Hrest). apply lex_ok_cmd; assumption.
  - destruct Hwf as (Hf & Hrest & Hobl & Hop & Hy).
    destruct (IH ps tb Hy He Hok) as (Y1 & Y2).
    assert (Hew : ends_word op).
    { unfold ends_word. cbn [In] in *. intuition. }
    rewrite <- app_assoc, <- app_comm_cons.
    apply lex_ok_cmd; auto.
    + rewrite text_of_cons. cbn [p_text]. rewrite <- app_assoc.
      apply op_ends; assumption.
    + cbn [lex_ok piece_ok]. split; [|exact Y1].
      split; [exact Hobl|]. split; [apply ends_word_op; exact Hew|].
      apply tame_follow. exact Y2.
Qed.

(** ** Programs of statements *)

(** A statement with the token that ends it, after blanks or none. *)
Definition item := (stm * (list rune * Token))%type.

Definition item_pieces (it : item) : list piece :=
  pieces (fst it) ++ [PO (fst (snd it)) (snd (snd it))].

Definition item_node (it : item) : Node :=
  node_of (fst it) (Token_eqb (snd (snd it)) AND).

Definition wf_item (it : item) : Prop :=
  wf_stm (fst it) /\ blanks (fst (snd it)) /\ is_term (snd (snd it)).

Definition last_pieces (last : option stm) : list piece :=
  match last with Some s => pieces s | None => [] end.

(** The statements [its], each with its end, and then a statement whose
    end is the end of the input, or none. *)
Definition prog_pieces (its : list item) (last : option stm) : list piece :=
  concat (map item_pieces its) ++ last_pieces last.

Definition prog_nodes (its : list item) (last : option stm) : list Node :=
  map item_node its ++ match last with Some s => [node_of s false] | None => [] end.

Definition wf_last (last : option stm) : Prop :=
  match last with Some s => wf_stm s | None => True end.

Fixpoint items_size (its : list item) : nat :=
  match its with
  | [] => 0
  | it :: its' => S (size (fst it)) + items_size its'
  end.

Definition last_size (last : option stm) : nat :=
  match last with Some s => S (size s) | None => 0 end.

Lemma stm_at s p l :
  wf_stm s -> at_toks p (map p_tok (pieces s) ++ l) -> tok p <> EOF.
Proof.
  intros Hwf Ha.
  assert (Hf : exists f ps, wf_word f /\ pieces s = word_pieces f ++ ps).
  { destruct s as [f rest|f rest obl op y]; cbn [pieces wf_stm] in *; unfold cmd_pieces.
    - exists f. eexists. split; [apply Hwf | reflexivity].
    - exists f. eexists. split; [apply Hwf|]. rewrite <- app_assoc. reflexivity. }
  destruct Hf as (f & ps & Hf & E). rewrite E, map_app, <- app_assoc in Ha.
  destruct (word_first p f _ Hf Ha) as [(T & _)|(T & _)]; rewrite T; discriminate.
Qed.

Lemma term_bg t v sp : is_term t -> bg_of [(t, v, sp)] = Token_eqb t AND.
Proof. intros [->|[->| ->]]; reflexivity. Qed.

Lemma commands_items : forall its last n p a st cnt ev esp,
  Forall wf_item its -> wf_last last ->
  items_size its + last_size last + 1 <= n ->
  at_toks p (map p_tok (prog_pieces its last) ++ [(EOF, ev, esp)]) ->
  stack p = PSeq a :: st -> a < length (seqs p) ->
  exists p' cnt',
    commands_loop n [] [] cnt p = Done (cnt', p')
    /\ tok p' = EOF /\ err p' = err p
    /\ grew a (prog_nodes its last) p p'.
Proof.
  induction its as [|[s [bl t]] its IH]; intros last n p a st cnt ev esp Hits Hlast Hn Ha Hst Hlt;
    (destruct n as [|n]; [lia|]).
  - unfold prog_pieces, prog_nodes in *. cbn [map concat app items_size] in *.
    destruct last as [s|]; cbn [last_pieces last_size wf_last] in *.
    + pose proof (stm_at s p _ Hlast Ha) as Tp.
      destruct (command_stm s n p (PSeq a) st [] [] [(EOF, ev, esp)] Hlast)
        as (p1 & E1 & A1 & Er1 & N1 & P1); auto.
      { lia. }
      { left. split; [reflexivity|]. eauto. }
      cbn [at_toks] in A1. destruct A1 as (T1 & _).
      destruct n as [|n]; [lia|].
      exists p1, (cnt + 1)%Z. split; [|split; [exact T1 | split; [exact Er1 | exact P1]]].
      cbn [commands_loop]. unfold bind at 1, at_EOF, gets.
      rewrite (Token_eqb_neq _ _ Tp).
      unfold bind at 1, peekAny, gets. cbn [existsb].
      rewrite (run_bind (command (S n) []) _ p tt p1 E1).
      unfold bind at 1, at_EOF, gets. rewrite T1, Token_eqb_refl. reflexivity.
    + cbn [map app at_toks] in Ha. destruct Ha as (Tp & _).
      exists p, cnt. split; [|split; [exact Tp | split; [reflexivity | apply grew_nil]]].
      cbn [commands_loop]. unfold bind at 1, at_EOF, gets.
      rewrite Tp, Token_eqb_refl. reflexivity.
  - inversion Hits as [|? ? (Hs & Hbl & Ht) Hits']; subst. cbn [fst snd] in *.
    unfold prog_pieces in Ha. cbn [map concat] in Ha. unfold item_pieces in Ha at 1.
    cbn [fst snd] in Ha. rewrite <- !app_assoc in Ha. rewrite map_app in Ha.
    cbn [app map p_tok] in Ha. fold (prog_pieces its last) in Ha.
    rewrite <- app_assoc in Ha.
    set (tl := map p_tok (prog_pieces its last) ++ [(EOF, ev, esp)]) in *.
    change (map p_tok (pieces s) ++ (t, "", negb (is_nil bl)) :: tl)
      with (map p_tok (pieces s) ++ [(t, "", negb (is_nil bl))] ++ tl) in Ha.
    pose proof (stm_at s p _ Hs Ha) as Tp.
    assert (Htl : tl <> []) by (unfold tl; destruct (map p_tok (prog_pieces its last)); discriminate).
    cbn [items_size fst] in Hn.
    destruct (command_stm s n p (PSeq a) st [] [(t, "", negb (is_nil bl))] tl Hs)
      as (p1 & E1 & A1 & Er1 & N1 & P1); auto.
    { lia. }
    { right. exists t, "", (negb (is_nil bl)). auto. }
    rewrite (term_bg t _ _ Ht) in P1. cbn [put] in P1.
    pose proof P1 as ((S1 & L1 & _) & _).
    destruct (IH last n p1 a st (cnt + 1)%Z ev esp Hits' Hlast) as (p' & cnt' & E' & T' & Er' & G');
      auto.
    { lia. }
    { rewrite S1. exact Hst. }
    { lia. }
    exists p', cnt'. split; [|split; [exact T' | split; [congruence|]]].
    + cbn [commands_loop]. unfold bind at 1, at_EOF, gets.
      rewrite (Token_eqb_neq _ _ Tp).
      unfold bind at 1, peekAny, gets. cbn [existsb].
      rewrite (run_bind (command n []) _ p tt p1 E1). exact E'.
    + unfold prog_nodes. cbn [map app]. fold (prog_nodes its last).
      change (item_node (s, (bl, t)) :: prog_nodes its last)
        with ([item_node (s, (bl, t))] ++ prog_nodes its last).
      exact (grew_trans a _ _ p p1 p' P1 G').
Qed.

Lemma is_term_ends_word t : is_term t -> ends_word t.
Proof. unfold ends_word. cbn [In]. intros [->|[->| ->]]; auto 10. Qed.

Lemma prog_pieces_cons s bl t its last :
  prog_pieces ((s, (bl, t)) :: its) last = pieces s ++ PO bl t :: prog_pieces its last.
Proof.
  unfold prog_pieces, item_pieces. cbn [map concat fst snd].
  rewrite <- !app_assoc. reflexivity.
Qed.

Lemma lex_ok_prog : forall its last tb,
  Forall wf_item its -> wf_last last -> blanks tb ->
  lex_ok (prog_pieces its last) tb /\ tame (text_of (prog_pieces its last) ++ tb).
Proof.
  induction its as [|[s [bl t]] its IH]; intros last tb Hits Hlast Htb.
  - unfold prog_pieces. cbn [map concat app].
    destruct last as [s|]; cbn [last_pieces wf_last] in *.
    + rewrite <- (app_nil_r (pieces s)). apply lex_ok_stm; [exact Hlast | | exact I].
      apply blanks_are_ends. exact Htb.
    + split; [exact I | apply blanks_are_tame; exact Htb].
  - inversion Hits as [|? ? (Hs & Hbl & Ht) Hits']; subst. cbn [fst snd] in *.
    destruct (IH last tb Hits' Hlast Htb) as (I1 & I2).
    rewrite prog_pieces_cons.
    apply lex_ok_stm; [exact Hs | |].
    + cbn [text_of map concat p_text]. rewrite <- app_assoc.
      apply op_ends; [exact Hbl | apply is_term_ends_word; exact Ht].
    + cbn [lex_ok piece_ok]. split; [|exact I1].
      split; [exact Hbl|].
      split; [apply ends_word_op, is_term_ends_word; exact Ht|].
      apply tame_follow. exact I2.
Qed.

Lemma length_text_cons x ps :
  length (text_of (x :: ps)) = length (p_text x) + length (text_of ps).
Proof. unfold text_of. cbn [map concat]. apply length_app. Qed.

Lemma vars_len : forall vs ps,
  length (text_of (var_pieces vs ++ ps)) = length (text_of (var_pieces vs)) + length (text_of ps)
  /\ length vs <= length (text_of (var_pieces vs)).
Proof.
  intros vs ps. split; [rewrite text_of_app; apply length_app|].
  induction vs as [|n vs IH]; [apply le_n|].
  cbn [var_pieces flat_map app]. fold (var_pieces vs).
  rewrite !length_text_cons. cbn [p_text op_text app length]. lia.
Qed.

Lemma word_len w : wf_word w -> 1 + length (w_vars w) <= length (text_of (word_pieces w)).
Proof.
  intros (_ & Hlit & Hvs). unfold word_pieces. destruct (w_lit w) as [l|].
  - rewrite length_text_cons. cbn [p_text]. rewrite length_app.
    destruct l; [contradiction|]. cbn [length].
    pose proof (proj2 (vars_len (w_vars w) [])). unfold rune in *. lia.
  - destruct (w_vars w) as [|n vs]; [congruence|].
    inversion Hvs as [|? ? Hn _]; subst. destruct n as [|c n]; [contradiction|].
    rewrite !length_text_cons. cbn [p_text op_text length]. rewrite !length_app.
    cbn [length]. pose proof (proj2 (vars_len vs [])). unfold rune in *. lia.
Qed.

Lemma args_len rest :
  Forall wf_arg rest -> length rest + avars rest <= length (text_of (flat_map arg_pieces rest)).
Proof.
  induction 1 as [|a rest Ha _ IH]; [apply le_n|].
  cbn [flat_map avars length]. rewrite text_of_app, length_app.
  destruct a as [w|bl op w]; cbn [wf_arg arg_pieces arg_vars] in *.
  - pose proof (word_len w (proj1 Ha)). unfold rune in *. lia.
  - destruct Ha as (_ & _ & Hw). rewrite length_text_cons.
    pose proof (word_len w Hw). unfold rune in *. lia.
Qed.

Lemma cmd_size_text f rest :
  wf_first f -> Forall wf_arg rest ->
  cmd_size f rest <= 6 * length (text_of (cmd_pieces f rest)).
Proof.
  intros (Hf & _) Hrest. unfold cmd_size, cmd_pieces. rewrite text_of_app, length_app.
  pose proof (word_len f Hf). pose proof (args_len rest Hrest). unfold rune in *. lia.
Qed.

Lemma size_text s : wf_stm s -> size s <= 6 * length (text_of (pieces s)).
Proof.
  induction s as [f rest | f rest obl op y IH]; cbn [wf_stm size pieces].
  - intros (Hf & Hrest). apply cmd_size_text; assumption.
  - intros (Hf & Hrest & _ & _ & Hy). rewrite text_of_app, length_app, length_text_cons.
    pose proof (cmd_size_text f rest Hf Hrest). pose proof (IH Hy). unfold rune in *. lia.
Qed.

Lemma term_len bl t : is_term t -> 1 <= length (p_text (PO bl t)).
Proof.
  intros Ht. cbn [p_text]. rewrite length_app.
  destruct Ht as [->|[->| ->]]; cbn; lia.
Qed.

Lemma prog_size_text : forall its last,
  Forall wf_item its -> wf_last last ->
  items_size its + last_size last <= 7 * length (text_of (prog_pieces its last)).
Proof.
  induction its as [|[s [bl t]] its IH]; intros last Hits Hlast.
  - unfold prog_pieces. cbn [map concat app items_size].
    destruct last as [s|]; cbn [last_pieces last_size wf_last] in *; [|lia].
    pose proof (size_text s Hlast). pose proof (size_ge s). unfold rune in *. lia.
  - inversion Hits as [|? ? (Hs & Hbl & Ht) Hits']; subst. cbn [fst snd] in *.
    pose proof (IH last Hits' Hlast) as H1.
    rewrite prog_pieces_cons. cbn [items_size fst].
    rewrite text_of_app, length_app, length_text_cons.
    pose proof (size_text s Hs). pose proof (term_len bl t Ht).
    unfold rune in *. lia.
Qed.

(** X9: printing and parsing.  A word is a literal ([lit_word]: plain
    runes, quoted segments and escaped runes); the first word of a simple
    command is not [if], [while] or [for].  A statement is a simple
    command, or a simple command, one of the operators [&&], [||] and
    [|], and a statement; a program is a list of statements that end with
    [;], a newline or [&], and then a statement that the input ends, or
    none.  For every such program and every layout (any blanks or none
    before a first word and before an operator, blanks before each
    further word, and blanks or none at the end), [Parse] of the text
    returns no error and the tree of the program: a [Command] of the
    words as written for a simple command, with [Background] set when [&]
    ends the statement, and a [BinaryExpr] whose right operand is the
    rest of the statement. *)
Theorem Parse_of_statement_text (its : list item) (last : option stm)
  (tb : list rune) (nm : string) :
  Forall wf_item its -> wf_last last -> blanks tb ->
  Parse (source (string_of_runes (text_of (prog_pieces its last) ++ tb))) nm
  = Done ({| Stmts := prog_nodes its last |}, None).
Proof.
  intros Hits Hlast Htb.
  set (ps := prog_pieces its last).
  set (buf := text_of ps ++ tb).
  set (rd := source (string_of_runes buf)).
  assert (Hrd : rd_buf rd = buf)
    by (unfold rd, source, reader_of, string_of_runes; cbn [rd_buf];
        apply list_ascii_of_string_of_list_ascii).
  set (p0 := set_stack [PSeq 0] (new_parser rd nm)).
  destruct (lex_ok_prog its last tb Hits Hlast Htb) as (Hok & _). fold ps in Hok.
  assert (Hlex : lexes (TRune rune0) buf
                   (map p_tok ps ++ [(EOF, "EOF", negb (is_nil tb))])).
  { apply lexes_pieces; auto. discriminate. }
  destruct (map p_tok ps ++ [(EOF, "EOF", negb (is_nil tb))]) as [|[[t v] sp] ts] eqn:Ets.
  { destruct (map p_tok ps); discriminate. }
  assert (A0 : at_stream p0 (TRune rune0) "" ((t, v, sp) :: ts)).
  { unfold at_stream. repeat split; auto. change (rd_buf (r p0)) with (rd_buf rd).
    rewrite Hrd. exact Hlex. }
  destruct (next_at p0 _ _ t v sp ts A0) as (p1 & E1 & ((Fn & Fs & Fq & Fo & Ff) & Fe) & A1 & _).
  assert (Hfuel : items_size its + last_size last + 2 <= fuel_for rd).
  { unfold fuel_for. rewrite Hrd. unfold buf. rewrite length_app.
    pose proof (prog_size_text its last Hits Hlast). fold ps in H.
    unfold rune in *. lia. }
  destruct (fuel_for rd) as [|n] eqn:Ef; [lia|].
  destruct (commands_items its last n p1 0 [] 0%Z "EOF" (negb (is_nil tb)) Hits Hlast)
    as (p2 & cnt & E2 & T2 & Er2 & ((S2 & _) & Nth2 & _)); auto.
  { lia. }
  { fold ps. rewrite Ets. exact A1. }
  { rewrite Fq. cbn. lia. }
  unfold Parse, Parse_fuel. rewrite Ef.
  change (push (PSeq 0) ;; next ;; program (S n))
    with (bind (push (PSeq 0)) (fun _ => bind next (fun _ => program (S n)))).
  rewrite (run_bind (push (PSeq 0)) _ (new_parser rd nm) tt p0 eq_refl).
  rewrite (run_bind next _ p0 tt p1 E1).
  unfold program. cbn [commands].
  rewrite (run_bind (commands_loop n [] [] 0%Z) _ p1 cnt p2 E2).
  unfold ret, prog. rewrite Nth2, Fq, Er2, Fe. reflexivity.
Qed.

(** ** Compound commands, with their layout *)

(** The end of a statement: the blanks and the token that the simple
    command takes with it, or nothing. *)
Definition term := option (list rune * Token).

(** A statement: a chain of simple commands; a simple command, a binary
    operator and a statement; a newline and a statement; a subshell; a
    block; an [if], a [while] or a [for] statement; the declaration of a
    function, which is a word, [()] and a statement; a comment.  Each
    keyword and operator comes with the blanks before it; a list of
    statements keeps the end of each. *)
Inductive tree :=
| TCmd (s : stm)
| TOp (first : sword) (rest : list arg) (obl : list rune) (op : Token) (y : tree)
| TNl (bl : list rune) (y : tree)
| TSub (obl : list rune) (body : elems) (cbl : list rune)
| TBlk (obl : list rune) (body : elems) (cbl : list rune)
| TIf (ibl : list rune) (cond : tree) (ctm : term) (tbl : list rune) (thens : elems)
      (elifs : elif_list) (ebl : option (list rune)) (elses : elems) (fbl : list rune)
| TWhile (wbl : list rune) (cond : tree) (ctm : term) (dbl : list rune) (body : elems)
      (ebl : list rune)
| TFor (fbl : list rune) (name : lword) (ibl : list rune) (ws : list sword)
      (wtm : list rune * Token) (dbl : list rune) (body : elems) (ebl : list rune)
| TFun (f : sword) (pbl cbl : list rune) (body : tree)
| TCom (bl s : list rune)
with elems :=
| ENil
| ECons (t : tree) (tm : term) (es : elems)
with elif_list :=
| LNil
| LCons (ebl : list rune) (cond : tree) (ctm : term) (tbl : list rune) (thens : elems)
      (ls : elif_list).

Definition kw (bl : list rune) (s : string) : piece := PW bl (list_ascii_of_string s).

Definition term_pieces (tm : term) : list piece :=
  match tm with
  | Some (bl, t) => [PO bl t]
  | None => []
  end.

Fixpoint tpieces (t : tree) : list piece :=
  match t with
  | TCmd s => pieces s
  | TOp f rest obl op y => cmd_pieces f rest ++ PO obl op :: tpieces y
  | TNl bl y => PO bl (TRune NL) :: tpieces y
  | TSub obl body cbl => PO obl LPAREN :: epieces body ++ [PO cbl RPAREN]
  | TBlk obl body cbl => PO obl LBRACE :: epieces body ++ [PO cbl RBRACE]
  | TIf ibl c ctm tbl thens elifs ebl elses fbl =>
      kw ibl "if" :: tpieces c ++ term_pieces ctm ++ kw tbl "then" :: epieces thens
      ++ lpieces elifs
      ++ match ebl with
         | Some bl => kw bl "else" :: epieces elses
         | None => []
         end
      ++ [kw fbl "fi"]
  | TWhile wbl c ctm dbl body ebl =>
      kw wbl "while" :: tpieces c ++ term_pieces ctm ++ kw dbl "do" :: epieces body
      ++ [kw ebl "done"]
  | TFor fbl nm ibl ws wtm dbl body ebl =>
      kw fbl "for" :: pw nm :: kw ibl "in" :: flat_map word_pieces ws
      ++ PO (fst wtm) (snd wtm) :: kw dbl "do" :: epieces body ++ [kw ebl "done"]
  | TFun f pbl cbl body =>
      word_pieces f ++ PO pbl LPAREN :: PO cbl RPAREN :: tpieces body
  | TCom bl s => [PC bl s]
  end
with epieces (es : elems) : list piece :=
  match es with
  | ENil => []
  | ECons t tm es' => tpieces t ++ term_pieces tm ++ epieces es'
  end
with lpieces (ls : elif_list) : list piece :=
  match ls with
  | LNil => []
  | LCons ebl c ctm tbl thens ls' =>
      kw ebl "elif" :: tpieces c ++ term_pieces ctm ++ kw tbl "then" :: epieces thens
      ++ lpieces ls'
  end.

(** Whether a [&] ends the statement. *)
Definition tbg (tm : term) : bool :=
  match tm with
  | Some (_, AND) => true
  | _ => false
  end.

Definition words_of (ws : list sword) : list Node := map word_node ws.

(** The node of a statement; [bg] is whether a [&] ends it. *)
Fixpoint tnode (t : tree) (bg : bool) : Node :=
  match t with
  | TCmd s => node_of s bg
  | TOp f rest _ op y =>
      BinaryExpr (Some (Command (args_of f rest) false)) op (Some (tnode y bg))
  | TNl _ y => tnode y bg
  | TSub _ body _ => Subshell (enodes body)
  | TBlk _ body _ => Block (enodes body)
  | TIf _ c ctm _ thens elifs _ elses _ =>
      IfStmt (Some (tnode c (tbg ctm))) (enodes thens) (lnodes elifs) (enodes elses)
  | TWhile _ c ctm _ body _ => WhileStmt (Some (tnode c (tbg ctm))) (enodes body)
  | TFor _ nm _ ws _ _ body _ =>
      ForStmt (Lit (string_of_runes (snd nm))) (words_of ws) (enodes body)
  | TFun f _ _ body => FuncDecl (Lit (word_last f)) (Some (tnode body bg))
  | TCom _ s => Comment (string_of_runes (kept_text s))
  end
with enodes (es : elems) : list Node :=
  match es with
  | ENil => []
  | ECons t tm es' => tnode t (tbg tm) :: enodes es'
  end
with lnodes (ls : elif_list) : list Node :=
  match ls with
  | LNil => []
  | LCons _ c ctm _ thens ls' =>
      Elif (Some (tnode c (tbg ctm))) (enodes thens) :: lnodes ls'
  end.

(** Whether the statement ends with a simple command, which takes the
    token that ends the statement. *)
Fixpoint ends_simple (t : tree) : bool :=
  match t with
  | TCmd _ => true
  | TOp _ _ _ _ y => ends_simple y
  | TNl _ y => ends_simple y
  | TFun _ _ _ body => ends_simple body
  | _ => false
  end.

(** [peek] on a token of the stream. *)
Definition tok_peeks (k : Token) (x : tokn) : bool :=
  Token_eqb (fst (fst x)) k
  || (Token_eqb (fst (fst x)) LIT && String.eqb (snd (fst x)) (reservedLits k)).

(** The first token of the statement is not one of those that end the
    list it is in. *)
Definition starts_ok (stop : list Token) (t : tree) : Prop :=
  match tpieces t with
  | x :: _ => Forall (fun k => tok_peeks k (p_tok x) = false) stop
  | [] => True
  end.

Definition is_simple (t : tree) : Prop := exists f rest, t = TCmd (Simple f rest).

(** The end of a statement in a list: a statement that ends with a simple
    command has a [;], a newline or a [&] after it, or is the last one and
    [open] holds; no such token follows another statement. *)
Definition term_ok (open : Prop) (t : tree) (tm : term) : Prop :=
  if ends_simple t then
    match tm with
    | Some (bl, tk) => blanks bl /\ is_term tk
    | None => open
    end
  else tm = None.

Definition is_ENil (es : elems) : Prop :=
  match es with ENil => True | _ => False end.

(** Well-formed statements.  [wf_elems cs stop es]: the statements of a
    list that the tokens [stop] end, [cs] being the tokens that end the
    simple commands at the head of its statements.  The last statement of
    a list may be left open before the end of the input, and a simple
    command before the [)] of a subshell.  The name of a function is the
    last token of the word before [()], and matches [identRe]. *)
Fixpoint wf_tree (t : tree) : Prop :=
  match t with
  | TCmd s => wf_stm s
  | TOp f rest obl op y =>
      wf_first f /\ Forall wf_arg rest /\ blanks obl /\ In op [LAND; OR; LOR]
      /\ wf_tree y
  | TNl bl y => blanks bl /\ wf_tree y
  | TSub obl body cbl =>
      blanks obl /\ blanks cbl /\ ~ is_ENil body /\ wf_elems [RPAREN] [RPAREN] body
  | TBlk obl body cbl =>
      blanks obl /\ blanks cbl /\ ~ is_ENil body /\ wf_elems [] [RBRACE] body
  | TIf ibl c ctm tbl thens elifs ebl elses fbl =>
      wf_tree c /\ term_ok False c ctm
      /\ wf_elems [] [FI; ELIF; ELSE] thens
      /\ wf_elifs elifs
      /\ match ebl with
         | Some _ => wf_elems [] [FI] elses
         | None => is_ENil elses
         end
  | TWhile wbl c ctm dbl body ebl =>
      wf_tree c /\ term_ok False c ctm /\ wf_elems [] [DONE] body
  | TFor fbl nm ibl ws wtm dbl body ebl =>
      Forall (fun w => wf_arg (AWord w)) ws
      /\ (snd wtm = SEMICOLON \/ snd wtm = TRune NL)
      /\ wf_elems [] [DONE] body
  | TFun f pbl cbl body =>
      wf_first f /\ identRe_MatchString (word_last f) = true /\ wf_tree body
  | TCom bl s => True
  end
with wf_elems (cs stop : list Token) (es : elems) : Prop :=
  match es with
  | ENil => True
  | ECons t tm es' =>
      wf_tree t /\ starts_ok stop t
      /\ term_ok (is_ENil es' /\ (stop = [] \/ (cs = [RPAREN] /\ is_simple t))) t tm
      /\ wf_elems cs stop es'
  end
with wf_elifs (ls : elif_list) : Prop :=
  match ls with
  | LNil => True
  | LCons ebl c ctm tbl thens ls' =>
      wf_tree c /\ term_ok False c ctm
      /\ wf_elems [] [FI; ELIF; ELSE] thens
      /\ wf_elifs ls'
  end.

(** The fuel that the rules take on a statement. *)
Fixpoint need (t : tree) : nat :=
  match t with
  | TCmd s => size s
  | TOp f rest _ _ y => cmd_size f rest + need y
  | TNl _ y => 1 + need y
  | TSub _ body _ => 3 + eneed body
  | TBlk _ body _ => 3 + eneed body
  | TIf _ c _ _ thens elifs _ elses _ =>
      4 + need c + eneed thens + lneed elifs + eneed elses
  | TWhile _ c _ _ body _ => 3 + need c + eneed body
  | TFor _ _ _ ws _ _ body _ => 6 + length ws + avars (map AWord ws) + eneed body
  | TFun f _ _ body => length (w_vars f) + 4 + need body
  | TCom _ _ => 1
  end
with eneed (es : elems) : nat :=
  match es with
  | ENil => 0
  | ECons t _ es' => need t + eneed es'
  end
with lneed (ls : elif_list) : nat :=
  match ls with
  | LNil => 1
  | LCons _ c _ _ thens ls' => 3 + need c + eneed thens + lneed ls'
  end.

Fixpoint elen (es : elems) : nat :=
  match es with
  | ENil => 0
  | ECons _ _ es' => S (elen es')
  end.

Scheme tree_mut := Induction for tree Sort Prop
  with elems_mut := Induction for elems Sort Prop
  with elif_mut := Induction for elif_list Sort Prop.
Combined Scheme tree_elems_ind from tree_mut, elems_mut, elif_mut.

(** ** The rules on compound commands *)

(** The list of statements ends before [tl]: at the end of the input or
    at one of the tokens [stop]. *)
Definition ends_list (stop : list Token) (tl : list tokn) : Prop :=
  match tl with
  | (t1, v1, _) :: _ =>
      t1 = EOF \/ (t1 <> LIT /\ In t1 stop)
      \/ (t1 = LIT /\ v1 <> "" /\ exists k, In k stop /\ v1 = reservedLits k)
  | [] => False
  end.

(** How a statement ends before [tl]. *)
Definition tcloses (t : tree) (cs : list Token) (tm : term) (tl : list tokn) : Prop :=
  match tl with
  | (t1, _, _) :: _ =>
      if ends_simple t then
        match tm with
        | Some (_, tk) => is_term tk
        | None => t1 = EOF \/ (t1 = RPAREN /\ cs = [RPAREN] /\ is_simple t)
        end
      else tm = None
  | [] => False
  end.

Lemma peek_tok k p sp : peek k p = tok_peeks k (tok p, val p, sp).
Proof. reflexivity. Qed.

Lemma peekAny_starts stop x p ts :
  Forall (fun k => tok_peeks k x = false) stop -> at_toks p (x :: ts) ->
  existsb (fun t => peek t p) stop = false.
Proof.
  destruct x as [[t v] sp]. cbn [at_toks]. intros H (T & V & _).
  induction H as [|k stop Hk _ IH]; [reflexivity|].
  cbn [existsb]. rewrite IH, (peek_tok k p sp), T, V, Hk. reflexivity.
Qed.

Lemma peekAny_stops stop p tl :
  ends_list stop tl -> at_toks p tl -> tok p <> EOF ->
  existsb (fun t => peek t p) stop = true.
Proof.
  destruct tl as [|[[t v] sp] ts]; [contradiction|]. cbn [ends_list at_toks].
  intros H (T & V & _) Hne. apply existsb_exists.
  destruct H as [H|[(H1 & H2)|(H1 & H2 & k & H3 & H4)]].
  - congruence.
  - exists t. split; [exact H2|]. apply peek_same. exact T.
  - exists k. split; [exact H3|]. unfold peek. rewrite T, V, H1, H4.
    rewrite (Token_eqb_refl LIT), String.eqb_refl. apply orb_true_r.
Qed.

Lemma got_at k p t v t' v' sp' ts :
  at_stream p t v ((t', v', sp') :: ts) -> peek k p = true ->
  exists p', got k p = Done (true, p')
             /\ still p p' /\ at_stream p' t' v' ts /\ lval p' = v.
Proof.
  intros Ha Hk. destruct (next_at p t v t' v' sp' ts Ha) as (p' & E & S & A & _ & L & _).
  exists p'. split; [|auto].
  unfold got, bind at 1, gets. rewrite Hk.
  rewrite (run_bind next _ p tt p' E). reflexivity.
Qed.

Lemma want_at k p t v t' v' sp' ts :
  at_stream p t v ((t', v', sp') :: ts) -> peek k p = true ->
  exists p', want k p = Done (tt, p')
             /\ still p p' /\ at_stream p' t' v' ts /\ lval p' = v.
Proof.
  intros Ha Hk. destruct (next_at p t v t' v' sp' ts Ha) as (p' & E & S & A & _ & L & _).
  exists p'. split; [|auto].
  unfold want, bind at 1, gets. rewrite Hk. exact E.
Qed.

(** The same with the tokens as a list that is not empty. *)
Lemma got_toks k p x tl :
  at_toks p (x :: tl) -> tl <> [] -> peek k p = true ->
  exists p', got k p = Done (true, p')
             /\ still p p' /\ at_toks p' tl /\ lval p' = snd (fst x).
Proof.
  destruct x as [[t v] sp]. destruct tl as [|[[t' v'] sp'] ts]; [congruence|].
  intros Ha _ Hk. exact (got_at k p t v t' v' sp' ts Ha Hk).
Qed.

Lemma want_toks k p x tl :
  at_toks p (x :: tl) -> tl <> [] -> peek k p = true ->
  exists p', want k p = Done (tt, p')
             /\ still p p' /\ at_toks p' tl /\ lval p' = snd (fst x).
Proof.
  destruct x as [[t v] sp]. destruct tl as [|[[t' v'] sp'] ts]; [congruence|].
  intros Ha _ Hk. exact (want_at k p t v t' v' sp' ts Ha Hk).
Qed.

(** The loop of the arguments at a token that ends the simple command
    without being taken. *)
Lemma args_stop m stop a p :
  tok p <> EOF -> existsb (fun t => peek t p) stop = true ->
  args_loop (S m) stop a p = Done (Some false, p).
Proof.
  intros H1 H2. cbn [args_loop]. unfold bind at 1, at_EOF, gets.
  rewrite (Token_eqb_neq _ _ H1). unfold bind at 1, peekAny, gets. rewrite H2.
  reflexivity.
Qed.

Lemma cmd_pieces_cons f rest :
  wf_first f -> exists x ps, cmd_pieces f rest = x :: ps /\ In (fst (fst (p_tok x))) [LIT; EXP].
Proof.
  intros ((_ & H & _) & _). unfold cmd_pieces, word_pieces. destruct (w_lit f).
  - eexists. eexists. split; [reflexivity | left; reflexivity].
  - destruct (w_vars f); [congruence|]. eexists. eexists.
    split; [reflexivity | right; left; reflexivity].
Qed.

Lemma need_pos : forall t, 1 <= need t.
Proof.
  intros [s| | | | | | | | |]; cbn [need]; unfold cmd_size; try lia.
  pose proof (size_ge s). lia.
Qed.

(** The first token of a statement. *)
Definition opens_tree (x : tokn) : Prop :=
  In (fst (fst x)) [LIT; EXP; TRune NL; LPAREN; LBRACE; COMMENT].

Lemma tpieces_first t :
  wf_tree t -> exists x ps, tpieces t = x :: ps /\ opens_tree (p_tok x).
Proof.
  assert (Hc : forall f rest l, wf_first f ->
            exists x ps, cmd_pieces f rest ++ l = x :: ps /\ opens_tree (p_tok x)).
  { intros f rest l Hf. destruct (cmd_pieces_cons f rest Hf) as (x & ps & -> & Hx).
    exists x. eexists. split; [reflexivity|]. unfold opens_tree. cbn [In] in *.
    intuition. }
  destruct t as [[f rest|f rest obl op y]|f rest obl op y| | | | | | |f pbl cbl body|];
    cbn [tpieces pieces wf_tree wf_stm]; intros Hwf.
  - rewrite <- (app_nil_r (cmd_pieces f rest)). apply Hc, Hwf.
  - apply Hc, Hwf.
  - apply Hc, Hwf.
  - eexists; eexists; (split; [reflexivity|]); unfold opens_tree; cbn; auto.
  - eexists; eexists; (split; [reflexivity|]); unfold opens_tree; cbn; auto.
  - eexists; eexists; (split; [reflexivity|]); unfold opens_tree; cbn; auto 10.
  - eexists; eexists; (split; [reflexivity|]); unfold opens_tree; cbn; auto.
  - eexists; eexists; (split; [reflexivity|]); unfold opens_tree; cbn; auto.
  - eexists; eexists; (split; [reflexivity|]); unfold opens_tree; cbn; auto.
  - replace (word_pieces f) with (cmd_pieces f [])
      by (unfold cmd_pieces; cbn [flat_map]; apply app_nil_r).
    apply Hc, Hwf.
  - eexists; eexists; (split; [reflexivity|]); unfold opens_tree; cbn; auto 10.
Qed.

Lemma put_still d n p p1 p' : still p p1 -> put d n p1 p' -> put d n p p'.
Proof.
  intros ((_ & Fs & Fq & Fo & _) & _). unfold put, grew, filled, cells_kept.
  rewrite Fs, Fq, Fo. destruct d; auto.
Qed.

Lemma grew_still_r a ns p p1 p' : grew a ns p p1 -> still p1 p' -> grew a ns p p'.
Proof.
  intros H ((_ & Fs & Fq & Fo & _) & _). revert H. unfold grew, cells_kept.
  rewrite Fs, Fq, Fo. auto.
Qed.

Lemma tbg_bg bl tk sp : bg_of [(tk, "", sp)] = tbg (Some (bl, tk)).
Proof. destruct tk; reflexivity. Qed.

(** A simple command before the [)] that ends the list it is in. *)
Lemma command_open f rest n p d st v sp tl :
  wf_first f -> Forall wf_arg rest -> cmd_size f rest <= n ->
  at_toks p (map p_tok (cmd_pieces f rest) ++ (RPAREN, v, sp) :: tl) ->
  stack p = d :: st -> slot_free d p ->
  exists p',
    command n [RPAREN] p = Done (tt, p')
    /\ at_toks p' ((RPAREN, v, sp) :: tl) /\ err p' = err p /\ name p' = name p
    /\ put d (Command (args_of f rest) false) p p'.
Proof.
  intros Hf Hrest Hn Ha Hst Hfree. unfold cmd_size in Hn. destruct n as [|n1]; [lia|].
  destruct (command_head f rest n1 [RPAREN] p d st ((RPAREN, v, sp) :: tl) Hf Hrest)
    as (p4 & m & Hn1 & E & A4 & Er4 & N4 & S4 & Nth4 & H4); auto.
  { lia. }
  { repeat split; discriminate. }
  rewrite E. set (args := length (seqs p)) in *.
  pose proof A4 as (T4 & _).
  assert (Ea : args_loop (S m) [RPAREN] args p4 = Done (Some false, p4)).
  { apply args_stop; [rewrite T4; discriminate|].
    cbn [existsb]. rewrite (peek_same RPAREN p4 T4). reflexivity. }
  rewrite (run_bind (args_loop (S m) [RPAREN] args) _ p4 (Some false) p4 Ea).
  rewrite (run_bind (loadSeq args) _ p4 (args_of f rest) p4)
    by (unfold loadSeq, gets; rewrite Nth4; reflexivity).
  destruct (popAdd_put (Command (args_of f rest) false) (PSeq args) d st p p4)
    as (p' & E' & R' & T' & V' & Er' & N' & P'); auto.
  exists p'. split; [exact E'|]. split.
  { apply (at_toks_heap p4); auto. }
  split; [congruence|]. split; [congruence | exact P'].
Qed.

(** What the rules do on well-formed statements, with the fuel [n]. *)
Definition cmd_ok (n : nat) : Prop :=
  forall t p d st cs tm tl,
    wf_tree t -> need t <= n -> Forall (eq RPAREN) cs ->
    at_toks p (map p_tok (tpieces t) ++ map p_tok (term_pieces tm) ++ tl) ->
    tcloses t cs tm tl ->
    stack p = d :: st -> slot_free d p ->
    exists p',
      command n cs p = Done (tt, p')
      /\ at_toks p' tl /\ err p' = err p /\ name p' = name p
      /\ put d (tnode t (tbg tm)) p p'.

Definition loop_ok (n : nat) : Prop :=
  forall es p a st cs stop cnt tl,
    wf_elems cs stop es -> eneed es < n ->
    cs = [] \/ (cs = [RPAREN] /\ stop = [RPAREN]) ->
    at_toks p (map p_tok (epieces es) ++ tl) -> ends_list stop tl ->
    stack p = PSeq a :: st -> a < length (seqs p) ->
    exists p',
      commands_loop n cs stop cnt p = Done ((cnt + Z.of_nat (elen es))%Z, p')
      /\ at_toks p' tl /\ err p' = err p /\ name p' = name p
      /\ grew a (enodes es) p p'.

Lemma cmd_TCmd n s p d st cs tm tl :
  wf_stm s -> size s <= n -> Forall (eq RPAREN) cs ->
  at_toks p (map p_tok (pieces s) ++ map p_tok (term_pieces tm) ++ tl) ->
  tcloses (TCmd s) cs tm tl ->
  stack p = d :: st -> slot_free d p ->
  exists p',
    command n cs p = Done (tt, p')
    /\ at_toks p' tl /\ err p' = err p /\ name p' = name p
    /\ put d (node_of s (tbg tm)) p p'.
Proof.
  intros Hwf Hn Hcs Ha Hcl Hst Hfree.
  destruct tl as [|[[t1 v1] sp1] tl']; [contradiction|].
  cbn [tcloses ends_simple] in Hcl.
  destruct tm as [[bl tk]|].
  - cbn [term_pieces map p_tok] in Ha.
    destruct (command_stm s n p d st cs [(tk, "", negb (is_nil bl))] ((t1, v1, sp1) :: tl') Hwf)
      as (p' & E & A & Er & N & P); auto.
    { right. exists tk, "", (negb (is_nil bl)). repeat split; auto. discriminate. }
    exists p'. rewrite (tbg_bg bl) in P. auto.
  - cbn [term_pieces map app] in Ha.
    destruct Hcl as [->|(-> & -> & f & rest & Es)].
    + destruct (command_stm s n p d st cs [] ((EOF, v1, sp1) :: tl') Hwf)
        as (p' & E & A & Er & N & P); auto.
      { left. split; [reflexivity|]. eauto. }
      exists p'. auto.
    + inversion Es; subst s. cbn [wf_stm size pieces map] in *.
      destruct Hwf as (Hf & Hrest).
      apply (command_open f rest n p d st v1 sp1 tl'); auto.
Qed.

Lemma loop_step n : cmd_ok n -> loop_ok n -> loop_ok (S n).
Proof.
  intros C L es p a st cs stop cnt tl Hwf Hn Hcs Ha Hend Hst Hlt.
  destruct es as [|t tm es']; cbn [wf_elems eneed epieces elen enodes] in *.
  - cbn [map app] in Ha. exists p.
    split; [|split; [exact Ha | split; [reflexivity | split; [reflexivity | apply grew_nil]]]].
    rewrite Z.add_0_r. cbn [commands_loop]. unfold bind at 1, at_EOF, gets.
    destruct (Token_eqb (tok p) EOF) eqn:Te; [reflexivity|].
    unfold bind at 1, peekAny, gets.
    rewrite (peekAny_stops stop p tl Hend Ha); [reflexivity|].
    intros H. rewrite H, Token_eqb_refl in Te. discriminate.
  - destruct Hwf as (Ht & Hstart & Hterm & Hes').
    rewrite !map_app, <- !app_assoc in Ha.
    set (tl1 := map p_tok (epieces es') ++ tl) in *.
    assert (Htl : exists x ts, tl = x :: ts)
      by (destruct tl as [|x ts]; [contradiction | eauto]).
    destruct Htl as (x0 & ts0 & Etl).
    assert (Htl1 : exists x ts, tl1 = x :: ts).
    { unfold tl1. rewrite Etl. destruct (map p_tok (epieces es')); cbn [app]; eauto. }
    destruct Htl1 as (x1 & ts1 & Etl1).
    assert (Hcl : tcloses t cs tm tl1).
    { rewrite Etl1. destruct x1 as [[t1 v1] sp1]. cbn [tcloses].
      unfold term_ok in Hterm. destruct (ends_simple t); [|exact Hterm].
      destruct tm as [[bl tk]|]; [apply Hterm|].
      destruct Hterm as (Hnil & Hopen).
      destruct es'; [|contradiction]. unfold tl1 in Etl1. cbn [epieces map app] in Etl1.
      rewrite Etl1 in Hend. cbn [ends_list] in Hend.
      destruct Hopen as [->|(Ec & Hs)].
      - left. destruct Hend as [H|[(_ & [])|(_ & _ & k & [] & _)]]. exact H.
      - destruct Hcs as [->|(_ & ->)]; [discriminate|].
        destruct Hend as [H|[(_ & H)|(_ & H1 & k & H2 & H3)]].
        + left. exact H.
        + right. cbn [In] in H. destruct H as [<-|[]]. auto.
        + cbn [In] in H2. destruct H2 as [<-|[]]. cbn in H3. congruence. }
    assert (Hcsf : Forall (eq RPAREN) cs).
    { destruct Hcs as [->|(-> & _)]; repeat constructor. }
    pose proof (need_pos t) as Hnp.
    destruct (C t p (PSeq a) st cs tm tl1 Ht) as (p1 & E1 & A1 & Er1 & N1 & P1); auto.
    { lia. }
    cbn [put] in P1. pose proof P1 as ((S1 & L1 & _) & _).
    destruct (L es' p1 a st cs stop (cnt + 1)%Z tl Hes') as (p' & E' & A' & Er' & N' & G'); auto.
    { lia. }
    { rewrite S1. exact Hst. }
    { lia. }
    exists p'. split; [|split; [exact A' | split; [congruence | split; [congruence|]]]].
    + destruct (tpieces_first t Ht) as (x & ps & Ex & Hx).
      unfold starts_ok in Hstart. rewrite Ex in Ha, Hstart. cbn [map app] in Ha.
      assert (Tne : tok p <> EOF).
      { destruct (p_tok x) as [[tx vx] spx]. cbn [at_toks] in Ha. destruct Ha as (T & _).
        rewrite T. unfold opens_tree in Hx. cbn [fst In] in Hx.
        intros ->. repeat (destruct Hx as [Hx|Hx]; [discriminate Hx|]). exact Hx. }
      cbn [commands_loop]. unfold bind at 1, at_EOF, gets.
      rewrite (Token_eqb_neq _ _ Tne).
      unfold bind at 1, peekAny, gets.
      rewrite (peekAny_starts stop (p_tok x) p _ Hstart Ha).
      rewrite (run_bind (command n cs) _ p tt p1 E1).
      replace (cnt + Z.of_nat (S (elen es')))%Z with (cnt + 1 + Z.of_nat (elen es'))%Z by lia.
      exact E'.
    + change (tnode t (tbg tm) :: enodes es') with ([tnode t (tbg tm)] ++ enodes es').
      exact (grew_trans a _ _ p p1 p' P1 G').
Qed.

Lemma tree_toks_cons t l :
  wf_tree t -> exists x ts, map p_tok (tpieces t) ++ l = x :: ts.
Proof.
  intros Hwf. destruct (tpieces_first t Hwf) as (x & ps & E & _). rewrite E.
  cbn [map app]. eauto.
Qed.

Lemma tcloses_inner y cs tm tl t :
  ends_simple t = ends_simple y -> ~ is_simple t ->
  tcloses t cs tm tl -> tcloses y [] tm tl.
Proof.
  intros He Hs. destruct tl as [|[[t1 v1] sp1] tl']; [auto|]. cbn [tcloses].
  rewrite He. destruct (ends_simple y); [|auto].
  destruct tm as [[bl tk]|]; [auto|].
  intros [H|(_ & _ & H)]; [left; exact H | contradiction].
Qed.

Lemma cmd_TOp n f rest obl op y :
  cmd_ok n ->
  forall p d st cs tm tl,
    wf_tree (TOp f rest obl op y) -> cmd_size f rest + need y <= n + length rest + 3 ->
    Forall (eq RPAREN) cs ->
    at_toks p (map p_tok (tpieces (TOp f rest obl op y))
               ++ map p_tok (term_pieces tm) ++ tl) ->
    tcloses (TOp f rest obl op y) cs tm tl ->
    stack p = d :: st -> slot_free d p ->
    exists p',
      command (n + length rest + 3) cs p = Done (tt, p')
      /\ at_toks p' tl /\ err p' = err p /\ name p' = name p
      /\ put d (tnode (TOp f rest obl op y) (tbg tm)) p p'.
Proof.
  intros C p d st cs tm tl Hwf Hn Hstop Ha Hcl Hst Hfree.
  cbn [wf_tree tpieces tnode] in *. unfold cmd_size in Hn.
  destruct Hwf as (Hf & Hrest & Hobl & Hop & Hy).
  replace (n + length rest + 3) with (S (length rest + S (S n))) by lia.
  rewrite map_app in Ha. cbn [map p_tok] in Ha.
  rewrite <- app_assoc in Ha. cbn [app] in Ha.
  set (tmt := map p_tok (term_pieces tm)) in *.
  set (ytoks := map p_tok (tpieces y) ++ tmt ++ tl) in *.
  assert (Hyt : ytoks <> []).
  { unfold ytoks. destruct (tree_toks_cons y (tmt ++ tl) Hy) as (x & ts & ->). discriminate. }
  destruct (command_head f rest (length rest + S (S n)) cs p d st
              ((op, "", negb (is_nil obl)) :: ytoks) Hf Hrest Hstop)
    as (p4 & m & Hn1 & E & A4 & Er4 & N4 & S4 & Nth4 & H4); auto.
  { lia. }
  { cbn [In] in Hop. destruct Hop as [<-|[<-|[<-|[]]]]; repeat split; discriminate. }
  assert (m = S n) by lia. subst m.
  rewrite E. set (args := length (seqs p)) in *.
  destruct (args_op (S n) p4 args cs op "" (negb (is_nil obl)) ytoks Hop Hstop A4 Hyt)
    as (p5 & E5 & A5 & ((Fn & Fs & Fq & Fo & Ff) & Fe)).
  set (left := Command (args_of f rest) false).
  assert (Hload : loadSeq args p5 = Done (args_of f rest, p5))
    by (unfold loadSeq, gets; rewrite Fq, Nth4; reflexivity).
  set (yy := length (ones p5)).
  set (p6 := set_ones (ones p5 ++ [None]) p5).
  set (p7 := set_stack (POne yy :: stack p5) p6).
  destruct (C y p7 (POne yy) (stack p5) [] tm tl Hy) as (p8 & E8 & A8 & Er8 & N8 & P8); auto.
  { lia. }
  { apply (tcloses_inner y cs tm tl (TOp f rest obl op y)); auto.
    intros (f0 & r0 & H0). discriminate H0. }
  { cbn [slot_free]. unfold p7, p6. psimpl. rewrite length_app. cbn [length].
    split; [unfold yy; lia | apply nth_fresh]. }
  cbn [put] in P8. pose proof P8 as ((S8 & L8 & M8) & Nth8 & Q8 & O8).
  change (stack p7) with (POne yy :: stack p5) in S8.
  set (p9 := set_stack (stack p5) p8).
  assert (H9 : held p p9).
  { apply (held_same p p8); [|reflexivity | reflexivity].
    apply (held_filled p p7 p8 yy (tnode y (tbg tm))); [|exact P8|].
    - apply (held_same p p6); [|reflexivity | reflexivity].
      apply (held_trans p p5); [|apply held_newOne, held_refl].
      apply (held_same p p4); auto.
    - unfold yy. rewrite Fo. destruct H4 as (_ & M4 & _). exact M4. }
  destruct (popAdd_put (BinaryExpr (Some left) op (Some (tnode y (tbg tm))))
              (PSeq args) d st p p9) as (p' & E' & R' & T' & V' & Er' & N' & P'); auto.
  { unfold p9. psimpl. rewrite Fs. exact S4. }
  assert (Eb : binaryExpr (S n) op left p5 = Done (tt, p')).
  { cbn [binaryExpr].
    rewrite (run_bind newOne _ p5 yy p6 eq_refl).
    rewrite (run_bind (push (POne yy)) _ p6 tt p7 eq_refl).
    rewrite (run_bind (command n []) _ p7 tt p8 E8).
    rewrite (run_bind pop _ p8 tt p9)
      by (unfold pop; rewrite (run_bind (gets stack) _ p8 (POne yy :: stack p5) p8)
            by (unfold gets; rewrite S8; reflexivity); reflexivity).
    rewrite (run_bind (loadOne yy) _ p9 (Some (tnode y (tbg tm))) p9)
      by (unfold loadOne, gets, p9; psimpl; rewrite Nth8; reflexivity).
    exact E'. }
  assert (Eargs : args_loop (S (S n)) cs args p4 = Done (None, p')).
  { rewrite E5. rewrite (run_bind (loadSeq args) _ p5 _ p5 Hload). fold left.
    rewrite (run_bind (binaryExpr (S n) op left) _ p5 tt p' Eb). reflexivity. }
  rewrite (run_bind (args_loop (S (S n)) cs args) _ p4 None p' Eargs).
  exists p'. split; [reflexivity|]. split.
  { apply (at_toks_heap p8); auto. }
  change (err p7) with (err p5) in Er8. change (name p7) with (name p5) in N8.
  split; [unfold p9 in *; psimpl; congruence|].
  split; [unfold p9 in *; psimpl; congruence | exact P'].
Qed.

Lemma opens_tree_tok p x ts :
  opens_tree x -> at_toks p (x :: ts) -> tok p <> EOF.
Proof.
  destruct x as [[t v] sp]. unfold opens_tree. cbn [fst In at_toks].
  intros H (T & _). rewrite T.
  repeat (destruct H as [H|H]; [subst t; discriminate|]).
  contradiction.
Qed.

Lemma cmd_TNl n bl y :
  cmd_ok n ->
  forall p d st cs tm tl,
    wf_tree (TNl bl y) -> need y <= n ->
    at_toks p (map p_tok (tpieces (TNl bl y)) ++ map p_tok (term_pieces tm) ++ tl) ->
    tcloses (TNl bl y) cs tm tl ->
    stack p = d :: st -> slot_free d p ->
    exists p',
      command (S n) cs p = Done (tt, p')
      /\ at_toks p' tl /\ err p' = err p /\ name p' = name p
      /\ put d (tnode (TNl bl y) (tbg tm)) p p'.
Proof.
  intros C p d st cs tm tl (Hbl & Hy) Hn Ha Hcl Hst Hfree.
  cbn [tpieces tnode map p_tok app] in *.
  set (ytoks := map p_tok (tpieces y) ++ map p_tok (term_pieces tm) ++ tl) in *.
  destruct (tpieces_first y Hy) as (x & ps & Ex & Hx).
  assert (Eyt : ytoks = p_tok x :: (map p_tok ps ++ map p_tok (term_pieces tm) ++ tl)).
  { unfold ytoks. rewrite Ex. reflexivity. }
  pose proof Ha as (Tp & Vp & _).
  assert (Hpk : forall t, t <> TRune NL -> peek t p = false).
  { intros t Ht. apply peek_other; rewrite Tp; [congruence | discriminate]. }
  destruct (got_toks (TRune NL) p _ ytoks Ha) as (p1 & E1 & S1 & A1 & _).
  { rewrite Eyt. discriminate. }
  { apply peek_same. exact Tp. }
  pose proof S1 as ((Fn & Fs & Fq & Fo & Ff) & Fe).
  destruct (C y p1 d st [] tm tl Hy) as (p' & E' & A' & Er' & N' & P'); auto.
  { apply (tcloses_inner y cs tm tl (TNl bl y)); auto.
    intros (f0 & r0 & H0). discriminate H0. }
  { rewrite Fs. exact Hst. }
  { destruct d; cbn [slot_free] in *; rewrite ?Fq, ?Fo; exact Hfree. }
  exists p'. split; [|split; [exact A' | split; [congruence | split; [congruence|]]]].
  - cbn [command].
    rewrite (run_bind (got COMMENT) _ p false p)
      by (apply got_false, Hpk; discriminate).
    unfold orM.
    rewrite (run_bind _ _ p true p1)
      by (rewrite (run_bind (got (TRune NL)) _ p true p1 E1); reflexivity).
    unfold bind at 1, at_EOF, gets.
    rewrite Eyt in A1. pose proof (opens_tree_tok p1 _ _ Hx A1) as T1.
    rewrite (Token_eqb_neq _ _ T1). cbn [negb]. exact E'.
  - apply (put_still d _ p p1 p' S1 P').
Qed.

(** The end of a subshell or of a block: the statements are counted, the
    token that closes them is taken, and the node is added. *)
Lemma block_tail K close body c p0 p sub d st cx tl :
  (0 < c)%Z ->
  stack p0 = d :: st -> slot_free d p0 -> held p0 p ->
  stack p = PSeq sub :: d :: st -> nth sub (seqs p) [] = enodes body ->
  at_toks p (cx :: tl) -> tl <> [] -> peek close p = true ->
  exists p',
    ((if (c =? 0)%Z then errWantedStr "command" else ret tt) ;;
     want close ;;
     st <- loadSeq sub ;;
     popAdd (K st)) p = Done (tt, p')
    /\ at_toks p' tl /\ err p' = err p /\ name p' = name p
    /\ put d (K (enodes body)) p0 p'.
Proof.
  intros Hc Hst0 Hfree Hh Hst Hnth Ha Htl Hpk.
  destruct (Z.eqb_spec c 0) as [->|_]; [lia|].
  rewrite (run_bind (ret tt) _ p tt p eq_refl).
  destruct (want_toks close p cx tl Ha Htl Hpk) as (p1 & E1 & S1 & A1 & _).
  rewrite (run_bind (want close) _ p tt p1 E1).
  pose proof S1 as ((Fn & Fs & Fq & Fo & Ff) & Fe).
  rewrite (run_bind (loadSeq sub) _ p1 (enodes body) p1)
    by (unfold loadSeq, gets; rewrite Fq, Hnth; reflexivity).
  destruct (popAdd_put (K (enodes body)) (PSeq sub) d st p0 p1)
    as (p' & E' & R' & T' & V' & Er' & N' & P'); auto.
  { apply (held_still p0 p p1); auto. }
  { rewrite Fs. exact Hst. }
  exists p'. split; [exact E'|]. split.
  { apply (at_toks_heap p1); auto. }
  split; [congruence|]. split; [congruence | exact P'].
Qed.

Lemma elen_pos body : ~ is_ENil body -> (0 < 0 + Z.of_nat (elen body))%Z.
Proof. destruct body; cbn [is_ENil elen]; [tauto | lia]. Qed.

(** A list of statements is run into a fresh cell. *)
Lemma body_run n cs stop body p0 p d st cx tl :
  loop_ok n -> wf_elems cs stop body -> eneed body < n ->
  cs = [] \/ (cs = [RPAREN] /\ stop = [RPAREN]) ->
  held p0 p -> stack p = d :: st ->
  at_toks p (map p_tok (epieces body) ++ cx :: tl) -> ends_list stop (cx :: tl) ->
  let sub := length (seqs p) in
  let p3 := set_stack (PSeq sub :: d :: st) (set_seqs (seqs p ++ [[]]) p) in
  exists p4,
    commands_loop n cs stop 0%Z p3 = Done ((0 + Z.of_nat (elen body))%Z, p4)
    /\ at_toks p4 (cx :: tl) /\ err p4 = err p /\ name p4 = name p
    /\ held p0 p4 /\ stack p4 = PSeq sub :: d :: st
    /\ nth sub (seqs p4) [] = enodes body
    /\ sub < length (seqs p4)
    /\ (forall b, b < length (seqs p) -> nth b (seqs p4) [] = nth b (seqs p) [])
    /\ (forall b, b < length (ones p) -> nth b (ones p4) None = nth b (ones p) None)
    /\ length (ones p) <= length (ones p4).
Proof.
  intros L Hwf Hn Hcs Hh Hst Ha Hend sub p3.
  assert (Hl3 : length (seqs p3) = S sub)
    by (unfold p3; psimpl; rewrite length_app; cbn; unfold sub; lia).
  destruct (L body p3 sub (d :: st) cs stop 0%Z (cx :: tl) Hwf Hn Hcs)
    as (p4 & E4 & A4 & Er4 & N4 & G4); auto; try lia.
  exists p4. pose proof G4 as ((S4 & L4 & M4) & Nth4 & R4 & O4).
  split; [exact E4|]. split; [exact A4|]. split; [exact Er4|]. split; [exact N4|].
  split.
  { apply (held_grew p0 p3 p4 sub (enodes body)); [|exact G4|].
    - apply (held_same p0 (set_seqs (seqs p ++ [[]]) p)); [|reflexivity | reflexivity].
      apply held_newSeq. exact Hh.
    - destruct Hh as (Hl & _). unfold sub. exact Hl. }
  split; [exact S4|]. split.
  { rewrite Nth4. unfold p3. psimpl. unfold sub. rewrite nth_fresh. reflexivity. }
  split; [lia|]. split; [|split].
  - intros b Hb. rewrite R4 by (unfold sub in *; lia).
    unfold p3. psimpl. apply app_nth1. exact Hb.
  - intros b Hb. apply O4. exact Hb.
  - exact M4.
Qed.

Lemma tcloses_compound t cs tm tl :
  ends_simple t = false -> tcloses t cs tm tl -> tm = None /\ tl <> [].
Proof.
  intros He. destruct tl as [|[[t1 v1] sp1] tl']; [contradiction|]. cbn [tcloses].
  rewrite He. intros ->. split; [reflexivity | discriminate].
Qed.

Lemma cmd_TSub n obl body cbl :
  loop_ok n ->
  forall p d st cs tm tl,
    wf_tree (TSub obl body cbl) -> eneed body < n ->
    at_toks p (map p_tok (tpieces (TSub obl body cbl))
               ++ map p_tok (term_pieces tm) ++ tl) ->
    tcloses (TSub obl body cbl) cs tm tl ->
    stack p = d :: st -> slot_free d p ->
    exists p',
      command (S (S n)) cs p = Done (tt, p')
      /\ at_toks p' tl /\ err p' = err p /\ name p' = name p
      /\ put d (tnode (TSub obl body cbl) (tbg tm)) p p'.
Proof.
  intros L p d st cs tm tl (Hobl & Hcbl & Hne & Hbody) Hn Ha Hcl Hst Hfree.
  destruct (tcloses_compound _ cs tm tl (eq_refl : ends_simple (TSub obl body cbl) = false) Hcl)
    as (-> & Htl).
  cbn [tpieces tnode term_pieces map p_tok app] in *.
  rewrite map_app in Ha. cbn [map p_tok] in Ha. rewrite <- app_assoc in Ha.
  cbn [app] in Ha.
  set (cx := (RPAREN, "", negb (is_nil cbl)) : tokn) in *.
  pose proof Ha as (Tp & Vp & _).
  assert (Hpk : forall t, t <> LPAREN -> peek t p = false).
  { intros t Ht. apply peek_other; rewrite Tp; [congruence | discriminate]. }
  destruct (got_toks LPAREN p _ _ Ha) as (p1 & E1 & S1 & A1 & _).
  { destruct (map p_tok (epieces body)); discriminate. }
  { apply peek_same. exact Tp. }
  pose proof S1 as ((Fn & Fs & Fq & Fo & Ff) & Fe).
  destruct (body_run n [RPAREN] [RPAREN] body p p1 d st cx tl L Hbody Hn)
    as (p4 & E4 & A4 & Er4 & N4 & H4 & S4 & Nth4 & _); auto.
  { apply (held_still p p p1); [apply held_refl | exact S1]. }
  { rewrite Fs. exact Hst. }
  { cbn [ends_list cx]. right; left. split; [discriminate | left; reflexivity]. }
  destruct (block_tail Subshell RPAREN body (0 + Z.of_nat (elen body)) p p4
              (length (seqs p1)) d st cx tl) as (p' & E' & A' & Er' & N' & P'); auto.
  { apply elen_pos. exact Hne. }
  { apply peek_same. apply A4. }
  exists p'. split; [|split; [exact A' | split; [congruence | split; [congruence | exact P']]]].
  cbn [command].
  rewrite (run_bind (got COMMENT) _ p false p) by (apply got_false, Hpk; discriminate).
  unfold orM.
  rewrite (run_bind _ _ p false p)
    by (rewrite (run_bind (got (TRune NL)) _ p false p)
          by (apply got_false, Hpk; discriminate);
        apply got_false, Hpk; discriminate).
  rewrite (run_bind (got LPAREN) _ p true p1 E1).
  rewrite (run_bind newSeq _ p1 (length (seqs p1)) (set_seqs (seqs p1 ++ [[]]) p1) eq_refl).
  rewrite (run_bind (push (PSeq (length (seqs p1)))) _ _ tt
             (set_stack (PSeq (length (seqs p1)) :: d :: st)
                (set_seqs (seqs p1 ++ [[]]) p1)))
    by (unfold push, modify; psimpl; rewrite Fs, Hst; reflexivity).
  cbn [commandsLimited].
  rewrite (run_bind (commands_loop n [RPAREN] [RPAREN] 0%Z) _ _ _ p4 E4).
  exact E'.
Qed.

Lemma cmd_TBlk n obl body cbl :
  loop_ok n ->
  forall p d st cs tm tl,
    wf_tree (TBlk obl body cbl) -> eneed body < n ->
    at_toks p (map p_tok (tpieces (TBlk obl body cbl))
               ++ map p_tok (term_pieces tm) ++ tl) ->
    tcloses (TBlk obl body cbl) cs tm tl ->
    stack p = d :: st -> slot_free d p ->
    exists p',
      command (S (S n)) cs p = Done (tt, p')
      /\ at_toks p' tl /\ err p' = err p /\ name p' = name p
      /\ put d (tnode (TBlk obl body cbl) (tbg tm)) p p'.
Proof.
  intros L p d st cs tm tl (Hobl & Hcbl & Hne & Hbody) Hn Ha Hcl Hst Hfree.
  destruct (tcloses_compound _ cs tm tl (eq_refl : ends_simple (TBlk obl body cbl) = false) Hcl)
    as (-> & Htl).
  cbn [tpieces tnode term_pieces map p_tok app] in *.
  rewrite map_app in Ha. cbn [map p_tok] in Ha. rewrite <- app_assoc in Ha.
  cbn [app] in Ha.
  set (cx := (RBRACE, "", negb (is_nil cbl)) : tokn) in *.
  pose proof Ha as (Tp & Vp & _).
  assert (Hpk : forall t, t <> LBRACE -> peek t p = false).
  { intros t Ht. apply peek_other; rewrite Tp; [congruence | discriminate]. }
  destruct (got_toks LBRACE p _ _ Ha) as (p1 & E1 & S1 & A1 & _).
  { destruct (map p_tok (epieces body)); discriminate. }
  { apply peek_same. exact Tp. }
  pose proof S1 as ((Fn & Fs & Fq & Fo & Ff) & Fe).
  destruct (body_run n [] [RBRACE] body p p1 d st cx tl L Hbody Hn)
    as (p4 & E4 & A4 & Er4 & N4 & H4 & S4 & Nth4 & _); auto.
  { apply (held_still p p p1); [apply held_refl | exact S1]. }
  { rewrite Fs. exact Hst. }
  { cbn [ends_list cx]. right; left. split; [discriminate | left; reflexivity]. }
  destruct (block_tail Block RBRACE body (0 + Z.of_nat (elen body)) p p4
              (length (seqs p1)) d st cx tl) as (p' & E' & A' & Er' & N' & P'); auto.
  { apply elen_pos. exact Hne. }
  { apply peek_same. apply A4. }
  exists p'. split; [|split; [exact A' | split; [congruence | split; [congruence | exact P']]]].
  cbn [command].
  rewrite (run_bind (got COMMENT) _ p false p) by (apply got_false, Hpk; discriminate).
  unfold orM.
  rewrite (run_bind _ _ p false p)
    by (rewrite (run_bind (got (TRune NL)) _ p false p)
          by (apply got_false, Hpk; discriminate);
        apply got_false, Hpk; discriminate).
  rewrite (run_bind (got LPAREN) _ p false p) by (apply got_false, Hpk; discriminate).
  rewrite (run_bind (got LBRACE) _ p true p1 E1).
  rewrite (run_bind newSeq _ p1 (length (seqs p1)) (set_seqs (seqs p1 ++ [[]]) p1) eq_refl).
  rewrite (run_bind (push (PSeq (length (seqs p1)))) _ _ tt
             (set_stack (PSeq (length (seqs p1)) :: d :: st)
                (set_seqs (seqs p1 ++ [[]]) p1)))
    by (unfold push, modify; psimpl; rewrite Fs, Hst; reflexivity).
  cbn [commands].
  rewrite (run_bind (commands_loop n [] [RBRACE] 0%Z) _ _ _ p4 E4).
  exact E'.
Qed.

Lemma term_ok_closes c ctm x tl : term_ok False c ctm -> tcloses c [] ctm (x :: tl).
Proof.
  destruct x as [[t1 v1] sp1]. unfold term_ok. cbn [tcloses].
  destruct (ends_simple c); [|auto].
  destruct ctm as [[bl tk]|]; [intros (_ & H); exact H | contradiction].
Qed.

(** A condition: the statement is run into the single-node cell [cond],
    which is pushed for it and popped after it. *)
Lemma cond_run n c ctm p0 p cond x tl :
  cmd_ok n -> wf_tree c -> term_ok False c ctm -> need c <= n ->
  held p0 p -> length (ones p0) <= cond ->
  cond < length (ones p) -> nth cond (ones p) None = None ->
  at_toks p (map p_tok (tpieces c) ++ map p_tok (term_pieces ctm) ++ x :: tl) ->
  exists p',
    (forall B (k : M B),
        bind (push (POne cond)) (fun _ => bind (command n []) (fun _ => bind pop (fun _ => k))) p
        = k p')
    /\ at_toks p' (x :: tl) /\ err p' = err p /\ name p' = name p
    /\ held p0 p' /\ filled cond (tnode c (tbg ctm)) p p'.
Proof.
  intros C Hc Hterm Hn Hh Hcond Hlt Hnone Ha.
  set (p1 := set_stack (POne cond :: stack p) p).
  destruct (C c p1 (POne cond) (stack p) [] ctm (x :: tl) Hc Hn)
    as (p2 & E2 & A2 & Er2 & N2 & P2); auto.
  { apply term_ok_closes. exact Hterm. }
  { cbn [slot_free]. auto. }
  cbn [put] in P2. pose proof P2 as ((S2 & L2 & M2) & Nth2 & Q2 & O2).
  change (stack p1) with (POne cond :: stack p) in S2.
  set (p3 := set_stack (stack p) p2).
  exists p3. split.
  { intros B k.
    rewrite (run_bind (push (POne cond)) _ p tt p1 eq_refl).
    rewrite (run_bind (command n []) _ p1 tt p2 E2).
    rewrite (run_bind pop _ p2 tt p3)
      by (unfold pop; rewrite (run_bind (gets stack) _ p2 (POne cond :: stack p) p2)
            by (unfold gets; rewrite S2; reflexivity); reflexivity).
    reflexivity. }
  split; [apply (at_toks_heap p2); auto|].
  split; [exact Er2|]. split; [exact N2|]. split.
  - apply (held_same p0 p2); [|reflexivity | reflexivity].
    apply (held_filled p0 p1 p2 cond (tnode c (tbg ctm))); auto.
  - unfold filled, cells_kept, p3. psimpl. repeat split; auto.
Qed.

(** A list of statements is run into the cell [cell], which is pushed
    for it. *)
Lemma list_run n stop body p0 p cell cx tl :
  loop_ok n -> wf_elems [] stop body -> eneed body < n ->
  held p0 p -> length (seqs p0) <= cell ->
  cell < length (seqs p) -> nth cell (seqs p) [] = [] ->
  at_toks p (map p_tok (epieces body) ++ cx :: tl) -> ends_list stop (cx :: tl) ->
  exists p',
    (forall B (k : Z -> M B),
        bind (push (PSeq cell)) (fun _ => bind (commands (S n) stop) k) p
        = k (0 + Z.of_nat (elen body))%Z p')
    /\ at_toks p' (cx :: tl) /\ err p' = err p /\ name p' = name p
    /\ held p0 p' /\ stack p' = PSeq cell :: stack p
    /\ nth cell (seqs p') [] = enodes body
    /\ length (seqs p) <= length (seqs p') /\ length (ones p) <= length (ones p')
    /\ (forall b, b < length (seqs p) -> b <> cell -> nth b (seqs p') [] = nth b (seqs p) [])
    /\ (forall b, b < length (ones p) -> nth b (ones p') None = nth b (ones p) None).
Proof.
  intros L Hwf Hn Hh Hcell Hlt Hnil Ha Hend.
  set (p1 := set_stack (PSeq cell :: stack p) p).
  destruct (L body p1 cell (stack p) [] stop 0%Z (cx :: tl) Hwf Hn)
    as (p2 & E2 & A2 & Er2 & N2 & G2); auto.
  pose proof G2 as ((S2 & L2 & M2) & Nth2 & R2 & O2).
  exists p2. split.
  { intros B k.
    rewrite (run_bind (push (PSeq cell)) _ p tt p1 eq_refl).
    cbn [commands]. unfold bind. rewrite E2. reflexivity. }
  split; [exact A2|]. split; [exact Er2|]. split; [exact N2|]. split.
  { apply (held_grew p0 p1 p2 cell (enodes body)); auto. }
  split; [exact S2|]. split.
  { rewrite Nth2. change (seqs p1) with (seqs p). rewrite Hnil. reflexivity. }
  auto.
Qed.

Lemma kw_tok bl s : p_tok (kw bl s) = (LIT, s, negb (is_nil bl)).
Proof.
  unfold kw. cbn [p_tok]. unfold string_of_runes.
  rewrite string_of_list_ascii_of_string. reflexivity.
Qed.

Ltac toks_norm H :=
  repeat first [ rewrite map_app in H | rewrite <- app_assoc in H | rewrite kw_tok in H
               | progress cbn [map app p_tok] in H ].

Lemma ends_kw stop k s sp tl :
  In k stop -> s = reservedLits k -> s <> "" -> ends_list stop ((LIT, s, sp) :: tl).
Proof. intros H1 H2 H3. cbn [ends_list]. right; right. eauto. Qed.

Lemma peek_lit_val k p s sp ts :
  at_toks p ((LIT, s, sp) :: ts) -> k <> LIT -> s <> reservedLits k -> peek k p = false.
Proof. cbn [at_toks]. intros (T & V & _) H1 H2. apply peek_lit; auto. congruence. Qed.

Lemma peek_lit_kw k p s sp ts :
  at_toks p ((LIT, s, sp) :: ts) -> s = reservedLits k -> peek k p = true.
Proof.
  cbn [at_toks]. intros (T & V & _) ->. unfold peek.
  rewrite T, V, (Token_eqb_refl LIT), String.eqb_refl. apply orb_true_r.
Qed.

Lemma held_alloc p0 p :
  held p0 p ->
  held p0 (set_seqs (seqs p ++ [[]]) p) /\ held p0 (set_ones (ones p ++ [None]) p).
Proof. intros H. split; [apply held_newSeq | apply held_newOne]; exact H. Qed.

Lemma cmd_TWhile n wbl c ctm dbl body ebl :
  cmd_ok (S n) -> loop_ok n ->
  forall p d st cs tm tl,
    wf_tree (TWhile wbl c ctm dbl body ebl) -> need c <= S n -> eneed body < n ->
    at_toks p (map p_tok (tpieces (TWhile wbl c ctm dbl body ebl))
               ++ map p_tok (term_pieces tm) ++ tl) ->
    tcloses (TWhile wbl c ctm dbl body ebl) cs tm tl ->
    stack p = d :: st -> slot_free d p ->
    exists p',
      command (S (S n)) cs p = Done (tt, p')
      /\ at_toks p' tl /\ err p' = err p /\ name p' = name p
      /\ put d (tnode (TWhile wbl c ctm dbl body ebl) (tbg tm)) p p'.
Proof.
  intros C L p d st cs tm tl (Hc & Hctm & Hbody) Hnc Hnb Ha Hcl Hst Hfree.
  destruct (tcloses_compound _ cs tm tl
              (eq_refl : ends_simple (TWhile wbl c ctm dbl body ebl) = false) Hcl)
    as (-> & Htl).
  cbn [tpieces tnode term_pieces] in *. toks_norm Ha.
  set (xdo := (LIT, "do", negb (is_nil dbl)) : tokn) in *.
  set (xdone := (LIT, "done", negb (is_nil ebl)) : tokn) in *.
  assert (Hpk : forall t, t <> LIT -> "while" <> reservedLits t -> peek t p = false).
  { intros t H1 H2. apply (peek_lit_val t p _ _ _ Ha H1 H2). }
  destruct (got_toks WHILE p _ _ Ha) as (p1 & E1 & S1 & A1 & _).
  { destruct (tree_toks_cons c (map p_tok (term_pieces ctm) ++ xdo
                :: map p_tok (epieces body) ++ xdone :: tl) Hc) as (x & ts & ->). discriminate. }
  { apply (peek_lit_kw WHILE p _ _ _ Ha). reflexivity. }
  pose proof S1 as ((Fn & Fs & Fq & Fo & Ff) & Fe).
  set (cond := length (ones p1)).
  set (pA := set_ones (ones p1 ++ [None]) p1).
  set (dos := length (seqs pA)).
  set (pB := set_seqs (seqs pA ++ [[]]) pA).
  assert (HB : held p pB).
  { apply held_alloc, held_alloc, (held_still p p p1); [apply held_refl | exact S1]. }
  destruct (cond_run (S n) c ctm p pB cond xdo (map p_tok (epieces body) ++ xdone :: tl))
    as (pD & ED & AD & ErD & ND & HD & PD); auto.
  { unfold cond. rewrite Fo. lia. }
  { unfold pB, pA. psimpl. rewrite length_app. cbn. unfold cond. lia. }
  { unfold pB, pA. psimpl. apply nth_fresh. }
  pose proof PD as ((SD & LD & MD) & NthD & QD & OD).
  assert (HcD : cond < length (ones pD)).
  { unfold pB, pA in MD. psimpl. rewrite length_app in MD. cbn in MD. unfold cond. lia. }
  destruct (want_toks DO pD xdo _ AD) as (pF & EF & SF & AF & _).
  { destruct (map p_tok (epieces body)); discriminate. }
  { apply (peek_lit_kw DO pD _ _ _ AD). reflexivity. }
  pose proof SF as ((FnF & FsF & FqF & FoF & FfF) & FeF).
  assert (HlB : length (seqs pB) = S dos)
    by (unfold pB; psimpl; rewrite length_app; cbn; unfold dos; lia).
  destruct (list_run n [DONE] body p pF dos xdone tl L Hbody Hnb)
    as (pH & EH & AH & ErH & NH & HH & SH & NthH & LH & MH & RH & OH); auto.
  { apply (held_still p pD pF); auto. }
  { unfold dos, pA. psimpl. rewrite Fq. lia. }
  { rewrite FqF. lia. }
  { rewrite FqF, QD by lia. apply nth_fresh. }
  { apply (ends_kw [DONE] DONE); [left; reflexivity | reflexivity | discriminate]. }
  destruct (want_toks DONE pH xdone tl AH Htl) as (pI & EI & SI & AI & _).
  { apply (peek_lit_kw DONE pH _ _ _ AH). reflexivity. }
  pose proof SI as ((FnI & FsI & FqI & FoI & FfI) & FeI).
  destruct (popAdd_put (WhileStmt (Some (tnode c (tbg ctm))) (enodes body))
              (PSeq dos) d st p pI) as (p' & E' & R' & T' & V' & Er' & N' & P'); auto.
  { apply (held_still p pH pI); auto. }
  { rewrite FsI, SH, FsF, SD. unfold pB, pA. psimpl. rewrite Fs, Hst. reflexivity. }
  exists p'. split; [|split; [|split; [|split; [|exact P']]]].
  - cbn [command].
    rewrite (run_bind (got COMMENT) _ p false p)
      by (apply got_false, Hpk; discriminate).
    unfold orM.
    rewrite (run_bind _ _ p false p)
      by (rewrite (run_bind (got (TRune NL)) _ p false p)
            by (apply got_false, Hpk; discriminate);
          apply got_false, Hpk; discriminate).
    rewrite (run_bind (got LPAREN) _ p false p) by (apply got_false, Hpk; discriminate).
    rewrite (run_bind (got LBRACE) _ p false p) by (apply got_false, Hpk; discriminate).
    rewrite (run_bind (got IF) _ p false p) by (apply got_false, Hpk; discriminate).
    rewrite (run_bind (got WHILE) _ p true p1 E1).
    rewrite (run_bind newOne _ p1 cond pA eq_refl).
    rewrite (run_bind newSeq _ pA dos pB eq_refl).
    rewrite ED.
    rewrite (run_bind (want DO) _ pD tt pF EF).
    rewrite EH.
    rewrite (run_bind (want DONE) _ pH tt pI EI).
    rewrite (run_bind (loadOne cond) _ pI (Some (tnode c (tbg ctm))) pI)
      by (unfold loadOne, gets; rewrite FoI, OH, FoF, NthD;
          [reflexivity | rewrite FoF; lia]).
    rewrite (run_bind (loadSeq dos) _ pI (enodes body) pI)
      by (unfold loadSeq, gets; rewrite FqI, NthH; reflexivity).
    exact E'.
  - apply (at_toks_heap pI); auto.
  - rewrite Er', FeI, ErH, FeF, ErD. exact Fe.
  - rewrite N', FnI, NH, FnF, ND. exact Fn.
Qed.

Lemma flat_map_words ws : flat_map arg_pieces (map AWord ws) = flat_map word_pieces ws.
Proof. induction ws as [|w ws IH]; [reflexivity|]. cbn [map flat_map arg_pieces]. congruence. Qed.

Lemma wf_words ws : Forall (fun w => wf_arg (AWord w)) ws -> Forall wf_arg (map AWord ws).
Proof. induction 1; cbn [map]; constructor; auto. Qed.

(** The words of a [for] statement, and the [;] or the newline that
    ends them. *)
Lemma wordList_words : forall ws m p a st cnt tk sp tl,
  avars (map AWord ws) + 3 <= m -> Forall (fun w => wf_arg (AWord w)) ws ->
  tk = SEMICOLON \/ tk = TRune NL ->
  at_toks p (map p_tok (flat_map word_pieces ws) ++ (tk, "", sp) :: tl) -> tl <> [] ->
  stack p = PSeq a :: st -> a < length (seqs p) ->
  exists p',
    wordList_loop (length ws + S m) cnt p = Done ((cnt + Z.of_nat (length ws))%Z, p')
    /\ at_toks p' tl /\ err p' = err p /\ name p' = name p
    /\ grew a (map word_node ws) p p'.
Proof.
  induction ws as [|w ws IH]; intros m p a st cnt tk sp tl Hm Hws Htk Ha Htl Hst Hlt.
  - cbn [flat_map map app length plus] in *.
    pose proof Ha as Ha0. destruct Ha0 as (Tp & Vp & _).
    assert (Hg : exists p', orM (got SEMICOLON) (got (TRune NL)) p = Done (true, p')
                            /\ still p p' /\ at_toks p' tl).
    { destruct (got_toks tk p _ tl Ha Htl (peek_same tk p Tp)) as (p' & E & S & A & _).
      exists p'. split; [|auto]. unfold orM. destruct Htk as [->| ->].
      - rewrite (run_bind (got SEMICOLON) _ p true p' E). reflexivity.
      - rewrite (run_bind (got SEMICOLON) _ p false p); [exact E|].
        apply got_false, peek_other; rewrite Tp; discriminate. }
    destruct Hg as (p' & E & S & A). exists p'.
    split; [|split; [exact A | split; [apply S | split; [apply S|]]]].
    + cbn [wordList_loop]. unfold bind at 1, at_EOF, gets. rewrite Tp.
      rewrite (Token_eqb_neq tk EOF) by (destruct Htk as [->| ->]; discriminate).
      rewrite (run_bind _ _ p true p' E). rewrite Z.add_0_r. reflexivity.
    + apply (grew_still_r a [] p p p'); [apply grew_nil | exact S].
  - inversion Hws as [|? ? Hw Hws']; subst. cbn [wf_arg] in Hw. destruct Hw as (Hw & Hne).
    cbn [map avars arg_vars] in Hm.
    cbn [flat_map] in Ha. rewrite map_app, <- app_assoc in Ha.
    set (rest := map p_tok (flat_map word_pieces ws) ++ (tk, "", sp) :: tl) in *.
    assert (Hnext : after_word rest).
    { unfold rest. rewrite <- flat_map_words. apply args_after; [apply wf_words; exact Hws'|].
      cbn [after_args]. destruct Htk as [->| ->]; split; discriminate. }
    assert (Hpk : forall t, t <> LIT -> t <> EXP -> reservedLits t = "" -> peek t p = false).
    { intros t H1 H2 H3. destruct (word_first p w rest Hw Ha) as [(T & V & _)|(T & _)].
      - apply peek_lit; auto. rewrite H3. exact V.
      - apply peek_other; rewrite T; [congruence | discriminate]. }
    assert (Tne : tok p <> EOF).
    { destruct (word_first p w rest Hw Ha) as [(T & _)|(T & _)]; rewrite T; discriminate. }
    destruct (word_run w (length ws + S m) p (PSeq a) st rest Hw)
      as (p1 & E1 & A1 & Er1 & N1 & _ & G1); auto.
    { lia. }
    cbn [put] in G1. pose proof G1 as ((S1 & L1 & _) & _).
    destruct (IH m p1 a st (cnt + 1)%Z tk sp tl) as (p' & E' & A' & Er' & N' & G'); auto.
    { lia. }
    { rewrite S1. exact Hst. }
    { lia. }
    exists p'. split; [|split; [exact A' | split; [congruence | split; [congruence|]]]].
    + cbn [length plus wordList_loop]. unfold bind at 1, at_EOF, gets.
      rewrite (Token_eqb_neq _ _ Tne).
      rewrite (run_bind _ _ p false p).
      * rewrite (run_bind (word (length ws + S m)) _ p tt p1 E1).
        replace (cnt + Z.of_nat (S (length ws)))%Z
          with (cnt + 1 + Z.of_nat (length ws))%Z by lia.
        exact E'.
      * unfold orM. rewrite (run_bind (got SEMICOLON) _ p false p)
          by (apply got_false, Hpk; [discriminate | discriminate | reflexivity]).
        apply got_false, Hpk; [discriminate | discriminate | reflexivity].
    + change (map word_node (w :: ws)) with ([word_node w] ++ map word_node ws).
      exact (grew_trans a _ _ p p1 p' G1 G').
Qed.

Lemma cmd_TFor n fbl nm ibl ws wtm dbl body ebl :
  loop_ok n ->
  forall p d st cs tm tl,
    wf_tree (TFor fbl nm ibl ws wtm dbl body ebl) ->
    length ws + avars (map AWord ws) + 4 <= n -> eneed body < n ->
    at_toks p (map p_tok (tpieces (TFor fbl nm ibl ws wtm dbl body ebl))
               ++ map p_tok (term_pieces tm) ++ tl) ->
    tcloses (TFor fbl nm ibl ws wtm dbl body ebl) cs tm tl ->
    stack p = d :: st -> slot_free d p ->
    exists p',
      command (S (S n)) cs p = Done (tt, p')
      /\ at_toks p' tl /\ err p' = err p /\ name p' = name p
      /\ put d (tnode (TFor fbl nm ibl ws wtm dbl body ebl) (tbg tm)) p p'.
Proof.
  intros L p d st cs tm tl (Hws & Hwtm & Hbody) Hnw Hnb Ha Hcl Hst Hfree.
  destruct (tcloses_compound _ cs tm tl
              (eq_refl : ends_simple (TFor fbl nm ibl ws wtm dbl body ebl) = false) Hcl)
    as (-> & Htl).
  destruct wtm as [wbl wtk]. destruct nm as [nbl nw]. cbn [fst snd] in *.
  cbn [tpieces tnode term_pieces fst snd] in *. toks_norm Ha.
  cbn [pw p_tok fst snd] in Ha.
  set (wtoks := map p_tok (flat_map word_pieces ws)) in *.
  set (nv := string_of_runes nw) in *.
  set (xin := (LIT, "in", negb (is_nil ibl)) : tokn) in *.
  set (xtm := (wtk, "", negb (is_nil wbl)) : tokn) in *.
  set (xdo := (LIT, "do", negb (is_nil dbl)) : tokn) in *.
  set (xdone := (LIT, "done", negb (is_nil ebl)) : tokn) in *.
  assert (Hpk : forall t, t <> LIT -> "for" <> reservedLits t -> peek t p = false).
  { intros t H1 H2. apply (peek_lit_val t p _ _ _ Ha H1 H2). }
  destruct (got_toks FOR p _ _ Ha) as (p1 & E1 & S1 & A1 & _).
  { discriminate. }
  { apply (peek_lit_kw FOR p _ _ _ Ha). reflexivity. }
  pose proof S1 as ((Fn & Fs & Fq & Fo & Ff) & Fe).
  set (wl := length (seqs p1)).
  set (pA := set_seqs (seqs p1 ++ [[]]) p1).
  set (dos := length (seqs pA)).
  set (pB := set_seqs (seqs pA ++ [[]]) pA).
  assert (Hdos : dos = S wl)
    by (unfold dos, pA; psimpl; rewrite length_app; cbn; unfold wl; lia).
  assert (HlB : length (seqs pB) = S (S wl))
    by (unfold pB, pA; psimpl; rewrite !length_app; cbn; unfold wl; lia).
  assert (HB : held p pB).
  { apply held_alloc, held_alloc, (held_still p p p1); [apply held_refl | exact S1]. }
  assert (AB : at_toks pB ((LIT, nv, negb (is_nil nbl)) :: xin
                             :: wtoks ++ xtm :: xdo
                             :: map p_tok (epieces body) ++ xdone :: tl))
    by (apply (at_toks_heap p1); auto).
  destruct (want_toks LIT pB _ _ AB) as (pC & EC & SC & AC & LC).
  { discriminate. }
  { apply peek_same. apply AB. }
  cbn [fst snd] in LC.
  pose proof SC as ((FnC & FsC & FqC & FoC & FfC) & FeC).
  destruct (want_toks IN pC xin _ AC) as (pD & ED & SD & AD & _).
  { destruct (wtoks); discriminate. }
  { apply (peek_lit_kw IN pC _ _ _ AC). reflexivity. }
  pose proof SD as ((FnD & FsD & FqD & FoD & FfD) & FeD).
  set (pE := set_stack (PSeq wl :: stack pD) pD).
  assert (Hm : exists m, n = length ws + S m /\ avars (map AWord ws) + 3 <= m).
  { exists (n - S (length ws)). lia. }
  destruct Hm as (m & Hn1 & Hm3).
  destruct (wordList_words ws m pE wl (stack pD) 0%Z wtk (negb (is_nil wbl))
              (xdo :: map p_tok (epieces body) ++ xdone :: tl))
    as (pF & EF & AF & ErF & NF & GF); auto.
  { discriminate. }
  { unfold pE. psimpl. rewrite FqD, FqC, HlB. lia. }
  pose proof GF as ((SF & LF & MF) & NthF & RF & OF).
  change (stack pE) with (PSeq wl :: stack pD) in SF.
  change (seqs pE) with (seqs pD) in *. change (ones pE) with (ones pD) in *.
  set (pG := set_stack (stack pD) pF).
  assert (HsD : stack pD = d :: st).
  { rewrite FsD, FsC. unfold pB, pA. psimpl. rewrite Fs. exact Hst. }
  assert (HG : held p pG).
  { apply (held_same p pF); [|reflexivity | reflexivity].
    apply (held_grew p pE pF wl (map word_node ws)); [|exact GF|].
    - apply (held_same p pD); [|reflexivity | reflexivity].
      apply (held_still p pC pD); [|exact SD]. apply (held_still p pB pC); auto.
    - unfold wl. rewrite Fq. lia. }
  assert (AG : at_toks pG (xdo :: map p_tok (epieces body) ++ xdone :: tl))
    by (apply (at_toks_heap pF); auto).
  destruct (want_toks DO pG xdo _ AG) as (pH & EH & SH & AH & _).
  { destruct (map p_tok (epieces body)); discriminate. }
  { apply (peek_lit_kw DO pG _ _ _ AG). reflexivity. }
  pose proof SH as ((FnH & FsH & FqH & FoH & FfH) & FeH).
  change (seqs pG) with (seqs pF) in FqH. change (ones pG) with (ones pF) in FoH.
  change (stack pG) with (stack pD) in FsH.
  change (err pG) with (err pF) in FeH. change (name pG) with (name pF) in FnH.
  assert (LD : length (seqs pD) = S (S wl)) by (rewrite FqD, FqC; exact HlB).
  destruct (list_run n [DONE] body p pH dos xdone tl L Hbody Hnb)
    as (pI & EI & AI & ErI & NI & HI & SI & NthI & LI & MI & RI & OI); auto.
  { apply (held_still p pG pH); auto. }
  { rewrite Hdos. unfold wl. rewrite Fq. lia. }
  { rewrite FqH. lia. }
  { rewrite FqH, RF by lia. rewrite FqD, FqC. unfold pB. psimpl. apply nth_fresh. }
  { apply (ends_kw [DONE] DONE); [left; reflexivity | reflexivity | discriminate]. }
  destruct (want_toks DONE pI xdone tl AI Htl) as (pJ & EJ & SJ & AJ & _).
  { apply (peek_lit_kw DONE pI _ _ _ AI). reflexivity. }
  pose proof SJ as ((FnJ & FsJ & FqJ & FoJ & FfJ) & FeJ).
  destruct (popAdd_put (ForStmt (Lit nv) (words_of ws) (enodes body))
              (PSeq dos) d st p pJ) as (p' & E' & R' & T' & V' & Er' & N' & P'); auto.
  { apply (held_still p pI pJ); auto. }
  { rewrite FsJ, SI, FsH. rewrite HsD. reflexivity. }
  assert (Hwl : nth wl (seqs pJ) [] = words_of ws).
  { rewrite FqJ, RI by (rewrite ?FqH; lia). rewrite FqH, NthF.
    rewrite FqD, FqC. unfold pB. psimpl. rewrite app_nth1
      by (unfold pA; psimpl; rewrite length_app; cbn; fold wl; lia).
    unfold pA. psimpl. unfold wl. rewrite nth_fresh. reflexivity. }
  exists p'. split; [|split; [|split; [|split; [|exact P']]]].
  - cbn [command].
    rewrite (run_bind (got COMMENT) _ p false p)
      by (apply got_false, Hpk; discriminate).
    unfold orM.
    rewrite (run_bind _ _ p false p)
      by (rewrite (run_bind (got (TRune NL)) _ p false p)
            by (apply got_false, Hpk; discriminate);
          apply got_false, Hpk; discriminate).
    rewrite (run_bind (got LPAREN) _ p false p) by (apply got_false, Hpk; discriminate).
    rewrite (run_bind (got LBRACE) _ p false p) by (apply got_false, Hpk; discriminate).
    rewrite (run_bind (got IF) _ p false p) by (apply got_false, Hpk; discriminate).
    rewrite (run_bind (got WHILE) _ p false p) by (apply got_false, Hpk; discriminate).
    rewrite (run_bind (got FOR) _ p true p1 E1).
    rewrite (run_bind newSeq _ p1 wl pA eq_refl).
    rewrite (run_bind newSeq _ pA dos pB eq_refl).
    rewrite (run_bind (want LIT) _ pB tt pC EC).
    rewrite (run_bind (gets lval) _ pC nv pC) by (unfold gets; rewrite LC; reflexivity).
    rewrite (run_bind (want IN) _ pC tt pD ED).
    rewrite (run_bind (push (PSeq wl)) _ pD tt pE eq_refl).
    cbn [wordList]. rewrite Hn1 at 1.
    rewrite (run_bind (wordList_loop (length ws + S m) 0%Z) _ pE _ pF EF).
    rewrite (run_bind pop _ pF tt pG)
      by (unfold pop; rewrite (run_bind (gets stack) _ pF (PSeq wl :: stack pD) pF)
            by (unfold gets; rewrite SF; reflexivity); reflexivity).
    rewrite (run_bind (want DO) _ pG tt pH EH).
    rewrite EI.
    rewrite (run_bind (want DONE) _ pI tt pJ EJ).
    rewrite (run_bind (loadSeq wl) _ pJ (words_of ws) pJ)
      by (unfold loadSeq, gets; rewrite Hwl; reflexivity).
    rewrite (run_bind (loadSeq dos) _ pJ (enodes body) pJ)
      by (unfold loadSeq, gets; rewrite FqJ, NthI; reflexivity).
    exact E'.
  - apply (at_toks_heap pJ); auto.
  - rewrite Er', FeJ, ErI, FeH, ErF. unfold pE. psimpl. rewrite FeD, FeC. exact Fe.
  - rewrite N', FnJ, NI, FnH, NF. unfold pE. psimpl. rewrite FnD, FnC. exact Fn.
Qed.

Definition elif_ok (n : nat) : Prop :=
  forall ls p a st x tl,
    wf_elifs ls -> lneed ls <= n ->
    at_toks p (map p_tok (lpieces ls) ++ x :: tl) ->
    tok_peeks ELIF x = false -> ends_list [FI; ELIF; ELSE] (x :: tl) ->
    stack p = PSeq a :: st -> a < length (seqs p) ->
    exists p',
      elif_loop n p = Done (tt, p')
      /\ at_toks p' (x :: tl) /\ err p' = err p /\ name p' = name p
      /\ grew a (lnodes ls) p p'.

Lemma lpieces_head ls x tl :
  ends_list [FI; ELIF; ELSE] (x :: tl) ->
  exists cx tl', map p_tok (lpieces ls) ++ x :: tl = cx :: tl'
                 /\ ends_list [FI; ELIF; ELSE] (cx :: tl').
Proof.
  intros H. destruct ls as [|ebl c ctm tbl thens ls']; cbn [lpieces map app].
  - eauto.
  - rewrite kw_tok. eexists. eexists. split; [reflexivity|].
    apply (ends_kw _ ELIF); cbn [In]; auto. discriminate.
Qed.

Lemma elif_step n : cmd_ok (S n) -> loop_ok n -> elif_ok (S n) -> elif_ok (S (S n)).
Proof.
  intros C L IH ls p a st x tl Hwf Hn Ha Hx Hend Hst Hlt.
  destruct ls as [|ebl c ctm tbl thens ls']; cbn [wf_elifs lneed lpieces lnodes] in *.
  - cbn [map app] in Ha. exists p.
    split; [|split; [exact Ha | split; [reflexivity | split; [reflexivity | apply grew_nil]]]].
    cbn [elif_loop]. rewrite (run_bind (got ELIF) _ p false p); [reflexivity|].
    apply got_false. destruct x as [[t v] sp]. destruct Ha as (T & V & _).
    rewrite (peek_tok ELIF p sp), T, V. exact Hx.
  - destruct Hwf as (Hc & Hctm & Hthens & Hls').
    pose proof (need_pos c) as Hnp.
    toks_norm Ha.
    destruct (lpieces_head ls' x tl Hend) as (cx & tl' & Etl & Hend').
    rewrite Etl in Ha.
    set (xthen := (LIT, "then", negb (is_nil tbl)) : tokn) in *.
    destruct (got_toks ELIF p _ _ Ha) as (p1 & E1 & S1 & A1 & _).
    { destruct (tree_toks_cons c (map p_tok (term_pieces ctm) ++ xthen
                  :: map p_tok (epieces thens) ++ cx :: tl') Hc) as (y & ts & ->). discriminate. }
    { apply (peek_lit_kw ELIF p _ _ _ Ha). reflexivity. }
    pose proof S1 as ((Fn & Fs & Fq & Fo & Ff) & Fe).
    set (cond := length (ones p1)).
    set (pA := set_ones (ones p1 ++ [None]) p1).
    set (cell := length (seqs pA)).
    set (pB := set_seqs (seqs pA ++ [[]]) pA).
    assert (HB : held p pB).
    { apply held_alloc, held_alloc, (held_still p p p1); [apply held_refl | exact S1]. }
    destruct (cond_run (S n) c ctm p pB cond xthen (map p_tok (epieces thens) ++ cx :: tl'))
      as (pD & ED & AD & ErD & ND & HD & PD); auto.
    { lia. }
    { unfold cond. rewrite Fo. lia. }
    { unfold pB, pA. psimpl. rewrite length_app. cbn. unfold cond. lia. }
    { unfold pB, pA. psimpl. apply nth_fresh. }
    pose proof PD as ((SD & LD & MD) & NthD & QD & OD).
    assert (HcD : cond < length (ones pD)).
    { unfold pB, pA in MD. psimpl. rewrite length_app in MD. cbn in MD. unfold cond. lia. }
    destruct (want_toks THEN pD xthen _ AD) as (pF & EF & SF & AF & _).
    { destruct (map p_tok (epieces thens)); discriminate. }
    { apply (peek_lit_kw THEN pD _ _ _ AD). reflexivity. }
    pose proof SF as ((FnF & FsF & FqF & FoF & FfF) & FeF).
    assert (HlB : length (seqs pB) = S cell)
      by (unfold pB; psimpl; rewrite length_app; cbn; unfold cell; lia).
    destruct (list_run n [FI; ELIF; ELSE] thens p pF cell cx tl' L Hthens)
      as (pH & EH & AH & ErH & NH & HH & SH & NthH & LH & MH & RH & OH); auto.
    { lia. }
    { apply (held_still p pD pF); auto. }
    { unfold cell, pA. psimpl. rewrite Fq. lia. }
    { rewrite FqF. lia. }
    { rewrite FqF, QD by lia. apply nth_fresh. }
    destruct (popAdd_put (Elif (Some (tnode c (tbg ctm))) (enodes thens))
                (PSeq cell) (PSeq a) st p pH) as (pI & EI & RI & TI & VI & ErI & NI & PI); auto.
    { rewrite SH, FsF, SD. unfold pB, pA. psimpl. rewrite Fs, Hst. reflexivity. }
    cbn [put] in PI. pose proof PI as ((SI & LI & _) & _).
    destruct (IH ls' pI a st x tl Hls') as (p' & E' & A' & Er' & N' & G'); auto.
    { lia. }
    { rewrite Etl. apply (at_toks_heap pH); auto. }
    { rewrite SI. exact Hst. }
    { lia. }
    exists p'. split; [|split; [exact A' | split; [|split]]].
    + cbn [elif_loop].
      rewrite (run_bind (got ELIF) _ p true p1 E1).
      rewrite (run_bind newOne _ p1 cond pA eq_refl).
      rewrite (run_bind newSeq _ pA cell pB eq_refl).
      rewrite ED.
      rewrite (run_bind (want THEN) _ pD tt pF EF).
      rewrite EH.
      rewrite (run_bind (loadOne cond) _ pH (Some (tnode c (tbg ctm))) pH)
        by (unfold loadOne, gets; rewrite OH, FoF, NthD;
            [reflexivity | rewrite FoF; lia]).
      rewrite (run_bind (loadSeq cell) _ pH (enodes thens) pH)
        by (unfold loadSeq, gets; rewrite NthH; reflexivity).
      rewrite (run_bind (popAdd _) _ pH tt pI EI).
      exact E'.
    + rewrite Er', ErI, ErH, FeF, ErD. exact Fe.
    + rewrite N', NI, NH, FnF, ND. exact Fn.
    + change (Elif (Some (tnode c (tbg ctm))) (enodes thens) :: lnodes ls')
        with ([Elif (Some (tnode c (tbg ctm))) (enodes thens)] ++ lnodes ls').
      exact (grew_trans a _ _ p pI p' PI G').
Qed.

Lemma nth_fresh3 {A} (l : list A) (x y z d : A) :
  let l3 := ((l ++ [x]) ++ [y]) ++ [z] in
  length l3 = S (S (S (length l)))
  /\ nth (length l) l3 d = x /\ nth (S (length l)) l3 d = y
  /\ nth (S (S (length l))) l3 d = z
  /\ (forall b, b < length l -> nth b l3 d = nth b l d).
Proof.
  cbv zeta. repeat split.
  - rewrite !length_app. cbn. lia.
  - rewrite app_nth1 by (rewrite !length_app; cbn; lia).
    rewrite app_nth1 by (rewrite !length_app; cbn; lia). apply nth_fresh.
  - rewrite app_nth1 by (rewrite !length_app; cbn; lia).
    replace (S (length l)) with (length (l ++ [x])) by (rewrite length_app; cbn; lia).
    apply nth_fresh.
  - replace (S (S (length l))) with (length ((l ++ [x]) ++ [y]))
      by (rewrite !length_app; cbn; lia).
    apply nth_fresh.
  - intros b Hb. rewrite !app_nth1; auto; rewrite ?length_app; cbn; lia.
Qed.

Lemma else_head (ebl : option (list rune)) elses (xfi : tokn) tl :
  xfi = (LIT, "fi", snd xfi) ->
  exists x rest,
    map p_tok match ebl with
              | Some bl => kw bl "else" :: epieces elses
              | None => []
              end ++ xfi :: tl = x :: rest
    /\ tok_peeks ELIF x = false /\ ends_list [FI; ELIF; ELSE] (x :: rest).
Proof.
  intros ->. destruct ebl as [bl|]; cbn [map app]; rewrite ?kw_tok; eexists; eexists;
    (split; [reflexivity|]); (split; [reflexivity|]).
  - apply (ends_kw _ ELSE); cbn [In]; auto. discriminate.
  - apply (ends_kw _ FI); cbn [In]; auto. discriminate.
Qed.

Lemma cmd_TIf n ibl c ctm tbl thens elifs ebl elses fbl :
  cmd_ok (S n) -> loop_ok n -> elif_ok (S n) ->
  forall p d st cs tm tl,
    wf_tree (TIf ibl c ctm tbl thens elifs ebl elses fbl) ->
    need c <= S n -> eneed thens < n -> lneed elifs <= S n -> eneed elses < n ->
    at_toks p (map p_tok (tpieces (TIf ibl c ctm tbl thens elifs ebl elses fbl))
               ++ map p_tok (term_pieces tm) ++ tl) ->
    tcloses (TIf ibl c ctm tbl thens elifs ebl elses fbl) cs tm tl ->
    stack p = d :: st -> slot_free d p ->
    exists p',
      command (S (S n)) cs p = Done (tt, p')
      /\ at_toks p' tl /\ err p' = err p /\ name p' = name p
      /\ put d (tnode (TIf ibl c ctm tbl thens elifs ebl elses fbl) (tbg tm)) p p'.
Proof.
  intros C L EL p d st cs tm tl (Hc & Hctm & Hthens & Helifs & Helses)
    Hnc Hnt Hnl Hne Ha Hcl Hst Hfree.
  destruct (tcloses_compound _ cs tm tl
              (eq_refl : ends_simple (TIf ibl c ctm tbl thens elifs ebl elses fbl) = false)
              Hcl) as (-> & Htl).
  cbn [tpieces tnode term_pieces] in *.
  toks_norm Ha.
  set (xfi := (LIT, "fi", negb (is_nil fbl)) : tokn) in *.
  destruct (else_head ebl elses xfi tl eq_refl) as (x & rest & Ex & Hxe & Hxend).
  rewrite Ex in Ha.
  destruct (lpieces_head elifs x rest Hxend) as (cx & tl' & Etl & Hend').
  pose proof Ha as Ha0. rewrite Etl in Ha.
  set (xthen := (LIT, "then", negb (is_nil tbl)) : tokn) in *.
  assert (Hpk : forall t, t <> LIT -> "if" <> reservedLits t -> peek t p = false).
  { intros t H1 H2. apply (peek_lit_val t p _ _ _ Ha H1 H2). }
  destruct (got_toks IF p _ _ Ha) as (p1 & E1 & S1 & A1 & _).
  { destruct (tree_toks_cons c (map p_tok (term_pieces ctm) ++ xthen
                :: map p_tok (epieces thens) ++ cx :: tl') Hc) as (y & ts & ->). discriminate. }
  { apply (peek_lit_kw IF p _ _ _ Ha). reflexivity. }
  pose proof S1 as ((Fn & Fs & Fq & Fo & Ff) & Fe).
  set (cond := length (ones p1)).
  set (qA := set_ones (ones p1 ++ [None]) p1).
  set (c1 := length (seqs qA)).
  set (qB := set_seqs (seqs qA ++ [[]]) qA).
  set (c2 := length (seqs qB)).
  set (qC := set_seqs (seqs qB ++ [[]]) qB).
  set (c3 := length (seqs qC)).
  set (qD := set_seqs (seqs qC ++ [[]]) qC).
  destruct (nth_fresh3 (seqs p1) [] [] [] ([] : list Node)) as (F0 & F1 & F2 & F3 & F4).
  assert (Hc1 : c1 = length (seqs p1)) by reflexivity.
  assert (Hc2 : c2 = S (length (seqs p1)))
    by (unfold c2, qB, qA; psimpl; rewrite length_app; cbn; lia).
  assert (Hc3 : c3 = S (S (length (seqs p1))))
    by (unfold c3, qC, qB, qA; psimpl; rewrite !length_app; cbn; lia).
  assert (HqD : seqs qD = ((seqs p1 ++ [[]]) ++ [[]]) ++ [[]]) by reflexivity.
  assert (HoD : ones qD = ones p1 ++ [None]) by reflexivity.
  assert (HD : held p qD).
  { apply held_alloc, held_alloc, held_alloc, held_alloc, (held_still p p p1);
      [apply held_refl | exact S1]. }
  destruct (cond_run (S n) c ctm p qD cond xthen (map p_tok (epieces thens) ++ cx :: tl'))
    as (pE & EE & AE & ErE & NE & HE & PE); auto.
  { unfold cond. rewrite Fo. lia. }
  { rewrite HoD, length_app. cbn. unfold cond. lia. }
  { rewrite HoD. apply nth_fresh. }
  pose proof PE as ((SE & LE & ME) & NthE & QE & OE).
  rewrite HqD, F0 in LE. rewrite HqD in QE.
  assert (HcE : cond < length (ones pE)).
  { rewrite HoD, length_app in ME. cbn in ME. unfold cond. lia. }
  destruct (want_toks THEN pE xthen _ AE) as (pF & EF & SF & AF & _).
  { destruct (map p_tok (epieces thens)); discriminate. }
  { apply (peek_lit_kw THEN pE _ _ _ AE). reflexivity. }
  pose proof SF as ((FnF & FsF & FqF & FoF & FfF) & FeF).
  destruct (list_run n [FI; ELIF; ELSE] thens p pF c1 cx tl' L Hthens Hnt)
    as (pH & EH & AH & ErH & NH & HH & SH & NthH & LH & MH & RH & OH); auto.
  { apply (held_still p pE pF); auto. }
  { rewrite Hc1, Fq. lia. }
  { rewrite FqF. lia. }
  { rewrite FqF, QE by (rewrite F0; lia). rewrite Hc1. exact F1. }
  rewrite FqF in LH, RH. rewrite FoF in MH, OH.
  assert (HsH : stack pH = PSeq c1 :: d :: st).
  { rewrite SH, FsF, SE. unfold qD, qC, qB, qA. psimpl. rewrite Fs, Hst. reflexivity. }
  set (pI := set_stack (d :: st) pH).
  set (pJ := set_stack (PSeq c2 :: d :: st) pI).
  destruct (EL elifs pJ c2 (d :: st) x rest Helifs Hnl)
    as (pK & EK & AK & ErK & NK & GK); auto.
  { rewrite Etl. apply (at_toks_heap pH); auto. }
  { unfold pJ, pI. psimpl. lia. }
  pose proof GK as ((SK & LK & MK) & NthK & RK & OK).
  change (seqs pJ) with (seqs pH) in *. change (ones pJ) with (ones pH) in *.
  change (stack pJ) with (PSeq c2 :: d :: st) in SK.
  change (err pJ) with (err pH) in ErK. change (name pJ) with (name pH) in NK.
  assert (HK : held p pK).
  { apply (held_grew p pJ pK c2 (lnodes elifs)); [|exact GK|].
    - apply (held_same p pH); [exact HH | reflexivity | reflexivity].
    - rewrite Hc2, Fq. lia. }
  (* the cells after the [elif] parts *)
  assert (VK : nth cond (ones pK) None = Some (tnode c (tbg ctm))
               /\ nth c1 (seqs pK) [] = enodes thens
               /\ nth c2 (seqs pK) [] = lnodes elifs
               /\ nth c3 (seqs pK) [] = []).
  { split; [|split; [|split]].
    - rewrite OK by lia. rewrite OH by lia. exact NthE.
    - rewrite RK by lia. exact NthH.
    - rewrite NthK, RH by lia. rewrite QE by (rewrite F0; lia). rewrite Hc2, F2. reflexivity.
    - rewrite RK by lia. rewrite RH by lia. rewrite QE by (rewrite F0; lia).
      rewrite Hc3. exact F3. }
  destruct VK as (V0 & V1 & V2 & V3).
  (* the rule up to the [else] part *)
  assert (Ehead : forall k : M unit,
            command (S (S n)) cs p
            = (b <- got ELSE ;;
               (if b then pop ;; push (PSeq c3) ;; commands (S n) [FI] ;; ret tt
                else ret tt) ;;
               want FI ;;
               c0 <- loadOne cond ;; t <- loadSeq c1 ;;
               ei <- loadSeq c2 ;; el <- loadSeq c3 ;;
               popAdd (IfStmt c0 t ei el)) pK).
  { intros _. cbn [command].
    rewrite (run_bind (got COMMENT) _ p false p)
      by (apply got_false, Hpk; discriminate).
    unfold orM.
    rewrite (run_bind _ _ p false p)
      by (rewrite (run_bind (got (TRune NL)) _ p false p)
            by (apply got_false, Hpk; discriminate);
          apply got_false, Hpk; discriminate).
    rewrite (run_bind (got LPAREN) _ p false p) by (apply got_false, Hpk; discriminate).
    rewrite (run_bind (got LBRACE) _ p false p) by (apply got_false, Hpk; discriminate).
    rewrite (run_bind (got IF) _ p true p1 E1).
    rewrite (run_bind newOne _ p1 cond qA eq_refl).
    rewrite (run_bind newSeq _ qA c1 qB eq_refl).
    rewrite (run_bind newSeq _ qB c2 qC eq_refl).
    rewrite (run_bind newSeq _ qC c3 qD eq_refl).
    rewrite EE.
    rewrite (run_bind (want THEN) _ pE tt pF EF).
    rewrite EH.
    rewrite (run_bind pop _ pH tt pI)
      by (unfold pop; rewrite (run_bind (gets stack) _ pH (PSeq c1 :: d :: st) pH)
            by (unfold gets; rewrite HsH; reflexivity); reflexivity).
    rewrite (run_bind (push (PSeq c2)) _ pI tt pJ eq_refl).
    rewrite (run_bind (elif_loop (S n)) _ pJ tt pK EK).
    reflexivity. }
  rewrite (Ehead (ret tt)). clear Ehead.
  assert (ErK' : err pK = err p).
  { rewrite ErK, ErH, FeF, ErE. exact Fe. }
  assert (NK' : name pK = name p).
  { rewrite NK, NH, FnF, NE. exact Fn. }
  destruct ebl as [bl|].
  - (* with an [else] part *)
    cbn [map app] in Ex. rewrite kw_tok in Ex.
    inversion Ex; subst x rest. clear Ex.
    destruct (got_toks ELSE pK _ _ AK) as (pL & EL' & SL & AL & _).
    { destruct (map p_tok (epieces elses)); discriminate. }
    { apply (peek_lit_kw ELSE pK _ _ _ AK). reflexivity. }
    pose proof SL as ((FnL & FsL & FqL & FoL & FfL) & FeL).
    set (pM := set_stack (d :: st) pL).
    destruct (list_run n [FI] elses p pM c3 xfi tl L Helses Hne)
      as (pN & EN & AN & ErN & NN & HN & SN & NthN & LN & MN & RN & ON); auto.
    { apply (held_same p pL); [|reflexivity | reflexivity]. apply (held_still p pK pL); auto. }
    { rewrite Hc3, Fq. lia. }
    { unfold pM. psimpl. rewrite FqL. lia. }
    { unfold pM. psimpl. rewrite FqL. exact V3. }
    { apply (ends_kw [FI] FI); [left; reflexivity | reflexivity | discriminate]. }
    change (seqs pM) with (seqs pL) in *. change (ones pM) with (ones pL) in *.
    change (stack pM) with (d :: st) in SN.
    change (err pM) with (err pL) in ErN. change (name pM) with (name pL) in NN.
    rewrite FqL in LN, RN. rewrite FoL in MN, ON.
    destruct (want_toks FI pN xfi tl AN Htl) as (pO & EO & SO & AO & _).
    { apply (peek_lit_kw FI pN _ _ _ AN). reflexivity. }
    pose proof SO as ((FnO & FsO & FqO & FoO & FfO) & FeO).
    destruct (popAdd_put (IfStmt (Some (tnode c (tbg ctm))) (enodes thens) (lnodes elifs)
                            (enodes elses))
                (PSeq c3) d st p pO) as (p' & E' & R' & T' & V' & Er' & N' & P'); auto.
    { apply (held_still p pN pO); auto. }
    { rewrite FsO, SN. reflexivity. }
    exists p'. split; [|split; [|split; [|split; [|exact P']]]].
    + rewrite (run_bind (got ELSE) _ pK true pL EL').
      rewrite (run_bind _ _ pL tt pN).
      2:{ rewrite (run_bind pop _ pL tt pM)
            by (unfold pop; rewrite (run_bind (gets stack) _ pL (PSeq c2 :: d :: st) pL)
                  by (unfold gets; rewrite FsL, SK; reflexivity); reflexivity).
          rewrite EN. reflexivity. }
      rewrite (run_bind (want FI) _ pN tt pO EO).
      rewrite (run_bind (loadOne cond) _ pO (Some (tnode c (tbg ctm))) pO)
        by (unfold loadOne, gets; rewrite FoO, ON by lia; rewrite V0; reflexivity).
      rewrite (run_bind (loadSeq c1) _ pO (enodes thens) pO)
        by (unfold loadSeq, gets; rewrite FqO, RN by lia; rewrite V1; reflexivity).
      rewrite (run_bind (loadSeq c2) _ pO (lnodes elifs) pO)
        by (unfold loadSeq, gets; rewrite FqO, RN by lia; rewrite V2; reflexivity).
      rewrite (run_bind (loadSeq c3) _ pO (enodes elses) pO)
        by (unfold loadSeq, gets; rewrite FqO, NthN; reflexivity).
      exact E'.
    + apply (at_toks_heap pO); auto.
    + rewrite Er', FeO, ErN, FeL. exact ErK'.
    + rewrite N', FnO, NN, FnL. exact NK'.
  - (* without *)
    destruct elses; [|contradiction]. cbn [enodes].
    cbn [map app] in Ex. inversion Ex; subst x rest. clear Ex.
    destruct (want_toks FI pK xfi tl AK Htl) as (pO & EO & SO & AO & _).
    { apply (peek_lit_kw FI pK _ _ _ AK). reflexivity. }
    pose proof SO as ((FnO & FsO & FqO & FoO & FfO) & FeO).
    destruct (popAdd_put (IfStmt (Some (tnode c (tbg ctm))) (enodes thens) (lnodes elifs) [])
                (PSeq c2) d st p pO) as (p' & E' & R' & T' & V' & Er' & N' & P'); auto.
    { apply (held_still p pK pO); auto. }
    { rewrite FsO, SK. reflexivity. }
    exists p'. split; [|split; [|split; [|split; [|exact P']]]].
    + rewrite (run_bind (got ELSE) _ pK false pK)
        by (apply got_false, (peek_lit_val ELSE pK _ _ _ AK); discriminate).
      rewrite (run_bind (ret tt) _ pK tt pK eq_refl).
      rewrite (run_bind (want FI) _ pK tt pO EO).
      rewrite (run_bind (loadOne cond) _ pO (Some (tnode c (tbg ctm))) pO)
        by (unfold loadOne, gets; rewrite FoO, V0; reflexivity).
      rewrite (run_bind (loadSeq c1) _ pO (enodes thens) pO)
        by (unfold loadSeq, gets; rewrite FqO, V1; reflexivity).
      rewrite (run_bind (loadSeq c2) _ pO (lnodes elifs) pO)
        by (unfold loadSeq, gets; rewrite FqO, V2; reflexivity).
      rewrite (run_bind (loadSeq c3) _ pO [] pO)
        by (unfold loadSeq, gets; rewrite FqO, V3; reflexivity).
      exact E'.
    + apply (at_toks_heap pO); auto.
    + rewrite Er', FeO. exact ErK'.
    + rewrite N', FnO. exact NK'.
Qed.

(** A comment is a statement of its own. *)
Lemma cmd_TCom n bl s p d st cs tm tl :
  at_toks p (map p_tok (tpieces (TCom bl s)) ++ map p_tok (term_pieces tm) ++ tl) ->
  tcloses (TCom bl s) cs tm tl ->
  stack p = d :: st -> slot_free d p ->
  exists p',
    command (S n) cs p = Done (tt, p')
    /\ at_toks p' tl /\ err p' = err p /\ name p' = name p
    /\ put d (tnode (TCom bl s) (tbg tm)) p p'.
Proof.
  intros Ha Hcl Hst Hfree.
  destruct (tcloses_compound _ cs tm tl (eq_refl : ends_simple (TCom bl s) = false) Hcl)
    as (-> & Htl).
  cbn [tpieces tnode map p_tok term_pieces app] in *.
  pose proof Ha as (Tp & _).
  destruct (got_toks COMMENT p _ tl Ha Htl (peek_same COMMENT p Tp))
    as (p1 & E1 & S1 & A1 & L1).
  cbn [fst snd] in L1.
  pose proof S1 as ((Fn & Fs & Fq & Fo & Ff) & Fe).
  destruct (add_put (Comment (string_of_runes (kept_text s))) d st p p1)
    as (p' & E' & R' & T' & V' & Er' & N' & P'); auto.
  { apply (held_still p p p1); [apply held_refl | exact S1]. }
  { rewrite Fs. exact Hst. }
  exists p'. split; [|split; [|split; [congruence | split; [congruence | exact P']]]].
  - cbn [command]. rewrite (run_bind (got COMMENT) _ p true p1 E1).
    rewrite (run_bind (gets lval) _ p1 _ p1 eq_refl). rewrite L1. exact E'.
  - apply (at_toks_heap p1); auto.
Qed.

(** The declaration of a function: the word before [()] is read as the
    first word of a command and dropped; the name is the last token of
    the word; the body is one statement. *)
Lemma cmd_TFun n f pbl cbl body :
  cmd_ok n ->
  forall p d st cs tm tl,
    wf_tree (TFun f pbl cbl body) -> length (w_vars f) + 3 <= n -> need body <= n ->
    at_toks p (map p_tok (tpieces (TFun f pbl cbl body))
               ++ map p_tok (term_pieces tm) ++ tl) ->
    tcloses (TFun f pbl cbl body) cs tm tl ->
    stack p = d :: st -> slot_free d p ->
    exists p',
      command (S n) cs p = Done (tt, p')
      /\ at_toks p' tl /\ err p' = err p /\ name p' = name p
      /\ put d (tnode (TFun f pbl cbl body) (tbg tm)) p p'.
Proof.
  intros C p d st cs tm tl Hwf Hn Hnb Ha Hcl Hst Hfree.
  cbn [wf_tree tpieces tnode] in *.
  destruct Hwf as ((Hf & Hstart) & Hid & Hy).
  rewrite map_app in Ha. cbn [map p_tok] in Ha. rewrite <- app_assoc in Ha. cbn [app] in Ha.
  set (tmt := map p_tok (term_pieces tm)) in *.
  set (ytoks := map p_tok (tpieces body) ++ tmt ++ tl) in *.
  assert (Hyt : ytoks <> []).
  { unfold ytoks. destruct (tree_toks_cons body (tmt ++ tl) Hy) as (x & ts & ->).
    discriminate. }
  set (after := (LPAREN, "", negb (is_nil pbl)) :: (RPAREN, "", negb (is_nil cbl)) :: ytoks)
    in *.
  assert (Haft : after_word after) by (right; right; split; discriminate).
  assert (Hno : forall t, In t [COMMENT; TRune NL; LPAREN; LBRACE; IF; WHILE; FOR] ->
            peek t p = false).
  { intros t Ht. destruct (word_first p f after Hf Ha) as [(T & V & v & Ev & Vv)|(T & Ev)].
    - rewrite Ev in Hstart. destruct Hstart as (V1 & V2 & V3). rewrite <- Vv in *.
      cbn [In] in Ht.
      repeat (destruct Ht as [<-|Ht]; [apply peek_lit; [exact T | discriminate|];
                                        cbn [reservedLits]; congruence|]).
      contradiction.
    - cbn [In] in Ht.
      repeat (destruct Ht as [<-|Ht]; [apply peek_other; rewrite T; discriminate|]).
      contradiction. }
  assert (Hwd : peek LIT p || peek EXP p = true).
  { destruct (word_first p f after Hf Ha) as [(T & _)|(T & _)].
    - rewrite (peek_same LIT p T). reflexivity.
    - rewrite (peek_same EXP p T). apply orb_true_r. }
  set (args := length (seqs p)).
  set (p1 := set_seqs (seqs p ++ [[]]) p).
  set (p2 := set_stack (PSeq args :: stack p) p1).
  assert (Hl2 : length (seqs p2) = S args)
    by (unfold p2, p1; psimpl; rewrite length_app; cbn; unfold args; lia).
  assert (H2 : held p p2) by (apply (held_newSeq p p), held_refl).
  destruct (word_run f n p2 (PSeq args) (stack p) after Hf)
    as (p3 & E3 & A3 & Er3 & N3 & Lv3 & G3);
    auto; try lia; try (cbn [slot_free]; lia).
  cbn [put] in G3. pose proof G3 as ((S3 & L3 & M3) & Nth3 & R3 & O3).
  change (stack p2) with (PSeq args :: stack p) in S3.
  change (err p2) with (err p) in Er3. change (name p2) with (name p) in N3.
  assert (H3 : held p p3).
  { apply (held_grew p p2 p3 args [word_node f]); [exact H2 | exact G3 | unfold args; lia]. }
  destruct (got_op_toks LPAREN p3 _ _ A3) as (p4 & E4 & S4 & A4); [discriminate|].
  pose proof A4 as (T4 & _).
  destruct (want_toks RPAREN p4 _ ytoks A4 Hyt (peek_same RPAREN p4 T4))
    as (p5 & E5 & S5 & A5 & _).
  pose proof (still_trans _ _ _ S4 S5) as ((Fn & Fs & Fq & Fo & Ff) & Fe).
  set (yy := length (ones p5)).
  set (p6 := set_ones (ones p5 ++ [None]) p5).
  set (p7 := set_stack (POne yy :: stack p5) p6).
  assert (A7 : at_toks p7 ytoks) by (apply (at_toks_heap p5); auto).
  assert (Hcl7 : tcloses body [] tm tl).
  { apply (tcloses_inner body cs tm tl (TFun f pbl cbl body)); auto.
    intros (f0 & r0 & H0). discriminate H0. }
  assert (Hfree7 : slot_free (POne yy) p7).
  { cbn [slot_free]. unfold p7, p6. psimpl. rewrite length_app. cbn [length].
    split; [unfold yy; lia | apply nth_fresh]. }
  destruct (C body p7 (POne yy) (stack p5) [] tm tl Hy Hnb (Forall_nil _) A7 Hcl7 eq_refl
              Hfree7) as (p8 & E8 & A8 & Er8 & N8 & P8).
  cbn [put] in P8. pose proof P8 as ((S8 & L8 & M8) & Nth8 & Q8 & O8).
  change (stack p7) with (POne yy :: stack p5) in S8.
  set (p9 := set_stack (stack p5) p8).
  assert (H9 : held p p9).
  { apply (held_same p p8); [|reflexivity | reflexivity].
    apply (held_filled p p7 p8 yy (tnode body (tbg tm))); [|exact P8|].
    - apply (held_same p p6); [|reflexivity | reflexivity].
      apply (held_trans p p5); [|apply held_newOne, held_refl].
      apply (held_same p p3); auto.
    - unfold yy. rewrite Fo. destruct H3 as (_ & M4 & _). exact M4. }
  destruct (popAdd_put (FuncDecl (Lit (word_last f)) (Some (tnode body (tbg tm))))
              (PSeq args) d st p p9) as (p' & E' & R' & T' & V' & Er' & N' & P'); auto.
  { unfold p9. psimpl. rewrite Fs, S3, Hst. reflexivity. }
  exists p'. split; [|split; [|split; [|split; [|exact P']]]].
  - cbn [command].
    rewrite (run_bind (got COMMENT) _ p false p) by (apply got_false, Hno; cbn; auto).
    unfold orM.
    rewrite (run_bind _ _ p false p)
      by (rewrite (run_bind (got (TRune NL)) _ p false p)
            by (apply got_false, Hno; cbn; auto);
          apply got_false, Hno; cbn; auto).
    rewrite (run_bind (got LPAREN) _ p false p) by (apply got_false, Hno; cbn; auto).
    rewrite (run_bind (got LBRACE) _ p false p) by (apply got_false, Hno; cbn; auto 10).
    rewrite (run_bind (got IF) _ p false p) by (apply got_false, Hno; cbn; auto 10).
    rewrite (run_bind (got WHILE) _ p false p) by (apply got_false, Hno; cbn; auto 10).
    rewrite (run_bind (got FOR) _ p false p) by (apply got_false, Hno; cbn; auto 10).
    unfold bind at 1, gets. rewrite Hwd.
    rewrite (run_bind newSeq _ p args p1 eq_refl).
    rewrite (run_bind (push (PSeq args)) _ p1 tt p2 eq_refl).
    rewrite (run_bind (word n) _ p2 tt p3 E3).
    rewrite (run_bind (gets lpos) _ p3 (lpos p3) p3 eq_refl).
    rewrite (run_bind (gets lval) _ p3 (word_last f) p3)
      by (unfold gets; rewrite Lv3; reflexivity).
    rewrite (run_bind (got LPAREN) _ p3 true p4 E4). cbv iota.
    rewrite (run_bind (want RPAREN) _ p4 tt p5 E5).
    rewrite Hid. cbn [negb].
    rewrite (run_bind (ret tt) _ p5 tt p5 eq_refl).
    rewrite (run_bind newOne _ p5 yy p6 eq_refl).
    rewrite (run_bind (push (POne yy)) _ p6 tt p7 eq_refl).
    rewrite (run_bind (command n []) _ p7 tt p8 E8).
    rewrite (run_bind pop _ p8 tt p9)
      by (unfold pop; rewrite (run_bind (gets stack) _ p8 (POne yy :: stack p5) p8)
            by (unfold gets; rewrite S8; reflexivity); reflexivity).
    rewrite (run_bind (loadOne yy) _ p9 (Some (tnode body (tbg tm))) p9)
      by (unfold loadOne, gets, p9; psimpl; rewrite Nth8; reflexivity).
    exact E'.
  - apply (at_toks_heap p8); auto.
  - change (err p7) with (err p5) in Er8. unfold p9 in *. psimpl. congruence.
  - change (name p7) with (name p5) in N8. unfold p9 in *. psimpl. congruence.
Qed.

Lemma lneed_pos ls : 1 <= lneed ls.
Proof. destruct ls; cbn [lneed]; lia. Qed.

Lemma elif_ok_1 : elif_ok 1.
Proof.
  intros ls p a st x tl Hwf Hn Ha Hx Hend Hst Hlt.
  destruct ls as [|ebl c ctm tbl thens ls']; cbn [lneed lpieces lnodes] in *; [|lia].
  cbn [map app] in Ha. exists p.
  split; [|split; [exact Ha | split; [reflexivity | split; [reflexivity | apply grew_nil]]]].
  cbn [elif_loop]. rewrite (run_bind (got ELIF) _ p false p); [reflexivity|].
  apply got_false. destruct x as [[t v] sp]. destruct Ha as (T & V & _).
  rewrite (peek_tok ELIF p sp), T, V. exact Hx.
Qed.

(** The rules on well-formed statements, for every fuel. *)
Lemma rules_on_trees : forall n, cmd_ok n /\ loop_ok n /\ elif_ok n.
Proof.
  induction n as [n IH] using lt_wf_ind.
  assert (C : forall m, m < n -> cmd_ok m) by (intros m Hm; apply (IH m Hm)).
  assert (L : forall m, m < n -> loop_ok m) by (intros m Hm; apply (IH m Hm)).
  assert (E : forall m, m < n -> elif_ok m) by (intros m Hm; apply (IH m Hm)).
  split; [|split].
  - intros t p d st cs tm tl Hwf Hn Hcs Ha Hcl Hst Hfree.
    destruct t as [s|f rest obl op y|bl y|obl body cbl|obl body cbl
                   |ibl c ctm tbl thens elifs ebl elses fbl
                   |wbl c ctm dbl body ebl|fbl nm ibl ws wtm dbl body ebl
                   |f pbl cbl body|bl s];
      cbn [need] in Hn.
    + apply (cmd_TCmd n s p d st cs tm tl); auto.
    + pose proof (need_pos y). unfold cmd_size in Hn.
      replace n with ((n - length rest - 3) + length rest + 3) by lia.
      assert (Hk : n - length rest - 3 < n) by lia.
      apply (cmd_TOp (n - length rest - 3) f rest obl op y (C _ Hk) p d st); auto.
      unfold cmd_size. lia.
    + destruct n as [|k]; [lia|].
      apply (cmd_TNl k bl y (C k (Nat.lt_succ_diag_r k)) p d st); auto. lia.
    + destruct n as [|[|k]]; try lia.
      assert (Hk : k < S (S k)) by lia.
      apply (cmd_TSub k obl body cbl (L k Hk) p d st); auto. lia.
    + destruct n as [|[|k]]; try lia.
      assert (Hk : k < S (S k)) by lia.
      apply (cmd_TBlk k obl body cbl (L k Hk) p d st); auto. lia.
    + pose proof (need_pos c). pose proof (lneed_pos elifs).
      destruct n as [|[|k]]; try lia.
      assert (Hk : k < S (S k)) by lia.
      apply (cmd_TIf k ibl c ctm tbl thens elifs ebl elses fbl
               (C (S k) (Nat.lt_succ_diag_r _)) (L k Hk) (E (S k) (Nat.lt_succ_diag_r _))
               p d st); auto; lia.
    + pose proof (need_pos c).
      destruct n as [|[|k]]; try lia.
      assert (Hk : k < S (S k)) by lia.
      apply (cmd_TWhile k wbl c ctm dbl body ebl
               (C (S k) (Nat.lt_succ_diag_r _)) (L k Hk) p d st); auto; lia.
    + destruct n as [|[|k]]; try lia.
      assert (Hk : k < S (S k)) by lia.
      apply (cmd_TFor k fbl nm ibl ws wtm dbl body ebl (L k Hk) p d st); auto; lia.
    + destruct n as [|k]; [lia|].
      apply (cmd_TFun k f pbl cbl body (C k (Nat.lt_succ_diag_r k)) p d st cs tm tl);
        auto; lia.
    + destruct n as [|k]; [lia|].
      apply (cmd_TCom k bl s p d st cs tm tl); auto.
  - destruct n as [|k].
    + intros es p a st cs stop cnt tl _ Hn. lia.
    + apply loop_step; [apply C | apply L]; lia.
  - destruct n as [|[|k]].
    + intros ls p a st x tl _ Hn. pose proof (lneed_pos ls). lia.
    + exact elif_ok_1.
    + apply elif_step; [apply C | apply L | apply E]; lia.
Qed.

(** ** The fuel of [Parse] on the text of statements *)

Lemma length_kw bl s ps :
  length (text_of (kw bl s :: ps)) = length bl + String.length s + length (text_of ps).
Proof.
  rewrite length_text_cons. unfold kw. cbn [p_text]. rewrite length_app.
  assert (H : forall s, length (list_ascii_of_string s) = String.length s)
    by (induction s0; cbn; congruence).
  rewrite H. reflexivity.
Qed.

Lemma length_op bl t ps :
  length (text_of (PO bl t :: ps)) = length bl + length (op_text t) + length (text_of ps).
Proof. rewrite length_text_cons. cbn [p_text]. rewrite length_app. reflexivity. Qed.

Lemma length_text_nil : length (text_of []) = 0.
Proof. reflexivity. Qed.

Ltac len_norm :=
  repeat first [ rewrite length_kw | rewrite length_op | rewrite text_of_app
               | rewrite length_app | rewrite length_text_nil ];
  cbn [String.length length op_text].

Lemma need_text :
  (forall t, wf_tree t -> need t <= 6 * length (text_of (tpieces t)))
  /\ (forall es, forall cs stop, wf_elems cs stop es ->
        eneed es <= 6 * length (text_of (epieces es)))
  /\ (forall ls, wf_elifs ls -> lneed ls <= 6 * length (text_of (lpieces ls)) + 1).
Proof.
  apply tree_elems_ind.
  - intros s Hwf. cbn [need tpieces]. apply size_text. exact Hwf.
  - intros f rest obl op y IH (Hf & Hrest & _ & Hop & Hy). cbn [need tpieces].
    rewrite text_of_app, length_app, length_op.
    pose proof (cmd_size_text f rest Hf Hrest).
    pose proof (IH Hy). unfold rune in *. lia.
  - intros bl y IH (_ & Hy). cbn [need tpieces]. len_norm.
    pose proof (IH Hy). unfold rune in *. lia.
  - intros obl body IH cbl (_ & _ & _ & Hb). cbn [need tpieces]. len_norm.
    pose proof (IH _ _ Hb). unfold rune in *. lia.
  - intros obl body IH cbl (_ & _ & _ & Hb). cbn [need tpieces]. len_norm.
    pose proof (IH _ _ Hb). unfold rune in *. lia.
  - intros ibl c IHc ctm tbl thens IHt elifs IHl ebl elses IHe fbl
      (Hc & _ & Ht & Hl & He).
    cbn [need tpieces]. len_norm.
    pose proof (IHc Hc). pose proof (IHt _ _ Ht). pose proof (IHl Hl).
    assert (Hel : eneed elses
                  <= 6 * length (text_of match ebl with
                                         | Some bl => kw bl "else" :: epieces elses
                                         | None => []
                                         end)).
    { destruct ebl as [bl|].
      - rewrite length_kw. pose proof (IHe _ _ He). unfold rune in *. lia.
      - destruct elses; [cbn; lia | contradiction]. }
    unfold rune in *. lia.
  - intros wbl c IHc ctm dbl body IHb ebl (Hc & _ & Hb).
    cbn [need tpieces]. len_norm.
    pose proof (IHc Hc). pose proof (IHb _ _ Hb). unfold rune in *. lia.
  - intros fbl nm ibl ws wtm dbl body IHb ebl (Hws & _ & Hb).
    cbn [need tpieces]. rewrite length_kw, length_text_cons. len_norm.
    pose proof (args_len (map AWord ws) (wf_words ws Hws)) as Hl.
    rewrite flat_map_words, length_map in Hl. pose proof (IHb _ _ Hb).
    unfold rune in *. lia.
  - intros f pbl cbl body IH ((Hf & _) & _ & Hb). cbn [need tpieces].
    rewrite text_of_app, length_app. len_norm.
    pose proof (word_len f Hf). pose proof (IH Hb). unfold rune in *. lia.
  - intros bl s _. cbn [need tpieces]. rewrite length_text_cons. cbn [p_text].
    rewrite length_app. cbn [length]. lia.
  - intros cs stop _. cbn. lia.
  - intros t IHt tm es IHe cs stop (Ht & _ & _ & He). cbn [eneed epieces].
    len_norm.
    pose proof (IHt Ht). pose proof (IHe _ _ He). unfold rune in *. lia.
  - intros _. cbn. lia.
  - intros ebl c IHc ctm tbl thens IHt ls IHl (Hc & _ & Ht & Hl).
    cbn [lneed lpieces]. len_norm.
    pose proof (IHc Hc). pose proof (IHt _ _ Ht). pose proof (IHl Hl).
    unfold rune in *. lia.
Qed.

(** X10: printing and parsing, with compound commands.  A statement is
    a chain of simple commands as above ([TCmd]); a simple command, one
    of [&&], [||] and [|], and a statement ([TOp]); a newline and a
    statement ([TNl]); a subshell [( ... )] or a block [{ ... }] around a
    list of statements that is not empty; [if c then ... elif c then ...
    else ... fi], [while c do ... done] and [for name in words ; do ...
    done]; the declaration of a function, a word, [()] and a statement
    ([TFun]), where the last token of the word matches [identRe] and is
    the name; a comment, from [#] to the end of its line ([TCom]), whose
    node holds the runes that [readUntil] keeps.  A declaration ends as
    its body does; nothing follows a comment but its newline.  In a list, a statement that ends with a simple command is
    followed by [;], a newline or [&]; this token may be left out after
    the last statement of the program and after a simple command that is
    the last statement of a subshell, and nowhere else; no such token
    follows a statement that ends with a compound command.  A statement of
    a list does not start with a word that ends the list ([fi], [elif],
    [else], [done]).  For every such program whose pieces are scanned as
    written ([lex_ok]: a word is followed by a blank, an operator rune or
    the end of the input, and a single [&], [|] or [>] is not followed by
    the same rune), [Parse] of the text returns no error and the tree of
    the program: [Subshell], [Block], [IfStmt] with its [Elif]s,
    [WhileStmt], [ForStmt], [FuncDecl] and [Comment] nodes over the nodes
    of their statements. *)
Theorem Parse_of_compound_text (es : elems) (tb : list rune) (nm : string) :
  wf_elems [] [] es -> lex_ok (epieces es) tb -> blanks tb ->
  Parse (source (string_of_runes (text_of (epieces es) ++ tb))) nm
  = Done ({| Stmts := enodes es |}, None).
Proof.
  intros Hes Hok Htb.
  set (ps := epieces es) in *.
  set (buf := text_of ps ++ tb).
  set (rd := source (string_of_runes buf)).
  assert (Hrd : rd_buf rd = buf)
    by (unfold rd, source, reader_of, string_of_runes; cbn [rd_buf];
        apply list_ascii_of_string_of_list_ascii).
  set (p0 := set_stack [PSeq 0] (new_parser rd nm)).
  assert (Hlex : lexes (TRune rune0) buf
                   (map p_tok ps ++ [(EOF, "EOF", negb (is_nil tb))])).
  { apply lexes_pieces; auto. discriminate. }
  destruct (map p_tok ps ++ [(EOF, "EOF", negb (is_nil tb))]) as [|[[t v] sp] ts] eqn:Ets.
  { destruct (map p_tok ps); discriminate. }
  assert (A0 : at_stream p0 (TRune rune0) "" ((t, v, sp) :: ts)).
  { unfold at_stream. repeat split; auto. change (rd_buf (r p0)) with (rd_buf rd).
    rewrite Hrd. exact Hlex. }
  destruct (next_at p0 _ _ t v sp ts A0) as (p1 & E1 & ((Fn & Fs & Fq & Fo & Ff) & Fe) & A1 & _).
  assert (Hfuel : eneed es + 2 <= fuel_for rd).
  { unfold fuel_for. rewrite Hrd. unfold buf. rewrite length_app.
    destruct need_text as (_ & H & _). pose proof (H es _ _ Hes) as H1. fold ps in H1.
    unfold rune in *. lia. }
  destruct (fuel_for rd) as [|n] eqn:Ef; [lia|].
  destruct (rules_on_trees n) as (_ & L & _).
  destruct (L es p1 0 [] [] [] 0%Z [(EOF, "EOF", negb (is_nil tb))] Hes)
    as (p2 & E2 & A2 & Er2 & N2 & ((S2 & _) & Nth2 & _)); auto.
  { lia. }
  { fold ps. rewrite Ets. exact A1. }
  { cbn [ends_list]. left. reflexivity. }
  { rewrite Fq. cbn. lia. }
  unfold Parse, Parse_fuel. rewrite Ef.
  change (push (PSeq 0) ;; next ;; program (S n))
    with (bind (push (PSeq 0)) (fun _ => bind next (fun _ => program (S n)))).
  rewrite (run_bind (push (PSeq 0)) _ (new_parser rd nm) tt p0 eq_refl).
  rewrite (run_bind next _ p0 tt p1 E1).
  unfold program. cbn [commands].
  rewrite (run_bind (commands_loop n [] [] 0%Z) _ p1 _ p2 E2).
  unfold ret, prog. rewrite Nth2, Fq, Er2, Fe. reflexivity.
Qed.

(** ** The stack across a rule *)

(** The stack that a rule leaves: [binaryExpr] is entered with the
    argument list of its left operand on top, and pops it. *)
Definition stack_after (ru : rule) (st : list slot) : list slot :=
  match ru with
  | RbinaryExpr _ _ => tl st
  | _ => st
  end.

Lemma run_ret_inv {A} (m : M A) p p' :
  (m ;; ret tt) p = Done (tt, p') -> exists a, m p = Done (a, p').
Proof.
  unfold bind, ret. destruct (m p) as [[a p1]| |]; intros E; inversion E; subst. eauto.
Qed.

Lemma wpx_run XP XF {A} (m : M A) p (Q : A -> parser -> Prop) a p' :
  wpx XP XF m p Q -> m p = Done (a, p') -> Q a p'.
Proof. unfold wpx. intros H E. rewrite E in H. exact H. Qed.

(** X2: every grammar rule, entered with a destination on the stack,
    returns with the stack as it found it ([binaryExpr], which is entered
    with the argument list of its left operand on top, pops that entry),
    and leaves no more unread input than it found. *)
Theorem rules_leave_the_stack (ru : rule) (fuel : nat) (p : parser) :
  good p -> ready ru p -> enough fuel p ->
  exists p', run_rule fuel ru p = Done (tt, p')
             /\ stack p' = stack_after ru (stack p)
             /\ buffered p' <= buffered p.
Proof.
  intros G R F.
  destruct (rule_returns ru fuel p G R F) as (p' & E & _ & _ & _ & M).
  exists p'. split; [exact E|]. split.
  - pose proof (rules_safe_all fuel) as SF.
    destruct ru; cbn [run_rule ready stack_after] in *.
    + destruct R as (a & l & Hs). unfold program in E.
      destruct (run_ret_inv _ _ _ E) as (n & E').
      destruct (wpx_run _ _ _ _ _ _ _ (safe_commands _ SF _ a l p Hs) E') as (H & _).
      congruence.
    + destruct R as (s & l & Hs & Hok).
      destruct (wpx_run _ _ _ _ _ _ _ (safe_command _ SF stop s l p Hs Hok) E) as (H & _).
      congruence.
    + destruct R as (a & l & Hs). destruct (run_ret_inv _ _ _ E) as (n & E').
      destruct (wpx_run _ _ _ _ _ _ _ (safe_commands _ SF _ a l p Hs) E') as (H & _).
      congruence.
    + destruct R as (a & l & Hs). destruct (run_ret_inv _ _ _ E) as (n & E').
      destruct (wpx_run _ _ _ _ _ _ _ (safe_commandsLimited _ SF _ a l p Hs) E') as (H & _).
      congruence.
    + destruct R as (s & l & Hs & Hok).
      destruct (wpx_run _ _ _ _ _ _ _ (safe_word _ SF s l p Hs Hok) E) as (H & _).
      congruence.
    + destruct R as (a & l & Hs). destruct (run_ret_inv _ _ _ E) as (n & E').
      destruct (wpx_run _ _ _ _ _ _ _ (safe_wordList _ SF a l p Hs) E') as (H & _).
      congruence.
    + destruct R as (s & l & Hs & Hok). destruct (run_ret_inv _ _ _ E) as (n & E').
      destruct (wpx_run _ _ _ _ _ _ _ (safe_gotRedirect _ SF s l p Hs Hok) E') as (H & _).
      congruence.
    + destruct R as (x & s & l & Hs & Hok).
      destruct (wpx_run _ _ _ _ _ _ _ (safe_binaryExpr _ SF op lhs x s l p Hs Hok) E)
        as (H & _).
      rewrite H, Hs. reflexivity.
  - pose proof (mu_bounds p). pose proof (mu_bounds p'). lia.
Qed.

(** ** The position of a token *)

Lemma kept_pos_readRune x y : pres (fun q => pos q = x /\ lpos q = y) readRune.
Proof.
  intros p a p' H E. destruct (rd_buf (r p)) as [|c t] eqn:Hb.
  - rewrite (readRune_fail p Hb) in E. inversion E; subst.
    unfold st_fail. destruct (rd_fault (r p)); psimpl; exact H.
  - rewrite (readRune_ok c t p Hb) in E. inversion E; subst. exact H.
Qed.

Lemma kept_pos_readOnly x y w : pres (fun q => pos q = x /\ lpos q = y) (readOnly w).
Proof.
  intros p a p' H E.
  unfold readOnly, ReadRune, UnreadRune, bind, gets, modify, moveWith, ret in E.
  destruct (rd_buf (r p)) as [|c t]; psimpl.
  - destruct (Ascii.eqb rune0 w); inversion E; subst; exact H.
  - destruct (Ascii.eqb c w); inversion E; subst; exact H.
Qed.

Lemma kept_pos_advance x y t v : pres (fun q => pos q = x /\ lpos q = y) (advance t v).
Proof. intros p a p' H E. inversion E; subst. exact H. Qed.

Lemma kept_pos_scan_token x y c :
  reserved c || starters c = true ->
  pres (fun q => pos q = x /\ lpos q = y) (scan_token c).
Proof.
  intros Hc. unfold scan_token. rewrite Hc.
  destruct (Ascii.eqb c "#").
  - apply pres_bind; [|intros s; apply kept_pos_advance].
    apply pres_readLine; [apply kept_pos_readRune | intros w _; apply kept_pos_readOnly].
  - destruct (Ascii.eqb c NL); [apply kept_pos_advance|].
    apply pres_token; [intros w _; apply kept_pos_readOnly | intros; apply kept_pos_advance].
Qed.

Lemma starts_token c :
  reserved c || starters c = true -> space c = false /\ c <> BSLASH.
Proof.
  intros H. destruct c as [[] [] [] [] [] [] [] []]; cbv in H; try discriminate H;
    split; solve [reflexivity | discriminate].
Qed.

Lemma next_done p : exists p', next p = Done (tt, p').
Proof.
  assert (H : wpx False False next p (fun _ _ => True))
    by (apply next_spec; intros; exact I).
  destruct (wpx_done _ _ _ H) as ([] & p' & E & _). eauto.
Qed.

(** * Further properties of the parser *)

(** X1: [Parse] returns a tree and an error slot for every reader and
    every file name: the panics of [unreadRune], [add] and [pop] are never
    reached, and the rules come to an end on every input. *)
Theorem Parse_never_panics (rd : Reader) (nm : string) :
  exists pr e, Parse rd nm = Done (pr, e).
Proof. destruct (Parse_run rd nm) as (p1 & p2 & _ & _ & E & _). eauto. Qed.

(** X3: the error that [Parse] returns is never [io.EOF]; when it is an
    error of the reader, it is the failure of that reader; when it is a
    line error, it carries the file name given to [Parse]. *)
Theorem Parse_error_kinds (rd : Reader) (nm : string) (pr : Prog) (e : error) :
  Parse rd nm = Done (pr, Some e) ->
  match e with
  | io_EOF => False
  | io_fault m => rd_fault rd = Some m
  | lineErr f _ _ => f = nm
  end.
Proof.
  intros H. destruct (Parse_final rd nm) as (p2 & _ & E & _ & (_ & _ & S)).
  rewrite H in E. injection E as _ He. rewrite <- He in S.
  destruct e as [|m|f ps txt]; auto.
Qed.

(** X4: when [Parse] returns no error, the reader ended with [io.EOF] and
    has been read to its end: the rule [program] returned with [EOF] in
    hand and nothing left unread. *)
Theorem Parse_without_error_reads_all (rd : Reader) (nm : string) (pr : Prog) :
  Parse rd nm = Done (pr, None) ->
  rd_fault rd = None
  /\ exists p2,
       (push (PSeq 0) ;; next ;; program (fuel_for rd)) (new_parser rd nm) = Done (tt, p2)
       /\ prog p2 = pr /\ tok p2 = EOF /\ rd_buf (r p2) = [].
Proof.
  intros H. destruct (Parse_final rd nm) as (p2 & R & E & T & (_ & _ & S)).
  rewrite H in E. injection E as Hp He. rewrite <- He in S.
  destruct (S T) as (B & _ & F).
  split; [exact F|]. exists p2. auto.
Qed.

(** X5: a rune that [readRune] has read is given back by [unreadRune]:
    the reader holds it again and the cursor is where it was, the token
    in hand and the error slot being untouched; a second [unreadRune]
    panics, since the reader gives back one rune only. *)
Theorem unreadRune_gives_back (p : parser) (c : rune) (t : list rune) :
  rd_buf (r p) = c :: t ->
  exists p1 p2,
    readRune p = Done ((c, None), p1)
    /\ rd_buf (r p1) = t /\ npos p1 = move_pos (npos p) c
    /\ unreadRune p1 = Done (tt, p2)
    /\ rd_buf (r p2) = c :: t /\ npos p2 = npos p
    /\ tok p2 = tok p /\ err p2 = err p
    /\ unreadRune p2 = Panic "bufio: invalid use of UnreadRune".
Proof.
  intros Hb. eexists _, _.
  split; [exact (readRune_ok c t p Hb)|].
  split; [reflexivity|]. split; [reflexivity|].
  split; [exact (unreadRune_ok c (st_read c t p) eq_refl)|].
  repeat split.
Qed.

(** X6: [readOnly] probes one rune.  When the reader holds the wanted
    rune next, it is consumed and the cursor moves over it.  When it holds
    another rune, nothing is consumed and the cursor stays.  At the end of
    the input, or when the reader fails, a wanted rune other than the zero
    rune is not found, and neither is [EOF] put in hand nor the failure
    latched; the zero rune is found there, and the cursor moves. *)
Theorem readOnly_probes_one_rune (p : parser) (w : rune) :
  (forall t, rd_buf (r p) = w :: t ->
     exists p', readOnly w p = Done (true, p')
                /\ rd_buf (r p') = t /\ npos p' = move_pos (npos p) w)
  /\ (forall c t, rd_buf (r p) = c :: t -> c <> w ->
        exists p', readOnly w p = Done (false, p')
                   /\ rd_buf (r p') = c :: t /\ npos p' = npos p)
  /\ (rd_buf (r p) = [] -> w <> rune0 ->
        exists p', readOnly w p = Done (false, p')
                   /\ tok p' = tok p /\ err p' = err p /\ npos p' = npos p)
  /\ (rd_buf (r p) = [] ->
        exists p', readOnly rune0 p = Done (true, p')
                   /\ tok p' = tok p /\ err p' = err p
                   /\ npos p' = move_pos (npos p) rune0).
Proof.
  split; [|split; [|split]].
  - intros t Hb. rewrite (readOnly_hit w t p Hb). eexists. repeat split.
  - intros c t Hb Hc. rewrite (readOnly_miss w c t p Hb Hc). eexists.
    split; [reflexivity|]. unfold st_probed. psimpl. auto.
  - intros Hb Hw. rewrite (readOnly_end w p Hb Hw). eexists. repeat split.
  - intros Hb. unfold readOnly, ReadRune, bind, gets, modify, moveWith, ret.
    rewrite Hb. cbn [Ascii.eqb Bool.eqb rune0]. eexists. repeat split.
Qed.

(** X7: the position that [next] records for an operator, a comment or a
    newline is the cursor before its first rune, after the blanks, but for
    the newline: its position is column 0 of the line that it starts.  The
    position of the token before is kept in [lpos]. *)
Theorem operator_token_position (p : parser) (bl : list rune) (c : rune) (t : list rune) :
  Forall (fun b => space b = true) bl ->
  rd_buf (r p) = bl ++ c :: t ->
  reserved c || starters c = true ->
  exists p',
    next p = Done (tt, p')
    /\ lpos p' = pos p
    /\ pos p' = (let e := end_pos (npos p) bl in
                 if Ascii.eqb c NL then {| line := line e + 1; col := 0 |} else e).
Proof.
  intros Hbl Hb Hc. destruct (starts_token c Hc) as (Hs & Hbs).
  destruct (next_done p) as (p' & E). exists p'. split; [exact E|].
  rewrite (next_token p bl c t Hbl Hs Hbs Hb) in E.
  destruct (st_tok_facts p bl c t Hb) as (_ & _ & L & P & _).
  cbv zeta in P.
  destruct (kept_pos_scan_token _ _ c Hc _ _ _ (conj P L) E) as (P' & L').
  split; [exact L' | exact P'].
Qed.

(** X8: [next] on a literal, after blanks or none and before the end of
    the input, an operator rune or a blank.  The literal starts with a
    rune that is no blank, operator, brace, hash or backslash; in it, a
    quote opens a segment that the same quote closes, a backslash (but
    between single quotes) takes the rune after it, which is no newline,
    and outside quotes there is no blank or operator; a dollar only occurs
    between single quotes or after a backslash; the quotes are closed at
    its end ([lit_run]).  The token is [LIT] and its value is the text of
    the literal as written, quotes and backslashes included; the token
    it replaces is recorded as the last one, [spaced] tells whether
    blanks came first, the rune after the literal is left unread, the
    position of the token is that of the first rune of the literal and
    the cursor is behind the literal. *)
Theorem next_scans_word (p : parser) (bl w rest : list rune) :
  Forall (fun b => space b = true) bl -> lit_word w -> ends rest ->
  rd_buf (r p) = bl ++ w ++ rest -> rd_fault (r p) = None ->
  exists p',
    next p = Done (tt, p')
    /\ still p p'
    /\ tok p' = LIT /\ val p' = string_of_runes w
    /\ (ltok p', lval p') = last_tok p
    /\ spaced p' = (match bl with [] => false | _ => true end)
    /\ rd_buf (r p') = rest
    /\ lpos p' = pos p /\ pos p' = end_pos (npos p) bl
    /\ npos p' = end_pos (npos p) (bl ++ w).
Proof. apply next_lit_word. Qed.

(** X11: [readUntilWant] for the closing brace of [${...}].  On a text
    without a closing brace followed by one, it returns the runes kept of
    the text ([kept_text]: of two equal runes [&&], [||] or [>>] the
    second is read and not kept), reads the brace and leaves what follows
    it, with the cursor behind the brace; the token in hand, its position
    and the error slot are as they were.  When the input ends before a
    closing brace it returns the runes kept all the same, puts [EOF] in
    hand and latches the error "unexpected token EOF - wanted }" at the
    cursor, which is the end of the input. *)
Theorem readUntilWant_reads_to_brace (p : parser) (s tail : list rune) :
  ~ In "}"%char s -> match tail with [] => True | d :: _ => d = "}"%char end ->
  rd_buf (r p) = s ++ tail -> rd_fault (r p) = None ->
  exists p',
    readUntilWant RBRACE p = Done (string_of_runes (kept_text s), p')
    /\ frame p p' /\ rd_buf (r p') = tl tail
    /\ npos p' = end_pos (npos p) (s ++ firstn 1 tail)
    /\ match tail with
       | [] =>
           tok p' = EOF
           /\ err p' = match err p with
                       | None => Some (lineErr (name p) (npos p')
                                         (wanted_text EOF (Token_String RBRACE)))
                       | Some e => Some e
                       end
       | _ => same_tok p p' /\ err p' = err p /\ pos p' = pos p
       end.
Proof.
  intros Hin Htl Hb Hf.
  destruct (readUntil_text RBRACE "}"%char p s tail) as (p1 & E1 & R1); auto.
  { left. split; reflexivity. }
  destruct R1 as ((F & Er) & Sp & P & L & N & B & T).
  unfold readUntilWant. rewrite (run_bind (readUntil RBRACE) _ p _ p1 E1). cbn [fst snd].
  destruct tail as [|d tl0]; cbn [is_nil negb] in *.
  - destruct T as (T1 & T2).
    unfold errWanted, errWantedStr, curErr, posErr, errPass, setEOF, advance, bind, modify,
      gets, ret.
    eexists. split; [reflexivity|]. psimpl. rewrite T1. cbn [Token_eqb]. psimpl.
    destruct F as (F1 & F2 & F3 & F4 & F5).
    unfold frame, wanted_text. psimpl. rewrite Er, F1.
    repeat match goal with |- _ /\ _ => split end; auto.
  - exists p1. split; [reflexivity|]. repeat split; auto; try apply F; apply T.
Qed.

(** X12: [next] on a comment, after blanks or none.  The token is
    [COMMENT]; its value is what [readUntil] keeps of the runes between
    the hash and the end of the line ([kept_text]); the newline is read
    with the comment and is no token of its own.  A comment that the end
    of the input ends is a [COMMENT] token as well: the [EOF] that the
    read puts in hand is replaced.  The position of the token is that of
    the hash. *)
Theorem next_scans_comment (p : parser) (bl s tail : list rune) :
  Forall (fun b => space b = true) bl -> ~ In NL s ->
  match tail with [] => True | d :: _ => d = NL end ->
  rd_buf (r p) = bl ++ "#"%char :: s ++ tail -> rd_fault (r p) = None ->
  exists p',
    next p = Done (tt, p') /\ still p p'
    /\ tok p' = COMMENT /\ val p' = string_of_runes (kept_text s)
    /\ (ltok p', lval p') = last_tok p
    /\ spaced p' = negb (is_nil bl)
    /\ rd_buf (r p') = tl tail
    /\ lpos p' = pos p /\ pos p' = end_pos (npos p) bl
    /\ npos p' = end_pos (npos p) (bl ++ "#"%char :: s ++ firstn 1 tail).
Proof. apply next_comment. Qed.

(** X13: an error of [Parse] about the token [EOF], "unexpected token EOF -
    wanted ...", is placed behind the last rune of the input: its position
    is the cursor that [moveWith] reaches from line 1, column 1 over the
    whole input; and the reader ended with [io.EOF], not with a failure.
    This holds for every input and every fresh reader, when the display
    of the tokens tells [EOF] from the other tokens in the texts of the
    errors. *)
Theorem Parse_EOF_error_at_the_end (rd : Reader) (nm : string) (pr : Prog)
    (f : string) (ps : position) (s : string) :
  (forall t s1 s2, wanted_text t s1 = wanted_text EOF s2 -> t = EOF) ->
  (forall t s1 s2, after_text t s1 <> wanted_text EOF s2) ->
  rd_last rd = None ->
  Parse rd nm = Done (pr, Some (lineErr f ps (wanted_text EOF s))) ->
  ps = end_pos (at_pos 1 1) (rd_buf rd) /\ rd_fault rd = None.
Proof.
  intros H1 H2 Hl E.
  destruct (Parse_placed rd nm H1 H2 Hl) as (p2 & E2 & (_ & P)).
  rewrite E in E2. inversion E2 as [[Hp He]].
  unfold at_end in P. rewrite <- He in P. apply P. exists s. reflexivity.
Qed.

End Parser.

(** * The results at given states *)





(** The rule [word] with a semicolon in hand. *)
Lemma C10_word_at_semicolon :
  exists p', word spell in_quotes 2 (state_at "" SEMICOLON None) = Done (tt, p')
             /\ err p' = Some (lineErr "sh" (at_pos 0 0) "unexpected token ; - wanted word")
             /\ slot_holds (PSeq 0) p' = [Word []].
Proof.
  destruct (proj1 (C10_empty_word_is_appended spell in_quotes)
              0 (state_at "" SEMICOLON None) (PSeq 0) [])
    as (p' & E & Er & _ & H).
  - discriminate.
  - discriminate.
  - reflexivity.
  - cbn. lia.
  - exists p'. split; [exact E|]. split; [exact Er | exact H].
Defined.

(** * The further properties at given states and inputs *)

(** [binaryExpr] with the word [b] in hand and the argument list of the
    left operand on top of the stack. *)
Lemma binaryExpr_pops_its_argument_list :
  exists p',
    run_rule spell in_quotes 40 (RbinaryExpr LAND (cmd ["a"]))
      (set_toks (TRune rune0) LIT "" "b"
         (set_seqs [[]; []] (set_stack [PSeq 1; PSeq 0] (state_at "" EOF None))))
    = Done (tt, p')
    /\ stack p' = [PSeq 0].
Proof.
  destruct (rules_leave_the_stack spell in_quotes (RbinaryExpr LAND (cmd ["a"])) 40
              (set_toks (TRune rune0) LIT "" "b"
                 (set_seqs [[]; []] (set_stack [PSeq 1; PSeq 0] (state_at "" EOF None)))))
    as (p' & E & S & _).
  - intros H. exfalso. apply H. reflexivity.
  - exists (PSeq 1), (PSeq 0), []. split; [reflexivity | exact I].
  - unfold enough. vm_compute. lia.
  - exists p'. split; [exact E | exact S].
Defined.

(** A reader that fails at once: the error is its failure. *)
Lemma failing_reader_error :
  rd_fault (reader_of "" (Some "boom")) = Some "boom".
Proof.
  apply (Parse_error_kinds spell in_quotes (reader_of "" (Some "boom")) "sh"
           {| Stmts := [] |} (io_fault "boom")).
  vm_compute. reflexivity.
Defined.

(** [echo hi] parses without error, and is read to its end. *)
Lemma echo_hi_is_read_to_the_end :
  rd_fault (source "echo hi") = None
  /\ exists p2,
       (push (PSeq 0) ;; next spell ;; program spell in_quotes (fuel_for (source "echo hi")))%parser
         (new_parser (source "echo hi") "sh") = Done (tt, p2)
       /\ prog p2 = {| Stmts := [cmd ["echo"; "hi"]] |}
       /\ tok p2 = EOF /\ rd_buf (r p2) = [].
Proof.
  apply (Parse_without_error_reads_all spell in_quotes (source "echo hi") "sh").
  vm_compute. reflexivity.
Defined.

(** Reading and giving back the first rune of [ab]. *)
Lemma unread_a_rune :
  exists p1 p2,
    readRune (new_parser (source "ab") "sh") = Done (("a"%char, None), p1)
    /\ rd_buf (r p1) = ["b"%char] /\ npos p1 = at_pos 1 2
    /\ unreadRune p1 = Done (tt, p2)
    /\ rd_buf (r p2) = ["a"; "b"]%char /\ npos p2 = at_pos 1 1.
Proof.
  destruct (unreadRune_gives_back (new_parser (source "ab") "sh") "a"%char ["b"%char])
    as (p1 & p2 & E1 & B1 & N1 & E2 & B2 & N2 & _).
  - reflexivity.
  - exists p1, p2. repeat split; assumption.
Defined.

(** Probing for [&] before [&b]. *)
Lemma probe_for_ampersand :
  exists p', readOnly "&"%char (new_parser (source "&b") "sh") = Done (true, p')
             /\ rd_buf (r p') = ["b"%char] /\ npos p' = at_pos 1 2.
Proof.
  destruct (proj1 (readOnly_probes_one_rune (new_parser (source "&b") "sh") "&"%char)
              ["b"%char]) as (p' & E & B & N).
  - reflexivity.
  - exists p'. repeat split; assumption.
Defined.

(** The newline after two blanks on the first line is at line 2,
    column 0. *)
Lemma newline_token_position :
  exists p', next spell (new_parser (source "  
a") "sh") = Done (tt, p')
             /\ pos p' = at_pos 2 0.
Proof.
  destruct (operator_token_position spell (new_parser (source "  
a") "sh") [" "; " "]%char NL ["a"%char])
    as (p' & E & _ & P).
  - repeat constructor.
  - reflexivity.
  - reflexivity.
  - exists p'. split; [exact E | exact P].
Defined.

(** The scan of a literal with a quoted blank and an escaped semicolon. *)
Lemma scan_of_quoted_word :
  exists p', next spell (new_parser (source "  'a b'\;c d") "sh") = Done (tt, p')
             /\ tok p' = LIT /\ val p' = "'a b'\;c"
             /\ rd_buf (r p') = [" "; "d"]%char
             /\ pos p' = at_pos 1 3 /\ npos p' = at_pos 1 11.
Proof.
  destruct (next_scans_word spell (new_parser (source "  'a b'\;c d") "sh")
              [" "; " "]%char (list_ascii_of_string "'a b'\;c") [" "; "d"]%char)
    as (p' & E & _ & T & V & _ & _ & B & _ & P & N).
  - repeat constructor.
  - repeat split; try discriminate; reflexivity.
  - reflexivity.
  - reflexivity.
  - reflexivity.
  - exists p'. repeat split; assumption.
Defined.

(** The text [a $x && b >out ;echo if 'c d'$y <in] and its tree. *)
Lemma parse_of_a_printed_program :
  Parse spell in_quotes (source "a $x && b >out ;echo if 'c d'$y <in") "sh"
  = Done ({| Stmts :=
              [BinaryExpr
                 (Some (Command [litWord "a"; Word [Lit "$x"]] false)) LAND
                 (Some (Command [litWord "b"; Redirect RDROUT (Some (litWord "out"))] false));
               Command [litWord "echo"; litWord "if"; Word [Lit "'c d'"; Lit "$y"];
                        Redirect RDRIN (Some (litWord "in"))] false] |}, None).
Proof.
  pose (sp := [" "%char]).
  pose (w := fun (bl : list rune) (s : string) =>
               {| w_bl := bl; w_lit := Some (list_ascii_of_string s); w_vars := [] |}).
  pose (x := {| w_bl := sp; w_lit := None; w_vars := [["x"%char]] |}).
  pose (cy := {| w_bl := sp; w_lit := Some (list_ascii_of_string "'c d'");
                 w_vars := [["y"%char]] |}).
  apply (Parse_of_statement_text spell in_quotes
           [(Binary (w [] "a") [AWord x] sp LAND
               (Simple (w sp "b") [ARedir sp RDROUT (w [] "out")]),
             (sp, SEMICOLON))]
           (Some (Simple (w [] "echo") [AWord (w sp "if"); AWord cy; ARedir sp RDRIN (w [] "in")]))
           [] "sh").
  - cbv; repeat (split || apply Forall_cons || apply Forall_nil || discriminate
                 || (left; reflexivity) || (right; left; reflexivity)
                 || (right; right; left; reflexivity)
                 || solve [eauto] || solve [auto 20]).
  - cbv; repeat (split || apply Forall_cons || apply Forall_nil || discriminate
                 || (left; reflexivity) || (right; left; reflexivity)
                 || (right; right; left; reflexivity)
                 || solve [eauto] || solve [auto 20]).
  - apply Forall_nil.
Defined.

(** The text of an [if] statement with an [else] part and, on the next
    lines, a comment, the declaration of a function and a [for]
    statement, and its tree. *)
Lemma parse_of_compound_commands :
  Parse spell in_quotes (source "if a; then b >o; else ( c ) fi
# x && y
f() { g; }
for i in x $y; do e $i & done") "sh"
  = Done ({| Stmts :=
              [IfStmt (Some (cmd ["a"]))
                 [Command [litWord "b"; Redirect RDROUT (Some (litWord "o"))] false] []
                 [Subshell [cmd ["c"]]];
               Comment " x & y";
               FuncDecl (Lit "f") (Some (Block [cmd ["g"]]));
               ForStmt (Lit "i") [litWord "x"; Word [Lit "$y"]]
                 [Command [litWord "e"; Word [Lit "$i"]] true]] |}, None).
Proof.
  pose (sp := [" "%char]).
  pose (l := fun (bl : list rune) (s : string) => (bl, list_ascii_of_string s) : lword).
  pose (w := fun (bl : list rune) (s : string) =>
               {| w_bl := bl; w_lit := Some (list_ascii_of_string s); w_vars := [] |}).
  pose (v := fun (s : string) =>
               {| w_bl := sp; w_lit := None; w_vars := [list_ascii_of_string s] |}).
  pose (one := fun (bl : list rune) (s : string) => TCmd (Simple (w bl s) [])).
  apply (Parse_of_compound_text spell in_quotes
           (ECons
              (TIf [] (one sp "a") (Some ([], SEMICOLON)) sp
                 (ECons (TCmd (Simple (w sp "b") [ARedir sp RDROUT (w [] "o")]))
                    (Some ([], SEMICOLON)) ENil)
                 LNil
                 (Some sp)
                 (ECons (TSub sp (ECons (one sp "c") None ENil) sp) None ENil)
                 sp)
              None
              (ECons (TNl [] (TCom [] (list_ascii_of_string " x && y"))) None
                 (ECons
                    (TFun (w [] "f") [] []
                       (TBlk sp (ECons (one sp "g") (Some ([], SEMICOLON)) ENil) sp))
                    None
                    (ECons
                       (TNl []
                          (TFor [] (l sp "i") sp [w sp "x"; v "y"] ([], SEMICOLON) sp
                             (ECons (TCmd (Simple (w sp "e") [AWord (v "i")]))
                                (Some (sp, AND)) ENil)
                             sp))
                       None ENil))))
           [] "sh").
  - cbv; repeat (split || apply Forall_cons || apply Forall_nil || discriminate
                 || (left; reflexivity) || (right; left; reflexivity)
                 || (right; right; left; reflexivity)
                 || solve [eauto] || solve [auto 20]).
  - cbv; repeat (split || apply Forall_cons || apply Forall_nil || discriminate
                 || (left; reflexivity) || (right; left; reflexivity)
                 || (right; right; left; reflexivity)
                 || solve [intuition discriminate]
                 || solve [eauto] || solve [auto 20]).
  - apply Forall_nil.
Defined.

(** The text of [${a&&b}] after the brace that opens it: the second [&]
    is not kept. *)
Lemma brace_text_is_read :
  exists p',
    readUntilWant spell RBRACE (new_parser (source "a&&b}c") "sh") = Done ("a&b", p')
    /\ rd_buf (r p') = ["c"%char] /\ npos p' = at_pos 1 6 /\ err p' = None.
Proof.
  destruct (readUntilWant_reads_to_brace spell (new_parser (source "a&&b}c") "sh")
              (list_ascii_of_string "a&&b") (list_ascii_of_string "}c"))
    as (p' & E & _ & B & N & _ & Er & _).
  - cbv. intuition discriminate.
  - reflexivity.
  - reflexivity.
  - reflexivity.
  - exists p'. repeat split; assumption.
Defined.

(** The scan of a comment that the end of the input ends. *)
Lemma scan_of_last_comment :
  exists p', next spell (new_parser (source " # a || b") "sh") = Done (tt, p')
             /\ tok p' = COMMENT /\ val p' = " a | b"
             /\ rd_buf (r p') = [] /\ pos p' = at_pos 1 2.
Proof.
  destruct (next_scans_comment spell (new_parser (source " # a || b") "sh")
              [" "%char] (list_ascii_of_string " a || b") [])
    as (p' & E & _ & T & V & _ & _ & B & _ & P & _).
  - repeat constructor.
  - cbv. intuition discriminate.
  - exact I.
  - reflexivity.
  - reflexivity.
  - exists p'. repeat split; assumption.
Defined.

(** The display [spell] tells [EOF] from the other tokens. *)
Lemma spell_wanted_EOF t s1 s2 :
  wanted_text spell t s1 = wanted_text spell EOF s2 -> t = EOF.
Proof.
  unfold wanted_text. intros H. cbn [append] in H.
  repeat match type of H with String _ _ = String _ _ => injection H as _ H end.
  destruct t; try reflexivity; cbn in H; discriminate H.
Qed.

Lemma spell_after_EOF t s1 s2 : after_text spell t s1 <> wanted_text spell EOF s2.
Proof.
  unfold wanted_text, after_text. intros H. cbn [append] in H.
  repeat match type of H with String _ _ = String _ _ => injection H as _ H end.
  destruct t; cbn in H; discriminate H.
Qed.

(** The subshell that is left open in [( a] is reported at line 1,
    column 4. *)
Lemma open_subshell_error :
  at_pos 1 4 = end_pos (at_pos 1 1) (rd_buf (source "( a"))
  /\ rd_fault (source "( a") = None.
Proof.
  apply (Parse_EOF_error_at_the_end spell in_quotes (source "( a") "sh"
           {| Stmts := [Subshell [cmd ["a"]]] |} "sh" (at_pos 1 4) ")").
  - apply spell_wanted_EOF.
  - apply spell_after_EOF.
  - reflexivity.
  - vm_compute. reflexivity.
Defined.
